(** * Hybrid GA for task scheduling: a shallow embedding of the optimiser

    The Python sources embedded here are [ga_fitness.py], [ga_crossover.py],
    [ga_mutation.py], [ga_local_search.py], [ga_simulated_annealing.py],
    [ga_selection.py], [ga_initialization.py], [ga_main.py] (the fitness
    cache, [evolve_population] and [validate_schedule]) and [ga_island.py]
    (ring migration).

    Conventions of the embedding.
    - Python [float]s are exact rationals ([Qc]) extended with the two
      infinities and NaN ([pyfloat]); rounding is not modelled.  Python
      raises [ZeroDivisionError] on a float division by zero, and so does
      the model.
    - Python exceptions are the [Raise] results of an error monad.
    - The ambient [random] module is an explicit source of raw draws that
      every randomised operation threads through.
    - Dictionaries are [gmap]s; solutions are lists of
      [(task_id, student_id, start_time)] tuples. *)

From Stdlib Require Import QArith Qcanon Lqa.
From stdpp Require Import gmap strings list fin_maps numbers sorting.

#[local] Set Warnings "-clear-no-such-hyp".

Local Open Scope Qc_scope.

(** ** Python values *)

Inductive exn :=
  KeyError | IndexError | ValueError | ZeroDivisionError | AttributeError.

Inductive result (A : Type) :=
  | Ok (a : A)
  | Raise (e : exn).
Arguments Ok {A} a.
Arguments Raise {A} e.

Definition rbind {A B} (m : result A) (k : A → result B) : result B :=
  match m with
  | Ok a => k a
  | Raise e => Raise e
  end.

Global Instance result_ret : MRet result := @Ok.
Global Instance result_bind : MBind result := λ A B k m, rbind m k.

Definition is_ok {A} (r : result A) : bool :=
  match r with Ok _ => true | Raise _ => false end.

(** [foldlM]: a [for] loop whose body may raise. *)
Fixpoint for_each {A S} (body : S → A → result S) (l : list A) (s : S) : result S :=
  match l with
  | [] => Ok s
  | x :: l' => s' ← body s x ; for_each body l' s'
  end.

Fixpoint mapM {A B} (f : A → result B) (l : list A) : result (list B) :=
  match l with
  | [] => Ok []
  | x :: l' => y ← f x ; ys ← mapM f l' ; Ok (y :: ys)
  end.

(** Floats: finite rationals, [float('inf')], [-inf] and NaN. *)
Inductive pyfloat := Fin (q : Qc) | PInf | NInf | NaN.

Global Instance pyfloat_eq_dec : EqDecision pyfloat.
Proof. solve_decision. Defined.

Definition Qc_ltb (x y : Qc) : bool := bool_decide (x < y).
Definition Qc_eqb (x y : Qc) : bool := bool_decide (x = y).
Definition Qc_leb (x y : Qc) : bool := bool_decide (x ≤ y).

(** [x < y] on floats: false as soon as a NaN is involved. *)
Definition flt (x y : pyfloat) : bool :=
  match x, y with
  | NaN, _ | _, NaN => false
  | Fin a, Fin b => Qc_ltb a b
  | NInf, NInf => false
  | NInf, _ => true
  | _, NInf => false
  | PInf, _ => false
  | Fin _, PInf => true
  end.

Definition fgt (x y : pyfloat) : bool := flt y x.

(** [x <= y] on floats. *)
Definition fle (x y : pyfloat) : bool :=
  match x, y with
  | NaN, _ | _, NaN => false
  | Fin a, Fin b => negb (Qc_ltb b a)
  | NInf, _ => true
  | _, PInf => true
  | _, NInf => false
  | PInf, _ => false
  end.

Definition fneg (x : pyfloat) : pyfloat :=
  match x with
  | Fin a => Fin (- a)
  | PInf => NInf
  | NInf => PInf
  | NaN => NaN
  end.

Definition fadd (x y : pyfloat) : pyfloat :=
  match x, y with
  | NaN, _ | _, NaN => NaN
  | Fin a, Fin b => Fin (a + b)
  | PInf, NInf | NInf, PInf => NaN
  | PInf, _ | _, PInf => PInf
  | NInf, _ | _, NInf => NInf
  end.

Definition fsub (x y : pyfloat) : pyfloat := fadd x (fneg y).

Definition sign_inf (pos : bool) : pyfloat := if pos then PInf else NInf.

Definition fmul (x y : pyfloat) : pyfloat :=
  match x, y with
  | NaN, _ | _, NaN => NaN
  | Fin a, Fin b => Fin (a * b)
  | Fin a, PInf | PInf, Fin a =>
      if Qc_eqb a 0 then NaN else sign_inf (Qc_ltb 0 a)
  | Fin a, NInf | NInf, Fin a =>
      if Qc_eqb a 0 then NaN else sign_inf (Qc_ltb a 0)
  | PInf, PInf | NInf, NInf => PInf
  | PInf, NInf | NInf, PInf => NaN
  end.

(** [x / y]: Python raises on a zero divisor whatever the dividend is. *)
Definition fdiv (x y : pyfloat) : result pyfloat :=
  match y with
  | Fin b =>
      if Qc_eqb b 0 then Raise ZeroDivisionError
      else match x with
           | Fin a => Ok (Fin (a / b))
           | PInf => Ok (sign_inf (Qc_ltb 0 b))
           | NInf => Ok (sign_inf (Qc_ltb b 0))
           | NaN => Ok NaN
           end
  | NaN => Ok NaN
  | PInf | NInf =>
      match x with
      | Fin _ => Ok (Fin 0)
      | _ => Ok NaN
      end
  end.

(** Division of two finite floats. *)
Definition qdiv (a b : Qc) : result Qc :=
  if Qc_eqb b 0 then Raise ZeroDivisionError else Ok (a / b).

Definition Qc_of_nat (n : nat) : Qc := Qc_of_Z (Z.of_nat n).

(** The float literal [n/d]. *)
Definition qc (n : Z) (d : positive) : Qc := Q2Qc (n # d).

(** [sum(...)]: left to right from 0. *)
Definition py_sum (l : list Qc) : Qc := foldl Qcplus 0 l.

Definition Qc_max (a b : Qc) : Qc := if Qc_ltb a b then b else a.
Definition Qc_min (a b : Qc) : Qc := if Qc_ltb b a then b else a.

(** [max(...)] and [min(...)] of an iterable: [ValueError] when it is empty. *)
Definition py_max (l : list Qc) : result Qc :=
  match l with
  | [] => Raise ValueError
  | x :: l' => Ok (foldl Qc_max x l')
  end.

Definition py_min (l : list Qc) : result Qc :=
  match l with
  | [] => Raise ValueError
  | x :: l' => Ok (foldl Qc_min x l')
  end.

(** [int(x)]: truncation towards zero. *)
Definition py_int (x : Qc) : Z := Z.quot (Qnum x) (Zpos (Qden x)).

(** [round(x)]: to the nearest integer, ties to the even one. *)
Definition py_round (x : Qc) : Z :=
  let n := Qnum x in
  let d := Zpos (Qden x) in
  let f := Z.div n d in
  let r2 := (2 * Z.modulo n d)%Z in
  if (r2 <? d)%Z then f
  else if (d <? r2)%Z then (f + 1)%Z
  else if Z.even f then f else (f + 1)%Z.

(** ** The data model *)

(** A start time is stored either as a float or as the string [str(x)] of
    one; [float(...)] reads both. *)
Inductive pynum := PyFloat (x : Qc) | PyStr (x : Qc).

Definition float (v : pynum) : Qc :=
  match v with PyFloat x | PyStr x => x end.

Definition str (x : Qc) : pynum := PyStr x.

Global Instance pynum_eq_dec : EqDecision pynum.
Proof. solve_decision. Defined.

Global Instance pynum_countable : Countable pynum.
Proof.
  refine (inj_countable'
    (λ v, match v with PyFloat x => inl x | PyStr x => inr x end)
    (λ s, match s with inl x => PyFloat x | inr x => PyStr x end) _).
  by intros [].
Defined.

Record task := Task {
  estimated_time : Qc;
  dependencies : list string;
  skill_requirements : gmap string Qc
}.

Record student := Student {
  skills : gmap string Qc
}.

(** One gene: [(task_id, student_id, start_time)]. *)
Abbreviation assignment := (string * string * pynum)%type.
Abbreviation solution := (list assignment).

Definition task_of (a : assignment) : string := a.1.1.
Definition student_of (a : assignment) : string := a.1.2.
Definition start_of (a : assignment) : pynum := a.2.

(** ** ga_fitness.py *)

Module FitnessCalculator.

(** Control flow inside a function body: fall through, [return v], or
    raise. *)
Inductive outcome (A : Type) :=
  | Next (a : A)
  | Return (v : pyfloat)
  | Throw (e : exn).
Arguments Next {A} a.
Arguments Return {A} v.
Arguments Throw {A} e.

Definition obind {A B} (m : outcome A) (k : A → outcome B) : outcome B :=
  match m with
  | Next a => k a
  | Return v => Return v
  | Throw e => Throw e
  end.

Definition lift {A} (r : result A) : outcome A :=
  match r with Ok a => Next a | Raise e => Throw e end.

Definition finish (o : outcome pyfloat) : result pyfloat :=
  match o with
  | Next v | Return v => Ok v
  | Throw e => Raise e
  end.

Fixpoint loop {A S} (body : S → A → outcome S) (l : list A) (s : S) : outcome S :=
  match l with
  | [] => Next s
  | x :: l' => obind (body s x) (loop body l')
  end.

(** The weights [w1 .. w5] set in [__init__]. *)
Definition w1 : Qc := 1.
Definition w2 : Qc := Qc_of_Z 3.
Definition w3 : Qc := Qc_of_Z 2.
Definition w4 : Qc := 1.
Definition w5 : Qc := Qc_of_Z 4.

(** The four dictionaries filled by the first pass. *)
Record tables := Tables {
  completion_times : gmap string Qc;
  start_times : gmap string Qc;
  student_workloads : gmap string Qc;
  student_timelines : gmap string (list (Qc * Qc))
}.

Definition init_tables (students : gmap string student) : tables :=
  {| completion_times := ∅;
     start_times := ∅;
     student_workloads := (λ _, 0) <$> students;
     student_timelines := (λ _, []) <$> students |}.

(** Body of the first [for task_id, student_id, start_time in solution]. *)
Definition first_pass_step (tasks : gmap string task)
    (t : tables) (a : assignment) : result tables :=
  let '(task_id, student_id, start_time) := a in
  match tasks !! task_id with
  | None => Raise KeyError
  | Some tk =>
      let duration := estimated_time tk in
      let start_time := float start_time in
      let completion_time := start_time + duration in
      match student_workloads t !! student_id with
      | None => Raise KeyError
      | Some w =>
          match student_timelines t !! student_id with
          | None => Raise KeyError
          | Some tl =>
              Ok {| completion_times := <[task_id := completion_time]> (completion_times t);
                    start_times := <[task_id := start_time]> (start_times t);
                    student_workloads := <[student_id := w + duration]> (student_workloads t);
                    student_timelines :=
                      <[student_id := tl ++ [(start_time, completion_time)]]> (student_timelines t) |}
          end
      end
  end.

Definition first_pass (tasks : gmap string task) (students : gmap string student)
    (sol : solution) : result tables :=
  for_each (first_pass_step tasks) sol (init_tables students).

Definition total_task_duration (tasks : gmap string task) : Qc :=
  py_sum (estimated_time <$> (map_to_list tasks).*2).

(** Body of [for dep_id in task['dependencies']]. *)
Definition dep_step (t : tables) (D : Qc) (task_id : string)
    (p_dep : Qc) (dep_id : string) : outcome Qc :=
  match completion_times t !! dep_id with
  | None => Return PInf
  | Some c_dep =>
      match start_times t !! task_id with
      | None => Throw KeyError
      | Some s =>
          if Qc_ltb s c_dep then
            let violation := c_dep - s in
            obind (lift (qdiv violation D)) (λ r,
              Next (p_dep + Qc_of_Z 300 * r))
          else Next p_dep
      end
  end.

Definition dependency_penalty (tasks : gmap string task) (t : tables) (D : Qc)
    : outcome Qc :=
  loop (λ p_dep '(task_id, tk), loop (dep_step t D task_id) (dependencies tk) p_dep)
       (map_to_list tasks) 0.

(** Body of [for skill, required_level in task['skill_requirements'].items()]. *)
Definition skill_step (st : student) (p_skill : Qc) (req : string * Qc) : Qc :=
  let '(skill, required_level) := req in
  let student_level := default 0 (skills st !! skill) in
  if Qc_ltb student_level required_level
  then p_skill + Qc_of_Z 200 * (required_level - student_level)
  else p_skill.

Definition skill_penalty (tasks : gmap string task) (students : gmap string student)
    (sol : solution) : result Qc :=
  for_each (λ p_skill '(task_id, student_id, _),
      match tasks !! task_id with
      | None => Raise KeyError
      | Some tk =>
          match students !! student_id with
          | None => Raise KeyError
          | Some st =>
              Ok (foldl (skill_step st) p_skill (map_to_list (skill_requirements tk)))
          end
      end) sol 0.

(** [timeline.sort()] on [(start, completion)] tuples: lexicographic. *)
Definition interval_le (a b : Qc * Qc) : Prop :=
  a.1 < b.1 ∨ (a.1 = b.1 ∧ a.2 ≤ b.2).

Global Instance interval_le_dec : RelDecision interval_le.
Proof. intros a b. unfold interval_le. apply _. Defined.

Definition sort_timeline (tl : list (Qc * Qc)) : list (Qc * Qc) :=
  merge_sort interval_le tl.

(** [for i in range(len(timeline) - 1)] over one sorted timeline. *)
Fixpoint overlap_timeline (D : Qc) (tl : list (Qc * Qc)) (p_overlap : Qc)
    : result Qc :=
  match tl with
  | a :: ((b :: _) as tl') =>
      if Qc_ltb b.1 a.2 then
        r ← qdiv (a.2 - b.1) D ;
        overlap_timeline D tl' (p_overlap + Qc_of_Z 400 * r)
      else overlap_timeline D tl' p_overlap
  | _ => Ok p_overlap
  end.

Definition overlap_penalty (t : tables) (D : Qc) : result Qc :=
  for_each (λ p_overlap '(_, timeline),
              overlap_timeline D (sort_timeline timeline) p_overlap)
           (map_to_list (student_timelines t)) 0.

Definition workload_penalty (students : gmap string student) (t : tables) (D : Qc)
    : result pyfloat :=
  let workloads := (map_to_list (student_workloads t)).*2 in
  max_workload ← py_max workloads ;
  min_workload ← py_min workloads ;
  avg_workload ← qdiv D (Qc_of_nat (size students)) ;
  if Qc_eqb avg_workload 0 then Ok PInf
  else r ← qdiv (Qc_of_Z 100 * (max_workload - min_workload)) avg_workload ;
       Ok (Fin r).

Definition calculate_fitness_body (tasks : gmap string task)
    (students : gmap string student) (sol : solution) : outcome pyfloat :=
  match sol with
  | [] => Return PInf
  | _ =>
      let D := total_task_duration tasks in
      obind (lift (first_pass tasks students sol)) (λ t,
      if bool_decide (size (completion_times t) ≠ size tasks) then Return PInf
      else
        obind (lift (py_max (map_to_list (completion_times t)).*2)) (λ max_c,
        obind (lift (py_min (map_to_list (start_times t)).*2)) (λ min_s,
        let total_completion_time := max_c - min_s in
        obind (lift (qdiv total_completion_time D)) (λ r,
        let p_time := r * Qc_of_Z 100 in
        obind (dependency_penalty tasks t D) (λ p_dep,
        obind (lift (skill_penalty tasks students sol)) (λ p_skill,
        obind (lift (workload_penalty students t D)) (λ p_load,
        obind (lift (overlap_penalty t D)) (λ p_overlap,
        Next (fadd (fadd (fadd (fadd (Fin (w1 * p_time)) (Fin (w2 * p_dep)))
                               (Fin (w3 * p_skill)))
                         (fmul (Fin w4) p_load))
                   (Fin (w5 * p_overlap)))))))))))
  end.

Definition calculate_fitness (tasks : gmap string task)
    (students : gmap string student) (sol : solution) : result pyfloat :=
  finish (calculate_fitness_body tasks students sol).

End FitnessCalculator.

(** ** The [random] module

    A random source is an unbounded sequence of raw draws and a cursor.
    Each operation of the module maps raw draws into the range its
    documentation promises, so quantifying over every source covers every
    outcome the operation can have. *)

Record rng := Rng { draws : nat → nat; cursor : nat }.

(** A randomised computation: it consumes draws and may raise. *)
Definition Rand (A : Type) : Type := rng → result (A * rng).

Global Instance rand_ret : MRet Rand := λ A a g, Ok (a, g).
Global Instance rand_bind : MBind Rand := λ A B k m g,
  match m g with
  | Ok (a, g') => k a g'
  | Raise e => Raise e
  end.

Definition throw {A} (e : exn) : Rand A := λ _, Raise e.

(** A deterministic step that may raise. *)
Definition det {A} (r : result A) : Rand A := λ g,
  match r with Ok a => Ok (a, g) | Raise e => Raise e end.

Module random.

Definition raw : Rand nat := λ g,
  Ok (draws g (cursor g), {| draws := draws g; cursor := S (cursor g) |}).

(** [random.random()]: a float in [[0, 1)]. *)
Definition random : Rand Qc :=
  a ← raw; b ← raw;
  mret (Qc_of_nat (a mod S b) / Qc_of_nat (S b)).

(** [random.randint(a, b)]: an integer in [[a, b]]; [ValueError] on an
    empty range. *)
Definition randint (a b : nat) : Rand nat :=
  if decide (b < a)%nat then throw ValueError
  else n ← raw; mret (a + n mod (b - a + 1))%nat.

(** [random.uniform(a, b)] is [a + (b - a) * random()]. *)
Definition uniform (a b : Qc) : Rand Qc :=
  u ← random; mret (a + (b - a) * u).

(** [random.choice(seq)]: [IndexError] on an empty sequence. *)
Definition choice {A} (l : list A) : Rand A :=
  match l with
  | [] => throw IndexError
  | x :: _ => n ← raw; mret (default x (l !! (n mod length l)%nat))
  end.

Fixpoint accumulate (acc : Qc) (ws : list Qc) : list Qc :=
  match ws with
  | [] => []
  | w :: ws' => (acc + w) :: accumulate (acc + w) ws'
  end.

(** [bisect(a, x, 0, hi)] on a non-decreasing list: how many of the
    first [hi] entries are [<= x]. *)
Fixpoint bisect (a : list Qc) (x : Qc) (hi : nat) : nat :=
  match hi, a with
  | S hi', e :: a' => if Qc_ltb x e then 0%nat else S (bisect a' x hi')
  | _, _ => 0%nat
  end.

(** [random.choices(population, weights=weights)[0]]. *)
Definition choices {A} (population : list A) (weights : list Qc) : Rand A :=
  let cum_weights := accumulate 0 weights in
  if decide (length cum_weights ≠ length population) then throw ValueError
  else match last cum_weights, population with
       | Some total, x :: _ =>
           if decide (total ≤ 0) then throw ValueError
           else
             u ← random;
             let i := bisect cum_weights (u * total) (length population - 1) in
             mret (default x (population !! i))
       | _, _ => throw IndexError
       end.

(** [random.sample(range(n), 2)]: two distinct positions below [n]. *)
Definition sample2 (n : nat) : Rand (nat * nat) :=
  if decide (n < 2)%nat then throw ValueError
  else
    a ← raw; b ← raw;
    let i := (a mod n)%nat in
    let j := (b mod (n - 1))%nat in
    mret (i, if decide (j < i)%nat then j else S j).

(** [x[i], x[j] = x[j], x[i]] on positions of the list. *)
Definition swap {A} (x : list A) (i j : nat) : list A :=
  match x !! i, x !! j with
  | Some a, Some b => <[j := a]> (<[i := b]> x)
  | _, _ => x
  end.

(** [random.shuffle(x)]: from the last position down to the second, the
    entry is exchanged with one at a drawn position not after it. *)
Fixpoint shuffle_loop {A} (idx : list nat) (x : list A) : Rand (list A) :=
  match idx with
  | [] => mret x
  | i :: idx' => n ← raw; shuffle_loop idx' (swap x i (n mod (i + 1)))
  end.

Definition shuffle {A} (x : list A) : Rand (list A) :=
  shuffle_loop (rev (seq 1 (length x - 1))) x.

(** [random.sample(population, k)]: [k] entries taken at distinct
    positions, in the order they are drawn.  Each draw picks among the
    entries still in the pool, and the last of them takes the place of
    the one picked.  [ValueError] when the population is shorter than
    [k]. *)
Fixpoint sample_loop {A} (k : nat) (pool : list A) : Rand (list A) :=
  match k with
  | O => mret []
  | S k' =>
      match pool, last pool with
      | x0 :: _, Some xl =>
          n ← raw;
          let j := (n mod length pool)%nat in
          rest ← sample_loop k' (take (length pool - 1) (<[j := xl]> pool));
          mret (default x0 (pool !! j) :: rest)
      | _, _ => throw ValueError
      end
  end.

Definition sample {A} (population : list A) (k : nat) : Rand (list A) :=
  if decide (length population < k)%nat then throw ValueError
  else sample_loop k population.

End random.

(** [l[i]] read and [l[i] = x] write on a list: [IndexError] out of range. *)
Definition getitem {A} (l : list A) (i : nat) : result A :=
  match l !! i with Some x => Ok x | None => Raise IndexError end.

Definition setitem {A} (l : list A) (i : nat) (x : A) : result (list A) :=
  if decide (i < length l)%nat then Ok (<[i := x]> l) else Raise IndexError.

(** [d[k]] on a dictionary: [KeyError] when the key is absent. *)
Definition dict_get `{Countable K} {V} (d : gmap K V) (k : K) : result V :=
  match d !! k with Some v => Ok v | None => Raise KeyError end.

(** ** ga_crossover.py *)

Module Crossover.

(** [l[a:b]] for two positions. *)
Definition slice {A} (l : list A) (a b : nat) : list A := take (b - a) (drop a l).

(** [crossover(parent1, parent2)]: single-point crossover. *)
Definition crossover (parent1 parent2 : solution) : Rand (solution * solution) :=
  let child1 := parent1 in
  let child2 := parent2 in
  let chromosome_length := length child1 in
  if decide (chromosome_length ≤ 1)%nat then mret (child1, child2)
  else
    crossover_point ← random.randint 1 (chromosome_length - 1);
    let child1 := take crossover_point parent1 ++ drop crossover_point parent2 in
    let child2 := take crossover_point parent2 ++ drop crossover_point parent1 in
    mret (child1, child2).

Definition two_point_crossover (parent1 parent2 : solution)
    : Rand (solution * solution) :=
  let child1 := parent1 in
  let child2 := parent2 in
  let chromosome_length := length parent1 in
  if decide (chromosome_length ≤ 2)%nat then mret (child1, child2)
  else
    point1 ← random.randint 1 (chromosome_length - 2);
    point2 ← random.randint (point1 + 1) (chromosome_length - 1);
    let child1 :=
      take point1 parent1 ++ slice parent2 point1 point2 ++ drop point2 parent1 in
    let child2 :=
      take point1 parent2 ++ slice parent1 point1 point2 ++ drop point2 parent2 in
    mret (child1, child2).

(** Body of [for i in range(len(parent1))]. *)
Definition uniform_step (parent1 parent2 : solution) (swap_probability : Qc)
    (children : solution * solution) (i : nat) : Rand (solution * solution) :=
  let '(child1, child2) := children in
  r ← random.random;
  if Qc_ltb r swap_probability then
    g2 ← det (getitem parent2 i);
    child1 ← det (setitem child1 i g2);
    g1 ← det (getitem parent1 i);
    child2 ← det (setitem child2 i g1);
    mret (child1, child2)
  else mret (child1, child2).

Fixpoint uniform_loop (parent1 parent2 : solution) (swap_probability : Qc)
    (idx : list nat) (children : solution * solution) : Rand (solution * solution) :=
  match idx with
  | [] => mret children
  | i :: idx' =>
      children' ← uniform_step parent1 parent2 swap_probability children i;
      uniform_loop parent1 parent2 swap_probability idx' children'
  end.

Definition uniform_crossover (parent1 parent2 : solution) (swap_probability : Qc)
    : Rand (solution * solution) :=
  uniform_loop parent1 parent2 swap_probability
    (seq 0 (length parent1)) (parent1, parent2).

End Crossover.

(** ** ga_mutation.py *)

(** [n] rounds of a loop body that threads a state. *)
Fixpoint repeat_loop {S} (n : nat) (body : S → Rand S) (s : S) : Rand S :=
  match n with
  | O => mret s
  | S n' => s' ← body s; repeat_loop n' body s'
  end.

(** A [for x in l] loop whose body draws random numbers. *)
Fixpoint for_each_rand {A S} (body : S → A → Rand S) (l : list A) (s : S) : Rand S :=
  match l with
  | [] => mret s
  | x :: l' => s' ← body s x; for_each_rand body l' s'
  end.

Module Mutation.

Inductive mutation_type := reassign | adjust_time | swap_tasks | shift_schedule.

Definition mutation_types : list mutation_type :=
  [reassign; adjust_time; swap_tasks; shift_schedule].

(** The weights stored in [self.mutation_weights] at the top of every
    round; they are read only by the [random.choices] call that follows. *)
Definition mutation_weights (temperature_ratio : Qc) : list Qc :=
  if Qc_ltb (qc 7 10) temperature_ratio then [qc 4 10; qc 3 10; qc 2 10; qc 1 10]
  else if Qc_ltb (qc 3 10) temperature_ratio then [qc 5 10; qc 3 10; qc 1 10; qc 1 10]
  else [qc 6 10; qc 3 10; qc 1 10; 0].

(** [max(1, int(len(solution) * 0.1 * temperature_ratio))]. *)
Definition num_mutations (len : nat) (temperature_ratio : Qc) : Z :=
  Z.max 1 (py_int (Qc_of_nat len * qc 1 10 * temperature_ratio)).

Section WithProblem.
Variable tasks : gmap string task.
Variable students : gmap string student.

Definition get_suitable_student (task_id : string) : Rand string :=
  tk ← det (dict_get tasks task_id);
  let required_skills := skill_requirements tk in
  let suitable_students :=
    (filter (λ p : string * student, dom required_skills ⊆ dom (skills p.2))
            (map_to_list students)).*1 in
  match suitable_students with
  | [] => random.choice (map_to_list students).*1
  | _ => random.choice suitable_students
  end.

Definition do_reassign (mutated : solution) : Rand solution :=
  pos ← random.randint 0 (length mutated - 1);
  '(task_id, _, start_time) ← det (getitem mutated pos);
  new_student ← get_suitable_student task_id;
  det (setitem mutated pos (task_id, new_student, start_time)).

Definition do_adjust_time (temperature_ratio : Qc) (mutated : solution)
    : Rand solution :=
  pos ← random.randint 0 (length mutated - 1);
  '(task_id, student_id, start_time) ← det (getitem mutated pos);
  tk ← det (dict_get tasks task_id);
  let task_duration := estimated_time tk in
  let max_adjustment := task_duration * temperature_ratio * qc 1 2 in
  adjustment ← random.uniform (- max_adjustment) max_adjustment;
  let new_start := str (Qc_max 0 (float start_time + adjustment)) in
  det (setitem mutated pos (task_id, student_id, new_start)).

Definition do_swap_tasks (mutated : solution) : Rand solution :=
  if decide (2 ≤ length mutated)%nat then
    '(pos1, pos2) ← random.sample2 (length mutated);
    '(task1, student1, time1) ← det (getitem mutated pos1);
    '(task2, student2, time2) ← det (getitem mutated pos2);
    mutated ← det (setitem mutated pos1 (task1, student2, time1));
    det (setitem mutated pos2 (task2, student1, time2))
  else mret mutated.

Definition shift_gene (shift : Qc) (mutated : solution) (i : nat)
    : result solution :=
  '(task_id, student_id, start_time) ← getitem mutated i;
  let new_start := str (Qc_max 0 (float start_time + shift)) in
  setitem mutated i (task_id, student_id, new_start).

Definition do_shift_schedule (temperature_ratio : Qc) (mutated : solution)
    : Rand solution :=
  if decide (2 ≤ length mutated)%nat then
    start_pos ← random.randint 0 (length mutated - 2);
    let max_length := Z.max 1 (py_int (Qc_of_Z 2 * temperature_ratio)) in
    length ← random.randint 1
               (Z.to_nat (Z.min max_length (Z.of_nat (length mutated - start_pos))));
    let max_shift := Qc_of_Z 2 * temperature_ratio in
    shift ← random.uniform (- max_shift) max_shift;
    det (for_each (shift_gene shift) (seq start_pos length) mutated)
  else mret mutated.

Definition apply_mutation (temperature_ratio : Qc) (mt : mutation_type)
    (mutated : solution) : Rand solution :=
  match mt with
  | reassign => do_reassign mutated
  | adjust_time => do_adjust_time temperature_ratio mutated
  | swap_tasks => do_swap_tasks mutated
  | shift_schedule => do_shift_schedule temperature_ratio mutated
  end.

(** One round of [for _ in range(num_mutations)].  The second component
    of the state is the log of the operators applied so far; the source
    keeps no such log, it is what "a mutation application" counts. *)
Definition mutate_round (generation max_generations : Z) (temperature_ratio : Qc)
    (st : solution * list mutation_type) : Rand (solution * list mutation_type) :=
  let '(mutated, log) := st in
  _progress ← det (qdiv (Qc_of_Z generation) (Qc_of_Z max_generations));
  mutation_type ← random.choices mutation_types (mutation_weights temperature_ratio);
  mutated ← apply_mutation temperature_ratio mutation_type mutated;
  mret (mutated, log ++ [mutation_type]).

Definition mutate_logged (sol : solution) (generation max_generations : Z)
    (temperature_ratio : Qc) : Rand (option (solution * list mutation_type)) :=
  match sol with
  | [] => mret None
  | _ =>
      let n := num_mutations (length sol) temperature_ratio in
      r ← repeat_loop (Z.to_nat n)
            (mutate_round generation max_generations temperature_ratio) (sol, []);
      mret (Some r)
  end.

(** [mutate(solution, generation, max_generations, temperature_ratio)];
    [None] is Python's [None]. *)
Definition mutate (sol : solution) (generation max_generations : Z)
    (temperature_ratio : Qc) : Rand (option solution) :=
  r ← mutate_logged sol generation max_generations temperature_ratio;
  mret (fst <$> r).

End WithProblem.

End Mutation.

(** ** ga_local_search.py *)

Module LocalSearch.

(** The local variables of [improve_solution]. *)
Record state := State {
  best_solution : solution;
  best_fitness : pyfloat;
  current_solution : solution;
  no_improve_counter : Z
}.

Section WithProblem.
Variable tasks : gmap string task.
Variable students : gmap string student.
(** [self.fitness_calculator.calculate_fitness], injected by the caller. *)
Variable calculate_fitness : solution → result pyfloat.

Definition _try_reassignment (sol : solution) : Rand solution :=
  let new_solution := sol in
  match new_solution with
  | [] => mret new_solution
  | _ =>
      task_idx ← random.randint 0 (length new_solution - 1);
      '(task_id, _, start_time) ← det (getitem new_solution task_idx);
      new_student ← random.choice (map_to_list students).*1;
      det (setitem new_solution task_idx (task_id, new_student, start_time))
  end.

Definition _try_time_adjustment (sol : solution) : Rand solution :=
  let new_solution := sol in
  match new_solution with
  | [] => mret new_solution
  | _ =>
      task_idx ← random.randint 0 (length new_solution - 1);
      '(task_id, student_id, start_time) ← det (getitem new_solution task_idx);
      let start_time := float start_time in
      tk ← det (dict_get tasks task_id);
      let max_adjustment := estimated_time tk / Qc_of_Z 2 in
      adjustment ← random.uniform (- max_adjustment) max_adjustment;
      let new_start_time := Qc_max 0 (start_time + adjustment) in
      det (setitem new_solution task_idx (task_id, student_id, PyFloat new_start_time))
  end.

Definition _try_task_swap (sol : solution) : Rand solution :=
  let new_solution := sol in
  if decide (length new_solution < 2)%nat then mret new_solution
  else
    '(idx1, idx2) ← random.sample2 (length new_solution);
    '(task1_id, student1_id, start1) ← det (getitem new_solution idx1);
    '(task2_id, student2_id, start2) ← det (getitem new_solution idx2);
    new_solution ← det (setitem new_solution idx1 (task1_id, student2_id, start1));
    det (setitem new_solution idx2 (task2_id, student1_id, start2)).

(** The block repeated after each of the three moves:
    [if new_fitness < best_fitness: ...; improved = True]. *)
Definition consider (new_solution : solution) (si : state * bool)
    : result (state * bool) :=
  let '(st, improved) := si in
  new_fitness ← calculate_fitness new_solution;
  if flt new_fitness (best_fitness st) then
    Ok ({| best_solution := new_solution;
           best_fitness := new_fitness;
           current_solution := new_solution;
           no_improve_counter := no_improve_counter st |}, true)
  else Ok (st, improved).

(** [if not improved: no_improve_counter += 1 else: no_improve_counter = 0]. *)
Definition count_round (si : state * bool) : state :=
  let '(st, improved) := si in
  {| best_solution := best_solution st;
     best_fitness := best_fitness st;
     current_solution := current_solution st;
     no_improve_counter :=
       if improved : bool then 0%Z else (no_improve_counter st + 1)%Z |}.

(** One round of [for iteration in range(max_iterations)], up to the
    test of [no_improve_counter]. *)
Definition iteration (st : state) : Rand state :=
  let si := (st, false) in
  new_solution ← _try_reassignment (current_solution si.1);
  si ← det (consider new_solution si);
  new_solution ← _try_time_adjustment (current_solution si.1);
  si ← det (consider new_solution si);
  new_solution ← _try_task_swap (current_solution si.1);
  si ← det (consider new_solution si);
  mret (count_round si).

(** The loop; [history] collects [best_fitness] at the end of every
    round (the source keeps no such list). *)
Fixpoint search (n : nat) (max_no_improve : Z) (st : state)
    (history : list pyfloat) : Rand (state * list pyfloat) :=
  match n with
  | O => mret (st, history)
  | S n' =>
      st' ← iteration st;
      let history' := history ++ [best_fitness st'] in
      if decide (max_no_improve ≤ no_improve_counter st')%Z
      then mret (st', history')
      else search n' max_no_improve st' history'
  end.

Definition improve_solution_logged (sol : solution)
    (max_iterations max_no_improve : Z)
    : Rand (solution * pyfloat * list pyfloat) :=
  f0 ← det (calculate_fitness sol);
  let st := {| best_solution := sol; best_fitness := f0;
               current_solution := sol; no_improve_counter := 0 |} in
  '(st', history) ← search (Z.to_nat max_iterations) max_no_improve st [];
  mret (best_solution st', best_fitness st', history).

(** [improve_solution(solution, max_iterations, max_no_improve)]. *)
Definition improve_solution (sol : solution) (max_iterations max_no_improve : Z)
    : Rand (solution * pyfloat) :=
  r ← improve_solution_logged sol max_iterations max_no_improve;
  mret r.1.

End WithProblem.

End LocalSearch.

(** ** ga_simulated_annealing.py *)

Module SimulatedAnnealing.

Inductive operation := op_reassign | op_time | op_swap.

(** The local variables of [improve_solution] that the loop updates.
    [current_solution] is [None] once a round has accepted a round in
    which no neighbour beat [float('inf')]. *)
Record state := State {
  current_solution : option solution;
  current_fitness : pyfloat;
  best_solution : solution;
  best_fitness : pyfloat;
  temperature : Qc;
  no_improve : nat
}.

Section WithProblem.
Variable tasks : gmap string task.
Variable students : gmap string student.
Variable calculate_fitness : solution → result pyfloat.
(** [math.exp] on finite floats, a library function. *)
Variable math_exp : Qc → Qc.
(** [self.initial_temp], stored by [improve_solution] before the loop. *)
Variable initial_temp : Qc.

(** [solution.copy()]: [AttributeError] on [None]. *)
Definition copy (sol : option solution) : result solution :=
  match sol with Some s => Ok s | None => Raise AttributeError end.

Definition _try_reassignment (sol : option solution) (temperature : Qc)
    : Rand solution :=
  new_solution ← det (copy sol);
  match new_solution with
  | [] => mret new_solution
  | _ =>
      task_idx ← random.randint 0 (length new_solution - 1);
      '(task_id, _, start_time) ← det (getitem new_solution task_idx);
      new_student ← Mutation.get_suitable_student tasks students task_id;
      det (setitem new_solution task_idx (task_id, new_student, start_time))
  end.

Definition _try_time_adjustment (sol : option solution) (temperature : Qc)
    : Rand solution :=
  new_solution ← det (copy sol);
  match new_solution with
  | [] => mret new_solution
  | _ =>
      task_idx ← random.randint 0 (length new_solution - 1);
      '(task_id, student_id, start_time) ← det (getitem new_solution task_idx);
      let start_time := float start_time in
      temp_ratio ← det (qdiv temperature initial_temp);
      tk ← det (dict_get tasks task_id);
      let task_duration := estimated_time tk in
      let max_adjustment := task_duration * temp_ratio * qc 1 2 in
      adjustment ← random.uniform (- max_adjustment) max_adjustment;
      let new_start_time := Qc_max 0 (start_time + adjustment) in
      det (setitem new_solution task_idx (task_id, student_id, str new_start_time))
  end.

Definition _try_task_swap (sol : option solution) (temperature : Qc)
    : Rand solution :=
  new_solution ← det (copy sol);
  if decide (length new_solution < 2)%nat then mret new_solution
  else
    '(pos1, pos2) ← random.sample2 (length new_solution);
    '(task1, student1, time1) ← det (getitem new_solution pos1);
    '(task2, student2, time2) ← det (getitem new_solution pos2);
    new_solution ← det (setitem new_solution pos1 (task1, student2, time1));
    det (setitem new_solution pos2 (task2, student1, time2)).

Definition neighbor_weights (temp_ratio : Qc) : list Qc :=
  if Qc_ltb (qc 7 10) temp_ratio then [qc 4 10; qc 4 10; qc 2 10]
  else if Qc_ltb (qc 3 10) temp_ratio then [qc 5 10; qc 4 10; qc 1 10]
  else [qc 3 10; qc 6 10; qc 1 10].

Definition _get_neighbor (sol : option solution) (temperature : Qc)
    : Rand solution :=
  temp_ratio ← det (qdiv temperature initial_temp);
  operation ← random.choices [op_reassign; op_time; op_swap]
                             (neighbor_weights temp_ratio);
  match operation with
  | op_reassign => _try_reassignment sol temperature
  | op_time => _try_time_adjustment sol temperature
  | op_swap => _try_task_swap sol temperature
  end.

(** [math.exp] on every float. *)
Definition py_exp (x : pyfloat) : pyfloat :=
  match x with
  | Fin q => Fin (math_exp q)
  | PInf => PInf
  | NInf => Fin 0
  | NaN => NaN
  end.

Definition _acceptance_probability (old_cost new_cost : pyfloat)
    (temperature : Qc) : result pyfloat :=
  if flt new_cost old_cost then Ok (Fin 1)
  else
    let delta := fsub new_cost old_cost in
    relative_delta ← fdiv delta old_cost;
    temp_ratio ← qdiv temperature initial_temp;
    x ← fdiv (fneg relative_delta) (Fin (temp_ratio * qc 1 10));
    Ok (py_exp x).

(** One round of [for _ in range(num_neighbors)]. *)
Definition neighbor_round (current : option solution) (temperature : Qc)
    (bn : option solution * pyfloat) : Rand (option solution * pyfloat) :=
  let '(best_neighbor, best_neighbor_fitness) := bn in
  neighbor ← _get_neighbor current temperature;
  neighbor_fitness ← det (calculate_fitness neighbor);
  if flt neighbor_fitness best_neighbor_fitness
  then mret (Some neighbor, neighbor_fitness)
  else mret (best_neighbor, best_neighbor_fitness).

(** One round of the main loop, from the neighbours to the cooling. *)
Definition iteration (cooling_rate : Qc) (st : state) : Rand state :=
  let num_neighbors := 3%nat in
  '(best_neighbor, best_neighbor_fitness) ←
    repeat_loop num_neighbors
      (neighbor_round (current_solution st) (temperature st)) (None, PInf);
  p ← det (_acceptance_probability (current_fitness st) best_neighbor_fitness
             (temperature st));
  r ← random.random;
  st' ←
    (if fgt p (Fin r) then
       let current_solution := best_neighbor in
       let current_fitness := best_neighbor_fitness in
       if flt current_fitness (best_fitness st) then
         best ← det (copy current_solution);
         mret {| current_solution := current_solution;
                 current_fitness := current_fitness;
                 best_solution := best;
                 best_fitness := current_fitness;
                 temperature := temperature st;
                 no_improve := 0 |}
       else
         mret {| current_solution := current_solution;
                 current_fitness := current_fitness;
                 best_solution := best_solution st;
                 best_fitness := best_fitness st;
                 temperature := temperature st;
                 no_improve := S (no_improve st) |}
     else
       mret {| current_solution := current_solution st;
               current_fitness := current_fitness st;
               best_solution := best_solution st;
               best_fitness := best_fitness st;
               temperature := temperature st;
               no_improve := S (no_improve st) |});
  mret {| current_solution := current_solution st';
          current_fitness := current_fitness st';
          best_solution := best_solution st';
          best_fitness := best_fitness st';
          temperature := temperature st' * cooling_rate;
          no_improve := no_improve st' |}.

(** [for iteration in range(max_iterations)] with its two [break]s. *)
Fixpoint anneal (n : nat) (cooling_rate min_temp : Qc) (st : state) : Rand state :=
  match n with
  | O => mret st
  | S n' =>
      if Qc_ltb (temperature st) min_temp then mret st
      else
        st' ← iteration cooling_rate st;
        if decide (50 ≤ no_improve st')%nat then mret st'
        else anneal n' cooling_rate min_temp st'
  end.

End WithProblem.

(** [improve_solution(initial_solution, max_iterations, initial_temp,
    cooling_rate, min_temp)]. *)
Definition improve_solution (tasks : gmap string task)
    (students : gmap string student)
    (calculate_fitness : solution → result pyfloat) (math_exp : Qc → Qc)
    (initial_solution : solution) (max_iterations : Z)
    (initial_temp cooling_rate min_temp : Qc) : Rand (solution * pyfloat) :=
  let current_solution := initial_solution in
  current_fitness ← det (calculate_fitness current_solution);
  let st := {| current_solution := Some current_solution;
               current_fitness := current_fitness;
               best_solution := current_solution;
               best_fitness := current_fitness;
               temperature := initial_temp;
               no_improve := 0 |} in
  st' ← anneal tasks students calculate_fitness math_exp initial_temp
          (Z.to_nat max_iterations) cooling_rate min_temp st;
  mret (best_solution st', best_fitness st').

End SimulatedAnnealing.

(** ** ga_selection.py *)

Module Selection.

Section WithFitness.
(** [ga.get_fitness], stored by [__init__]. *)
Variable get_fitness : solution → result pyfloat.

Definition tournament_size : nat := 3.

(** [min(l, key=self.get_fitness)]: the key of every entry is computed
    once, and an entry replaces the best so far when its key is strictly
    less; [ValueError] on an empty sequence. *)
Definition min_step (best : solution * pyfloat) (x : solution)
    : result (solution * pyfloat) :=
  k ← get_fitness x;
  if flt k best.2 then Ok (x, k) else Ok best.

Definition py_min_key (l : list solution) : result solution :=
  match l with
  | [] => Raise ValueError
  | x :: l' =>
      k ← get_fitness x;
      best ← for_each min_step l' (x, k);
      Ok best.1
  end.

Definition select (population : list solution) : Rand solution :=
  tournament ← random.sample population
                  (Nat.min tournament_size (length population));
  det (py_min_key tournament).

Definition tournament_select (population : list solution) : Rand solution :=
  select population.

End WithFitness.

End Selection.

(** ** ga_initialization.py *)

(** [max(a, b)] on floats: the second argument when it is strictly
    greater. *)
Definition fmax (a b : pyfloat) : pyfloat := if flt a b then b else a.

(** A gene as [_create_intelligent_chromosome] appends it: the student
    is [None] when no student was found, and the start time is the
    string of a float, [+inf] included. *)
Abbreviation gene := (string * option string * pyfloat)%type.
Abbreviation chromosome := (list gene).

Module PopulationInitializer.

Section WithProblem.
Variable tasks : gmap string task.
Variable students : gmap string student.

(** Body of [for skill, required_level in task['skill_requirements'].items()]. *)
Definition skill_match_step (st : student) (match_score : Qc) (req : string * Qc)
    : Qc :=
  let '(skill, required_level) := req in
  let student_level := default 0 (skills st !! skill) in
  if Qc_leb required_level student_level then match_score + 1
  else match_score - (required_level - student_level).

Definition _calculate_skill_match (task_id student_id : string) : result Qc :=
  tk ← dict_get tasks task_id;
  st ← dict_get students student_id;
  Ok (foldl (skill_match_step st) 0 (map_to_list (skill_requirements tk))).

(** [_get_dependency_graph()]: a [defaultdict(list)] from a task to the
    tasks that depend on it. *)
Definition _get_dependency_graph : gmap string (list string) :=
  foldl (λ graph '(task_id, tk),
           foldl (λ graph dep, <[dep := default [] (graph !! dep) ++ [task_id]]> graph)
                 graph (dependencies tk))
        ∅ (map_to_list tasks).

(** A loop whose body is a recursive call; [None] when the recursion
    went deeper than the bound. *)
Fixpoint for_each_bounded {A S} (body : S → A → option (result S)) (l : list A)
    (s : S) : option (result S) :=
  match l with
  | [] => Some (Ok s)
  | x :: l' =>
      match body s x with
      | Some (Ok s') => for_each_bounded body l' s'
      | r => r
      end
  end.

(** The local function [visit] of [_get_task_order]; the state is
    [(visited, order)] and [depth] bounds the depth of the recursion. *)
Fixpoint visit (depth : nat) (st : gset string * list string) (task_id : string)
    : option (result (gset string * list string)) :=
  match depth with
  | O => None
  | S depth' =>
      let '(visited, order) := st in
      if decide (task_id ∈ visited) then Some (Ok st)
      else
        let visited := {[task_id]} ∪ visited in
        match tasks !! task_id with
        | None => Some (Raise KeyError)
        | Some tk =>
            match for_each_bounded (visit depth') (dependencies tk)
                    (visited, order) with
            | Some (Ok (visited, order)) => Some (Ok (visited, order ++ [task_id]))
            | r => r
            end
        end
  end.

Definition task_order (depth : nat) : option (result (list string)) :=
  let dependency_graph := _get_dependency_graph in
  match for_each_bounded (visit depth) (map_to_list tasks).*1 (∅, []) with
  | Some (Ok (_, order)) => Some (Ok order)
  | Some (Raise e) => Some (Raise e)
  | None => None
  end.

(** [_get_task_order()]: a visit never nests deeper than one call per
    task and one more. *)
Definition _get_task_order : option (result (list string)) :=
  task_order (S (size tasks)).

(** Body of [for task_id in all_tasks] in [_create_random_chromosome];
    the state is [(chromosome, current_time)]. *)
Definition random_gene (st : solution * Qc) (task_id : string)
    : Rand (solution * Qc) :=
  let '(chromosome, current_time) := st in
  student_id ← random.choice (map_to_list students).*1;
  let start_time := str current_time in
  let chromosome := chromosome ++ [(task_id, student_id, start_time)] in
  tk ← det (dict_get tasks task_id);
  mret (chromosome, float start_time + estimated_time tk).

Definition _create_random_chromosome : Rand solution :=
  all_tasks ← random.shuffle (map_to_list tasks).*1;
  st ← for_each_rand random_gene all_tasks ([], 0);
  mret st.1.

(** [while len(population) < population_size], [rounds] bounding the
    number of rounds; [None] when the loop is still running after
    them. *)
Fixpoint fill_population {C} (rounds : nat) (create : Rand (list C))
    (population_size : Z) (population : list (list C))
    : Rand (option (list (list C))) :=
  if decide (Z.of_nat (length population) < population_size)%Z then
    match rounds with
    | O => mret None
    | S rounds' =>
        chromosome ← create;
        match chromosome with
        | [] => fill_population rounds' create population_size population
        | _ =>
            fill_population rounds' create population_size
              (population ++ [chromosome])
        end
    end
  else mret (Some population).

Definition _create_random_population (rounds : nat) (population_size : Z)
    : Rand (option (list solution)) :=
  fill_population rounds _create_random_chromosome population_size [].

(** The two nested loops over [task['dependencies']] and [chromosome]
    in [_create_intelligent_chromosome]. *)
Definition dep_end_step (dep : string) (dep_end_time : pyfloat) (g : gene)
    : result pyfloat :=
  let '(dep_task_id, dep_student_id, dep_start) := g in
  if decide (dep_task_id = dep) then
    tk ← dict_get tasks dep;
    let dep_end := fadd dep_start (Fin (estimated_time tk)) in
    Ok (fmax dep_end_time dep_end)
  else Ok dep_end_time.

Definition dependency_end (chromosome : chromosome) (deps : list string)
    : result pyfloat :=
  for_each (λ dep_end_time dep,
              for_each (dep_end_step dep) chromosome dep_end_time)
           deps (Fin 0).

(** Body of [for student_id in self.students]; the state is
    [(best_student, best_score, earliest_start)]. *)
Definition student_step (student_end_times : gmap (option string) pyfloat)
    (task_id : string) (dep_end_time : pyfloat)
    (best : option string * pyfloat * pyfloat) (student_id : string)
    : result (option string * pyfloat * pyfloat) :=
  let '(best_student, best_score, earliest_start) := best in
  skill_score ← _calculate_skill_match task_id student_id;
  end_time ← dict_get student_end_times (Some student_id);
  let workload_score := fneg end_time in
  let total_score := fadd (Fin skill_score) workload_score in
  if fgt total_score best_score then
    end_time ← dict_get student_end_times (Some student_id);
    Ok (Some student_id, total_score, fmax dep_end_time end_time)
  else Ok best.

(** Body of [for task_id in ordered_tasks]; the state is
    [(chromosome, student_end_times)]. *)
Definition intelligent_gene (st : chromosome * gmap (option string) pyfloat)
    (task_id : string) : result (chromosome * gmap (option string) pyfloat) :=
  let '(chromosome, student_end_times) := st in
  tk ← dict_get tasks task_id;
  let duration := estimated_time tk in
  dep_end_time ← dependency_end chromosome (dependencies tk);
  '(best_student, _, earliest_start) ←
    for_each (student_step student_end_times task_id dep_end_time)
             (map_to_list students).*1 (None, NInf, PInf);
  let start_time := earliest_start in
  Ok (chromosome ++ [(task_id, best_student, start_time)],
      <[best_student := fadd earliest_start (Fin duration)]> student_end_times).

Definition _create_intelligent_chromosome : option (result chromosome) :=
  match _get_task_order with
  | None => None
  | Some (Raise e) => Some (Raise e)
  | Some (Ok ordered_tasks) =>
      let student_end_times : gmap (option string) pyfloat :=
        kmap Some ((λ _, Fin 0) <$> students) in
      Some (st ← for_each intelligent_gene ordered_tasks ([], student_end_times);
            Ok st.1)
  end.

Definition _create_intelligent_population (rounds : nat) (population_size : Z)
    : option (Rand (option (list chromosome))) :=
  match _create_intelligent_chromosome with
  | None => None
  | Some chromosome =>
      Some (fill_population rounds (det chromosome) population_size [])
  end.

(** A chromosome of [_create_random_chromosome] read as raw genes: its
    students are never [None] and its start times are finite. *)
Definition raw_genes (sol : solution) : chromosome :=
  (λ a, (task_of a, Some (student_of a), Fin (float (start_of a)))) <$> sol.

Definition _create_hybrid_population (rounds : nat) (population_size : Z)
    : option (Rand (option (list chromosome))) :=
  match _create_intelligent_chromosome with
  | None => None
  | Some intelligent =>
      Some (fill_population rounds
              (r ← random.random;
               if Qc_ltb r (qc 3 10) then
                 chromosome ← _create_random_chromosome;
                 mret (raw_genes chromosome)
               else det intelligent)
              population_size [])
  end.

(** The loops over [task['dependencies']] and [chromosome] in
    [_create_dependency_based_chromosome]. *)
Definition dep_scan_step (dep : string) (max_dep_time : Qc) (a : assignment)
    : result Qc :=
  let '(d_task, _, d_start) := a in
  if decide (d_task = dep) then
    tk ← dict_get tasks dep;
    let dep_end := float d_start + estimated_time tk in
    Ok (Qc_max max_dep_time dep_end)
  else Ok max_dep_time.

Definition max_dep_time_of (chromosome : solution) (completed_tasks : gset string)
    (deps : list string) : result Qc :=
  for_each (λ max_dep_time dep,
              if decide (dep ∈ completed_tasks)
              then for_each (dep_scan_step dep) chromosome max_dep_time
              else Ok max_dep_time)
           deps 0.

(** Body of [for task_id in ordered_tasks]; the state is
    [(chromosome, current_time, completed_tasks)]. *)
Definition dependency_gene (st : solution * Qc * gset string) (task_id : string)
    : Rand (solution * Qc * gset string) :=
  let '(chromosome, current_time, completed_tasks) := st in
  tk ← det (dict_get tasks task_id);
  max_dep_time ← det (max_dep_time_of chromosome completed_tasks (dependencies tk));
  let current_time := Qc_max current_time max_dep_time in
  student_id ← random.choice (map_to_list students).*1;
  let start_time := str current_time in
  let chromosome := chromosome ++ [(task_id, student_id, start_time)] in
  let completed_tasks := {[task_id]} ∪ completed_tasks in
  tk ← det (dict_get tasks task_id);
  mret (chromosome, current_time + estimated_time tk, completed_tasks).

Definition _create_dependency_based_chromosome : option (Rand solution) :=
  match _get_task_order with
  | None => None
  | Some ordered_tasks =>
      Some (ordered_tasks ← det ordered_tasks;
            st ← for_each_rand dependency_gene ordered_tasks ([], 0, ∅);
            mret st.1.1)
  end.

Definition _create_dependency_based_population (rounds : nat)
    (population_size : Z) : option (Rand (option (list solution))) :=
  match _create_dependency_based_chromosome with
  | None => None
  | Some create => Some (fill_population rounds create population_size [])
  end.

(** [max(l, key=key)]: the key of every entry is computed once, and an
    entry replaces the best so far when its key is strictly greater;
    [ValueError] on an empty sequence. *)
Definition max_step {A} (key : A → result Qc) (best : A * Qc) (x : A)
    : result (A * Qc) :=
  k ← key x;
  if Qc_ltb best.2 k then Ok (x, k) else Ok best.

Definition py_max_key {A} (key : A → result Qc) (l : list A) : result A :=
  match l with
  | [] => Raise ValueError
  | x :: l' =>
      k ← key x;
      best ← for_each (max_step key) l' (x, k);
      Ok best.1
  end.

(** Body of [for task_id in all_tasks] in
    [_create_skill_based_chromosome]; the state is
    [(chromosome, current_time)]. *)
Definition skill_gene (st : solution * Qc) (task_id : string)
    : result (solution * Qc) :=
  let '(chromosome, current_time) := st in
  best_student ← py_max_key (_calculate_skill_match task_id)
                            (map_to_list students).*1;
  let start_time := str current_time in
  let chromosome := chromosome ++ [(task_id, best_student, start_time)] in
  tk ← dict_get tasks task_id;
  Ok (chromosome, current_time + estimated_time tk).

Definition _create_skill_based_chromosome : Rand solution :=
  all_tasks ← random.shuffle (map_to_list tasks).*1;
  st ← det (for_each skill_gene all_tasks ([], 0));
  mret st.1.

Definition _create_skill_based_population (rounds : nat) (population_size : Z)
    : Rand (option (list solution)) :=
  fill_population rounds _create_skill_based_chromosome population_size [].

End WithProblem.

End PopulationInitializer.

(** ** ga_main.py: the fitness cache *)

Module GeneticAlgorithm.

Section WithProblem.
Variable tasks : gmap string task.
Variable students : gmap string student.

(** [self._fitness_cache]: keyed by [tuple(tuple(x) for x in solution)],
    that is by the sequence of assignments itself. *)
Definition get_fitness (cache : gmap solution pyfloat) (sol : solution)
    : result (pyfloat * gmap solution pyfloat) :=
  let solution_tuple := sol in
  match cache !! solution_tuple with
  | None =>
      f ← FitnessCalculator.calculate_fitness tasks students sol;
      let cache := <[solution_tuple := f]> cache in
      v ← dict_get cache solution_tuple;
      Ok (v, cache)
  | Some _ =>
      v ← dict_get cache solution_tuple;
      Ok (v, cache)
  end.

Definition clear_fitness_cache (cache : gmap solution pyfloat)
    : gmap solution pyfloat := ∅.

(** What an engine does to its cache between two observations. *)
Inductive cache_op := Query (sol : solution) | Clear.

(** The cache after a sequence of operations; a query that raises
    leaves it as it was. *)
Definition run_op (cache : gmap solution pyfloat) (op : cache_op)
    : gmap solution pyfloat :=
  match op with
  | Query sol =>
      match get_fitness cache sol with
      | Ok (_, cache') => cache'
      | Raise _ => cache
      end
  | Clear => clear_fitness_cache cache
  end.

Definition run_ops (ops : list cache_op) : gmap solution pyfloat :=
  foldl run_op ∅ ops.

End WithProblem.

End GeneticAlgorithm.

(** ** ga_main.py: [validate_schedule] *)

Module ga_main.

(** The two dictionaries that [validate_schedule] fills. *)
Record timelines := Timelines {
  student_timelines : gmap string (list (Qc * Qc));
  task_start_times : gmap string Qc
}.

(** [for dep in task['dependencies']]; [None] stands for the
    [return False] inside it. *)
Fixpoint check_dependencies (tasks : gmap string task)
    (task_start_times : gmap string Qc) (deps : list string) (start_time : Qc)
    : result (option Qc) :=
  match deps with
  | [] => Ok (Some start_time)
  | dep :: deps' =>
      match task_start_times !! dep with
      | None => Ok None
      | Some dep_start =>
          tk ← dict_get tasks dep;
          let dep_end_time := dep_start + estimated_time tk in
          check_dependencies tasks task_start_times deps'
            (Qc_max start_time dep_end_time)
      end
  end.

(** [for busy_start, busy_end in student_busy_times], with its [break]. *)
Fixpoint first_free_slot (duration : Qc) (student_busy_times : list (Qc * Qc))
    (start_time : Qc) : Qc :=
  match student_busy_times with
  | [] => start_time
  | (busy_start, busy_end) :: rest =>
      if Qc_ltb start_time busy_end then
        if Qc_leb (start_time + duration) busy_start then start_time
        else first_free_slot duration rest busy_end
      else first_free_slot duration rest start_time
  end.

(** Body of [for task_id, student_id, start_time in solution]. *)
Definition place (tasks : gmap string task) (st : timelines) (a : assignment)
    : result (option timelines) :=
  let '(task_id, student_id, start_time) := a in
  tk ← dict_get tasks task_id;
  let start_time := float start_time in
  r ← check_dependencies tasks (task_start_times st) (dependencies tk) start_time;
  match r with
  | None => Ok None
  | Some start_time =>
      student_busy_times ← dict_get (student_timelines st) student_id;
      let start_time :=
        first_free_slot (estimated_time tk) student_busy_times start_time in
      let task_start_times := <[task_id := start_time]> (task_start_times st) in
      timeline ← dict_get (student_timelines st) student_id;
      let timeline := timeline ++ [(start_time, start_time + estimated_time tk)] in
      let timeline := FitnessCalculator.sort_timeline timeline in
      Ok (Some {| student_timelines :=
                    <[student_id := timeline]> (student_timelines st);
                  task_start_times := task_start_times |})
  end.

Fixpoint place_all (tasks : gmap string task) (sol : solution) (st : timelines)
    : result (option timelines) :=
  match sol with
  | [] => Ok (Some st)
  | a :: sol' =>
      r ← place tasks st a;
      match r with
      | None => Ok None
      | Some st' => place_all tasks sol' st'
      end
  end.

(** [for i in range(len(timeline) - 1)]: no interval ends after the
    next one starts. *)
Fixpoint overlap_free (timeline : list (Qc * Qc)) : bool :=
  match timeline with
  | a :: ((b :: _) as timeline') =>
      if Qc_ltb b.1 a.2 then false else overlap_free timeline'
  | _ => true
  end.

Definition validate_schedule (tasks : gmap string task)
    (students : gmap string student) (sol : solution) : result bool :=
  let st := {| student_timelines := (λ _, []) <$> students;
               task_start_times := ∅ |} in
  r ← place_all tasks sol st;
  match r with
  | None => Ok false
  | Some st =>
      Ok (forallb overlap_free (map_to_list (student_timelines st)).*2)
  end.

End ga_main.

(** ** ga_main.py: [evolve_population] *)

Module Evolution.

(** An offspring is a solution or, after [mutate] on an empty solution,
    [None]; [get_fitness(None)] raises [TypeError], which the code
    embedded so far never raises.  A run of [evolve_population] ends in a
    value, in one of the exceptions of the components, or in that
    [TypeError]. *)
Inductive run_result (A : Type) :=
  | Done (a : A) (g : rng)
  | Raised (e : exn)
  | RaisedTypeError.
Arguments Done {A} a g.
Arguments Raised {A} e.
Arguments RaisedTypeError {A}.

Definition Run (A : Type) : Type := rng → run_result A.

Global Instance run_ret : MRet Run := λ A a g, Done a g.
Global Instance run_bind : MBind Run := λ A B k m g,
  match m g with
  | Done a g' => k a g'
  | Raised e => Raised e
  | RaisedTypeError => RaisedTypeError
  end.

(** A step of a component. *)
Definition rand {A} (m : Rand A) : Run A := λ g,
  match m g with
  | Ok (a, g') => Done a g'
  | Raise e => Raised e
  end.

(** [max(l, key=key)] on float keys: an entry replaces the best so far
    when its key is strictly greater; [ValueError] on an empty
    sequence. *)
Fixpoint max_loop {A} (key : A → Run pyfloat) (l : list A) (best : A * pyfloat)
    : Run (A * pyfloat) :=
  match l with
  | [] => mret best
  | x :: l' =>
      k ← key x;
      max_loop key l' (if fgt k best.2 then (x, k) else best)
  end.

Definition py_max_key {A} (key : A → Run pyfloat) (l : list A) : Run A :=
  match l with
  | [] => λ _, Raised ValueError
  | x :: l' =>
      k ← key x;
      best ← max_loop key l' (x, k);
      mret best.1
  end.

Section WithProblem.
Variable tasks : gmap string task.
Variable students : gmap string student.
(** [math.exp], used by simulated annealing. *)
Variable math_exp : Qc → Qc.
(** [self.population_size], [self.crossover_rate], [self.mutation_rate]
    and [self.use_simulated_annealing]. *)
Variable population_size : Z.
Variable crossover_rate : Qc.
Variable mutation_rate : Qc.
Variable use_simulated_annealing : bool.

(** [self.fitness_calculator.calculate_fitness]. *)
Definition calculate_fitness : solution → result pyfloat :=
  FitnessCalculator.calculate_fitness tasks students.

(** [self.get_fitness(x)]: the cache returns what [calculate_fitness]
    computes; iterating over [None] raises [TypeError]. *)
Definition get_fitness (x : option solution) : Run pyfloat :=
  match x with
  | None => λ _, RaisedTypeError
  | Some sol => rand (det (calculate_fitness sol))
  end.

(** [if random.random() < self.mutation_rate: offspring = mutate(offspring)]. *)
Definition maybe_mutate (offspring : solution) : Run (option solution) :=
  r ← rand random.random;
  if Qc_ltb r mutation_rate
  then rand (Mutation.mutate tasks students offspring 0 100 1)
  else mret (Some offspring).

(** Body of [for offspring in [offspring1, offspring2]]; the state is
    [(generation_best, generation_best_fitness)]. *)
Definition update_best (best : option solution * pyfloat)
    (offspring : option solution) : Run (option solution * pyfloat) :=
  fitness ← get_fitness offspring;
  if flt fitness best.2 then mret (offspring, fitness) else mret best.

(** One round of [while len(new_population) < self.population_size];
    the state is [(new_population, (generation_best,
    generation_best_fitness))]. *)
Definition evolve_round (population : list solution)
    (st : list (option solution) * (option solution * pyfloat))
    : Run (list (option solution) * (option solution * pyfloat)) :=
  let '(new_population, best) := st in
  parent1 ← rand (Selection.tournament_select calculate_fitness population);
  parent2 ← rand (Selection.tournament_select calculate_fitness population);
  r ← rand random.random;
  '(offspring1, offspring2) ←
    (if Qc_ltb r crossover_rate then
       '(offspring1, offspring2) ← rand (Crossover.crossover parent1 parent2);
       r ← rand random.random;
       if Qc_ltb r (qc 4 10) then
         '(offspring1, _) ←
           rand (LocalSearch.improve_solution tasks students calculate_fitness
                   offspring1 20 5);
         '(offspring2, _) ←
           rand (LocalSearch.improve_solution tasks students calculate_fitness
                   offspring2 20 5);
         mret (offspring1, offspring2)
       else mret (offspring1, offspring2)
     else mret (parent1, parent2));
  offspring1 ← maybe_mutate offspring1;
  offspring2 ← maybe_mutate offspring2;
  let new_population := new_population ++ [offspring1] in
  let new_population :=
    if decide (Z.of_nat (length new_population) < population_size)%Z
    then new_population ++ [offspring2] else new_population in
  best ← update_best best offspring1;
  best ← update_best best offspring2;
  mret (new_population, best).

(** The loop, [rounds] bounding the number of rounds; [None] when the
    loop is still running after them. *)
Fixpoint evolve_loop (rounds : nat) (population : list solution)
    (st : list (option solution) * (option solution * pyfloat))
    : Run (option (list (option solution) * (option solution * pyfloat))) :=
  if decide (Z.of_nat (length st.1) < population_size)%Z then
    match rounds with
    | O => mret None
    | S rounds' =>
        st' ← evolve_round population st;
        evolve_loop rounds' population st'
    end
  else mret (Some st).

(** The key of [max(range(len(new_population)), key=...)]. *)
Definition fitness_at (new_population : list (option solution)) (i : nat)
    : Run pyfloat :=
  x ← rand (det (getitem new_population i));
  get_fitness x.

(** [evolve_population(population, generation)]. *)
Definition evolve_population (rounds : nat) (population : list solution)
    (generation : Z) : Run (option (list (option solution))) :=
  st ← evolve_loop rounds population ([], (None, PInf));
  match st with
  | None => mret None
  | Some (new_population, (generation_best, generation_best_fitness)) =>
      match use_simulated_annealing, generation_best with
      | true, Some generation_best =>
          '(sa_solution, sa_fitness) ←
            rand (SimulatedAnnealing.improve_solution tasks students
                    calculate_fitness math_exp generation_best 50
                    (Qc_of_Z 100) (qc 9 10) (qc 1 10));
          if flt sa_fitness generation_best_fitness then
            worst_idx ← py_max_key (fitness_at new_population)
                           (seq 0 (length new_population));
            new_population ←
              rand (det (setitem new_population worst_idx (Some sa_solution)));
            mret (Some new_population)
          else mret (Some new_population)
      | _, _ => mret (Some new_population)
      end
  end.

End WithProblem.

End Evolution.

(** ** ga_island.py: ring migration *)

Module IslandModel.

Section Sorting.
Context {A : Type}.

(** Stable insertion of a keyed element: it passes exactly the
    elements that must come before it. *)
Fixpoint insert_keyed (before : pyfloat → pyfloat → bool)
    (x : A * pyfloat) (l : list (A * pyfloat)) : list (A * pyfloat) :=
  match l with
  | [] => [x]
  | y :: l' =>
      if before y.2 x.2 then y :: insert_keyed before x l' else x :: y :: l'
  end.

Definition sort_keyed (before : pyfloat → pyfloat → bool)
    (l : list (A * pyfloat)) : list (A * pyfloat) :=
  foldr (insert_keyed before) [] l.

(** [sorted(l, key=key, reverse=reverse)]: the keys are computed once,
    then the list is sorted stably, also when reversed. *)
Definition sorted (key : A → result pyfloat) (reverse : bool) (l : list A)
    : result (list A) :=
  keys ← mapM key l;
  Ok (sort_keyed (if reverse then fgt else flt) (zip l keys)).*1.
End Sorting.

(** [l.index(x)]: the first position holding a value equal to [x]. *)
Fixpoint index (l : list solution) (x : solution) : result nat :=
  match l with
  | [] => Raise ValueError
  | y :: l' => if decide (y = x) then Ok 0%nat else i ← index l' x; Ok (S i)
  end.

Section WithFitness.
(** [island.get_fitness] as a function of the individual: every island
    evaluates the same problem, and its cache never changes a value. *)
Variable get_fitness : solution → result pyfloat.
Variable migration_size : nat.

(** Body of [for j, migrant in enumerate(migrants)]. *)
Definition replace_step (sorted_dest : list solution)
    (dest_pop : list solution) (jm : nat * solution) : result (list solution) :=
  let '(j, migrant) := jm in
  if decide (j < length sorted_dest)%nat then
    target ← getitem sorted_dest j;
    idx ← index dest_pop target;
    setitem dest_pop idx migrant
  else Ok dest_pop.

Definition enumerate {A} (l : list A) : list (nat * A) := zip (seq 0 (length l)) l.

(** Body of [for i in range(self.num_islands)] on the populations of
    the islands. *)
Definition migrate_from (num_islands : nat) (islands : list (list solution))
    (i : nat) : result (list (list solution)) :=
  let source := i in
  let dest := ((i + 1) mod num_islands)%nat in
  source_pop ← getitem islands source;
  match source_pop with
  | [] => Ok islands
  | _ =>
      sorted_source ← sorted get_fitness false source_pop;
      let migrants := take migration_size sorted_source in
      dest_pop ← getitem islands dest;
      match dest_pop with
      | [] => Ok islands
      | _ =>
          sorted_dest ← sorted get_fitness true dest_pop;
          dest_pop' ← for_each (replace_step sorted_dest) (enumerate migrants) dest_pop;
          setitem islands dest dest_pop'
      end
  end.

(** [_migrate_solutions()] with [self.num_islands = len(self.islands)]. *)
Definition _migrate_solutions (islands : list (list solution))
    : result (list (list solution)) :=
  let num_islands := length islands in
  for_each (migrate_from num_islands) (seq 0 num_islands) islands.

(** The migrants that leave island [i] during a round: the state of the
    islands when island [i] is reached, and what is selected there. *)
Definition islands_before (islands : list (list solution)) (i : nat)
    : result (list (list solution)) :=
  for_each (migrate_from (length islands)) (seq 0 i) islands.

Definition migrants_of (pop : list solution) : result (list solution) :=
  sorted_source ← sorted get_fitness false pop;
  Ok (take migration_size sorted_source).

End WithFitness.

End IslandModel.

(** ** Vocabulary of the statements *)

(** The distinct task identifiers a solution covers. *)
Definition tasks_in (sol : solution) : gset string := list_to_set (task_of <$> sol).

(** Every assignment names a task of the task table and a student of the
    student table. *)
Definition known_ids (tasks : gmap string task) (students : gmap string student)
    (sol : solution) : Prop :=
  Forall (λ a, task_of a ∈ dom tasks ∧ student_of a ∈ dom students) sol.

(** The task "appears in more than one assignment". *)
Definition duplicated (sol : solution) (tid : string) : Prop :=
  (2 ≤ length (filter (λ a, task_of a = tid) sol))%nat.

(** A problem on which the evaluator cannot divide by zero: every task
    takes a positive time and there is a student. *)
Definition wf_problem (tasks : gmap string task) (students : gmap string student)
    : Prop :=
  map_Forall (λ _ tk, 0 < estimated_time tk) tasks ∧ students ≠ ∅.

(** A float that is not NaN. *)
Definition not_nan (x : pyfloat) : Prop := x ≠ NaN.

(** A fitness that is positive: a positive rational or [+inf]. *)
Definition positive_fitness (v : pyfloat) : Prop :=
  v = PInf ∨ ∃ q, v = Fin q ∧ 0 < q.

(** What a caller of [get_fitness] observes: the value or the exception. *)
Definition observed {A C} (r : result (A * C)) : result A :=
  match r with
  | Ok (v, _) => Ok v
  | Raise e => Raise e
  end.

(** Every entry of the cache is the fitness of its key. *)
Definition cache_consistent (tasks : gmap string task)
    (students : gmap string student) (cache : gmap solution pyfloat) : Prop :=
  ∀ sol v, cache !! sol = Some v →
    FitnessCalculator.calculate_fitness tasks students sol = Ok v.

(** A sequence of best-fitness values that starts below [prev] and in
    which every value is the one before it or strictly less. *)
Fixpoint descending (prev : pyfloat) (l : list pyfloat) : Prop :=
  match l with
  | [] => True
  | x :: l' => (x = prev ∨ flt x prev = true) ∧ descending x l'
  end.

(** The last value of such a sequence, [prev] when it is empty. *)
Fixpoint final (prev : pyfloat) (l : list pyfloat) : pyfloat :=
  match l with
  | [] => prev
  | x :: l' => final x l'
  end.

(** What a destination holds once a batch of migrants has been written:
    the migrants that found a slot, and the destination's worst-first
    order without the slots they took. *)
Definition handed_over (migrants sorted_dest : list solution) : list solution :=
  take (length sorted_dest) migrants ++ drop (length migrants) sorted_dest.

(** Every individual of every island has a fitness. *)
Definition all_evaluated (get_fitness : solution → result pyfloat)
    (islands : list (list solution)) : Prop :=
  Forall (Forall (λ s, is_ok (get_fitness s) = true)) islands.

(** Whether an individual is at least as fit as [bound]. *)
Definition at_most (get_fitness : solution → result pyfloat)
    (bound : pyfloat) (s : solution) : bool :=
  match get_fitness s with
  | Ok f => fle f bound
  | Raise _ => false
  end.

(** Every task is listed after the tasks it depends on. *)
Definition dependencies_first (tasks : gmap string task) (sol : solution) : Prop :=
  ∀ i a tk dep,
    sol !! i = Some a → tasks !! task_of a = Some tk → dep ∈ dependencies tk →
    ∃ j b, (j < i)%nat ∧ sol !! j = Some b ∧ task_of b = dep.

(** A timeline whose intervals follow one another without overlap. *)
Fixpoint chained (timeline : list (Qc * Qc)) : Prop :=
  match timeline with
  | [] => True
  | a :: timeline' =>
      a.1 ≤ a.2 ∧
      match timeline' with [] => True | b :: _ => a.2 ≤ b.1 end ∧
      chained timeline'
  end.

(** Every dependency of every task is a task of the table. *)
Definition closed_dependencies (tasks : gmap string task) : Prop :=
  map_Forall (λ _ tk, Forall (λ dep, dep ∈ dom tasks) (dependencies tk)) tasks.

(** No cycle of dependencies: the tasks can be ranked so that every task
    ranks above the tasks it depends on. *)
Definition acyclic (tasks : gmap string task) : Prop :=
  ∃ rank : string → nat,
    ∀ t tk dep, tasks !! t = Some tk → dep ∈ dependencies tk →
                (rank dep < rank t)%nat.

(** Every task of the list comes after the tasks it depends on. *)
Definition respects_dependencies (tasks : gmap string task) (order : list string)
    : Prop :=
  ∀ i t tk dep,
    order !! i = Some t → tasks !! t = Some tk → dep ∈ dependencies tk →
    ∃ j, (j < i)%nat ∧ order !! j = Some dep.

(** The student has the skill a requirement names at the level it asks
    for; a skill the student does not have counts as level 0. *)
Definition meets (st : student) (req : string * Qc) : Prop :=
  req.2 ≤ default 0 (skills st !! req.1).

(** The assignments follow one another in time from [t0]: each starts,
    as a string, when the one before it ends. *)
Fixpoint back_to_back (tasks : gmap string task) (t0 : Qc) (sol : solution)
    : Prop :=
  match sol with
  | [] => True
  | a :: sol' =>
      start_of a = PyStr t0 ∧
      ∃ tk, tasks !! task_of a = Some tk ∧
            back_to_back tasks (t0 + estimated_time tk) sol'
  end.

(** The solution a chromosome stands for, when every gene has a student
    and a finite start time. *)
Definition as_assignment (g : gene) : option assignment :=
  match g with
  | (task_id, Some student_id, Fin start_time) =>
      Some (task_id, student_id, str start_time)
  | _ => None
  end.

Fixpoint as_solution (c : chromosome) : option solution :=
  match c with
  | [] => Some []
  | g :: c' => a ← as_assignment g; sol ← as_solution c'; Some (a :: sol)
  end.

(** When an assignment ends: its start plus the duration of its task. *)
Definition end_of (tasks : gmap string task) (a : assignment) : Qc :=
  float (start_of a) + default 0 (estimated_time <$> tasks !! task_of a).

(** No task starts before a task it depends on has ended. *)
Definition starts_after_dependencies (tasks : gmap string task) (sol : solution)
    : Prop :=
  ∀ a b tk,
    a ∈ sol → b ∈ sol → tasks !! task_of a = Some tk →
    task_of b ∈ dependencies tk → end_of tasks b ≤ float (start_of a).

(** A student starts an assignment only when the assignments listed
    before it for the same student have ended. *)
Definition no_student_overlap (tasks : gmap string task) (sol : solution) : Prop :=
  ∀ i j a b,
    (i < j)%nat → sol !! i = Some a → sol !! j = Some b →
    student_of a = student_of b → end_of tasks a ≤ float (start_of b).

(** The student of the assignment is one whose skill match with the
    task is the greatest among the students. *)
Definition best_matched (tasks : gmap string task)
    (students : gmap string student) (a : assignment) : Prop :=
  ∃ best,
    PopulationInitializer._calculate_skill_match tasks students (task_of a)
      (student_of a) = Ok best ∧
    ∀ s, s ∈ dom students →
      ∃ score,
        PopulationInitializer._calculate_skill_match tasks students (task_of a) s
        = Ok score ∧ score ≤ best.

(** An individual the operators can work on: it is not empty and it
    names known tasks and students. *)
Definition individual (tasks : gmap string task) (students : gmap string student)
    (sol : solution) : Prop :=
  sol ≠ [] ∧ known_ids tasks students sol.

(** ** Concrete problems and runs *)

Definition plain_task (d : Qc) : task :=
  {| estimated_time := d; dependencies := []; skill_requirements := ∅ |}.

Definition no_skills : student := {| skills := ∅ |}.

Definition students_1 : gmap string student := <["S1" := no_skills]> ∅.

Definition tasks_zero : gmap string task := <["T1" := plain_task 0]> ∅.
Definition tasks_one : gmap string task := <["T1" := plain_task 1]> ∅.
Definition tasks_2 : gmap string task :=
  <["T1" := plain_task 1]> (<["T2" := plain_task 1]> ∅).

Definition sol_one : solution := [("T1", "S1", PyFloat 0)].

(** [T1] appears twice, [T2] once: every task is covered. *)
Definition sol_duplicated : solution :=
  [("T1", "S1", PyFloat 0); ("T1", "S1", PyFloat 1); ("T2", "S1", PyFloat (qc 2 1))].

(** Twenty assignments of the one task of [tasks_one]. *)
Definition sol_20 : solution :=
  (λ i, ("T1", "S1", PyFloat (Qc_of_nat i))) <$> seq 0 20.

(** One task that needs skill [x] at level 5, a worker who has it and one
    who does not. *)
Definition tasks_skill : gmap string task :=
  <["T1" := {| estimated_time := 1; dependencies := [];
               skill_requirements := <["x" := Qc_of_Z 5]> ∅ |}]> ∅.

Definition students_2 : gmap string student :=
  <["S1" := {| skills := <["x" := Qc_of_Z 5]> ∅ |}]>
    (<["S2" := {| skills := <["x" := Qc_of_Z 2]> ∅ |}]> ∅).

Definition sol_fit : solution := [("T1", "S1", PyFloat 0)].
Definition sol_unfit : solution := [("T1", "S2", PyFloat 0)].

Definition fitness_skill : solution → result pyfloat :=
  FitnessCalculator.calculate_fitness tasks_skill students_2.

(** A random source that replays a list of raw draws, then zeros. *)
Definition rng_of (l : list nat) : rng :=
  {| draws := λ n, default 0%nat (l !! n); cursor := 0 |}.

(** A stand-in for [math.exp] in concrete runs: exact at 0, positive, at
    most 1 on negative arguments. *)
Definition exp_model (x : Qc) : Qc :=
  if Qc_ltb x 0 then / (1 - x) else 1 + x.

(** Two parents over the same three tasks in the same order. *)
Definition parents_a : solution :=
  [("T1", "S1", PyStr 0); ("T2", "S1", PyStr 1); ("T3", "S2", PyStr (qc 2 1))].
Definition parents_b : solution :=
  [("T1", "S2", PyStr 0); ("T2", "S2", PyStr 0); ("T3", "S1", PyStr 1)].

(** Two tasks, the second depending on the first and asking for skill
    [x] at level 3. *)
Definition task_T2 : task :=
  {| estimated_time := qc 2 1; dependencies := ["T1"];
     skill_requirements := <["x" := Qc_of_Z 3]> ∅ |}.

Definition tasks_dep : gmap string task :=
  <["T1" := plain_task 1]> (<["T2" := task_T2]> ∅).

(** The student [S1] of [students_2]. *)
Definition student_S1 : student := {| skills := <["x" := Qc_of_Z 5]> ∅ |}.

(** A ranking of the tasks of [tasks_dep]. *)
Definition rank_dep (t : string) : nat := if decide (t = "T2") then 1 else 0.

(** Both tasks at time 0 for the same student, in the order of the
    dependency. *)
Definition sol_dep : solution := [("T1", "S1", PyFloat 0); ("T2", "S1", PyFloat 0)].

(** A student with skill [x] and one without any skill. *)
Definition students_mixed : gmap string student :=
  <["S1" := student_S1]> (<["S3" := no_skills]> ∅).

(** ** Invariants used by the proofs *)

(** What one operator does to a solution: the task column is kept and so
    are known identifiers; it raises only on an unknown task or with no
    student to choose from. *)
Definition step_post (tasks : gmap string task) (students : gmap string student)
    (mutated : solution) (r : result (solution * rng)) : Prop :=
  match r with
  | Ok (l, _) =>
      task_of <$> l = task_of <$> mutated ∧
      (known_ids tasks students mutated → known_ids tasks students l)
  | Raise _ => ¬ known_ids tasks students mutated ∨ students = ∅
  end.

(** What one round of the loop of [mutate] does. *)
Definition round_post (tasks : gmap string task) (students : gmap string student)
    (mutated : solution) (max_generations : Z)
    (before : nat)
    (r : result (solution * list Mutation.mutation_type * rng)) : Prop :=
  match r with
  | Ok (l, log, _) =>
      task_of <$> l = task_of <$> mutated ∧
      (known_ids tasks students mutated → known_ids tasks students l) ∧
      length log = before
  | Raise _ =>
      max_generations = 0%Z ∨ ¬ known_ids tasks students mutated ∨ students = ∅
  end.

(** The best solution on record has the best fitness on record, and the
    search continues from it. *)
Definition ls_inv (calc : solution → result pyfloat) (st : LocalSearch.state)
    : Prop :=
  calc (LocalSearch.best_solution st) = Ok (LocalSearch.best_fitness st) ∧
  LocalSearch.current_solution st = LocalSearch.best_solution st.

(** After the first pass a completion time is the start time of the task
    plus its duration. *)
Definition times_linked (tasks : gmap string task)
    (t : FitnessCalculator.tables) : Prop :=
  ∀ id c, FitnessCalculator.completion_times t !! id = Some c →
    ∃ s tk, FitnessCalculator.start_times t !! id = Some s ∧
            tasks !! id = Some tk ∧ c = s + estimated_time tk.

(** The best neighbour of a round: nothing yet, at [+inf], or a known
    solution with its positive fitness. *)
Definition neighbor_inv (tasks : gmap string task) (students : gmap string student)
    (bn : option solution * pyfloat) : Prop :=
  bn.2 = PInf ∨
  ∃ n, bn.1 = Some n ∧ known_ids tasks students n ∧ positive_fitness bn.2.

(** The running state: the current solution exists and names known
    identifiers, its fitness is positive and so is the temperature. *)
Definition sa_inv (tasks : gmap string task) (students : gmap string student)
    (st : SimulatedAnnealing.state) : Prop :=
  (∃ s, SimulatedAnnealing.current_solution st = Some s ∧
        known_ids tasks students s) ∧
  positive_fitness (SimulatedAnnealing.current_fitness st) ∧
  0 < SimulatedAnnealing.temperature st.

(** Every task of [sol] comes after its dependencies, [seen] being the
    tasks listed before [sol]. *)
Fixpoint dependencies_seen (tasks : gmap string task) (seen : gset string)
    (sol : solution) : Prop :=
  match sol with
  | [] => True
  | a :: sol' =>
      (∀ tk, tasks !! task_of a = Some tk →
             Forall (λ dep, dep ∈ seen) (dependencies tk)) ∧
      dependencies_seen tasks ({[task_of a]} ∪ seen) sol'
  end.

(** The state of [validate_schedule] between two assignments: the start
    times on record are those of the tasks placed so far, and every
    student has a timeline without overlap. *)
Definition placed_inv (tasks : gmap string task) (students : gmap string student)
    (seen : gset string) (st : ga_main.timelines) : Prop :=
  dom (ga_main.task_start_times st) = seen ∧ seen ⊆ dom tasks ∧
  dom (ga_main.student_timelines st) = dom students ∧
  map_Forall (λ _ tl, chained tl) (ga_main.student_timelines st).

(** What a visit, or a loop of visits, of the [targets] leaves: it
    ends within the bound; it raises only [KeyError] and only when a
    dependency or a target is not a task; otherwise the targets are
    visited and the tasks appended to the order are exactly the newly
    visited ones, each with its dependencies visited. *)
Definition visit_post (tasks : gmap string task) (st : gset string * list string)
    (targets : list string) (r : option (result (gset string * list string)))
    : Prop :=
  match r with
  | None => False
  | Some (Raise e) =>
      e = KeyError ∧
      ¬ (closed_dependencies tasks ∧ Forall (λ t, t ∈ dom tasks) targets)
  | Some (Ok st') =>
      st.1 ⊆ st'.1 ∧ Forall (λ t, t ∈ st'.1) targets ∧
      ∃ new, st'.2 = st.2 ++ new ∧ NoDup new ∧
        (∀ x, x ∈ new ↔ x ∈ st'.1 ∧ x ∉ st.1) ∧
        Forall (λ x, ∃ tk, tasks !! x = Some tk ∧
                           Forall (λ dep, dep ∈ st'.1) (dependencies tk)) new
  end.

(** The tasks appended by a visit come after their dependencies,
    [order] being the order before the visit. *)
Definition appended_after (tasks : gmap string task) (order new : list string)
    : Prop :=
  ∀ i t tk dep,
    new !! i = Some t → tasks !! t = Some tk → dep ∈ dependencies tk →
    dep ∈ order ++ take i new.

(** The gene [_create_intelligent_chromosome] appends for an assignment. *)
Definition gene_of (a : assignment) : gene :=
  (task_of a, Some (student_of a), Fin (float (start_of a))).

(** The state of [_create_intelligent_chromosome] between two tasks,
    [sol] being the assignments made so far: every student's end time
    is finite and no assignment of the student ends after it. *)
Definition intelligent_inv (tasks : gmap string task)
    (students : gmap string student) (sol : solution)
    (st : chromosome * gmap (option string) pyfloat) : Prop :=
  st.1 = gene_of <$> sol ∧
  Forall (λ a, start_of a = str (float (start_of a)) ∧ 0 ≤ float (start_of a)) sol ∧
  known_ids tasks students sol ∧
  (∀ s, s ∈ dom students →
        ∃ e, st.2 !! Some s = Some (Fin e) ∧
             Forall (λ a, student_of a = s → end_of tasks a ≤ e) sol) ∧
  no_student_overlap tasks sol ∧
  starts_after_dependencies tasks sol.

(** [l] has the task column of [sol], and known identifiers when [sol]
    has. *)
Definition same_tasks (tasks : gmap string task) (students : gmap string student)
    (sol l : solution) : Prop :=
  task_of <$> l = task_of <$> sol ∧
  (known_ids tasks students sol → known_ids tasks students l).

(** Local search: the best and the current solution come from [sol]. *)
Definition ls_from (tasks : gmap string task) (students : gmap string student)
    (sol : solution) (st : LocalSearch.state) : Prop :=
  same_tasks tasks students sol (LocalSearch.best_solution st) ∧
  same_tasks tasks students sol (LocalSearch.current_solution st).

(** Simulated annealing: the current solution, when there is one, and
    the best solution come from [sol], and the best fitness on record is
    the fitness of the best solution. *)
Definition sa_from (tasks : gmap string task) (students : gmap string student)
    (calc : solution → result pyfloat) (sol : solution)
    (st : SimulatedAnnealing.state) : Prop :=
  (∀ s, SimulatedAnnealing.current_solution st = Some s →
        same_tasks tasks students sol s ∧
        calc s = Ok (SimulatedAnnealing.current_fitness st)) ∧
  same_tasks tasks students sol (SimulatedAnnealing.best_solution st) ∧
  calc (SimulatedAnnealing.best_solution st)
  = Ok (SimulatedAnnealing.best_fitness st).

(** The best neighbour of a round, when there is one, comes from [sol]
    and is recorded with its fitness. *)
Definition neighbor_from (tasks : gmap string task)
    (students : gmap string student) (calc : solution → result pyfloat)
    (sol : solution) (bn : option solution * pyfloat) : Prop :=
  ∀ n, bn.1 = Some n → same_tasks tasks students sol n ∧ calc n = Ok bn.2.

(** The order of [sorted(..., reverse=True)]: no key is below a later
    one. *)
Definition desc {A} (a b : A * pyfloat) : Prop := fle b.2 a.2 = true.

(** [evolve_population]: the best offspring of the generation so far,
    when there is one, and the offspring appended so far, are
    individuals. *)
Definition best_inv (tasks : gmap string task) (students : gmap string student)
    (best : option solution * pyfloat) : Prop :=
  ∀ s, best.1 = Some s → individual tasks students s.

Definition offspring_ok (tasks : gmap string task)
    (students : gmap string student) (o : option solution) : Prop :=
  ∃ s, o = Some s ∧ individual tasks students s.

(** * Verification *)

(** ** Rationals and floats *)

Lemma Qc_ltb_true x y : Qc_ltb x y = true ↔ x < y.
Proof. unfold Qc_ltb. apply bool_decide_eq_true. Qed.

Lemma Qc_ltb_false x y : Qc_ltb x y = false ↔ y ≤ x.
Proof. unfold Qc_ltb. rewrite bool_decide_eq_false. by rewrite Qcle_ngt. Qed.

Lemma Qc_eqb_false x y : Qc_eqb x y = false ↔ x ≠ y.
Proof. unfold Qc_eqb. apply bool_decide_eq_false. Qed.

Lemma Qc_of_nat_pos n : 0 < Qc_of_nat (S n).
Proof.
  unfold Qc_of_nat. rewrite <-Z2Qc_inj_0, <-Z2Qc_inj_lt. lia.
Qed.

Lemma Qc_of_Z_pos n : (0 < n)%Z → 0 < Qc_of_Z n.
Proof. intros. by rewrite <-Z2Qc_inj_0, <-Z2Qc_inj_lt. Qed.

Lemma Qc_of_Z_eq_0 n : Qc_of_Z n = 0 ↔ n = 0%Z.
Proof. by rewrite <-Z2Qc_inj_0, Z2Qc_inj_iff. Qed.

Lemma Qc_pos_ne_0 x : 0 < x → x ≠ 0.
Proof. intros Hx ->. by apply Qclt_not_eq in Hx. Qed.

Lemma qdiv_ok a b : b ≠ 0 → qdiv a b = Ok (a / b).
Proof. intros Hb. unfold qdiv. by rewrite (proj2 (Qc_eqb_false b 0)). Qed.

Lemma Qcdiv_pos a b : 0 < a → 0 < b → 0 < a / b.
Proof. intros Ha Hb. apply Qcmult_pos_pos; [done|by apply Qcinv_pos]. Qed.

Lemma Qcdiv_nonneg a b : 0 ≤ a → 0 < b → 0 ≤ a / b.
Proof.
  intros Ha Hb. apply Qcmult_nonneg_nonneg; [done|].
  by apply Qclt_le_weak, Qcinv_pos.
Qed.

Lemma Qcminus_pos a b : a < b → 0 < b - a.
Proof.
  intros H. apply (Qcplus_lt_mono_r _ _ a). unfold Qcminus.
  by rewrite Qcplus_0_l, <-Qcplus_assoc, (Qcplus_comm (- a)), Qcplus_opp_r, Qcplus_0_r.
Qed.

Lemma Qcminus_nonneg a b : a ≤ b → 0 ≤ b - a.
Proof.
  intros H. apply (Qcplus_le_mono_r _ _ a). unfold Qcminus.
  by rewrite Qcplus_0_l, <-Qcplus_assoc, (Qcplus_comm (- a)), Qcplus_opp_r, Qcplus_0_r.
Qed.

Lemma Qc_max_ge_l a b : a ≤ Qc_max a b.
Proof.
  unfold Qc_max. destruct (Qc_ltb a b) eqn:H; [|done].
  by apply Qclt_le_weak, Qc_ltb_true.
Qed.

Lemma Qc_max_ge_r a b : b ≤ Qc_max a b.
Proof.
  unfold Qc_max. destruct (Qc_ltb a b) eqn:H; [done|]. by apply Qc_ltb_false.
Qed.

Lemma Qc_min_le_l a b : Qc_min a b ≤ a.
Proof.
  unfold Qc_min. destruct (Qc_ltb b a) eqn:H; [|done].
  by apply Qclt_le_weak, Qc_ltb_true.
Qed.

Lemma Qc_min_le_r a b : Qc_min a b ≤ b.
Proof.
  unfold Qc_min. destruct (Qc_ltb b a) eqn:H; [done|]. by apply Qc_ltb_false.
Qed.

Lemma foldl_max_ge x l : x ≤ foldl Qc_max x l ∧ Forall (λ y, y ≤ foldl Qc_max x l) l.
Proof.
  revert x. induction l as [|y l IH]; intros x; simpl; [done|].
  destruct (IH (Qc_max x y)) as [H1 H2]. split.
  - by etrans; [apply Qc_max_ge_l|].
  - constructor; [|done]. by etrans; [apply Qc_max_ge_r|].
Qed.

Lemma foldl_min_le x l : foldl Qc_min x l ≤ x ∧ Forall (λ y, foldl Qc_min x l ≤ y) l.
Proof.
  revert x. induction l as [|y l IH]; intros x; simpl; [done|].
  destruct (IH (Qc_min x y)) as [H1 H2]. split.
  - by etrans; [|apply Qc_min_le_l].
  - constructor; [|done]. by etrans; [|apply Qc_min_le_r].
Qed.

Lemma py_max_ge l m : py_max l = Ok m → Forall (λ y, y ≤ m) l.
Proof.
  destruct l as [|x l]; [done|]. intros [= <-].
  destruct (foldl_max_ge x l). by constructor.
Qed.

Lemma py_min_le l m : py_min l = Ok m → Forall (λ y, m ≤ y) l.
Proof.
  destruct l as [|x l]; [done|]. intros [= <-].
  destruct (foldl_min_le x l). by constructor.
Qed.

Lemma py_max_ok l : l ≠ [] → ∃ m, py_max l = Ok m.
Proof. destruct l; [done|]. by eexists. Qed.

Lemma py_min_ok l : l ≠ [] → ∃ m, py_min l = Ok m.
Proof. destruct l; [done|]. by eexists. Qed.

Lemma py_min_le_max l mn mx : py_min l = Ok mn → py_max l = Ok mx → mn ≤ mx.
Proof.
  intros Hmn Hmx. destruct l as [|x l]; [done|].
  apply py_min_le, Forall_cons in Hmn as [Hmn _].
  apply py_max_ge, Forall_cons in Hmx as [Hmx _]. by etrans.
Qed.

Lemma foldl_plus_ge acc l :
  Forall (λ y, 0 < y) l → acc ≤ foldl Qcplus acc l.
Proof.
  revert acc. induction l as [|y l IH]; intros acc; simpl; [done|].
  intros [Hy Hl]%Forall_cons. etrans; [|by apply IH].
  rewrite <-(Qcplus_0_r acc) at 1. by apply Qcplus_le_mono_l, Qclt_le_weak.
Qed.

Lemma py_sum_pos l : l ≠ [] → Forall (λ y, 0 < y) l → 0 < py_sum l.
Proof.
  destruct l as [|y l]; [done|]. intros _ [Hy Hl]%Forall_cons.
  unfold py_sum. simpl. rewrite Qcplus_0_l.
  by eapply Qclt_le_trans; [|apply foldl_plus_ge].
Qed.

(** [int] of a non-negative float is its floor. *)
Lemma py_int_floor (x : Qc) :
  0 ≤ x → Qc_of_Z (py_int x) ≤ x ∧ x < Qc_of_Z (py_int x + 1).
Proof.
  destruct x as [[n d] Hc]. unfold py_int, Qcle, Qclt, Qle, Qlt. simpl.
  intros Hn. rewrite Z.mul_1_r in Hn.
  rewrite Z.quot_div_nonneg by lia. rewrite !Z.mul_1_r.
  pose proof (Z.mul_div_le n (Z.pos d) ltac:(lia)).
  pose proof (Z.mul_succ_div_gt n (Z.pos d) ltac:(lia)).
  lia.
Qed.

Lemma flt_fle x y : flt x y = true → fle x y = true.
Proof.
  destruct x as [a| | |], y as [b| | |]; simpl; try done.
  rewrite Qc_ltb_true, negb_true_iff, Qc_ltb_false. apply Qclt_le_weak.
Qed.

Lemma flt_trans x y z : flt x y = true → flt y z = true → flt x z = true.
Proof.
  destruct x as [a| | |], y as [b| | |], z as [c| | |]; simpl; try done.
  rewrite !Qc_ltb_true. apply Qclt_trans.
Qed.

Lemma fle_flt_trans x y z : fle x y = true → flt y z = true → flt x z = true.
Proof.
  destruct x as [a| | |], y as [b| | |], z as [c| | |]; simpl; try done.
  rewrite negb_true_iff, Qc_ltb_false, !Qc_ltb_true. apply Qcle_lt_trans.
Qed.

Lemma fle_trans x y z : fle x y = true → fle y z = true → fle x z = true.
Proof.
  destruct x as [a| | |], y as [b| | |], z as [c| | |]; simpl; try done.
  rewrite !negb_true_iff, !Qc_ltb_false. apply Qcle_trans.
Qed.

Lemma fle_refl x : not_nan x → fle x x = true.
Proof.
  destruct x as [a| | |]; simpl; try done.
  intros _. rewrite negb_true_iff, Qc_ltb_false. apply Qcle_refl.
Qed.

Lemma flt_not_nan_l x y : flt x y = true → not_nan x.
Proof. by destruct x, y. Qed.

Lemma flt_irrefl_pinf x : flt PInf x = false.
Proof. by destruct x. Qed.

Lemma fitness_step a b c :
  (b = a ∨ flt b a = true) → (c = b ∨ flt c b = true) → (c = a ∨ flt c a = true).
Proof.
  intros [->|Hab] [->|Hbc]; [by left|by right|by right|].
  right. by eapply flt_trans.
Qed.

Lemma descending_fle prev l :
  not_nan prev → descending prev l → fle (final prev l) prev = true.
Proof.
  revert prev. induction l as [|x l IH]; intros prev Hnan; simpl.
  { intros _. by apply fle_refl. }
  intros [[->|Hlt] Hl]; [by apply IH|].
  eapply fle_trans; [|by apply flt_fle].
  apply IH; [by eapply flt_not_nan_l|done].
Qed.

(** Closes an equation between two evaluated results that differ only in
    the canonicity proofs of the rationals they carry. *)
Ltac qc_compute :=
  vm_compute;
  lazymatch goal with
  | |- Ok (Fin _) = Ok (Fin _) => do 2 f_equal
  | |- Fin _ = Fin _ => f_equal
  | |- @eq Qc _ _ => idtac
  end;
  apply Qc_is_canon; reflexivity.

(** ** The monads and the random source *)

Lemma rand_bind_ok {A B} (m : Rand A) (k : A → Rand B) g b g' :
  (m ≫= k) g = Ok (b, g') ↔ ∃ a g1, m g = Ok (a, g1) ∧ k a g1 = Ok (b, g').
Proof.
  unfold mbind, rand_bind. split.
  - destruct (m g) as [[a g1]|e]; [eauto | discriminate].
  - intros (a & g1 & -> & Hk). done.
Qed.

Lemma rand_bind_step {A B} (m : Rand A) (k : A → Rand B) g a g1 :
  m g = Ok (a, g1) → (m ≫= k) g = k a g1.
Proof. unfold mbind, rand_bind. by intros ->. Qed.

Lemma rand_bind_raise {A B} (m : Rand A) (k : A → Rand B) g e :
  m g = Raise e → (m ≫= k) g = Raise e.
Proof. unfold mbind, rand_bind. by intros ->. Qed.

Lemma det_ok {A} (r : result A) g a g' :
  det r g = Ok (a, g') ↔ r = Ok a ∧ g' = g.
Proof.
  unfold det. destruct r as [x|e]; split.
  - by intros [= -> ->].
  - by intros [[= ->] ->].
  - discriminate.
  - by intros [? _].
Qed.

Lemma det_bind_ok {A B} (r : result A) (k : A → Rand B) g b g' :
  (det r ≫= k) g = Ok (b, g') → ∃ a, r = Ok a ∧ k a g = Ok (b, g').
Proof.
  unfold mbind, rand_bind, det. destruct r as [a|e]; [by eauto|done].
Qed.

Lemma result_bind_ok {A B} (m : result A) (k : A → result B) b :
  m ≫= k = Ok b → ∃ a, m = Ok a ∧ k a = Ok b.
Proof. destruct m as [a|e]; [by eauto|done]. Qed.

Lemma for_each_cons_ok {A S} (body : S → A → result S) x l s s' :
  body s x = Ok s' → for_each body (x :: l) s = for_each body l s'.
Proof. simpl. by intros ->. Qed.

Lemma for_each_app {A S} (body : S → A → result S) l1 l2 s :
  for_each body (l1 ++ l2) s = for_each body l1 s ≫= for_each body l2.
Proof.
  revert s. induction l1 as [|x l1 IH]; intros s; simpl; [done|].
  destruct (body s x); [|done]. simpl. apply IH.
Qed.

Lemma repeat_loop_S {S} n (body : S → Rand S) s g :
  repeat_loop (Datatypes.S n) body s g
  = match body s g with
    | Ok (s', g') => repeat_loop n body s' g'
    | Raise e => Raise e
    end.
Proof. done. Qed.

Lemma mapM_length {A B} (f : A → result B) l ys :
  mapM f l = Ok ys → length ys = length l.
Proof.
  revert ys. induction l as [|x l IH]; intros ys; simpl.
  { by intros [= <-]. }
  destruct (f x) as [y|e]; [|done]. simpl.
  destruct (mapM f l) as [ys'|e]; [|done]. simpl.
  intros [= <-]. simpl. by rewrite (IH ys').
Qed.

Lemma mapM_ok {A B} (f : A → result B) l :
  Forall (λ x, is_ok (f x) = true) l → is_ok (mapM f l) = true.
Proof.
  induction 1 as [|x l Hx Hl IH]; simpl; [done|].
  destruct (f x); [|done]. simpl. by destruct (mapM f l).
Qed.

Lemma mapM_raise {A B} (f : A → result B) l e :
  mapM f l = Raise e → Exists (λ x, f x = Raise e) l.
Proof.
  induction l as [|x l IH]; simpl; [done|].
  destruct (f x) as [y|e'] eqn:Hx; simpl.
  - destruct (mapM f l) as [ys|e'']; [done|]. simpl.
    intros [= <-]. right. by apply IH.
  - intros [= <-]. by left.
Qed.

Lemma getitem_ok {A} (l : list A) i :
  (i < length l)%nat → ∃ x, getitem l i = Ok x ∧ l !! i = Some x.
Proof.
  intros Hi. destruct (lookup_lt_is_Some_2 _ _ Hi) as [x Hx].
  exists x. unfold getitem. by rewrite Hx.
Qed.

Lemma setitem_ok {A} (l : list A) i x :
  (i < length l)%nat → setitem l i x = Ok (<[i := x]> l).
Proof. intros Hi. unfold setitem. by rewrite decide_True. Qed.

Lemma raw_ok g : random.raw g = Ok (draws g (cursor g), Rng (draws g) (S (cursor g))).
Proof. done. Qed.

(** [random.random()] never raises and lands in [[0, 1)]. *)
Lemma random_ok g : ∃ r g', random.random g = Ok (r, g') ∧ 0 ≤ r ∧ r < 1.
Proof.
  unfold random.random.
  eexists _, _. split; [reflexivity|].
  set (a := draws g (cursor g)). set (b := draws _ _).
  pose proof (Qc_of_nat_pos b) as Hb.
  assert (Hinv : 0 < / Qc_of_nat (S b)) by by apply Qcinv_pos.
  split.
  - unfold Qcdiv. apply Qcmult_nonneg_nonneg; [|by apply Qclt_le_weak].
    unfold Qc_of_nat. rewrite <-Z2Qc_inj_0, <-Z2Qc_inj_le. lia.
  - apply (Qcmult_lt_mono_pos_r _ _ (Qc_of_nat (S b))); [done|].
    unfold Qcdiv. rewrite <-Qcmult_assoc, Qcmult_inv_l, Qcmult_1_r, Qcmult_1_l.
    + unfold Qc_of_nat. rewrite <-Z2Qc_inj_lt.
      pose proof (Nat.mod_upper_bound a (S b)). lia.
    + intros Heq. rewrite Heq in Hb. by apply Qclt_not_eq in Hb.
Qed.

Lemma randint_ok a b g :
  (a ≤ b)%nat →
  ∃ n g', random.randint a b g = Ok (n, g') ∧ (a ≤ n ≤ b)%nat.
Proof.
  intros Hab. unfold random.randint. case_decide; [lia|].
  eexists _, _. split; [reflexivity|].
  pose proof (Nat.mod_upper_bound (draws g (cursor g)) (b - a + 1)). lia.
Qed.

Lemma uniform_ok a b g : ∃ x g', random.uniform a b g = Ok (x, g').
Proof.
  unfold random.uniform.
  destruct (random_ok g) as (r & g' & Hr & _).
  eexists _, _. by rewrite (rand_bind_step _ _ _ _ _ Hr).
Qed.

Lemma choice_ok {A} (l : list A) g :
  l ≠ [] → ∃ x g', random.choice l g = Ok (x, g') ∧ x ∈ l.
Proof.
  intros Hl. destruct l as [|y l]; [done|].
  unfold random.choice. eexists _, _. split; [reflexivity|].
  set (n := (_ mod _)%nat).
  assert (Hn : (n < length (y :: l))%nat) by (apply Nat.mod_upper_bound; done).
  destruct (lookup_lt_is_Some_2 _ _ Hn) as [x Hx].
  rewrite Hx. simpl. by eapply list_elem_of_lookup_2.
Qed.

Lemma choice_empty {A} g : random.choice (@nil A) g = Raise IndexError.
Proof. done. Qed.

Lemma accumulate_length acc ws : length (random.accumulate acc ws) = length ws.
Proof. revert acc. induction ws as [|w ws IH]; intros acc; simpl; [done|]. by rewrite IH. Qed.

Lemma bisect_le a x hi : (random.bisect a x hi ≤ hi)%nat.
Proof.
  revert a. induction hi as [|hi IH]; intros [|e a]; simpl; try lia.
  destruct (Qc_ltb x e); [lia|]. specialize (IH a). lia.
Qed.

(** [random.choices] returns a member of the population as soon as the
    weights match it in number and their total is positive. *)
Lemma choices_ok {A} (population : list A) (weights : list Qc) total g :
  length weights = length population →
  last (random.accumulate 0 weights) = Some total →
  0 < total →
  ∃ x g', random.choices population weights g = Ok (x, g') ∧ x ∈ population.
Proof.
  intros Hlen Hlast Htot. unfold random.choices.
  rewrite accumulate_length. case_decide; [done|].
  rewrite Hlast. destruct population as [|y pop].
  { destruct weights; [done|discriminate]. }
  case_decide as Hle; [by apply Qcle_not_lt in Hle|].
  destruct (random_ok g) as (u & g1 & Hu & _).
  rewrite (rand_bind_step _ _ _ _ _ Hu).
  eexists _, _. split; [reflexivity|].
  set (i := random.bisect _ _ _).
  assert (Hi : (i < length (y :: pop))%nat).
  { pose proof (bisect_le (random.accumulate 0 weights) (u * total)
                 (length (y :: pop) - 1)). simpl in *. lia. }
  destruct (lookup_lt_is_Some_2 _ _ Hi) as [x Hx].
  rewrite Hx. simpl. by eapply list_elem_of_lookup_2.
Qed.

Lemma sample2_ok n g :
  (2 ≤ n)%nat →
  ∃ i j g', random.sample2 n g = Ok ((i, j), g') ∧ (i < n)%nat ∧ (j < n)%nat ∧ i ≠ j.
Proof.
  intros Hn. unfold random.sample2. case_decide; [lia|].
  eexists _, _, _. split; [reflexivity|].
  set (a := draws g (cursor g)). set (b := draws _ _).
  pose proof (Nat.mod_upper_bound a n).
  pose proof (Nat.mod_upper_bound b (n - 1)).
  case_decide; lia.
Qed.

(** * The fitness evaluator *)

Import FitnessCalculator.

(** ** The first pass *)

Lemma first_pass_step_inv tasks t a t' :
  first_pass_step tasks t a = Ok t' →
  task_of a ∈ dom tasks ∧
  dom (completion_times t') = {[task_of a]} ∪ dom (completion_times t) ∧
  dom (start_times t') = {[task_of a]} ∪ dom (start_times t) ∧
  dom (student_workloads t') = dom (student_workloads t) ∧
  dom (student_timelines t') = dom (student_timelines t).
Proof.
  destruct a as [[task_id student_id] start]. unfold first_pass_step, task_of. simpl.
  destruct (tasks !! task_id) as [tk|] eqn:Htk; [|discriminate].
  destruct (student_workloads t !! student_id) as [w|] eqn:Hw; [|discriminate].
  destruct (student_timelines t !! student_id) as [tl|] eqn:Htl; [|discriminate].
  intros [= <-]. simpl. rewrite !dom_insert_L.
  split; [by apply elem_of_dom|]. split; [done|]. split; [done|].
  apply elem_of_dom_2 in Hw, Htl. split; set_solver.
Qed.

Lemma first_pass_step_raise tasks t a e :
  first_pass_step tasks t a = Raise e → e = KeyError.
Proof.
  destruct a as [[task_id student_id] start]. unfold first_pass_step.
  repeat case_match; congruence.
Qed.

Lemma first_pass_step_ok tasks t a :
  task_of a ∈ dom tasks →
  student_of a ∈ dom (student_workloads t) →
  dom (student_timelines t) = dom (student_workloads t) →
  is_ok (first_pass_step tasks t a) = true.
Proof.
  destruct a as [[task_id student_id] start]. unfold task_of, student_of. simpl.
  intros [tk Htk]%elem_of_dom Hs Hdom.
  assert (Hs' := Hs). rewrite <-Hdom in Hs'.
  apply elem_of_dom in Hs as [w Hw]. apply elem_of_dom in Hs' as [tl Htl].
  unfold first_pass_step. by rewrite Htk, Hw, Htl.
Qed.

Lemma for_each_first_pass_inv tasks sol t0 t :
  for_each (first_pass_step tasks) sol t0 = Ok t →
  tasks_in sol ⊆ dom tasks ∧
  dom (completion_times t) = tasks_in sol ∪ dom (completion_times t0) ∧
  dom (start_times t) = tasks_in sol ∪ dom (start_times t0) ∧
  dom (student_workloads t) = dom (student_workloads t0) ∧
  dom (student_timelines t) = dom (student_timelines t0).
Proof.
  unfold tasks_in. revert t0. induction sol as [|a sol IH]; intros t0; simpl.
  { intros [= <-]. set_solver. }
  destruct (first_pass_step tasks t0 a) as [t1|e] eqn:Hstep; [|discriminate].
  simpl. intros Hrest.
  apply first_pass_step_inv in Hstep as (Ha & Hc & Hs & Hw & Htl).
  apply IH in Hrest as (Hsub & Hc' & Hs' & Hw' & Htl').
  rewrite Hc', Hs', Hw', Htl', Hc, Hs, Hw, Htl. set_solver.
Qed.

Lemma for_each_first_pass_raise tasks sol t0 e :
  for_each (first_pass_step tasks) sol t0 = Raise e → e = KeyError.
Proof.
  revert t0. induction sol as [|a sol IH]; intros t0; simpl; [discriminate|].
  destruct (first_pass_step tasks t0 a) as [t1|e'] eqn:Hstep; simpl.
  - apply IH.
  - intros [= <-]. by eapply first_pass_step_raise.
Qed.

Lemma for_each_first_pass_ok tasks sol t0 :
  (∀ a, a ∈ sol → task_of a ∈ dom tasks ∧ student_of a ∈ dom (student_workloads t0)) →
  dom (student_timelines t0) = dom (student_workloads t0) →
  is_ok (for_each (first_pass_step tasks) sol t0) = true.
Proof.
  revert t0. induction sol as [|a sol IH]; intros t0 Hids Hdom; simpl; [done|].
  destruct (Hids a) as [Ht Hs]; [left|].
  pose proof (first_pass_step_ok tasks t0 a Ht Hs Hdom) as Hok.
  destruct (first_pass_step tasks t0 a) as [t1|e] eqn:Hstep; [|done].
  simpl. apply first_pass_step_inv in Hstep as (_ & _ & _ & Hw & Htl).
  apply IH.
  - intros b Hb. rewrite Hw. apply Hids. by right.
  - by rewrite Hw, Htl.
Qed.

Lemma init_tables_dom students :
  dom (student_workloads (init_tables students)) = dom students ∧
  dom (student_timelines (init_tables students)) = dom students.
Proof. simpl. by rewrite !dom_fmap_L. Qed.

Lemma first_pass_ok tasks students sol :
  known_ids tasks students sol → is_ok (first_pass tasks students sol) = true.
Proof.
  intros Hids. destruct (init_tables_dom students) as [Hw Htl].
  apply for_each_first_pass_ok; [|by rewrite Hw, Htl].
  intros a Ha. rewrite Hw. by apply (proj1 (Forall_forall _ _) Hids).
Qed.

Lemma first_pass_inv tasks students sol t :
  first_pass tasks students sol = Ok t →
  tasks_in sol ⊆ dom tasks ∧
  dom (completion_times t) = tasks_in sol ∧
  dom (start_times t) = tasks_in sol ∧
  dom (student_workloads t) = dom students ∧
  dom (student_timelines t) = dom students.
Proof.
  intros H. apply for_each_first_pass_inv in H as (Hsub & Hc & Hs & Hw & Htl).
  destruct (init_tables_dom students) as [Hw0 Htl0].
  rewrite Hc, Hs, Hw, Htl, Hw0, Htl0. simpl. rewrite !dom_empty_L.
  split; [done|]. split; [set_solver|]. split; [set_solver|]. done.
Qed.

Lemma tasks_in_spec sol t : t ∈ tasks_in sol ↔ t ∈ task_of <$> sol.
Proof. unfold tasks_in. by rewrite elem_of_list_to_set. Qed.

Lemma tasks_in_nonempty sol : sol ≠ [] → tasks_in sol ≠ ∅.
Proof.
  destruct sol as [|a sol]; [done|]. intros _. unfold tasks_in. simpl. set_solver.
Qed.

Lemma values_nonempty {V} (m : gmap string V) :
  dom m ≠ ∅ → ∃ v vs, (map_to_list m).*2 = v :: vs.
Proof.
  intros Hm. destruct (map_to_list m) as [|[k v] l] eqn:Hl.
  - apply map_to_list_empty_iff in Hl. subst. by rewrite dom_empty_L in Hm.
  - by eexists _, _.
Qed.

Lemma value_in_values {V} (m : gmap string V) k v :
  m !! k = Some v → v ∈ (map_to_list m).*2.
Proof.
  intros H. apply list_elem_of_fmap. exists (k, v). split; [done|].
  by apply elem_of_map_to_list.
Qed.

Lemma first_pass_step_linked tasks t a t' :
  first_pass_step tasks t a = Ok t' → times_linked tasks t → times_linked tasks t'.
Proof.
  destruct a as [[task_id student_id] start]. unfold first_pass_step.
  destruct (tasks !! task_id) as [tk|] eqn:Htk; [|done].
  destruct (student_workloads t !! student_id) as [w|]; [|done].
  destruct (student_timelines t !! student_id) as [tl|]; [|done].
  intros [= <-] Hlinked id c. simpl. rewrite !lookup_insert.
  case_decide as Hid.
  - subst. intros [= <-]. by exists (float start), tk.
  - apply Hlinked.
Qed.

Lemma for_each_first_pass_linked tasks sol t0 t :
  for_each (first_pass_step tasks) sol t0 = Ok t →
  times_linked tasks t0 → times_linked tasks t.
Proof.
  revert t0. induction sol as [|a sol IH]; intros t0; simpl.
  { by intros [= <-]. }
  intros H. apply result_bind_ok in H as (t1 & Hstep & H). intros Hl.
  eapply IH; [done|]. by eapply first_pass_step_linked.
Qed.

Lemma first_pass_linked tasks students sol t :
  first_pass tasks students sol = Ok t → times_linked tasks t.
Proof.
  intros H. eapply for_each_first_pass_linked; [done|].
  intros id c. simpl. by rewrite lookup_empty.
Qed.

(** ** Missing and duplicated tasks *)

(** A task without an assignment makes the length test fail. *)
Lemma missing_size tasks students sol t tid :
  first_pass tasks students sol = Ok t →
  tid ∈ dom tasks → tid ∉ task_of <$> sol →
  size (completion_times t) ≠ size tasks.
Proof.
  intros Hfp Htid Hmiss.
  apply first_pass_inv in Hfp as (Hsub & Hc & _).
  rewrite <-!size_dom, Hc.
  assert (tasks_in sol ⊂ dom tasks) as Hlt.
  { split; [done|]. intros Hsup. apply Hmiss, tasks_in_spec. by apply Hsup. }
  apply subset_size in Hlt. lia.
Qed.

(** C1 (amended): when some task of the problem has no assignment in the
    solution, [calculate_fitness] returns [+inf] or raises [KeyError]; it
    returns [+inf] whenever the solution names tasks and students of the
    problem only.  (A task assigned twice is not detected as such: the test
    counts distinct task identifiers.) *)
Theorem fitness_missing_task (tasks : gmap string task)
    (students : gmap string student) (sol : solution) (tid : string) :
  tid ∈ dom tasks → tid ∉ task_of <$> sol →
  (calculate_fitness tasks students sol = Ok PInf ∨
   calculate_fitness tasks students sol = Raise KeyError) ∧
  (known_ids tasks students sol →
   calculate_fitness tasks students sol = Ok PInf).
Proof.
  intros Htid Hmiss. unfold calculate_fitness, calculate_fitness_body.
  destruct sol as [|a sol]; [by split; [left|]|].
  set (s := a :: sol) in *.
  destruct (first_pass tasks students s) as [t|e] eqn:Hfp; simpl.
  - rewrite bool_decide_eq_true_2 by by eapply missing_size.
    by split; [left|].
  - split.
    + right. f_equal. by eapply for_each_first_pass_raise.
    + intros Hids. apply first_pass_ok in Hids. by rewrite Hfp in Hids.
Qed.

Ltac known_ids_compute :=
  unfold known_ids;
  repeat first [ apply List.Forall_nil
               | apply List.Forall_cons; [split; by vm_compute|] ].

Lemma fitness_missing_task_witness :
  calculate_fitness tasks_2 students_1 sol_one = Ok PInf.
Proof.
  apply (fitness_missing_task tasks_2 students_1 sol_one "T2").
  - by vm_compute.
  - intros [H|H]%elem_of_cons; [discriminate|by apply elem_of_nil in H].
  - known_ids_compute.
Defined.

Lemma duplicated_task_not_detected :
  "T1" ∈ dom tasks_2 ∧ duplicated sol_duplicated "T1" ∧
  known_ids tasks_2 students_1 sol_duplicated ∧
  calculate_fitness tasks_2 students_1 sol_duplicated = Ok (Fin (Qc_of_Z 100)).
Proof.
  split; [by vm_compute|]. split; [vm_compute; lia|]. split.
  - known_ids_compute.
  - qc_compute.
Qed.

(** ** Degenerate problems *)

(** With no worker at all, every non-empty solution raises. *)
Lemma zero_workers_raise tasks (sol : solution) :
  sol ≠ [] → calculate_fitness tasks ∅ sol = Raise KeyError.
Proof.
  destruct sol as [|[[task_id student_id] start] sol]; [done|]. intros _.
  unfold calculate_fitness, calculate_fitness_body, first_pass. simpl.
  destruct (tasks !! task_id); [|done].
  unfold init_tables. simpl. by rewrite fmap_empty, lookup_empty.
Qed.

(** With a zero total duration, a solution that passes the coverage test
    reaches the division of the time penalty. *)
Lemma zero_duration_raise tasks students sol :
  sol ≠ [] → total_task_duration tasks = 0 →
  known_ids tasks students sol → tasks_in sol = dom tasks →
  calculate_fitness tasks students sol = Raise ZeroDivisionError.
Proof.
  intros Hne HD Hids Hcover. unfold calculate_fitness, calculate_fitness_body.
  destruct sol as [|a sol]; [done|]. set (s := a :: sol) in *.
  pose proof (first_pass_ok _ _ _ Hids) as Hok.
  destruct (first_pass tasks students s) as [t|e] eqn:Hfp; [|done]. simpl.
  apply first_pass_inv in Hfp as (_ & Hc & Hs & _).
  rewrite bool_decide_eq_false_2; last first.
  { intros Hsz. apply Hsz. by rewrite <-!size_dom, Hc, Hcover. }
  destruct (values_nonempty (completion_times t)) as (c & cs & ->).
  { rewrite Hc. by apply tasks_in_nonempty. }
  destruct (values_nonempty (start_times t)) as (x & xs & ->).
  { rewrite Hs. by apply tasks_in_nonempty. }
  simpl. rewrite HD. unfold qdiv, Qc_eqb. by rewrite (bool_decide_eq_true_2 (0 = 0)).
Qed.

(** C3: what [calculate_fitness] does on the degenerate problems.  With no
    student every non-empty solution raises [KeyError]; with a zero total
    duration every solution that covers the tasks raises
    [ZeroDivisionError].  The claim asks for [+inf] without an exception. *)
Theorem degenerate_fitness_raises (tasks : gmap string task)
    (students : gmap string student) (sol : solution) :
  sol ≠ [] →
  (size students = 0%nat →
   calculate_fitness tasks students sol = Raise KeyError) ∧
  (total_task_duration tasks = 0 →
   known_ids tasks students sol → tasks_in sol = dom tasks →
   calculate_fitness tasks students sol = Raise ZeroDivisionError).
Proof.
  intros Hne. split.
  - intros ->%map_size_empty_iff. by apply zero_workers_raise.
  - by apply zero_duration_raise.
Qed.

Lemma degenerate_fitness_raises_witness :
  calculate_fitness tasks_one ∅ sol_one = Raise KeyError ∧
  calculate_fitness tasks_zero students_1 sol_one = Raise ZeroDivisionError.
Proof.
  split.
  - apply (degenerate_fitness_raises tasks_one ∅ sol_one); done.
  - apply (degenerate_fitness_raises tasks_zero students_1 sol_one).
    + done.
    + by apply Qc_is_canon.
    + known_ids_compute.
    + by vm_compute.
Defined.

(** ** The evaluator returns a finite value or [+inf], never NaN *)

Lemma finish_obind {A} (m : outcome A) (k : A → outcome pyfloat) v :
  finish (obind m k) = Ok v →
  m = Return v ∨ ∃ a, m = Next a ∧ finish (k a) = Ok v.
Proof.
  destruct m as [a|w|e]; simpl; [by eauto| |done].
  intros [= ->]. by left.
Qed.

Lemma loop_return {A S} (body : S → A → outcome S) l s v :
  (∀ s x w, body s x = Return w → w = PInf) →
  loop body l s = Return v → v = PInf.
Proof.
  intros Hbody. revert s. induction l as [|x l IH]; intros s; simpl; [done|].
  destruct (body s x) as [s'|w|e] eqn:Hb; simpl; [by apply IH| |done].
  intros [= <-]. by eapply Hbody.
Qed.

Lemma dep_step_return t D task_id p dep_id w :
  dep_step t D task_id p dep_id = Return w → w = PInf.
Proof.
  unfold dep_step. destruct (completion_times t !! dep_id); [|by intros [= <-]].
  destruct (start_times t !! task_id); [|done].
  destruct (Qc_ltb _ _); [|done]. by destruct (qdiv _ _).
Qed.

Lemma dependency_penalty_return tasks t D w :
  dependency_penalty tasks t D = Return w → w = PInf.
Proof.
  apply loop_return. intros s [task_id tk] v.
  apply loop_return. intros. by eapply dep_step_return.
Qed.

Lemma lift_not_return {A} (r : result A) w : lift r ≠ Return w.
Proof. by destruct r. Qed.

Lemma workload_penalty_range students t D p :
  workload_penalty students t D = Ok p → p = PInf ∨ ∃ q, p = Fin q.
Proof.
  unfold workload_penalty.
  destruct (py_max _); [|done]. destruct (py_min _); [|done]. simpl.
  destruct (qdiv D _); [|done]. simpl.
  destruct (Qc_eqb _ _); [by intros [= <-]; left|].
  destruct (qdiv _ _); [|done]. simpl. intros [= <-]. by eauto.
Qed.

Lemma calculate_fitness_range tasks students sol v :
  calculate_fitness tasks students sol = Ok v → v = PInf ∨ ∃ q, v = Fin q.
Proof.
  unfold calculate_fitness, calculate_fitness_body.
  destruct sol as [|a sol]; [by intros [= <-]; left|].
  intros H.
  apply finish_obind in H as [H|(t & _ & H)]; [by apply lift_not_return in H|].
  case_bool_decide; [by injection H as <-; left|].
  apply finish_obind in H as [H|(max_c & _ & H)]; [by apply lift_not_return in H|].
  apply finish_obind in H as [H|(min_s & _ & H)]; [by apply lift_not_return in H|].
  apply finish_obind in H as [H|(r & _ & H)]; [by apply lift_not_return in H|].
  apply finish_obind in H as [H|(p_dep & _ & H)];
    [left; by eapply dependency_penalty_return|].
  apply finish_obind in H as [H|(p_skill & _ & H)]; [by apply lift_not_return in H|].
  apply finish_obind in H as [H|(p_load & Hload & H)]; [by apply lift_not_return in H|].
  apply finish_obind in H as [H|(p_overlap & _ & H)]; [by apply lift_not_return in H|].
  simpl in H. injection H as <-.
  destruct (workload_penalty students t (total_task_duration tasks))
    as [p|e] eqn:Hw; [|done].
  injection Hload as ->.
  apply workload_penalty_range in Hw as [->|[q ->]].
  - by left.
  - right. by eexists.
Qed.

Lemma calculate_fitness_not_nan tasks students sol v :
  calculate_fitness tasks students sol = Ok v → not_nan v.
Proof. intros [->|[q ->]]%calculate_fitness_range; done. Qed.

(** ** The evaluator on well-formed problems *)

Lemma total_task_duration_pos tasks :
  tasks ≠ ∅ → map_Forall (λ _ tk, 0 < estimated_time tk) tasks →
  0 < total_task_duration tasks.
Proof.
  intros Hne Hpos. unfold total_task_duration. apply py_sum_pos.
  - intros Hnil. apply Hne, map_to_list_empty_iff.
    destruct (map_to_list tasks); [done|discriminate].
  - apply Forall_fmap, Forall_fmap, Forall_forall.
    intros [k tk] Hin%elem_of_map_to_list. by apply (Hpos k tk).
Qed.

Lemma loop_nonneg {A} (body : Qc → A → outcome Qc) l p0 :
  (∀ p x, x ∈ l → 0 ≤ p →
     (∃ p', body p x = Next p' ∧ 0 ≤ p') ∨ body p x = Return PInf) →
  0 ≤ p0 →
  (∃ p, loop body l p0 = Next p ∧ 0 ≤ p) ∨ loop body l p0 = Return PInf.
Proof.
  revert p0. induction l as [|x l IH]; intros p0 Hbody Hp0; simpl.
  { left. by exists p0. }
  destruct (Hbody p0 x) as [(p' & -> & Hp')| ->]; [by left|done| |by right].
  simpl. apply IH; [|done]. intros p y Hy. apply Hbody. by right.
Qed.

Lemma for_each_nonneg {A} (body : Qc → A → result Qc) l p0 :
  (∀ p x, x ∈ l → 0 ≤ p → ∃ p', body p x = Ok p' ∧ 0 ≤ p') →
  0 ≤ p0 →
  ∃ p, for_each body l p0 = Ok p ∧ 0 ≤ p.
Proof.
  revert p0. induction l as [|x l IH]; intros p0 Hbody Hp0; simpl.
  { by exists p0. }
  destruct (Hbody p0 x) as (p' & -> & Hp'); [by left|done|].
  simpl. apply IH; [|done]. intros p y Hy. apply Hbody. by right.
Qed.

Lemma penalty_step_nonneg p k r : 0 ≤ p → (0 < k)%Z → 0 ≤ r → 0 ≤ p + Qc_of_Z k * r.
Proof.
  intros Hp Hk Hr. apply Qcplus_nonneg_nonneg; [done|].
  apply Qcmult_nonneg_nonneg; [|done]. by apply Qclt_le_weak, Qc_of_Z_pos.
Qed.

Lemma dep_step_nonneg t D task_id p dep_id :
  0 < D → is_Some (start_times t !! task_id) → 0 ≤ p →
  (∃ p', dep_step t D task_id p dep_id = Next p' ∧ 0 ≤ p') ∨
  dep_step t D task_id p dep_id = Return PInf.
Proof.
  intros HD [s Hs] Hp. unfold dep_step.
  destruct (completion_times t !! dep_id) as [c|]; [|by right].
  rewrite Hs. left. destruct (Qc_ltb s c) eqn:Hlt; [|by exists p].
  rewrite qdiv_ok by by apply Qc_pos_ne_0. simpl. eexists. split; [done|].
  apply penalty_step_nonneg; [done..|].
  apply Qcdiv_nonneg; [|done]. by apply Qcminus_nonneg, Qclt_le_weak, Qc_ltb_true.
Qed.

Lemma dependency_penalty_nonneg tasks t D :
  0 < D → dom (start_times t) = dom tasks →
  (∃ p, dependency_penalty tasks t D = Next p ∧ 0 ≤ p) ∨
  dependency_penalty tasks t D = Return PInf.
Proof.
  intros HD Hdom. unfold dependency_penalty. apply loop_nonneg; [|done].
  intros p [task_id tk] Hin%elem_of_map_to_list Hp.
  apply loop_nonneg; [|done]. intros p' dep_id _ Hp'.
  apply dep_step_nonneg; [done| |done].
  apply elem_of_dom. rewrite Hdom. by apply elem_of_dom_2 in Hin.
Qed.

Lemma skill_step_nonneg st p req : 0 ≤ p → 0 ≤ skill_step st p req.
Proof.
  intros Hp. destruct req as [skill required]. unfold skill_step.
  destruct (Qc_ltb _ _) eqn:Hlt; [|done].
  apply penalty_step_nonneg; [done..|].
  by apply Qcminus_nonneg, Qclt_le_weak, Qc_ltb_true.
Qed.

Lemma foldl_skill_nonneg st p reqs : 0 ≤ p → 0 ≤ foldl (skill_step st) p reqs.
Proof.
  revert p. induction reqs as [|r reqs IH]; intros p Hp; simpl; [done|].
  by apply IH, skill_step_nonneg.
Qed.

Lemma skill_penalty_nonneg tasks students sol :
  known_ids tasks students sol →
  ∃ p, skill_penalty tasks students sol = Ok p ∧ 0 ≤ p.
Proof.
  intros Hk. unfold skill_penalty. apply for_each_nonneg; [|done].
  intros p [[task_id student_id] start] Hin Hp.
  destruct (proj1 (Forall_forall _ _) Hk _ Hin) as [Ht Hs].
  unfold task_of, student_of in Ht, Hs. cbn in Ht, Hs.
  apply elem_of_dom in Ht as [tk Htk]. apply elem_of_dom in Hs as [st Hst].
  rewrite Htk, Hst.
  eexists. split; [done|]. by apply foldl_skill_nonneg.
Qed.

Lemma overlap_timeline_nonneg D tl p :
  0 < D → 0 ≤ p → ∃ p', overlap_timeline D tl p = Ok p' ∧ 0 ≤ p'.
Proof.
  intros HD. revert p. induction tl as [|a tl IH]; intros p Hp; [by exists p|].
  destruct tl as [|b tl]; [by exists p|].
  cbn [overlap_timeline]. destruct (Qc_ltb b.1 a.2) eqn:Hlt; [|by apply IH].
  rewrite qdiv_ok by by apply Qc_pos_ne_0. cbn. apply IH.
  apply penalty_step_nonneg; [done..|].
  apply Qcdiv_nonneg; [|done]. by apply Qcminus_nonneg, Qclt_le_weak, Qc_ltb_true.
Qed.

Lemma overlap_penalty_nonneg t D :
  0 < D → ∃ p, overlap_penalty t D = Ok p ∧ 0 ≤ p.
Proof.
  intros HD. unfold overlap_penalty. apply for_each_nonneg; [|done].
  intros p [sid timeline] _ Hp. by apply overlap_timeline_nonneg.
Qed.

Lemma workload_penalty_nonneg students t D :
  0 < D → students ≠ ∅ → dom (student_workloads t) = dom students →
  ∃ r, workload_penalty students t D = Ok (Fin r) ∧ 0 ≤ r.
Proof.
  intros HD Hne Hdom. unfold workload_penalty.
  destruct (values_nonempty (student_workloads t)) as (w & ws & Hws).
  { rewrite Hdom. intros H. by apply Hne, dom_empty_iff_L. }
  rewrite Hws.
  destruct (py_max_ok (w :: ws)) as [mx Hmx]; [done|].
  destruct (py_min_ok (w :: ws)) as [mn Hmn]; [done|].
  rewrite Hmx, Hmn. cbn.
  assert (0 < Qc_of_nat (size students)) as Hn.
  { unfold Qc_of_nat. apply Qc_of_Z_pos.
    assert (size students ≠ 0%nat) by by intros ?%map_size_empty_iff. lia. }
  rewrite qdiv_ok by by apply Qc_pos_ne_0. cbn.
  assert (0 < D / Qc_of_nat (size students)) as Havg by by apply Qcdiv_pos.
  rewrite (proj2 (Qc_eqb_false _ 0)) by by apply Qc_pos_ne_0.
  rewrite qdiv_ok by by apply Qc_pos_ne_0. cbn.
  eexists. split; [done|]. apply Qcdiv_nonneg; [|done].
  apply Qcmult_nonneg_nonneg; [by apply Qclt_le_weak, Qc_of_Z_pos|].
  apply Qcminus_nonneg. by eapply py_min_le_max.
Qed.

(** On a well-formed problem the evaluator returns on every solution that
    names known tasks and students, and what it returns is positive. *)
Lemma calculate_fitness_wf tasks students sol :
  wf_problem tasks students → known_ids tasks students sol →
  ∃ v, calculate_fitness tasks students sol = Ok v ∧ positive_fitness v.
Proof.
  intros [Hdur Hstud] Hk. unfold calculate_fitness, calculate_fitness_body.
  destruct sol as [|a sol]; [exists PInf; by split; [|left]|].
  set (s := a :: sol) in *.
  pose proof (first_pass_ok _ _ _ Hk) as Hok.
  destruct (first_pass tasks students s) as [t|e] eqn:Hfp; [|done]. cbn [obind lift finish].
  case_bool_decide as Hsize; [exists PInf; by split; [|left]|].
  pose proof (first_pass_linked _ _ _ _ Hfp) as Hlinked.
  apply first_pass_inv in Hfp as (Hsub & Hc & Hs & Hw & _).
  assert (tasks_in s = dom tasks) as Hcover.
  { apply set_subseteq_size_eq; [done|].
    rewrite <-Hc, !size_dom. lia. }
  assert (task_of a ∈ tasks_in s) as Ha by (apply tasks_in_spec; set_solver).
  assert (0 < total_task_duration tasks) as HD.
  { apply total_task_duration_pos; [|done]. intros ->. set_solver. }
  destruct (values_nonempty (completion_times t)) as (c0 & cs & Hcs).
  { rewrite Hc. set_solver. }
  destruct (values_nonempty (start_times t)) as (s0 & ss & Hss).
  { rewrite Hs. set_solver. }
  destruct (py_max_ok (c0 :: cs)) as [max_c Hmax]; [done|].
  destruct (py_min_ok (s0 :: ss)) as [min_s Hmin]; [done|].
  rewrite Hcs, Hss, Hmax, Hmin. cbn [obind lift finish].
  rewrite qdiv_ok by by apply Qc_pos_ne_0. cbn [obind lift finish].
  assert (0 < max_c - min_s) as Hspan.
  { assert (task_of a ∈ dom (completion_times t)) as Hin by by rewrite Hc.
    apply elem_of_dom in Hin as [c Hcl].
    destruct (Hlinked _ _ Hcl) as (st & tk & Hst & Htk & ->).
    pose proof (Hdur _ _ Htk) as Hpos. simpl in Hpos.
    apply value_in_values in Hcl, Hst. rewrite Hcs in Hcl. rewrite Hss in Hst.
    pose proof (proj1 (Forall_forall _ _) (py_max_ge _ _ Hmax) _ Hcl) as Hle1.
    pose proof (proj1 (Forall_forall _ _) (py_min_le _ _ Hmin) _ Hst) as Hle2.
    simpl in Hle1, Hle2.
    apply Qcminus_pos. eapply Qcle_lt_trans; [exact Hle2|].
    eapply Qclt_le_trans; [|exact Hle1].
    rewrite <-(Qcplus_0_r st) at 1. by apply Qcplus_lt_mono_l. }
  destruct (dependency_penalty_nonneg tasks t (total_task_duration tasks) HD)
    as [(p_dep & -> & Hdep)| ->]; [by rewrite Hs| |exists PInf; by split; [|left]].
  cbn [obind lift finish].
  destruct (skill_penalty_nonneg tasks students s Hk) as (p_skill & -> & Hskill).
  cbn [obind lift finish].
  destruct (workload_penalty_nonneg students t (total_task_duration tasks) HD Hstud Hw)
    as (r & -> & Hr).
  cbn [obind lift finish].
  destruct (overlap_penalty_nonneg t (total_task_duration tasks) HD)
    as (p_overlap & -> & Hoverlap).
  cbn [obind lift finish fadd fmul]. eexists. split; [done|]. right. eexists. split; [done|].
  repeat apply Qcplus_pos_nonneg.
  - apply Qcmult_pos_pos; [done|].
    apply Qcmult_pos_pos; [by apply Qcdiv_pos|done].
  - apply Qcmult_nonneg_nonneg; done.
  - apply Qcmult_nonneg_nonneg; done.
  - apply Qcmult_nonneg_nonneg; done.
  - apply Qcmult_nonneg_nonneg; done.
Qed.

Lemma students_1_nonempty : students_1 ≠ ∅.
Proof. intros H. by apply (f_equal (λ m, m !! "S1")) in H. Qed.

Lemma wf_problem_one : wf_problem tasks_one students_1.
Proof.
  split; [|apply students_1_nonempty].
  apply map_Forall_insert_2; [done|apply map_Forall_empty].
Qed.

Lemma fitness_sol_one :
  calculate_fitness tasks_one students_1 sol_one = Ok (Fin (Qc_of_Z 100)).
Proof. qc_compute. Qed.

(** * The fitness cache *)

Section Cache.
Variable tasks : gmap string task.
Variable students : gmap string student.

Lemma get_fitness_consistent cache sol :
  cache_consistent tasks students cache →
  observed (GeneticAlgorithm.get_fitness tasks students cache sol)
  = calculate_fitness tasks students sol ∧
  ∀ v cache',
    GeneticAlgorithm.get_fitness tasks students cache sol = Ok (v, cache') →
    cache_consistent tasks students cache'.
Proof.
  intros Hc. unfold GeneticAlgorithm.get_fitness.
  destruct (cache !! sol) as [v|] eqn:Hlook.
  - unfold dict_get. rewrite Hlook. simpl. split.
    + symmetry. by apply Hc.
    + by intros ? ? [= _ <-].
  - destruct (calculate_fitness tasks students sol) as [f|e] eqn:Hf; simpl.
    + unfold dict_get. rewrite lookup_insert_eq. simpl. split; [done|].
      intros ? ? [= _ <-] s v. rewrite lookup_insert.
      case_decide as Heq; [by intros [= <-]; subst|by apply Hc].
    + by split.
Qed.

Lemma run_op_consistent cache op :
  cache_consistent tasks students cache →
  cache_consistent tasks students
    (GeneticAlgorithm.run_op tasks students cache op).
Proof.
  intros Hc. destruct op as [sol|]; simpl.
  - destruct (get_fitness_consistent cache sol Hc) as [_ Hpres].
    destruct (GeneticAlgorithm.get_fitness tasks students cache sol)
      as [[v cache']|e]; [by eapply Hpres|done].
  - by intros s v.
Qed.

Lemma run_ops_consistent ops :
  cache_consistent tasks students (GeneticAlgorithm.run_ops tasks students ops).
Proof.
  unfold GeneticAlgorithm.run_ops.
  assert (cache_consistent tasks students ∅) as H0 by by intros s v.
  revert H0. generalize (∅ : gmap solution pyfloat).
  induction ops as [|op ops IH]; intros cache Hc; simpl; [done|].
  by apply IH, run_op_consistent.
Qed.

(** C8: whatever queries and clears came before, [get_fitness] hands out
    what [calculate_fitness] computes for the solution: its value, or its
    exception. *)
Theorem get_fitness_observational (ops : list GeneticAlgorithm.cache_op)
    (sol : solution) :
  observed (GeneticAlgorithm.get_fitness tasks students
              (GeneticAlgorithm.run_ops tasks students ops) sol)
  = calculate_fitness tasks students sol.
Proof. apply get_fitness_consistent, run_ops_consistent. Qed.

End Cache.

(** * Uniform crossover *)

Lemma uniform_loop_never p1 p2 idx children g :
  ∃ g', Crossover.uniform_loop p1 p2 0 idx children g = Ok (children, g').
Proof.
  revert children g. induction idx as [|i idx IH]; intros [c1 c2] g; simpl.
  { by eexists. }
  destruct (random_ok g) as (r & g1 & Hr & Hr0 & _).
  unfold Crossover.uniform_step.
  rewrite (rand_bind_step _ _ _ (c1, c2) g1).
  { apply IH. }
  rewrite (rand_bind_step _ _ _ _ _ Hr).
  by rewrite (proj2 (Qc_ltb_false r 0) Hr0).
Qed.

Lemma uniform_loop_always (p1 p2 : solution) k n g :
  length p1 = length p2 → (k + n = length p1)%nat →
  ∃ g', Crossover.uniform_loop p1 p2 1 (seq k n)
          (take k p2 ++ drop k p1, take k p1 ++ drop k p2) g
        = Ok ((p2, p1), g').
Proof.
  intros Hlen. revert k g. induction n as [|n IH]; intros k g Hk; simpl.
  { eexists. rewrite !take_ge, !drop_ge, !app_nil_r by lia. done. }
  destruct (random_ok g) as (r & g1 & Hr & _ & Hr1).
  assert (Hk1 : (k < length p1)%nat) by lia.
  assert (Hk2 : (k < length p2)%nat) by lia.
  destruct (lookup_lt_is_Some_2 _ _ Hk1) as [x1 Hx1].
  destruct (lookup_lt_is_Some_2 _ _ Hk2) as [x2 Hx2].
  destruct (IH (S k) g1 ltac:(lia)) as [g' Hg'].
  exists g'. rewrite <-Hg'.
  apply rand_bind_step. unfold Crossover.uniform_step.
  rewrite (rand_bind_step _ _ _ _ _ Hr).
  rewrite (proj2 (Qc_ltb_true r 1) Hr1).
  unfold getitem, setitem. rewrite Hx1, Hx2.
  unfold mbind, rand_bind, det, mret, rand_ret. cbn beta iota.
  rewrite decide_True by (rewrite length_app, length_take, length_drop; lia).
  cbn beta iota.
  rewrite decide_True by (rewrite length_app, length_take, length_drop; lia).
  do 3 f_equal.
  - rewrite insert_app_r_alt by (rewrite length_take; lia).
    rewrite length_take, Nat.min_l, Nat.sub_diag by lia.
    rewrite (drop_S _ _ _ Hx1). simpl.
    rewrite (take_S_r _ _ _ Hx2). by rewrite <-app_assoc.
  - rewrite insert_app_r_alt by (rewrite length_take; lia).
    rewrite length_take, Nat.min_l, Nat.sub_diag by lia.
    rewrite (drop_S _ _ _ Hx2). simpl.
    rewrite (take_S_r _ _ _ Hx1). by rewrite <-app_assoc.
Qed.

(** C9: on parents of equal length, uniform crossover with swap
    probability 0 returns the pair of parents in order, and with swap
    probability 1 the swapped pair, whatever the random source. *)
Theorem uniform_crossover_extremes (parent1 parent2 : solution) (g : rng) :
  length parent1 = length parent2 →
  (∃ g', Crossover.uniform_crossover parent1 parent2 0 g
         = Ok ((parent1, parent2), g')) ∧
  (∃ g', Crossover.uniform_crossover parent1 parent2 1 g
         = Ok ((parent2, parent1), g')).
Proof.
  intros Hlen. split.
  - apply uniform_loop_never.
  - unfold Crossover.uniform_crossover.
    by apply (uniform_loop_always parent1 parent2 0 (length parent1) g).
Qed.

Lemma uniform_crossover_extremes_witness :
  (∃ g', Crossover.uniform_crossover sol_fit sol_unfit 0 (rng_of [3; 1; 4]%nat)
         = Ok ((sol_fit, sol_unfit), g')) ∧
  (∃ g', Crossover.uniform_crossover sol_fit sol_unfit 1 (rng_of [3; 1; 4]%nat)
         = Ok ((sol_unfit, sol_fit), g')).
Proof.
  apply (uniform_crossover_extremes sol_fit sol_unfit (rng_of [3; 1; 4]%nat)).
  reflexivity.
Defined.

(** * Mutation *)

(** ** Positional updates keep the task identifiers *)

Lemma insert_same_task (l : list assignment) i (a b : assignment) :
  l !! i = Some a → task_of b = task_of a →
  task_of <$> <[i := b]> l = task_of <$> l.
Proof.
  intros Hl Hb. rewrite list_fmap_insert, Hb.
  apply list_insert_id. by rewrite list_lookup_fmap, Hl.
Qed.

Lemma insert_known_ids tasks students (l : list assignment) i (a b : assignment) :
  l !! i = Some a → task_of b = task_of a → student_of b ∈ dom students →
  known_ids tasks students l → known_ids tasks students (<[i := b]> l).
Proof.
  intros Hl Hb Hs Hk. apply Forall_insert; [done|].
  split; [|done]. rewrite Hb.
  by apply (Forall_lookup_1 _ _ _ _ Hk Hl).
Qed.

Lemma known_ids_lookup tasks students (l : list assignment) i a :
  known_ids tasks students l → l !! i = Some a →
  task_of a ∈ dom tasks ∧ student_of a ∈ dom students.
Proof. intros Hk Hl. by apply (Forall_lookup_1 _ _ _ _ Hk Hl). Qed.

Lemma fmap_length_eq (l l' : list assignment) :
  task_of <$> l' = task_of <$> l → length l' = length l.
Proof. intros H. by rewrite <-(length_fmap task_of l'), H, length_fmap. Qed.

Lemma step_post_ok tasks students (sol : list assignment) r :
  step_post tasks students sol r → known_ids tasks students sol → students ≠ ∅ →
  ∃ l g', r = Ok (l, g') ∧ known_ids tasks students l.
Proof.
  destruct r as [[l g']|e]; simpl.
  - intros [_ Hk] Hs _. exists l, g'. by split; [|apply Hk].
  - by intros [?|?].
Qed.

(** ** The four operators and the loop *)

Section MutationFacts.
Variable tasks : gmap string task.
Variable students : gmap string student.

Lemma keys_nonempty : students ≠ ∅ → (map_to_list students).*1 ≠ [].
Proof.
  intros Hs Hnil. apply Hs, map_to_list_empty_iff.
  by destruct (map_to_list students).
Qed.

Lemma keys_dom (s : string) : s ∈ (map_to_list students).*1 → s ∈ dom students.
Proof.
  intros ([k v] & -> & Hin%elem_of_map_to_list)%list_elem_of_fmap.
  by apply elem_of_dom_2 in Hin.
Qed.

Lemma get_suitable_student_cases task_id g :
  match Mutation.get_suitable_student tasks students task_id g with
  | Ok (s, _) => s ∈ dom students
  | Raise _ => task_id ∉ dom tasks ∨ students = ∅
  end.
Proof.
  unfold Mutation.get_suitable_student, dict_get.
  destruct (tasks !! task_id) as [tk|] eqn:Htk; last first.
  { left. by apply not_elem_of_dom. }
  unfold mbind at 1, rand_bind, det. cbn beta iota.
  set (suitable := (filter _ _).*1).
  assert (∀ s, s ∈ suitable → s ∈ dom students) as Hsub.
  { intros s ([k v] & -> & [_ Hin]%list_elem_of_filter)%list_elem_of_fmap.
    apply keys_dom, list_elem_of_fmap. by exists (k, v). }
  destruct suitable as [|s0 rest] eqn:Hsuit.
  - destruct (decide (students = ∅)) as [->|Hne].
    { rewrite map_to_list_empty. by right. }
    destruct (choice_ok _ g (keys_nonempty Hne)) as (x & g' & -> & Hx).
    by apply keys_dom.
  - destruct (choice_ok (s0 :: rest) g) as (x & g' & -> & Hx); [done|].
    by apply Hsub.
Qed.

Lemma do_reassign_cases mutated g :
  mutated ≠ [] → step_post tasks students mutated (Mutation.do_reassign tasks students mutated g).
Proof.
  intros Hne. unfold Mutation.do_reassign.
  assert (0 < length mutated)%nat as Hlen by (destruct mutated; simpl; [done|lia]).
  destruct (randint_ok 0 (length mutated - 1) g) as (pos & g1 & Hpos & Hr); [lia|].
  rewrite (rand_bind_step _ _ _ _ _ Hpos).
  destruct (getitem_ok mutated pos) as ([[tid sid] st] & Hget & Hl); [lia|].
  rewrite Hget. unfold mbind at 1, rand_bind, det. cbn beta iota.
  pose proof (get_suitable_student_cases tid g1) as Hs.
  unfold mbind, rand_bind.
  destruct (Mutation.get_suitable_student tasks students tid g1) as [[s g2]|e].
  - rewrite setitem_ok by lia. simpl. split.
    + by eapply insert_same_task.
    + by eapply insert_known_ids.
  - simpl. destruct Hs as [Hs|Hs]; [left|by right].
    intros Hk. by destruct (known_ids_lookup _ _ _ _ _ Hk Hl).
Qed.

Lemma do_adjust_time_cases t mutated g :
  mutated ≠ [] →
  step_post tasks students mutated (Mutation.do_adjust_time tasks t mutated g).
Proof.
  intros Hne. unfold Mutation.do_adjust_time.
  assert (0 < length mutated)%nat as Hlen by (destruct mutated; simpl; [done|lia]).
  destruct (randint_ok 0 (length mutated - 1) g) as (pos & g1 & Hpos & Hr); [lia|].
  rewrite (rand_bind_step _ _ _ _ _ Hpos).
  destruct (getitem_ok mutated pos) as ([[tid sid] st] & Hget & Hl); [lia|].
  rewrite Hget. unfold mbind at 1, rand_bind, det. cbn beta iota.
  unfold dict_get. destruct (tasks !! tid) as [tk|] eqn:Htk; last first.
  { simpl. left. intros Hk. destruct (known_ids_lookup _ _ _ _ _ Hk Hl) as [Ht _].
    by apply not_elem_of_dom in Htk. }
  unfold mbind at 1, rand_bind. cbn beta iota.
  match goal with |- context [random.uniform ?a ?b] =>
    destruct (uniform_ok a b g1) as (adj & g2 & Hu) end.
  rewrite (rand_bind_step _ _ _ _ _ Hu). cbn beta iota zeta.
  assert (pos < length mutated)%nat as Hp by lia.
  rewrite (setitem_ok mutated pos _ Hp). simpl. split.
  - by eapply insert_same_task.
  - intros Hk. eapply insert_known_ids; [done..| |done].
    by destruct (known_ids_lookup _ _ _ _ _ Hk Hl).
Qed.

Lemma swap_students_post (mutated : list assignment) i j g :
  (i < length mutated)%nat → (j < length mutated)%nat →
  step_post tasks students mutated
    ((let '(pos1, pos2) := (i, j) in
      det (getitem mutated pos1) ≫= λ '(task1, student1, time1),
      det (getitem mutated pos2) ≫= λ '(task2, student2, time2),
      det (setitem mutated pos1 (task1, student2, time1)) ≫= λ mutated,
      det (setitem mutated pos2 (task2, student1, time2))) g).
Proof.
  intros Hi Hj.
  destruct (getitem_ok mutated i Hi) as ([[t1 s1] x1] & Hg1 & Hl1).
  destruct (getitem_ok mutated j Hj) as ([[t2 s2] x2] & Hg2 & Hl2).
  unfold mbind, rand_bind, det. cbn beta iota. rewrite Hg1. cbn beta iota.
  rewrite Hg2. cbn beta iota. rewrite setitem_ok by done. cbn beta iota.
  rewrite setitem_ok by (by rewrite length_insert). unfold step_post.
  assert (<[i:=(t1, s2, x1)]> mutated !! j = Some (if decide (i = j) then (t1, s2, x1) else (t2, s2, x2))) as Hl2'.
  { destruct (decide (i = j)) as [->|Hne].
    - by rewrite list_lookup_insert_eq.
    - by rewrite list_lookup_insert_ne. }
  assert (task_of (if decide (i = j) then (t1, s2, x1) else (t2, s2, x2)) = t2) as Ht2.
  { case_decide; [|done]. subst. rewrite Hl1 in Hl2. by injection Hl2 as -> _ _. }
  split.
  - rewrite (insert_same_task _ j _ (t2, s1, x2) Hl2') by (by rewrite Ht2).
    by eapply insert_same_task.
  - intros Hk.
    destruct (known_ids_lookup _ _ _ _ _ Hk Hl1) as [_ Hs1].
    destruct (known_ids_lookup _ _ _ _ _ Hk Hl2) as [_ Hs2].
    eapply insert_known_ids; [exact Hl2'|by rewrite Ht2|done|].
    by eapply insert_known_ids.
Qed.

Lemma do_swap_tasks_cases mutated g :
  step_post tasks students mutated (Mutation.do_swap_tasks mutated g).
Proof.
  unfold Mutation.do_swap_tasks. case_decide as Hlen; [|by split].
  destruct (sample2_ok (length mutated) g Hlen) as (i & j & g1 & Hs & Hi & Hj & _).
  rewrite (rand_bind_step _ _ _ _ _ Hs).
  by apply (swap_students_post mutated i j g1).
Qed.

Lemma shift_gene_ok shift (mutated : list assignment) i tid sid st :
  mutated !! i = Some (tid, sid, st) →
  Mutation.shift_gene shift mutated i
  = Ok (<[i := (tid, sid, str (Qc_max 0 (float st + shift)))]> mutated).
Proof.
  intros Hl. unfold Mutation.shift_gene, getitem. rewrite Hl. simpl.
  apply setitem_ok. by eapply lookup_lt_Some.
Qed.

Lemma shift_genes_post shift idx (mutated : list assignment) :
  Forall (λ i, (i < length mutated)%nat) idx →
  ∃ l, for_each (Mutation.shift_gene shift) idx mutated = Ok l ∧
       task_of <$> l = task_of <$> mutated ∧
       (known_ids tasks students mutated → known_ids tasks students l).
Proof.
  revert mutated. induction idx as [|i idx IH]; intros mutated Hidx.
  { by exists mutated. }
  apply Forall_cons in Hidx as [Hi Hidx].
  destruct (lookup_lt_is_Some_2 _ _ Hi) as [[[tid sid] st] Hl].
  rewrite (for_each_cons_ok _ _ _ _ _ (shift_gene_ok shift _ _ _ _ _ Hl)).
  set (m1 := <[i:=_]> mutated).
  assert (task_of <$> m1 = task_of <$> mutated) as Ht1
    by by eapply insert_same_task.
  destruct (IH m1) as (l & Hl' & Ht & Hk).
  { unfold m1. eapply Forall_impl; [done|]. intros j Hj. by rewrite length_insert. }
  exists l. split; [done|]. split; [by rewrite Ht|].
  intros Hkm. apply Hk. eapply insert_known_ids; [done..| |done].
  by destruct (known_ids_lookup _ _ _ _ _ Hkm Hl).
Qed.

Lemma do_shift_schedule_cases t (mutated : list assignment) g :
  step_post tasks students mutated (Mutation.do_shift_schedule t mutated g).
Proof.
  unfold Mutation.do_shift_schedule. case_decide as Hlen; [|by split].
  destruct (randint_ok 0 (length mutated - 2) g) as (sp & g1 & Hsp & Hr); [lia|].
  rewrite (rand_bind_step _ _ _ _ _ Hsp). cbn beta zeta.
  set (bound := Z.to_nat _).
  assert (1 ≤ bound ≤ length mutated - sp)%nat as Hb by (unfold bound; lia).
  destruct (randint_ok 1 bound g1) as (len & g2 & Hlen' & Hr'); [lia|].
  rewrite (rand_bind_step _ _ _ _ _ Hlen').
  match goal with |- context [random.uniform ?a ?b] =>
    destruct (uniform_ok a b g2) as (shift & g3 & Hu) end.
  rewrite (rand_bind_step _ _ _ _ _ Hu).
  destruct (shift_genes_post shift (seq sp len) mutated) as (l & Hl & Ht & Hk).
  { apply Forall_seq. intros j Hj. lia. }
  unfold det. rewrite Hl. by split.
Qed.

Lemma apply_mutation_cases t mt (mutated : list assignment) g :
  mutated ≠ [] →
  step_post tasks students mutated (Mutation.apply_mutation tasks students t mt mutated g).
Proof.
  intros Hne. destruct mt; simpl.
  - by apply do_reassign_cases.
  - by apply do_adjust_time_cases.
  - apply do_swap_tasks_cases.
  - apply do_shift_schedule_cases.
Qed.

Lemma mutation_weights_total t :
  ∃ total, last (random.accumulate 0 (Mutation.mutation_weights t)) = Some total ∧
           0 < total.
Proof.
  unfold Mutation.mutation_weights.
  destruct (Qc_ltb (qc 7 10) t); [|destruct (Qc_ltb (qc 3 10) t)];
    eexists; (split; [reflexivity|by vm_compute]).
Qed.

Lemma mutation_weights_length t : length (Mutation.mutation_weights t) = 4%nat.
Proof. unfold Mutation.mutation_weights. by repeat case_match. Qed.

Lemma mutate_round_cases generation max_generations t
    (mutated : list assignment) log g :
  mutated ≠ [] →
  round_post tasks students mutated max_generations (S (length log))
    (Mutation.mutate_round tasks students generation max_generations t
       (mutated, log) g).
Proof.
  intros Hne. unfold Mutation.mutate_round, qdiv, Qc_eqb.
  case_bool_decide as Hz.
  { left. by apply Qc_of_Z_eq_0. }
  unfold mbind at 1, rand_bind, det. cbn beta iota.
  destruct (mutation_weights_total t) as (total & Hlast & Htot).
  destruct (choices_ok Mutation.mutation_types (Mutation.mutation_weights t)
              total g) as (mt & g1 & Hch & _); [by rewrite mutation_weights_length|done..|].
  rewrite (rand_bind_step _ _ _ _ _ Hch).
  pose proof (apply_mutation_cases t mt mutated g1 Hne) as Hap.
  unfold mbind, rand_bind.
  destruct (Mutation.apply_mutation tasks students t mt mutated g1)
    as [[l g2]|e]; simpl in *.
  - destruct Hap as [Ht Hk]. rewrite length_app. simpl. split_and!; [done..|lia].
  - by right.
Qed.

Lemma mutate_loop_cases generation max_generations t n
    (mutated : list assignment) log g :
  mutated ≠ [] →
  round_post tasks students mutated max_generations (n + length log)
    (repeat_loop n
       (Mutation.mutate_round tasks students generation max_generations t)
       (mutated, log) g).
Proof.
  revert mutated log g. induction n as [|n IH]; intros mutated log g Hne.
  { done. }
  pose proof (mutate_round_cases generation max_generations t mutated log g Hne)
    as Hround.
  rewrite repeat_loop_S.
  destruct (Mutation.mutate_round _ _ _ _ _ _ g) as [[[l1 log1] g1]|e];
    simpl in Hround; [|done].
  destruct Hround as (Ht1 & Hk1 & Hlog1).
  assert (l1 ≠ []) as Hne1.
  { intros ->. destruct mutated; [done|discriminate]. }
  specialize (IH l1 log1 g1 Hne1).
  destruct (repeat_loop n _ (l1, log1) g1) as [[[l2 log2] g2]|e]; simpl in *.
  - destruct IH as (Ht2 & Hk2 & Hlog2). split_and!; [congruence|tauto|lia].
  - destruct IH as [?|[?|?]]; [by left| |by right; right].
    right; left. tauto.
Qed.

Lemma mutate_logged_cases (sol : list assignment) generation max_generations t g :
  sol ≠ [] →
  match Mutation.mutate_logged tasks students sol generation max_generations t g with
  | Ok (Some (l, log), _) =>
      task_of <$> l = task_of <$> sol ∧
      length log = Z.to_nat (Mutation.num_mutations (length sol) t)
  | Ok (None, _) => False
  | Raise _ =>
      max_generations = 0%Z ∨ ¬ known_ids tasks students sol ∨ students = ∅
  end.
Proof.
  intros Hne. unfold Mutation.mutate_logged.
  destruct sol as [|a sol]; [done|]. set (s := a :: sol) in *.
  pose proof (mutate_loop_cases generation max_generations t
    (Z.to_nat (Mutation.num_mutations (length s) t)) s [] g Hne) as Hloop.
  unfold mbind, rand_bind.
  destruct (repeat_loop _ _ (s, []) g) as [[[l log] g1]|e]; simpl in *; [|done].
  destruct Hloop as (Ht & _ & Hlog). split; [done|lia].
Qed.

End MutationFacts.

(** ** The task column and the number of rounds *)







(** * The moves of local search and of simulated annealing *)

Section MoveFacts.
Variable tasks : gmap string task.
Variable students : gmap string student.

Lemma nonempty_length {A} (l : list A) : l ≠ [] → (0 < length l)%nat.
Proof. destruct l; simpl; [done|lia]. Qed.

Lemma ls_try_reassignment_cases (sol : list assignment) g :
  step_post tasks students sol (LocalSearch._try_reassignment students sol g).
Proof.
  unfold LocalSearch._try_reassignment.
  destruct sol as [|a sol']; [by split|]. set (sol := a :: sol').
  assert (0 < length sol)%nat as Hlen by (simpl; lia).
  destruct (randint_ok 0 (length sol - 1) g) as (pos & g1 & Hpos & Hr); [lia|].
  rewrite (rand_bind_step _ _ _ _ _ Hpos).
  destruct (getitem_ok sol pos) as ([[tid sid] st] & Hget & Hl); [lia|].
  rewrite Hget. unfold mbind at 1, rand_bind, det. cbn beta iota.
  destruct (decide (students = ∅)) as [->|Hne].
  { rewrite map_to_list_empty. by right. }
  destruct (choice_ok _ g1 (keys_nonempty students Hne)) as (x & g2 & Hch & Hx).
  rewrite (rand_bind_step _ _ _ _ _ Hch).
  rewrite setitem_ok by lia. simpl. split.
  - by eapply insert_same_task.
  - eapply insert_known_ids; [done..|]. by apply keys_dom.
Qed.

Lemma ls_try_time_adjustment_cases (sol : list assignment) g :
  step_post tasks students sol (LocalSearch._try_time_adjustment tasks sol g).
Proof.
  unfold LocalSearch._try_time_adjustment.
  destruct sol as [|a sol']; [by split|]. set (sol := a :: sol').
  assert (0 < length sol)%nat as Hlen by (simpl; lia).
  destruct (randint_ok 0 (length sol - 1) g) as (pos & g1 & Hpos & Hr); [lia|].
  rewrite (rand_bind_step _ _ _ _ _ Hpos).
  destruct (getitem_ok sol pos) as ([[tid sid] st] & Hget & Hl); [lia|].
  rewrite Hget. unfold mbind at 1, rand_bind, det. cbn beta iota zeta.
  unfold dict_get. destruct (tasks !! tid) as [tk|] eqn:Htk; last first.
  { simpl. left. intros Hk. destruct (known_ids_lookup _ _ _ _ _ Hk Hl) as [Ht _].
    by apply not_elem_of_dom in Htk. }
  unfold mbind at 1, rand_bind. cbn beta iota zeta.
  match goal with |- context [random.uniform ?a ?b] =>
    destruct (uniform_ok a b g1) as (adj & g2 & Hu) end.
  rewrite (rand_bind_step _ _ _ _ _ Hu). cbn beta iota zeta.
  rewrite setitem_ok by lia. simpl. split.
  - by eapply insert_same_task.
  - intros Hk. eapply insert_known_ids; [done..| |done].
    by destruct (known_ids_lookup _ _ _ _ _ Hk Hl).
Qed.

Lemma ls_try_task_swap_cases (sol : list assignment) g :
  step_post tasks students sol (LocalSearch._try_task_swap sol g).
Proof.
  unfold LocalSearch._try_task_swap. case_decide as Hlen; [by split|].
  destruct (sample2_ok (length sol) g) as (i & j & g1 & Hs & Hi & Hj & _); [lia|].
  rewrite (rand_bind_step _ _ _ _ _ Hs).
  by apply (swap_students_post tasks students sol i j g1).
Qed.

Variable initial_temp : Qc.
Hypothesis initial_temp_nonzero : initial_temp ≠ 0.

Lemma sa_try_reassignment_cases (sol : list assignment) temperature g :
  step_post tasks students sol
    (SimulatedAnnealing._try_reassignment tasks students (Some sol) temperature g).
Proof.
  unfold SimulatedAnnealing._try_reassignment, SimulatedAnnealing.copy.
  unfold mbind at 1, rand_bind, det. cbn beta iota.
  destruct sol as [|a sol']; [by split|]. set (sol := a :: sol').
  assert (0 < length sol)%nat as Hlen by (simpl; lia).
  destruct (randint_ok 0 (length sol - 1) g) as (pos & g1 & Hpos & Hr); [lia|].
  rewrite (rand_bind_step _ _ _ _ _ Hpos).
  destruct (getitem_ok sol pos) as ([[tid sid] st] & Hget & Hl); [lia|].
  rewrite Hget. unfold mbind at 1, rand_bind, det. cbn beta iota.
  pose proof (get_suitable_student_cases tasks students tid g1) as Hs.
  unfold mbind, rand_bind.
  destruct (Mutation.get_suitable_student tasks students tid g1) as [[s g2]|e].
  - rewrite setitem_ok by lia. simpl. split.
    + by eapply insert_same_task.
    + by eapply insert_known_ids.
  - simpl. destruct Hs as [Hs|Hs]; [left|by right].
    intros Hk. by destruct (known_ids_lookup _ _ _ _ _ Hk Hl).
Qed.

Lemma sa_try_time_adjustment_cases (sol : list assignment) temperature g :
  step_post tasks students sol
    (SimulatedAnnealing._try_time_adjustment tasks initial_temp (Some sol)
       temperature g).
Proof.
  unfold SimulatedAnnealing._try_time_adjustment, SimulatedAnnealing.copy.
  unfold mbind at 1, rand_bind, det. cbn beta iota.
  destruct sol as [|a sol']; [by split|]. set (sol := a :: sol').
  assert (0 < length sol)%nat as Hlen by (simpl; lia).
  destruct (randint_ok 0 (length sol - 1) g) as (pos & g1 & Hpos & Hr); [lia|].
  rewrite (rand_bind_step _ _ _ _ _ Hpos).
  destruct (getitem_ok sol pos) as ([[tid sid] st] & Hget & Hl); [lia|].
  rewrite Hget. unfold mbind at 1, rand_bind, det. cbn beta iota zeta.
  rewrite qdiv_ok by done.
  unfold mbind at 1, rand_bind. cbn beta iota zeta.
  unfold dict_get. destruct (tasks !! tid) as [tk|] eqn:Htk; last first.
  { simpl. left. intros Hk. destruct (known_ids_lookup _ _ _ _ _ Hk Hl) as [Ht _].
    by apply not_elem_of_dom in Htk. }
  unfold mbind at 1, rand_bind. cbn beta iota zeta.
  match goal with |- context [random.uniform ?a ?b] =>
    destruct (uniform_ok a b g1) as (adj & g2 & Hu) end.
  rewrite (rand_bind_step _ _ _ _ _ Hu). cbn beta iota zeta.
  rewrite setitem_ok by lia. simpl. split.
  - by eapply insert_same_task.
  - intros Hk. eapply insert_known_ids; [done..| |done].
    by destruct (known_ids_lookup _ _ _ _ _ Hk Hl).
Qed.

Lemma sa_try_task_swap_cases (sol : list assignment) temperature g :
  step_post tasks students sol
    (SimulatedAnnealing._try_task_swap (Some sol) temperature g).
Proof.
  unfold SimulatedAnnealing._try_task_swap, SimulatedAnnealing.copy.
  unfold mbind at 1, rand_bind, det. cbn beta iota.
  case_decide as Hlen; [by split|].
  destruct (sample2_ok (length sol) g) as (i & j & g1 & Hs & Hi & Hj & _); [lia|].
  rewrite (rand_bind_step _ _ _ _ _ Hs).
  by apply (swap_students_post tasks students sol i j g1).
Qed.

Lemma neighbor_weights_total t :
  ∃ total,
    last (random.accumulate 0 (SimulatedAnnealing.neighbor_weights t)) = Some total ∧
    0 < total.
Proof.
  unfold SimulatedAnnealing.neighbor_weights.
  destruct (Qc_ltb (qc 7 10) t); [|destruct (Qc_ltb (qc 3 10) t)];
    eexists; (split; [reflexivity|by vm_compute]).
Qed.

Lemma neighbor_weights_length t :
  length (SimulatedAnnealing.neighbor_weights t) = 3%nat.
Proof. unfold SimulatedAnnealing.neighbor_weights. by repeat case_match. Qed.

Lemma get_neighbor_cases (sol : list assignment) temperature g :
  step_post tasks students sol
    (SimulatedAnnealing._get_neighbor tasks students initial_temp (Some sol)
       temperature g).
Proof.
  unfold SimulatedAnnealing._get_neighbor.
  rewrite qdiv_ok by done. unfold mbind at 1, rand_bind, det. cbn beta iota.
  set (t := temperature / initial_temp).
  destruct (neighbor_weights_total t) as (total & Hlast & Htot).
  destruct (choices_ok [SimulatedAnnealing.op_reassign; SimulatedAnnealing.op_time;
                        SimulatedAnnealing.op_swap]
              (SimulatedAnnealing.neighbor_weights t) total g)
    as (op & g1 & Hch & _); [by rewrite neighbor_weights_length|done..|].
  rewrite (rand_bind_step _ _ _ _ _ Hch).
  destruct op.
  - apply sa_try_reassignment_cases.
  - apply sa_try_time_adjustment_cases.
  - apply sa_try_task_swap_cases.
Qed.

End MoveFacts.

(** * Local search *)

(** ** The best fitness only goes down *)

Section LocalSearchFacts.
Variable tasks : gmap string task.
Variable students : gmap string student.
Variable calc : solution → result pyfloat.

(** A move is taken up only when it is strictly better than the best. *)
Lemma consider_cases new_solution st improved st' improved' :
  LocalSearch.consider calc new_solution (st, improved) = Ok (st', improved') →
  (st' = st ∧ improved' = improved) ∨
  (flt (LocalSearch.best_fitness st') (LocalSearch.best_fitness st) = true ∧
   calc new_solution = Ok (LocalSearch.best_fitness st') ∧
   LocalSearch.best_solution st' = new_solution ∧
   LocalSearch.current_solution st' = new_solution ∧
   improved' = true).
Proof.
  unfold LocalSearch.consider.
  destruct (calc new_solution) as [f|e]; [|done]. simpl.
  destruct (flt f (LocalSearch.best_fitness st)) eqn:Hlt.
  - intros [= <- <-]. right. by simpl.
  - intros [= <- <-]. by left.
Qed.

Lemma consider_post new_solution si si' :
  LocalSearch.consider calc new_solution si = Ok si' →
  ls_inv calc si.1 →
  ls_inv calc si'.1 ∧
  (LocalSearch.best_fitness si'.1 = LocalSearch.best_fitness si.1 ∨
   flt (LocalSearch.best_fitness si'.1) (LocalSearch.best_fitness si.1) = true).
Proof.
  destruct si as [st imp], si' as [st' imp']. simpl.
  intros [[-> ->]|(Hlt & Hc & Hb & Hcur & _)]%consider_cases Hinv.
  - by split; [|left].
  - split; [|by right]. split; [by rewrite Hb|by rewrite Hb, Hcur].
Qed.

Lemma iteration_post st g st' g' :
  LocalSearch.iteration tasks students calc st g = Ok (st', g') →
  ls_inv calc st →
  ls_inv calc st' ∧
  (LocalSearch.best_fitness st' = LocalSearch.best_fitness st ∨
   flt (LocalSearch.best_fitness st') (LocalSearch.best_fitness st) = true).
Proof.
  unfold LocalSearch.iteration. intros H Hinv.
  apply rand_bind_ok in H as (n1 & g1 & _ & H).
  apply det_bind_ok in H as (si1 & Hc1 & H).
  apply rand_bind_ok in H as (n2 & g2 & _ & H).
  apply det_bind_ok in H as (si2 & Hc2 & H).
  apply rand_bind_ok in H as (n3 & g3 & _ & H).
  apply det_bind_ok in H as (si3 & Hc3 & H).
  injection H as <- <-.
  apply consider_post in Hc1 as [Hi1 Hf1]; [|done].
  apply consider_post in Hc2 as [Hi2 Hf2]; [|done].
  apply consider_post in Hc3 as [Hi3 Hf3]; [|done].
  destruct si3 as [st3 imp3]. simpl in *. split; [done|].
  eauto using fitness_step.
Qed.

Lemma search_post n max_no_improve st history g st' history' g' :
  LocalSearch.search tasks students calc n max_no_improve st history g
  = Ok ((st', history'), g') →
  ls_inv calc st →
  ∃ tail, history' = history ++ tail ∧
          descending (LocalSearch.best_fitness st) tail ∧
          LocalSearch.best_fitness st'
          = final (LocalSearch.best_fitness st) tail ∧
          ls_inv calc st'.
Proof.
  revert st history g. induction n as [|n IH]; intros st history g; simpl.
  { intros [= <- <- <-] Hinv. exists []. by rewrite app_nil_r. }
  intros H Hinv.
  apply rand_bind_ok in H as (st1 & g1 & Hit & H).
  apply iteration_post in Hit as [Hinv1 Hf1]; [|done].
  assert (Hfirst : LocalSearch.best_fitness st1 = LocalSearch.best_fitness st ∨
                   flt (LocalSearch.best_fitness st1) (LocalSearch.best_fitness st) = true)
    by done.
  case_decide.
  - injection H as <- <- <-. exists [LocalSearch.best_fitness st1]. by simpl.
  - apply IH in H as (tail & -> & Hdesc & Hlast & Hinv'); [|done].
    exists (LocalSearch.best_fitness st1 :: tail).
    split; [by rewrite <-app_assoc|]. by split.
Qed.

Lemma improve_solution_logged_post sol max_iterations max_no_improve g
    best bf history g' :
  LocalSearch.improve_solution_logged tasks students calc sol max_iterations
    max_no_improve g = Ok ((best, bf, history), g') →
  ∃ f0, calc sol = Ok f0 ∧ descending f0 history ∧
        bf = final f0 history ∧ calc best = Ok bf.
Proof.
  unfold LocalSearch.improve_solution_logged. intros H.
  apply det_bind_ok in H as (f0 & Hf0 & H).
  apply rand_bind_ok in H as ([st' hist] & g1 & Hs & H).
  injection H as <- <- <- <-.
  apply search_post in Hs as (tail & -> & Hdesc & Hlast & [Hcalc _]); [|done].
  exists f0. by simpl in *.
Qed.

End LocalSearchFacts.

(** What a run of local search that returns has done. *)
Lemma local_search_returns_descending (tasks : gmap string task)
    (students : gmap string student) (sol : solution)
    (max_iterations max_no_improve : Z) (g : rng) :
  ∀ best bf g',
    LocalSearch.improve_solution tasks students
      (calculate_fitness tasks students) sol max_iterations max_no_improve g
    = Ok ((best, bf), g') →
    ∃ f0 history,
      LocalSearch.improve_solution_logged tasks students
        (calculate_fitness tasks students) sol max_iterations max_no_improve g
      = Ok ((best, bf, history), g') ∧
      calculate_fitness tasks students sol = Ok f0 ∧
      descending f0 history ∧
      bf = final f0 history ∧
      fle bf f0 = true ∧
      calculate_fitness tasks students best = Ok bf.
Proof.
  intros best bf g'. unfold LocalSearch.improve_solution. intros H.
  apply rand_bind_ok in H as ([[b f] history] & g1 & Hlog & H).
  injection H as <- <- <-.
  destruct (improve_solution_logged_post _ _ _ _ _ _ _ _ _ _ _ Hlog)
    as (f0 & Hf0 & Hdesc & Hlast & Hbest).
  exists f0, history. split_and!; try done.
  rewrite Hlast. apply descending_fle; [|done].
  by eapply calculate_fitness_not_nan.
Qed.

(** ** Local search returns on well-formed input *)

Section LocalSearchTotal.
Variable tasks : gmap string task.
Variable students : gmap string student.
Hypothesis wf : wf_problem tasks students.

Lemma consider_total new_solution si :
  known_ids tasks students new_solution →
  known_ids tasks students (LocalSearch.current_solution si.1) →
  ∃ si', LocalSearch.consider (calculate_fitness tasks students) new_solution si
         = Ok si' ∧
         known_ids tasks students (LocalSearch.current_solution si'.1).
Proof.
  intros Hnew Hcur. destruct si as [st imp]. unfold LocalSearch.consider.
  destruct (calculate_fitness_wf tasks students new_solution wf Hnew) as (f & -> & _).
  cbn. destruct (flt f _); by eexists.
Qed.

Lemma ls_iteration_total st g :
  known_ids tasks students (LocalSearch.current_solution st) →
  ∃ st' g',
    LocalSearch.iteration tasks students (calculate_fitness tasks students) st g
    = Ok (st', g') ∧
    known_ids tasks students (LocalSearch.current_solution st').
Proof.
  intros Hcur. unfold LocalSearch.iteration. destruct wf as [_ Hstud].
  destruct (step_post_ok _ _ _ _ (ls_try_reassignment_cases tasks students _ g) Hcur Hstud)
    as (n1 & g1 & Hn1 & Hk1).
  rewrite (rand_bind_step _ _ _ _ _ Hn1).
  destruct (consider_total n1 (st, false) Hk1 Hcur) as (si1 & Hc1 & Hcur1).
  rewrite Hc1. unfold mbind at 1, rand_bind, det. cbn beta iota.
  destruct (step_post_ok _ _ _ _ (ls_try_time_adjustment_cases tasks students _ g1) Hcur1 Hstud)
    as (n2 & g2 & Hn2 & Hk2).
  rewrite (rand_bind_step _ _ _ _ _ Hn2).
  destruct (consider_total n2 si1 Hk2 Hcur1) as (si2 & Hc2 & Hcur2).
  rewrite Hc2. unfold mbind at 1, rand_bind, det. cbn beta iota.
  destruct (step_post_ok _ _ _ _ (ls_try_task_swap_cases tasks students _ g2) Hcur2 Hstud)
    as (n3 & g3 & Hn3 & Hk3).
  rewrite (rand_bind_step _ _ _ _ _ Hn3).
  destruct (consider_total n3 si2 Hk3 Hcur2) as (si3 & Hc3 & Hcur3).
  rewrite Hc3. unfold mbind at 1, rand_bind, det. cbn beta iota.
  eexists _, _. split; [done|]. by destruct si3.
Qed.

Lemma search_total n max_no_improve st history g :
  known_ids tasks students (LocalSearch.current_solution st) →
  ∃ r g',
    LocalSearch.search tasks students (calculate_fitness tasks students)
      n max_no_improve st history g = Ok (r, g').
Proof.
  revert st history g. induction n as [|n IH]; intros st history g Hcur.
  { by eexists _, _. }
  cbn [LocalSearch.search].
  destruct (ls_iteration_total st g Hcur) as (st' & g' & Hit & Hcur').
  rewrite (rand_bind_step _ _ _ _ _ Hit). cbn beta zeta.
  case_decide; [by eexists _, _|]. by apply IH.
Qed.

Lemma ls_improve_solution_total sol max_iterations max_no_improve g :
  known_ids tasks students sol →
  ∃ best bf g',
    LocalSearch.improve_solution tasks students (calculate_fitness tasks students)
      sol max_iterations max_no_improve g = Ok ((best, bf), g').
Proof.
  intros Hk. unfold LocalSearch.improve_solution, LocalSearch.improve_solution_logged.
  destruct (calculate_fitness_wf tasks students sol wf Hk) as (f0 & Hf0 & _).
  rewrite Hf0. unfold mbind at 2, rand_bind, det. cbn beta iota zeta.
  match goal with |- context [LocalSearch.search _ _ _ ?n ?m ?st ?h] =>
    destruct (search_total n m st h g Hk) as ([st' hist] & g' & Hs) end.
  unfold mbind, rand_bind. rewrite Hs. by eexists _, _, _.
Qed.

End LocalSearchTotal.



(** * Simulated annealing *)

(** ** The best fitness only goes down *)

Section AnnealingFacts.
Variable tasks : gmap string task.
Variable students : gmap string student.
Variable calc : solution → result pyfloat.
Variable math_exp : Qc → Qc.
Variable initial_temp : Qc.

(** The best fitness on record only moves to a strictly smaller value. *)
Lemma sa_iteration_post cooling_rate st g st' g' :
  SimulatedAnnealing.iteration tasks students calc math_exp initial_temp
    cooling_rate st g = Ok (st', g') →
  SimulatedAnnealing.best_fitness st' = SimulatedAnnealing.best_fitness st ∨
  flt (SimulatedAnnealing.best_fitness st') (SimulatedAnnealing.best_fitness st)
  = true.
Proof.
  unfold SimulatedAnnealing.iteration. intros H.
  apply rand_bind_ok in H as ([bn bnf] & g1 & _ & H).
  apply det_bind_ok in H as (p & _ & H).
  apply rand_bind_ok in H as (r & g2 & _ & H).
  apply rand_bind_ok in H as (st1 & g3 & Hst1 & H).
  injection H as <- <-. simpl.
  destruct (fgt p (Fin r)); [|by injection Hst1 as <- _; left].
  destruct (flt bnf (SimulatedAnnealing.best_fitness st)) eqn:Hlt.
  - apply det_bind_ok in Hst1 as (best & _ & Hst1).
    injection Hst1 as <- _. by right.
  - injection Hst1 as <- _. by left.
Qed.

Lemma anneal_post n cooling_rate min_temp st g st' g' :
  SimulatedAnnealing.anneal tasks students calc math_exp initial_temp n
    cooling_rate min_temp st g = Ok (st', g') →
  SimulatedAnnealing.best_fitness st' = SimulatedAnnealing.best_fitness st ∨
  flt (SimulatedAnnealing.best_fitness st') (SimulatedAnnealing.best_fitness st)
  = true.
Proof.
  revert st g. induction n as [|n IH]; intros st g; simpl.
  { intros [= <- <-]. by left. }
  destruct (Qc_ltb _ _); [by intros [= <- <-]; left|].
  intros H. apply rand_bind_ok in H as (st1 & g1 & Hit & H).
  apply sa_iteration_post in Hit.
  case_decide; [by injection H as <- <-|].
  apply IH in H. eauto using fitness_step.
Qed.

End AnnealingFacts.

Lemma sa_improve_solution_post tasks students calc math_exp sol max_iterations
    initial_temp cooling_rate min_temp g best bf g' :
  SimulatedAnnealing.improve_solution tasks students calc math_exp sol
    max_iterations initial_temp cooling_rate min_temp g = Ok ((best, bf), g') →
  ∃ f0, calc sol = Ok f0 ∧ (bf = f0 ∨ flt bf f0 = true).
Proof.
  unfold SimulatedAnnealing.improve_solution. intros H.
  apply det_bind_ok in H as (f0 & Hf0 & H).
  apply rand_bind_ok in H as (st' & g1 & Han & H).
  injection H as <- <- <-. apply anneal_post in Han. by exists f0.
Qed.
(** * Ring migration *)

(** ** Simulated annealing returns on well-formed input *)

Section AnnealingTotal.
Variable tasks : gmap string task.
Variable students : gmap string student.
Variable math_exp : Qc → Qc.
Variable initial_temp : Qc.
Hypothesis wf : wf_problem tasks students.
Hypothesis initial_temp_pos : 0 < initial_temp.

Lemma neighbor_round_total s temperature bn g :
  known_ids tasks students s → neighbor_inv tasks students bn →
  ∃ bn' g',
    SimulatedAnnealing.neighbor_round tasks students
      (calculate_fitness tasks students) initial_temp (Some s) temperature bn g
    = Ok (bn', g') ∧ neighbor_inv tasks students bn'.
Proof.
  intros Hk Hinv. destruct bn as [bn bnf]. unfold SimulatedAnnealing.neighbor_round.
  destruct wf as [_ Hstud].
  destruct (step_post_ok _ _ _ _
              (get_neighbor_cases tasks students initial_temp
                 (Qc_pos_ne_0 _ initial_temp_pos) s temperature g) Hk Hstud)
    as (n & g1 & Hn & Hkn).
  rewrite (rand_bind_step _ _ _ _ _ Hn).
  destruct (calculate_fitness_wf tasks students n wf Hkn) as (f & -> & Hf).
  unfold mbind at 1, rand_bind, det. cbn beta iota.
  destruct (flt f bnf); eexists _, _; (split; [done|]); [|done].
  right. by exists n.
Qed.

Lemma neighbor_rounds_total k s temperature bn g :
  known_ids tasks students s → neighbor_inv tasks students bn →
  ∃ bn' g',
    repeat_loop k
      (SimulatedAnnealing.neighbor_round tasks students
         (calculate_fitness tasks students) initial_temp (Some s) temperature)
      bn g = Ok (bn', g') ∧ neighbor_inv tasks students bn'.
Proof.
  intros Hk. revert bn g. induction k as [|k IH]; intros bn g Hinv.
  { by eexists _, _. }
  rewrite repeat_loop_S.
  destruct (neighbor_round_total s temperature bn g Hk Hinv) as (bn1 & g1 & -> & Hinv1).
  by apply IH.
Qed.

(** The acceptance probability is defined whenever the old cost is
    positive and the temperature too; a best neighbour at [+inf] is then
    never accepted. *)
Lemma acceptance_probability_total old_cost new_cost temperature :
  positive_fitness old_cost → 0 < temperature →
  ∃ p,
    SimulatedAnnealing._acceptance_probability math_exp initial_temp
      old_cost new_cost temperature = Ok p ∧
    (new_cost = PInf → ∀ r, 0 ≤ r → fgt p (Fin r) = false).
Proof.
  intros Hold Htemp. unfold SimulatedAnnealing._acceptance_probability.
  destruct (flt new_cost old_cost) eqn:Hlt.
  { eexists. split; [done|]. intros ->. by rewrite flt_irrefl_pinf in Hlt. }
  assert (0 < temperature / initial_temp * qc 1 10) as Hden.
  { apply Qcmult_pos_pos; [by apply Qcdiv_pos|done]. }
  pose proof (Qc_pos_ne_0 _ Hden) as Hden0.
  pose proof (proj2 (Qc_eqb_false _ 0) Hden0) as Hdenb.
  rewrite (qdiv_ok temperature initial_temp) by by apply Qc_pos_ne_0.
  destruct Hold as [->|(q & -> & Hq)].
  - (* the old cost is +inf *)
    destruct new_cost as [b| | |]; try (by simpl in Hlt);
      cbn; rewrite ?Hdenb; cbn; (eexists; split; [done|]); done.
  - pose proof (proj2 (Qc_eqb_false q 0) (Qc_pos_ne_0 _ Hq)) as Hqb.
    pose proof (proj2 (Qc_ltb_true 0 q) Hq) as Hqpos.
    assert (Qc_ltb (temperature / initial_temp * qc 1 10) 0 = false) as Hneg
      by by apply Qc_ltb_false, Qclt_le_weak.
    destruct new_cost as [b| | |]; try (by simpl in Hlt);
      cbn; rewrite ?Hqb; cbn; rewrite ?Hqpos; cbn;
      rewrite ?Hdenb; cbn; rewrite ?Hneg; cbn;
      (eexists; split; [done|]); try done.
    all: intros _ r Hr; unfold fgt; cbn; by apply Qc_ltb_false.
Qed.

Lemma sa_iteration_total cooling_rate st g :
  0 < cooling_rate → sa_inv tasks students st →
  ∃ st' g',
    SimulatedAnnealing.iteration tasks students (calculate_fitness tasks students)
      math_exp initial_temp cooling_rate st g = Ok (st', g') ∧
    sa_inv tasks students st'.
Proof.
  intros Hcool ((s & Hcur & Hk) & Hfit & Htemp).
  unfold SimulatedAnnealing.iteration. cbn zeta. rewrite Hcur.
  destruct (neighbor_rounds_total 3 s (SimulatedAnnealing.temperature st)
              (None, PInf) g Hk) as ([bn bnf] & g1 & Hn & Hinv); [by left|].
  rewrite (rand_bind_step _ _ _ _ _ Hn). cbn beta iota.
  destruct (acceptance_probability_total (SimulatedAnnealing.current_fitness st)
              bnf (SimulatedAnnealing.temperature st) Hfit Htemp)
    as (p & Hp & Hreject).
  rewrite Hp. unfold mbind at 1, rand_bind, det. cbn beta iota.
  destruct (random_ok g1) as (r & g2 & Hr & Hr0 & _).
  rewrite (rand_bind_step _ _ _ _ _ Hr).
  assert (0 < SimulatedAnnealing.temperature st * cooling_rate) as Htemp'
    by by apply Qcmult_pos_pos.
  destruct (fgt p (Fin r)) eqn:Haccept.
  - destruct Hinv as [Hinf|(n & Hbn & Hkn & Hpos)]; simpl in *.
    { by rewrite (Hreject Hinf r Hr0) in Haccept. }
    subst bn. destruct (flt bnf (SimulatedAnnealing.best_fitness st)).
    + cbn. eexists _, _. split; [done|]. split; [by exists n|]. by split.
    + cbn. eexists _, _. split; [done|]. split; [by exists n|]. by split.
  - cbn. eexists _, _. split; [done|]. split; [by exists s|]. by split.
Qed.

Lemma anneal_total n cooling_rate min_temp st g :
  0 < cooling_rate → sa_inv tasks students st →
  ∃ st' g',
    SimulatedAnnealing.anneal tasks students (calculate_fitness tasks students)
      math_exp initial_temp n cooling_rate min_temp st g = Ok (st', g').
Proof.
  intros Hcool. revert st g. induction n as [|n IH]; intros st g Hinv.
  { by eexists _, _. }
  cbn [SimulatedAnnealing.anneal].
  destruct (Qc_ltb _ min_temp); [by eexists _, _|].
  destruct (sa_iteration_total cooling_rate st g Hcool Hinv) as (st' & g' & Hit & Hinv').
  rewrite (rand_bind_step _ _ _ _ _ Hit).
  case_decide; [by eexists _, _|]. by apply IH.
Qed.

End AnnealingTotal.

Lemma sa_improve_solution_total tasks students math_exp sol max_iterations
    initial_temp cooling_rate min_temp g :
  wf_problem tasks students → known_ids tasks students sol →
  0 < initial_temp → 0 < cooling_rate →
  ∃ best bf g',
    SimulatedAnnealing.improve_solution tasks students
      (calculate_fitness tasks students) math_exp sol max_iterations
      initial_temp cooling_rate min_temp g = Ok ((best, bf), g').
Proof.
  intros Hwf Hk Htemp Hcool. unfold SimulatedAnnealing.improve_solution.
  destruct (calculate_fitness_wf tasks students sol Hwf Hk) as (f0 & Hf0 & Hpos).
  rewrite Hf0. unfold mbind at 1, rand_bind, det. cbn beta iota zeta.
  match goal with |- context [SimulatedAnnealing.anneal _ _ _ _ _ ?n _ _ ?st] =>
    destruct (anneal_total tasks students math_exp initial_temp Hwf Htemp
                n cooling_rate min_temp st g Hcool) as (st' & g' & Han) end.
  { split; [by exists sol|]. by split. }
  rewrite (rand_bind_step _ _ _ _ _ Han). by eexists _, _, _.
Qed.




(** * Ring migration *)

(** ** Sorting, searching, overwriting *)

Section SortFacts.
Context {A : Type}.
Implicit Types (l : list (A * pyfloat)) (before : pyfloat → pyfloat → bool).

Lemma insert_keyed_perm before x l :
  IslandModel.insert_keyed before x l ≡ₚ x :: l.
Proof.
  induction l as [|y l IH]; simpl; [done|].
  destruct (before y.2 x.2); [|done].
  rewrite IH. apply Permutation_swap.
Qed.

Lemma sort_keyed_perm before l : IslandModel.sort_keyed before l ≡ₚ l.
Proof.
  unfold IslandModel.sort_keyed. induction l as [|x l IH]; simpl; [done|].
  by rewrite insert_keyed_perm, IH.
Qed.

(** [sorted] returns a rearrangement of its argument. *)
Lemma sorted_perm (key : A → result pyfloat) reverse (l l' : list A) :
  IslandModel.sorted key reverse l = Ok l' → l' ≡ₚ l.
Proof.
  unfold IslandModel.sorted.
  destruct (mapM key l) as [keys|e] eqn:Hk; [|done]. simpl.
  intros [= <-]. rewrite sort_keyed_perm.
  rewrite fst_zip; [done|]. apply mapM_length in Hk. lia.
Qed.

Lemma sorted_ok (key : A → result pyfloat) reverse (l : list A) :
  Forall (λ x, is_ok (key x) = true) l →
  is_ok (IslandModel.sorted key reverse l) = true.
Proof.
  intros H%mapM_ok. unfold IslandModel.sorted.
  by destruct (mapM key l).
Qed.

End SortFacts.

Lemma index_ok (l : list solution) x :
  x ∈ l → ∃ i, IslandModel.index l x = Ok i ∧ l !! i = Some x.
Proof.
  induction l as [|y l IH]; simpl; [by intros ?%elem_of_nil|].
  case_decide as Heq; [subst; by exists 0%nat|].
  intros [?|Hin]%elem_of_cons; [done|].
  destruct (IH Hin) as (i & -> & Hi). by exists (S i).
Qed.

Lemma index_lookup (l : list solution) x i :
  IslandModel.index l x = Ok i → l !! i = Some x.
Proof.
  revert i. induction l as [|y l IH]; intros i; simpl; [done|].
  case_decide as Heq; [by intros [= <-]; subst|].
  destruct (IslandModel.index l x) as [j|e]; [|done]. simpl.
  intros [= <-]. by apply IH.
Qed.

(** Overwriting one copy of [x] by [y] in a rearrangement of
    [front ++ x :: back]. *)
Lemma insert_perm {A} (cur front back : list A) x y idx :
  cur ≡ₚ front ++ x :: back → cur !! idx = Some x →
  <[idx := y]> cur ≡ₚ (front ++ [y]) ++ back.
Proof.
  intros Hperm Hidx.
  rewrite <-(take_drop_middle _ _ _ Hidx) in Hperm.
  rewrite <-!Permutation_middle in Hperm. apply Permutation_cons_inv in Hperm.
  rewrite insert_take_drop by by eapply lookup_lt_Some.
  rewrite <-Permutation_middle, Hperm.
  rewrite <-app_assoc. simpl. by rewrite <-Permutation_middle.
Qed.

Section ReplaceFacts.
Variable sorted_dest : list solution.

(** After the migrants numbered [j, j+1, ...] the destination holds the
    migrants written so far and the tail of its worst-first order. *)
Lemma replace_step_skip j m (c : list solution) :
  (length sorted_dest ≤ j)%nat →
  IslandModel.replace_step sorted_dest c (j, m) = Ok c.
Proof. intros Hj. unfold IslandModel.replace_step. by rewrite decide_False by lia. Qed.

Lemma replace_step_hit j m target idx (c : list solution) :
  sorted_dest !! j = Some target → IslandModel.index c target = Ok idx →
  IslandModel.replace_step sorted_dest c (j, m) = Ok (<[idx := m]> c).
Proof.
  intros Hj Hidx. unfold IslandModel.replace_step, getitem.
  rewrite decide_True by by eapply lookup_lt_Some.
  rewrite Hj. cbn. rewrite Hidx. cbn.
  apply setitem_ok. apply index_lookup in Hidx. by eapply lookup_lt_Some.
Qed.

Lemma replace_skip (ms : list solution) idx c :
  (length sorted_dest ≤ idx)%nat →
  for_each (IslandModel.replace_step sorted_dest)
    (zip (seq idx (length ms)) ms) c = Ok c.
Proof.
  revert idx. induction ms as [|m ms IH]; intros idx Hle; [done|].
  cbn [length seq zip zip_with].
  rewrite (for_each_cons_ok _ _ _ _ _ (replace_step_skip idx m c Hle)).
  apply IH. lia.
Qed.

Lemma replace_loop_post (done_ : list solution) (ms : list solution)
    (cur : list solution) :
  cur ≡ₚ done_ ++ drop (length done_) sorted_dest →
  ∃ cur',
    for_each (IslandModel.replace_step sorted_dest)
      (zip (seq (length done_) (length ms)) ms) cur = Ok cur' ∧
    length cur' = length cur ∧
    cur' ≡ₚ (done_ ++ take (length sorted_dest - length done_) ms)
            ++ drop (length done_ + length ms) sorted_dest.
Proof.
  revert done_ cur. induction ms as [|m ms IH]; intros done_ cur Hperm.
  { exists cur. cbn [length seq zip zip_with for_each].
    by rewrite take_nil, app_nil_r, Nat.add_0_r. }
  cbn [length seq zip zip_with].
  destruct (decide (length done_ < length sorted_dest)%nat) as [Hj|Hj].
  - destruct (lookup_lt_is_Some_2 _ _ Hj) as [target Htarget].
    rewrite (drop_S _ _ _ Htarget) in Hperm.
    destruct (index_ok cur target) as (idx & Hindex & Hidx).
    { rewrite Hperm. set_solver. }
    rewrite (for_each_cons_ok _ _ _ _ _ (replace_step_hit _ m _ _ _ Htarget Hindex)).
    pose proof (insert_perm _ _ _ _ m _ Hperm Hidx) as Hperm'.
    destruct (IH (done_ ++ [m]) (<[idx:=m]> cur)) as (cur' & Hcur' & Hlen & Hfinal).
    { by rewrite length_app, Nat.add_1_r. }
    rewrite length_app, Nat.add_1_r in Hcur', Hfinal.
    exists cur'. split; [done|]. split; [by rewrite Hlen, length_insert|].
    rewrite Hfinal, <-!app_assoc.
    replace (length sorted_dest - length done_)%nat
      with (S (length sorted_dest - S (length done_))) by lia.
    cbn [take app].
    by replace (length done_ + S (length ms))%nat
      with (S (length done_) + length ms)%nat by lia.
  - rewrite (for_each_cons_ok _ _ _ _ _ (replace_step_skip (length done_) m cur ltac:(lia))).
    rewrite replace_skip by lia.
    exists cur. split; [done|]. split; [done|].
    replace (length sorted_dest - length done_)%nat with 0%nat by lia.
    rewrite take_0, app_nil_r, Hperm.
    by rewrite !drop_ge by lia.
Qed.

End ReplaceFacts.

(** ** One hand-over, and a round of them *)

Section MigrationFacts.
Variable get_fitness : solution → result pyfloat.
Variable migration_size : nat.

(** One island handing over its migrants. *)
Lemma migrate_from_post num_islands (islands islands' : list (list solution)) i :
  IslandModel.migrate_from get_fitness migration_size num_islands islands i
  = Ok islands' →
  ∃ src, islands !! i = Some src ∧
    (src = [] ∧ islands' = islands ∨
     ∃ migrants dst,
       src ≠ [] ∧
       IslandModel.migrants_of get_fitness migration_size src = Ok migrants ∧
       islands !! ((i + 1) mod num_islands)%nat = Some dst ∧
       (dst = [] ∧ islands' = islands ∨
        ∃ sorted_dest dst',
          dst ≠ [] ∧
          IslandModel.sorted get_fitness true dst = Ok sorted_dest ∧
          islands' = <[((i + 1) mod num_islands)%nat := dst']> islands ∧
          length dst' = length dst ∧
          dst' ≡ₚ handed_over migrants sorted_dest)).
Proof.
  unfold IslandModel.migrate_from, IslandModel.migrants_of. intros H.
  apply result_bind_ok in H as (src & Hsrc & H).
  unfold getitem in Hsrc. destruct (islands !! i) as [src'|] eqn:Hi; [|done].
  injection Hsrc as ->. exists src. split; [done|].
  destruct src as [|s0 src]; [left; by injection H as <-|]. right.
  set (source_pop := s0 :: src) in *.
  apply result_bind_ok in H as (sorted_source & Hss & H). rewrite Hss. cbn.
  apply result_bind_ok in H as (dst & Hdst & H).
  unfold getitem in Hdst.
  destruct (islands !! ((i + 1) mod num_islands)%nat) as [dst'|] eqn:Hd; [|done].
  injection Hdst as ->.
  exists (take migration_size sorted_source), dst. split; [done|].
  split; [done|]. split; [done|].
  destruct dst as [|d0 dst]; [left; by injection H as <-|]. right.
  set (dest_pop := d0 :: dst) in *.
  apply result_bind_ok in H as (sorted_dest & Hsd & H).
  apply result_bind_ok in H as (dst' & Hloop & H).
  set (migrants := take migration_size sorted_source) in *.
  pose proof (sorted_perm _ _ _ _ Hsd) as Hperm.
  destruct (replace_loop_post sorted_dest [] migrants dest_pop) as
    (cur' & Hcur' & Hlen & Hfinal).
  { by rewrite drop_0. }
  unfold IslandModel.enumerate in Hloop. cbn [length] in Hcur'.
  rewrite Hcur' in Hloop. injection Hloop as ->.
  unfold setitem in H. case_decide; [|done]. injection H as <-.
  exists sorted_dest, dst'. split; [done|]. split; [done|]. split; [done|].
  split; [done|]. unfold handed_over.
  by rewrite Hfinal, Nat.sub_0_r.
Qed.

Lemma migrate_from_sizes num_islands (islands islands' : list (list solution)) i :
  IslandModel.migrate_from get_fitness migration_size num_islands islands i
  = Ok islands' →
  length <$> islands' = length <$> islands.
Proof.
  intros (src & Hsrc & [[_ ->]|(ms & dst & _ & _ & Hdst & [[_ ->]|H])])%migrate_from_post;
    [done..|].
  destruct H as (sd & dst' & _ & _ & -> & Hlen & _).
  rewrite list_fmap_insert, Hlen. apply list_insert_id.
  by rewrite list_lookup_fmap, Hdst.
Qed.

Lemma migrate_steps_sizes num_islands idxs (islands islands' : list (list solution)) :
  for_each (IslandModel.migrate_from get_fitness migration_size num_islands)
    idxs islands = Ok islands' →
  length <$> islands' = length <$> islands.
Proof.
  revert islands. induction idxs as [|i idxs IH]; intros islands; simpl.
  { by intros [= <-]. }
  intros H. apply result_bind_ok in H as (isl1 & Hstep & H).
  apply IH in H. apply migrate_from_sizes in Hstep. congruence.
Qed.

(** A step leaves every island but its destination as it was. *)
Lemma migrate_from_frame num_islands (islands islands' : list (list solution)) i k :
  IslandModel.migrate_from get_fitness migration_size num_islands islands i
  = Ok islands' →
  k ≠ ((i + 1) mod num_islands)%nat → islands' !! k = islands !! k.
Proof.
  intros (src & Hsrc & [[_ ->]|(ms & dst & _ & _ & Hdst & [[_ ->]|H])])%migrate_from_post Hk;
    [done..|].
  destruct H as (sd & dst' & _ & _ & -> & _). by rewrite list_lookup_insert_ne.
Qed.

Lemma migrate_steps_frame num_islands idxs (islands islands' : list (list solution)) k :
  for_each (IslandModel.migrate_from get_fitness migration_size num_islands)
    idxs islands = Ok islands' →
  Forall (λ i, k ≠ ((i + 1) mod num_islands)%nat) idxs →
  islands' !! k = islands !! k.
Proof.
  revert islands. induction idxs as [|i idxs IH]; intros islands; simpl.
  { by intros [= <-]. }
  intros H [Hi Hidxs]%Forall_cons.
  apply result_bind_ok in H as (isl1 & Hstep & H).
  rewrite (IH _ H Hidxs). by eapply migrate_from_frame.
Qed.

(** Every island's individuals stay evaluated, and then no step raises. *)
Lemma migrate_from_total num_islands (islands : list (list solution)) i :
  all_evaluated get_fitness islands →
  (i < length islands)%nat → (0 < num_islands ≤ length islands)%nat →
  ∃ islands',
    IslandModel.migrate_from get_fitness migration_size num_islands islands i
    = Ok islands' ∧ all_evaluated get_fitness islands'.
Proof.
  intros Hall Hi Hn. unfold IslandModel.migrate_from.
  destruct (lookup_lt_is_Some_2 _ _ Hi) as [src Hsrc].
  unfold getitem. rewrite Hsrc. cbn.
  destruct src as [|s0 src]; [by exists islands|].
  set (source_pop := s0 :: src) in *.
  assert (Forall (λ s, is_ok (get_fitness s) = true) source_pop) as Hsrc_ok
    by by eapply Forall_lookup_1.
  pose proof (sorted_ok get_fitness false _ Hsrc_ok) as Hss.
  destruct (IslandModel.sorted get_fitness false source_pop)
    as [sorted_source|e] eqn:Hsorted; [|done]. cbn.
  assert ((i + 1) mod num_islands < length islands)%nat as Hd.
  { pose proof (Nat.mod_upper_bound (i + 1) num_islands). lia. }
  destruct (lookup_lt_is_Some_2 _ _ Hd) as [dst Hdst].
  rewrite Hdst. cbn.
  destruct dst as [|d0 dst]; [by exists islands|].
  set (dest_pop := d0 :: dst) in *.
  assert (Forall (λ s, is_ok (get_fitness s) = true) dest_pop) as Hdst_ok
    by by eapply Forall_lookup_1.
  pose proof (sorted_ok get_fitness true _ Hdst_ok) as Hsd.
  destruct (IslandModel.sorted get_fitness true dest_pop)
    as [sorted_dest|e] eqn:Hsorted'; [|done]. cbn.
  set (migrants := take migration_size sorted_source).
  pose proof (sorted_perm _ _ _ _ Hsorted') as Hperm.
  destruct (replace_loop_post sorted_dest [] migrants dest_pop) as
    (cur' & Hcur' & Hlen & Hfinal).
  { by rewrite drop_0. }
  unfold IslandModel.enumerate. cbn [length] in Hcur'. rewrite Hcur'. cbn.
  rewrite setitem_ok by done. eexists. split; [done|].
  apply Forall_insert; [done|].
  rewrite Hfinal. cbn. apply Forall_app. split.
  - apply Forall_take. unfold migrants. apply Forall_take.
    by rewrite (sorted_perm _ _ _ _ Hsorted).
  - apply Forall_drop. by rewrite Hperm.
Qed.

Lemma migrate_steps_total num_islands idxs (islands : list (list solution)) :
  all_evaluated get_fitness islands →
  Forall (λ i, (i < length islands)%nat) idxs →
  (0 < num_islands ≤ length islands)%nat →
  ∃ islands',
    for_each (IslandModel.migrate_from get_fitness migration_size num_islands)
      idxs islands = Ok islands' ∧ all_evaluated get_fitness islands'.
Proof.
  revert islands. induction idxs as [|i idxs IH]; intros islands Hall Hidx Hn.
  { by exists islands. }
  apply Forall_cons in Hidx as [Hi Hidx].
  destruct (migrate_from_total num_islands islands i Hall Hi Hn)
    as (isl1 & Hstep & Hall1).
  rewrite (for_each_cons_ok _ _ _ _ _ Hstep).
  assert (length isl1 = length islands) as Hlen.
  { apply migrate_from_sizes in Hstep.
    by rewrite <-(length_fmap length isl1), Hstep, length_fmap. }
  apply IH; [done| |lia].
  eapply Forall_impl; [done|]. intros j Hj. simpl in *. lia.
Qed.

End MigrationFacts.

(** What a hand-over to a non-empty destination leaves there. *)
Lemma migrate_from_handed_over (get_fitness : solution → result pyfloat)
    (migration_size : nat) (islands : list (list solution))
    num_islands i islands' src dst :
  IslandModel.migrate_from get_fitness migration_size num_islands islands i
  = Ok islands' →
  islands !! i = Some src → src ≠ [] →
  islands !! ((i + 1) mod num_islands)%nat = Some dst → dst ≠ [] →
  ∃ migrants sorted_dest dst',
    IslandModel.migrants_of get_fitness migration_size src = Ok migrants ∧
    IslandModel.sorted get_fitness true dst = Ok sorted_dest ∧
    islands' = <[((i + 1) mod num_islands)%nat := dst']> islands ∧
    length dst' = length dst ∧
    dst' ≡ₚ handed_over migrants sorted_dest.
Proof.
  intros Hstep Hsrc Hne Hdst Hne'.
  apply migrate_from_post in Hstep as (src' & Hsrc' & Hcases).
  rewrite Hsrc in Hsrc'. injection Hsrc' as <-.
  destruct Hcases as [[? _]|(ms & dst0 & _ & Hms & Hdst0 & Hcases)]; [done|].
  rewrite Hdst in Hdst0. injection Hdst0 as <-.
  destruct Hcases as [[? _]|(sd & dst' & _ & Hsd & -> & Hlen & Hperm)]; [done|].
  by exists ms, sd, dst'.
Qed.

(** C5 (amended): a migration round that returns leaves the size of every
    population as it was; when island [i] hands over to a non-empty
    destination, the destination becomes a rearrangement of the migrants
    that found a slot followed by its own worst-first order without the
    slots they took; and the round does return when every individual has a
    fitness.  Nothing relates a migrant's fitness to that of the individual
    it replaces. *)
Theorem migration_keeps_sizes (get_fitness : solution → result pyfloat)
    (migration_size : nat) (islands : list (list solution)) :
  (∀ islands',
     IslandModel._migrate_solutions get_fitness migration_size islands
     = Ok islands' →
     length <$> islands' = length <$> islands) ∧
  (∀ num_islands i islands' src dst,
     IslandModel.migrate_from get_fitness migration_size num_islands islands i
     = Ok islands' →
     islands !! i = Some src → src ≠ [] →
     islands !! ((i + 1) mod num_islands)%nat = Some dst → dst ≠ [] →
     ∃ migrants sorted_dest dst',
       IslandModel.migrants_of get_fitness migration_size src = Ok migrants ∧
       IslandModel.sorted get_fitness true dst = Ok sorted_dest ∧
       islands' = <[((i + 1) mod num_islands)%nat := dst']> islands ∧
       length dst' = length dst ∧
       dst' ≡ₚ handed_over migrants sorted_dest) ∧
  (all_evaluated get_fitness islands →
   ∃ islands',
     IslandModel._migrate_solutions get_fitness migration_size islands
     = Ok islands').
Proof.
  split_and!.
  - intros islands'. apply migrate_steps_sizes.
  - intros N i islands' src dst. apply migrate_from_handed_over.
  - intros Hall. unfold IslandModel._migrate_solutions.
    destruct islands as [|p islands]; [by exists []|].
    destruct (migrate_steps_total get_fitness migration_size
                (length (p :: islands)) (seq 0 (length (p :: islands)))
                (p :: islands) Hall) as (islands' & H & _).
    + apply Forall_seq. intros j Hj. lia.
    + simpl. lia.
    + by exists islands'.
Qed.

Lemma migration_keeps_sizes_witness :
  (length <$> [[sol_unfit]; [sol_unfit]]) = (length <$> [[sol_unfit]; [sol_fit]]).
Proof.
  apply (proj1 (migration_keeps_sizes fitness_skill 1 [[sol_unfit]; [sol_fit]])).
  by vm_compute.
Defined.

(** The individual that island 0 sends is worse than the one it replaces
    in island 1: afterwards island 1 holds nobody as fit as the individual
    it lost. *)
Lemma migrant_can_be_worse :
  fitness_skill sol_unfit = Ok (Fin (Qc_of_Z 1500)) ∧
  fitness_skill sol_fit = Ok (Fin (Qc_of_Z 300)) ∧
  IslandModel._migrate_solutions fitness_skill 1 [[sol_unfit]; [sol_fit]]
  = Ok [[sol_unfit]; [sol_unfit]] ∧
  (1 `min` length [sol_unfit] = 1)%nat ∧
  length (filter (λ s, at_most fitness_skill (Fin (Qc_of_Z 300)) s = true)
                 [sol_unfit]) = 0%nat.
Proof.
  split; [unfold fitness_skill; qc_compute|].
  split; [unfold fitness_skill; qc_compute|].
  split; [by vm_compute|]. split; [done|]. by vm_compute.
Qed.

Lemma seq_snoc i : seq 0 (S i) = seq 0 i ++ [i].
Proof. by rewrite seq_S. Qed.

(** C4 (amended): the islands are served in index order on the live
    populations.  When island [i+1] is reached, it holds what island [i]
    has just written into its pre-round population: its migrants are
    selected from a rearrangement of island [i]'s migrants of this round
    and of the rest of its own individuals; island 0 alone is read as it
    was before the round. *)
Theorem migration_reads_live_population
    (get_fitness : solution → result pyfloat) (migration_size : nat)
    (islands : list (list solution)) (i : nat) (reached : list (list solution)) :
  (S i < length islands)%nat →
  IslandModel.islands_before get_fitness migration_size islands (S i)
  = Ok reached →
  IslandModel.islands_before get_fitness migration_size islands 0 = Ok islands ∧
  ∃ before,
    IslandModel.islands_before get_fitness migration_size islands i = Ok before ∧
    IslandModel.migrate_from get_fitness migration_size (length islands) before i
    = Ok reached ∧
    before !! S i = islands !! S i ∧
    ∀ src pre,
      before !! i = Some src → src ≠ [] →
      islands !! S i = Some pre → pre ≠ [] →
      ∃ migrants sorted_pre pop,
        IslandModel.migrants_of get_fitness migration_size src = Ok migrants ∧
        IslandModel.sorted get_fitness true pre = Ok sorted_pre ∧
        reached !! S i = Some pop ∧
        pop ≡ₚ handed_over migrants sorted_pre.
Proof.
  intros Hi Hreached. split; [done|].
  unfold IslandModel.islands_before in *.
  rewrite seq_snoc, for_each_app in Hreached.
  apply result_bind_ok in Hreached as (before & Hbefore & Hstep).
  simpl in Hstep. apply result_bind_ok in Hstep as (r & Hstep & [= ->]).
  exists before. split; [done|]. split; [done|].
  assert (before !! S i = islands !! S i) as Hframe.
  { eapply migrate_steps_frame; [done|].
    apply Forall_seq. intros j Hj.
    rewrite Nat.mod_small by lia. lia. }
  split; [done|].
  intros src pre Hsrc Hne Hpre Hne'.
  assert (((i + 1) mod length islands)%nat = S i) as Hmod
    by (rewrite Nat.mod_small by lia; lia).
  destruct (migrate_from_handed_over get_fitness migration_size before
              (length islands) i reached src pre)
    as (ms & sd & dst' & Hms & Hsd & -> & _ & Hperm);
    [done..|by rewrite Hmod, Hframe|done|].
  exists ms, sd, dst'. split; [done|]. split; [done|]. split; [|done].
  rewrite Hmod. apply list_lookup_insert_eq.
  apply lookup_lt_is_Some_1. rewrite Hframe. by eexists.
Qed.

Lemma migration_reads_live_population_witness :
  ∃ pop, ([[sol_fit]; [sol_fit]; [sol_unfit]] !! 1%nat) = Some pop ∧
         pop ≡ₚ handed_over [sol_fit] [sol_unfit].
Proof.
  destruct (migration_reads_live_population fitness_skill 1
              [[sol_fit]; [sol_unfit]; [sol_unfit]] 0
              [[sol_fit]; [sol_fit]; [sol_unfit]])
    as (_ & before & Hbefore & _ & _ & Hpop); [simpl; lia|by vm_compute|].
  injection Hbefore as <-.
  destruct (Hpop [sol_fit] [sol_unfit]) as (ms & sd & pop & Hms & Hsd & Hl & Hp);
    [done..|].
  exists pop. split; [done|].
  assert (ms = [sol_fit]) as <-.
  { assert (IslandModel.migrants_of fitness_skill 1 [sol_fit] = Ok [sol_fit]) as H
      by by vm_compute.
    rewrite H in Hms. by injection Hms. }
  assert (sd = [sol_unfit]) as <-; [|done].
  assert (IslandModel.sorted fitness_skill true [sol_unfit] = Ok [sol_unfit]) as H
    by by vm_compute.
  rewrite H in Hsd. by injection Hsd.
Defined.

(** Island 1 passes on the individual it has just received from island 0:
    its migrant is not a member of its pre-round population. *)
Lemma migration_forwards_fresh_migrant :
  ([[sol_fit]; [sol_unfit]; [sol_unfit]] !! 1%nat) = Some [sol_unfit] ∧
  IslandModel.islands_before fitness_skill 1
    [[sol_fit]; [sol_unfit]; [sol_unfit]] 1
  = Ok [[sol_fit]; [sol_fit]; [sol_unfit]] ∧
  IslandModel.migrants_of fitness_skill 1 [sol_fit] = Ok [sol_fit] ∧
  (sol_fit ∉ [sol_unfit]) ∧
  IslandModel.migrants_of fitness_skill 1 [sol_unfit] = Ok [sol_unfit] ∧
  IslandModel._migrate_solutions fitness_skill 1
    [[sol_fit]; [sol_unfit]; [sol_unfit]]
  = Ok [[sol_fit]; [sol_fit]; [sol_fit]].
Proof.
  split; [done|]. split; [by vm_compute|]. split; [by vm_compute|].
  split; [|split; by vm_compute].
  intros [H|H]%elem_of_cons; [discriminate|by apply elem_of_nil in H].
Qed.

(** * Linear arithmetic on rationals *)

(** Linear arithmetic on the rationals behind [Qc]. *)
Ltac qc_to_q :=
  repeat (unfold Qcle, Qclt, Qcplus, Qcminus, Qcopp, Qcmult, Q2Qc in *;
          cbn [this] in *);
  repeat match goal with
         | H : context [Qred _] |- _ => rewrite Qred_correct in H
         | |- context [Qred _] => rewrite Qred_correct
         end.

Ltac qc_lra := qc_to_q; lra.

Lemma Qc_of_nat_S n : Qc_of_nat (S n) = Qc_of_nat n + 1.
Proof.
  unfold Qc_of_nat. rewrite Nat2Z.inj_succ. apply Qc_is_canon.
  unfold Qcplus, Q2Qc. cbn [this]. rewrite !Qred_correct.
  unfold Z.succ, Qc_of_Z. cbn [this]. rewrite inject_Z_plus. reflexivity.
Qed.

(** * Facts about the concrete problems *)

Lemma acyclic_ranked (tasks : gmap string task) (rank : string → nat) :
  map_Forall (λ t tk, Forall (λ dep, (rank dep < rank t)%nat) (dependencies tk))
    tasks →
  acyclic tasks.
Proof.
  intros Hall. exists rank. intros t tk dep Htk Hdep.
  pose proof (Hall t tk Htk) as Hdeps. rewrite Forall_forall in Hdeps.
  by apply Hdeps.
Qed.

Lemma tasks_dep_closed : closed_dependencies tasks_dep.
Proof. unfold closed_dependencies. apply (bool_decide_unpack _). by vm_compute. Qed.

Lemma tasks_dep_acyclic : acyclic tasks_dep.
Proof.
  apply (acyclic_ranked _ rank_dep). apply (bool_decide_unpack _). by vm_compute.
Qed.

Lemma tasks_dep_durations : map_Forall (λ _ tk, 0 ≤ estimated_time tk) tasks_dep.
Proof. apply (bool_decide_unpack _). by vm_compute. Qed.

Lemma fitness_skill_evaluated :
  Forall (λ s, ∃ f, fitness_skill s = Ok f ∧ not_nan f) [sol_fit; sol_unfit].
Proof.
  repeat first [ apply List.Forall_nil
               | apply List.Forall_cons;
                 [eexists; split; [by vm_compute|done]|] ].
Qed.

Lemma tasks_dep_nonempty : tasks_dep ≠ ∅.
Proof. apply insert_non_empty. Qed.

Lemma students_2_nonempty : students_2 ≠ ∅.
Proof. apply insert_non_empty. Qed.

(** * Single-point and two-point crossover *)

Lemma slice_split {A} (l : list A) a b :
  (a ≤ b)%nat → take a l ++ Crossover.slice l a b ++ drop b l = l.
Proof.
  intros Hab. unfold Crossover.slice.
  rewrite <-(take_drop a l) at 4. f_equal.
  rewrite <-(take_drop (b - a) (drop a l)) at 2. f_equal.
  rewrite drop_drop. f_equal. lia.
Qed.

Lemma cut_lookup {A} (l1 l2 : list A) c i :
  length l1 = length l2 →
  (take c l1 ++ drop c l2) !! i = if decide (i < c)%nat then l1 !! i else l2 !! i.
Proof.
  intros Hlen. case_decide as Hi.
  - destruct (decide (i < length l1)%nat) as [Hil|Hil].
    + rewrite lookup_app_l by (rewrite length_take; lia).
      by rewrite lookup_take_lt.
    + rewrite (lookup_ge_None_2 l1) by lia.
      apply lookup_ge_None_2. rewrite length_app, length_take, length_drop. lia.
  - destruct (decide (c ≤ length l1)%nat) as [Hc|Hc].
    + rewrite lookup_app_r by (rewrite length_take; lia).
      rewrite length_take, lookup_drop. f_equal. lia.
    + rewrite (lookup_ge_None_2 l2) by lia.
      apply lookup_ge_None_2. rewrite length_app, length_take, length_drop. lia.
Qed.

Lemma cut_length {A} (l1 l2 : list A) c :
  length l1 = length l2 → length (take c l1 ++ drop c l2) = length l1.
Proof. intros Hlen. rewrite length_app, length_take, length_drop. lia. Qed.

Lemma cut_perm {A} (l1 l2 : list A) c :
  (take c l1 ++ drop c l2) ++ (take c l2 ++ drop c l1) ≡ₚ l1 ++ l2.
Proof.
  rewrite <-(take_drop c l1) at 3. rewrite <-(take_drop c l2) at 3.
  rewrite <-!(assoc_L (++)). f_equiv.
  rewrite !(assoc_L (++)). rewrite (comm (++) (drop c l2 ++ take c l2)).
  rewrite <-!(assoc_L (++)). f_equiv. apply (comm (++)).
Qed.

(** The middle segment of one list spliced into another. *)
Lemma splice_length {A} (l1 l2 : list A) a b :
  length l1 = length l2 → (a ≤ b)%nat →
  length (take a l1 ++ Crossover.slice l2 a b ++ drop b l1) = length l1.
Proof.
  intros Hlen Hab. unfold Crossover.slice.
  rewrite !length_app, !length_take, !length_drop. lia.
Qed.

Lemma splice_lookup {A} (l1 l2 : list A) a b i :
  length l1 = length l2 → (a ≤ b)%nat →
  (take a l1 ++ Crossover.slice l2 a b ++ drop b l1) !! i
  = if decide (a ≤ i < b)%nat then l2 !! i else l1 !! i.
Proof.
  intros Hlen Hab.
  destruct (decide (i < length l1)%nat) as [Hi|Hi]; last first.
  { rewrite lookup_ge_None_2 by (rewrite splice_length; [lia|done..]).
    case_decide; symmetry; apply lookup_ge_None_2; lia. }
  unfold Crossover.slice.
  destruct (decide (i < a)%nat) as [Hia|Hia].
  { rewrite lookup_app_l by (rewrite length_take; lia).
    rewrite lookup_take_lt by done. case_decide; [lia|done]. }
  rewrite lookup_app_r by (rewrite length_take; lia).
  rewrite length_take, Nat.min_l by lia.
  destruct (decide (i < b)%nat) as [Hib|Hib].
  - rewrite lookup_app_l by (rewrite length_take, length_drop; lia).
    rewrite lookup_take_lt by lia. rewrite lookup_drop.
    case_decide; [|lia]. f_equal. lia.
  - rewrite lookup_app_r by (rewrite length_take, length_drop; lia).
    rewrite length_take, length_drop, lookup_drop.
    case_decide; [lia|]. f_equal. lia.
Qed.

Lemma splice_perm {A} (l1 l2 : list A) a b :
  (a ≤ b)%nat →
  (take a l1 ++ Crossover.slice l2 a b ++ drop b l1)
  ++ (take a l2 ++ Crossover.slice l1 a b ++ drop b l2) ≡ₚ l1 ++ l2.
Proof.
  intros Hab.
  rewrite <-(slice_split l1 a b Hab) at 4.
  rewrite <-(slice_split l2 a b Hab) at 4.
  generalize (take a l1) (Crossover.slice l1 a b) (drop b l1)
             (take a l2) (Crossover.slice l2 a b) (drop b l2).
  intros x1 y1 z1 x2 y2 z2. solve_Permutation.
Qed.

(** A list that holds at every position the entry of one of two lists
    with the same column has that column too. *)
Lemma mixed_column {A B} (f : A → B) (c l1 l2 : list A) :
  (∀ i, c !! i = l1 !! i ∨ c !! i = l2 !! i) →
  f <$> l1 = f <$> l2 → f <$> c = f <$> l1.
Proof.
  intros Hmix Heq. apply list_eq. intros i. rewrite !list_lookup_fmap.
  destruct (Hmix i) as [->| ->]; [done|].
  by rewrite <-!list_lookup_fmap, Heq.
Qed.

(** What the single-point crossover returns. *)
Lemma crossover_cases (parent1 parent2 : solution) g :
  (length parent1 ≤ 1)%nat ∧
    Crossover.crossover parent1 parent2 g = Ok ((parent1, parent2), g) ∨
  ∃ point g',
    (1 ≤ point < length parent1)%nat ∧
    Crossover.crossover parent1 parent2 g
    = Ok ((take point parent1 ++ drop point parent2,
           take point parent2 ++ drop point parent1), g').
Proof.
  unfold Crossover.crossover. cbn zeta. case_decide as Hlen; [by left|]. right.
  destruct (randint_ok 1 (length parent1 - 1) g) as (c & g' & Hc & Hrange); [lia|].
  rewrite (rand_bind_step _ _ _ _ _ Hc). exists c, g'. split; [lia|done].
Qed.

(** What the two-point crossover returns. *)
Lemma two_point_crossover_cases (parent1 parent2 : solution) g :
  (length parent1 ≤ 2)%nat ∧
    Crossover.two_point_crossover parent1 parent2 g = Ok ((parent1, parent2), g) ∨
  ∃ point1 point2 g',
    (1 ≤ point1 < point2)%nat ∧ (point2 < length parent1)%nat ∧
    Crossover.two_point_crossover parent1 parent2 g
    = Ok ((take point1 parent1 ++ Crossover.slice parent2 point1 point2
             ++ drop point2 parent1,
           take point1 parent2 ++ Crossover.slice parent1 point1 point2
             ++ drop point2 parent2), g').
Proof.
  unfold Crossover.two_point_crossover. cbn zeta.
  case_decide as Hlen; [by left|]. right.
  destruct (randint_ok 1 (length parent1 - 2) g) as (a & g1 & Ha & Harange); [lia|].
  rewrite (rand_bind_step _ _ _ _ _ Ha).
  destruct (randint_ok (a + 1) (length parent1 - 1) g1) as (b & g2 & Hb & Hbrange);
    [lia|].
  rewrite (rand_bind_step _ _ _ _ _ Hb).
  exists a, b, g2. split; [lia|]. split; [lia|done].
Qed.

(** X1: single-point crossover never raises.  The two children
    together hold exactly the genes of the two parents; parents of length
    at most 1 come back unchanged, without a draw.  For parents of equal
    length the children have that length and hold at every position the two
    genes the parents have there, exchanged or not; from length 2 on the
    first gene is never exchanged and the last always is. *)
Theorem crossover_conserves_genes (parent1 parent2 : solution) (g : rng) :
  ∃ child1 child2 g',
    Crossover.crossover parent1 parent2 g = Ok ((child1, child2), g') ∧
    child1 ++ child2 ≡ₚ parent1 ++ parent2 ∧
    ((length parent1 ≤ 1)%nat → child1 = parent1 ∧ child2 = parent2 ∧ g' = g) ∧
    (length parent1 = length parent2 →
     length child1 = length parent1 ∧ length child2 = length parent1 ∧
     (∀ i, (child1 !! i = parent1 !! i ∧ child2 !! i = parent2 !! i) ∨
           (child1 !! i = parent2 !! i ∧ child2 !! i = parent1 !! i)) ∧
     ((2 ≤ length parent1)%nat →
      child1 !! 0%nat = parent1 !! 0%nat ∧ child2 !! 0%nat = parent2 !! 0%nat ∧
      last child1 = last parent2 ∧ last child2 = last parent1)).
Proof.
  destruct (crossover_cases parent1 parent2 g)
    as [[Hlen Hr]|(c & g' & Hc & Hr)]; rewrite Hr.
  - exists parent1, parent2, g. split; [done|]. split; [done|]. split; [done|].
    intros Heq. split; [done|]. split; [done|]. split; [by left|]. lia.
  - eexists _, _, _. split; [reflexivity|].
    split; [apply cut_perm|]. split; [lia|].
    intros Heq. rewrite !cut_length by done. split; [done|]. split; [done|].
    split.
    { intros i. rewrite !cut_lookup by done. case_decide; auto. }
    intros _. rewrite !last_lookup, !cut_length, !cut_lookup by done.
    rewrite <-Heq. repeat case_decide; try lia. done.
Qed.

(** X2: two-point crossover never raises.  The two children together
    hold exactly the genes of the two parents; parents of length at most 2
    come back unchanged, without a draw.  For parents of equal length the
    children have that length and hold at every position the two genes the
    parents have there, exchanged or not; the first and the last gene are
    never exchanged. *)
Theorem two_point_crossover_conserves_genes (parent1 parent2 : solution) (g : rng) :
  ∃ child1 child2 g',
    Crossover.two_point_crossover parent1 parent2 g = Ok ((child1, child2), g') ∧
    child1 ++ child2 ≡ₚ parent1 ++ parent2 ∧
    ((length parent1 ≤ 2)%nat → child1 = parent1 ∧ child2 = parent2 ∧ g' = g) ∧
    (length parent1 = length parent2 →
     length child1 = length parent1 ∧ length child2 = length parent1 ∧
     (∀ i, (child1 !! i = parent1 !! i ∧ child2 !! i = parent2 !! i) ∨
           (child1 !! i = parent2 !! i ∧ child2 !! i = parent1 !! i)) ∧
     child1 !! 0%nat = parent1 !! 0%nat ∧ child2 !! 0%nat = parent2 !! 0%nat ∧
     last child1 = last parent1 ∧ last child2 = last parent2).
Proof.
  destruct (two_point_crossover_cases parent1 parent2 g)
    as [[Hlen Hr]|(a & b & g' & Ha & Hb & Hr)]; rewrite Hr.
  - exists parent1, parent2, g. split; [done|]. split; [done|]. split; [done|].
    intros Heq. split; [done|]. split; [done|]. split; [by left|]. done.
  - eexists _, _, _. split; [reflexivity|].
    split; [apply splice_perm; lia|]. split; [lia|].
    intros Heq.
    rewrite !last_lookup, !splice_length by (done || lia).
    split; [done|]. split; [done|].
    split.
    { intros i. rewrite !splice_lookup by (done || lia). case_decide; auto. }
    rewrite !splice_lookup by (done || lia).
    rewrite <-Heq. repeat case_decide; try lia. done.
Qed.

(** ** Uniform crossover at any swap probability *)

(** What one step of the uniform crossover does at a position that both
    parents and both children have. *)
Lemma uniform_step_cases (parent1 parent2 : solution) sp
    (child1 child2 : solution) i g :
  (i < length parent1)%nat → (i < length parent2)%nat →
  (i < length child1)%nat → (i < length child2)%nat →
  ∃ g',
    Crossover.uniform_step parent1 parent2 sp (child1, child2) i g
      = Ok ((child1, child2), g') ∨
    ∃ g1 g2, parent1 !! i = Some g1 ∧ parent2 !! i = Some g2 ∧
      Crossover.uniform_step parent1 parent2 sp (child1, child2) i g
      = Ok ((<[i := g2]> child1, <[i := g1]> child2), g').
Proof.
  intros H1 H2 H3 H4. unfold Crossover.uniform_step.
  destruct (random_ok g) as (r & g' & Hr & _).
  rewrite (rand_bind_step _ _ _ _ _ Hr). exists g'.
  destruct (Qc_ltb r sp); [right|by left].
  destruct (getitem_ok parent1 i H1) as (g1 & Hg1 & Hl1).
  destruct (getitem_ok parent2 i H2) as (g2 & Hg2 & Hl2).
  exists g1, g2. split; [done|]. split; [done|].
  rewrite Hg2. unfold mbind, rand_bind, det at 1. cbn beta iota.
  rewrite (setitem_ok child1 i g2 H3). unfold det at 1. cbn beta iota.
  rewrite Hg1. unfold det at 1. cbn beta iota.
  rewrite (setitem_ok child2 i g1 H4). done.
Qed.

(** What the uniform crossover returns when the second parent is at
    least as long as the first. *)
Lemma uniform_loop_cases (parent1 parent2 : solution) sp n :
  ∀ k (child1 child2 : solution) g,
    (k + n ≤ length parent1)%nat → (length parent1 ≤ length parent2)%nat →
    length child1 = length parent1 → length child2 = length parent2 →
    ∃ c1 c2 g',
      Crossover.uniform_loop parent1 parent2 sp (seq k n) (child1, child2) g
      = Ok ((c1, c2), g') ∧
      length c1 = length parent1 ∧ length c2 = length parent2 ∧
      ∀ i, (c1 !! i = child1 !! i ∧ c2 !! i = child2 !! i) ∨
           ((k ≤ i < k + n)%nat ∧
            c1 !! i = parent2 !! i ∧ c2 !! i = parent1 !! i).
Proof.
  induction n as [|n IH]; intros k child1 child2 g Hk Hle Hc1 Hc2.
  { exists child1, child2, g. split; [done|]. split; [done|]. split; [done|].
    intros i. by left. }
  cbn [seq Crossover.uniform_loop].
  destruct (uniform_step_cases parent1 parent2 sp child1 child2 k g)
    as (g1 & [Hs|(a & b & Ha & Hb & Hs)]); try lia;
    rewrite (rand_bind_step _ _ _ _ _ Hs).
  - destruct (IH (S k) child1 child2 g1) as (c1 & c2 & g' & Hr & Hl1 & Hl2 & Hpos);
      try done; [lia|].
    exists c1, c2, g'. split; [done|]. split; [done|]. split; [done|].
    intros i. destruct (Hpos i) as [?|(? & ? & ?)]; [by left|right].
    split; [lia|done].
  - destruct (IH (S k) (<[k := b]> child1) (<[k := a]> child2) g1)
      as (c1 & c2 & g' & Hr & Hl1 & Hl2 & Hpos);
      try (by rewrite length_insert); [lia|done|].
    exists c1, c2, g'. split; [done|]. split; [done|]. split; [done|].
    intros i. destruct (Hpos i) as [[Hi1 Hi2]|(? & ? & ?)].
    + destruct (decide (i = k)) as [->|Hne].
      * right. split; [lia|]. rewrite Hi1, Hi2, Ha, Hb.
        rewrite !list_lookup_insert_eq by lia. done.
      * left. rewrite Hi1, Hi2. by rewrite !list_lookup_insert_ne.
    + right. split; [lia|done].
Qed.

Lemma uniform_crossover_cases (parent1 parent2 : solution) sp g :
  (length parent1 ≤ length parent2)%nat →
  ∃ c1 c2 g',
    Crossover.uniform_crossover parent1 parent2 sp g = Ok ((c1, c2), g') ∧
    length c1 = length parent1 ∧ length c2 = length parent2 ∧
    ∀ i, (c1 !! i = parent1 !! i ∧ c2 !! i = parent2 !! i) ∨
         (c1 !! i = parent2 !! i ∧ c2 !! i = parent1 !! i).
Proof.
  intros Hle. unfold Crossover.uniform_crossover.
  destruct (uniform_loop_cases parent1 parent2 sp (length parent1) 0
              parent1 parent2 g) as (c1 & c2 & g' & Hr & Hl1 & Hl2 & Hpos);
    try done.
  exists c1, c2, g'. split; [done|]. split; [done|]. split; [done|].
  intros i. destruct (Hpos i) as [?|(_ & ? & ?)]; [by left|by right].
Qed.

(** X3: when the first parent is not longer than the second, uniform
    crossover returns for every swap probability and every random source;
    each child keeps the length of its parent, and the children hold at
    every position the genes the parents have there, exchanged or not. *)
Theorem uniform_crossover_swaps_in_place (parent1 parent2 : solution)
    (swap_probability : Qc) (g : rng) :
  (length parent1 ≤ length parent2)%nat →
  ∃ child1 child2 g',
    Crossover.uniform_crossover parent1 parent2 swap_probability g
    = Ok ((child1, child2), g') ∧
    length child1 = length parent1 ∧ length child2 = length parent2 ∧
    ∀ i, (child1 !! i = parent1 !! i ∧ child2 !! i = parent2 !! i) ∨
         (child1 !! i = parent2 !! i ∧ child2 !! i = parent1 !! i).
Proof. apply uniform_crossover_cases. Qed.

Lemma uniform_crossover_swaps_in_place_witness :
  ∃ child1 child2 g',
    Crossover.uniform_crossover parents_a parents_b (qc 1 2)
      (rng_of [1; 3; 0; 0; 5; 7]%nat)
    = Ok ((child1, child2), g') ∧
    length child1 = length parents_a ∧ length child2 = length parents_b ∧
    ∀ i, (child1 !! i = parents_a !! i ∧ child2 !! i = parents_b !! i) ∨
         (child1 !! i = parents_b !! i ∧ child2 !! i = parents_a !! i).
Proof. apply uniform_crossover_swaps_in_place. vm_compute. lia. Defined.

(** X4: parents that list the same tasks in the same order get
    children that list them in that order, under each of the three
    crossovers, and none of the three raises on such parents. *)
Theorem crossovers_keep_task_order (parent1 parent2 : solution)
    (swap_probability : Qc) (g : rng) :
  task_of <$> parent1 = task_of <$> parent2 →
  (∃ child1 child2 g',
     Crossover.crossover parent1 parent2 g = Ok ((child1, child2), g') ∧
     task_of <$> child1 = task_of <$> parent1 ∧
     task_of <$> child2 = task_of <$> parent1) ∧
  (∃ child1 child2 g',
     Crossover.two_point_crossover parent1 parent2 g = Ok ((child1, child2), g') ∧
     task_of <$> child1 = task_of <$> parent1 ∧
     task_of <$> child2 = task_of <$> parent1) ∧
  (∃ child1 child2 g',
     Crossover.uniform_crossover parent1 parent2 swap_probability g
     = Ok ((child1, child2), g') ∧
     task_of <$> child1 = task_of <$> parent1 ∧
     task_of <$> child2 = task_of <$> parent1).
Proof.
  intros Hcol.
  assert (length parent1 = length parent2) as Hlen.
  { by rewrite <-(length_fmap task_of parent1), Hcol, length_fmap. }
  split; [|split].
  - destruct (crossover_cases parent1 parent2 g)
      as [[_ Hr]|(c & g' & Hc & Hr)]; rewrite Hr; eexists _, _, _;
      (split; [reflexivity|]); [by rewrite Hcol|].
    split; apply (mixed_column _ _ parent1 parent2); try done;
      intros i; rewrite cut_lookup by done; case_decide; auto.
  - destruct (two_point_crossover_cases parent1 parent2 g)
      as [[_ Hr]|(a & b & g' & Ha & Hb & Hr)]; rewrite Hr; eexists _, _, _;
      (split; [reflexivity|]); [by rewrite Hcol|].
    split; apply (mixed_column _ _ parent1 parent2); try done;
      intros i; rewrite splice_lookup by (done || lia); case_decide; auto.
  - destruct (uniform_crossover_cases parent1 parent2 swap_probability g)
      as (c1 & c2 & g' & Hr & _ & _ & Hpos); [lia|].
    exists c1, c2, g'. split; [done|].
    split; apply (mixed_column _ _ parent1 parent2); try done;
      intros i; destruct (Hpos i) as [[? ?]|[? ?]]; auto.
Qed.

Lemma crossovers_keep_task_order_witness :
  (∃ child1 child2 g',
     Crossover.crossover parents_a parents_b (rng_of [1]%nat)
     = Ok ((child1, child2), g') ∧
     task_of <$> child1 = task_of <$> parents_a ∧
     task_of <$> child2 = task_of <$> parents_a) ∧
  (∃ child1 child2 g',
     Crossover.two_point_crossover parents_a parents_b (rng_of [1]%nat)
     = Ok ((child1, child2), g') ∧
     task_of <$> child1 = task_of <$> parents_a ∧
     task_of <$> child2 = task_of <$> parents_a) ∧
  (∃ child1 child2 g',
     Crossover.uniform_crossover parents_a parents_b (qc 1 2) (rng_of [1]%nat)
     = Ok ((child1, child2), g') ∧
     task_of <$> child1 = task_of <$> parents_a ∧
     task_of <$> child2 = task_of <$> parents_a).
Proof. apply crossovers_keep_task_order. reflexivity. Defined.

(** * Tournament selection *)

Lemma flt_false_fle x y : not_nan x → not_nan y → flt x y = false → fle y x = true.
Proof.
  unfold not_nan. destruct x, y; simpl; try done.
  intros _ _ ->. done.
Qed.

(** Taking an entry out of the pool: the last entry fills its place. *)
Lemma pool_pick {A} (pool : list A) j x xl :
  pool !! j = Some x → last pool = Some xl →
  pool ≡ₚ x :: take (length pool - 1) (<[j := xl]> pool).
Proof.
  intros Hj Hlast. apply last_Some in Hlast as [l' ->].
  rewrite length_app. simpl. replace (length l' + 1 - 1)%nat with (length l') by lia.
  destruct (decide (j < length l')%nat) as [Hlt|Hge].
  - rewrite lookup_app_l in Hj by done.
    rewrite insert_app_l by done.
    rewrite take_app_length' by (by rewrite length_insert).
    rewrite <-(take_drop_middle l' j x Hj) at 1.
    rewrite insert_take_drop by done.
    rewrite <-!(assoc_L (++)). simpl. solve_Permutation.
  - apply lookup_lt_Some in Hj as Hj'. rewrite length_app in Hj'. simpl in Hj'.
    assert (j = length l') as -> by lia.
    rewrite list_lookup_middle in Hj by done. injection Hj as ->.
    rewrite insert_app_r_alt by lia. rewrite Nat.sub_diag. simpl.
    rewrite take_app_length. apply Permutation_app_comm.
Qed.

Lemma sample_loop_S {A} k (pool : list A) x0 xl g :
  head pool = Some x0 → last pool = Some xl →
  random.sample_loop (S k) pool g
  = match random.sample_loop k
            (take (length pool - 1)
               (<[(draws g (cursor g) mod length pool)%nat := xl]> pool))
            (Rng (draws g) (S (cursor g))) with
    | Ok (rest, g') =>
        Ok (default x0 (pool !! (draws g (cursor g) mod length pool)%nat) :: rest, g')
    | Raise e => Raise e
    end.
Proof.
  intros Hhead Hlast. cbn [random.sample_loop].
  destruct pool as [|y pool']; [done|]. injection Hhead as ->.
  rewrite Hlast. by rewrite (rand_bind_step _ _ _ _ _ (raw_ok g)).
Qed.

(** What [random.sample] returns: as many entries as asked for, taken
    from the population without taking a position twice. *)
Lemma sample_loop_post {A} k :
  ∀ (pool : list A) g, (k ≤ length pool)%nat →
    ∃ res rest g',
      random.sample_loop k pool g = Ok (res, g') ∧
      length res = k ∧ pool ≡ₚ res ++ rest.
Proof.
  induction k as [|k IH]; intros pool g Hk.
  { exists [], pool, g. done. }
  destruct (last pool) as [xl|] eqn:Hlast; last first.
  { apply last_None in Hlast. subst pool. simpl in Hk. lia. }
  destruct (head pool) as [x0|] eqn:Hhead; last first.
  { apply head_None in Hhead. subst pool. simpl in Hk. lia. }
  rewrite (sample_loop_S k pool x0 xl g Hhead Hlast).
  set (j := (draws g (cursor g) mod length pool)%nat).
  assert (j < length pool)%nat as Hj.
  { apply Nat.mod_upper_bound. lia. }
  destruct (lookup_lt_is_Some_2 pool j Hj) as [x Hx].
  pose proof (pool_pick pool j x xl Hx Hlast) as Hperm.
  set (pool1 := take (length pool - 1) (<[j := xl]> pool)) in *.
  destruct (IH pool1 (Rng (draws g) (S (cursor g)))) as (res & rest & g' & Hr & Hlen & Hp).
  { unfold pool1. rewrite length_take, length_insert. lia. }
  rewrite Hr. exists (x :: res), rest, g'. rewrite Hx. simpl.
  split; [done|]. split; [by rewrite Hlen|].
  rewrite Hperm. by constructor.
Qed.

Lemma sample_post {A} (population : list A) k g :
  (k ≤ length population)%nat →
  ∃ res rest g',
    random.sample population k g = Ok (res, g') ∧
    length res = k ∧ population ≡ₚ res ++ rest.
Proof.
  intros Hk. unfold random.sample. case_decide; [lia|].
  by apply sample_loop_post.
Qed.

Section SelectionFacts.
Variable get_fitness : solution → result pyfloat.

(** The best entry so far: it has been seen, its key is on record, and
    no entry seen has a smaller key. *)
Lemma min_loop_post (l seen : list solution) (best : solution * pyfloat) :
  Forall (λ s, ∃ f, get_fitness s = Ok f ∧ not_nan f) l →
  best.1 ∈ seen → get_fitness best.1 = Ok best.2 → not_nan best.2 →
  Forall (λ s, ∃ f, get_fitness s = Ok f ∧ fle best.2 f = true) seen →
  ∃ best',
    for_each (Selection.min_step get_fitness) l best = Ok best' ∧
    best'.1 ∈ seen ++ l ∧ get_fitness best'.1 = Ok best'.2 ∧
    Forall (λ s, ∃ f, get_fitness s = Ok f ∧ fle best'.2 f = true) (seen ++ l).
Proof.
  revert seen best. induction l as [|x l IH]; intros seen best Hl Hin Hkey Hnan Hseen.
  { exists best. rewrite app_nil_r. done. }
  apply Forall_cons in Hl as [(fx & Hfx & Hnx) Hl].
  assert (Selection.min_step get_fitness best x
          = Ok (if flt fx best.2 then (x, fx) else best)) as Hstep.
  { unfold Selection.min_step. rewrite Hfx. simpl. by destruct (flt fx best.2). }
  rewrite (for_each_cons_ok _ _ _ _ _ Hstep).
  replace (seen ++ x :: l) with ((seen ++ [x]) ++ l) by (by rewrite <-(assoc_L (++))).
  destruct (flt fx best.2) eqn:Hlt.
  - apply (IH (seen ++ [x]) (x, fx)); try done.
    + set_solver.
    + apply Forall_app. split.
      * eapply Forall_impl; [exact Hseen|]. intros s (f & Hf & Hle).
        exists f. split; [done|]. simpl.
        eapply fle_trans; [|exact Hle]. by apply flt_fle.
      * apply Forall_singleton. exists fx. split; [done|]. by apply fle_refl.
  - apply (IH (seen ++ [x]) best); try done.
    + set_solver.
    + apply Forall_app. split; [done|].
      apply Forall_singleton. exists fx. split; [done|].
      by apply flt_false_fle.
Qed.

Lemma py_min_key_post (l : list solution) :
  l ≠ [] → Forall (λ s, ∃ f, get_fitness s = Ok f ∧ not_nan f) l →
  ∃ winner fw,
    Selection.py_min_key get_fitness l = Ok winner ∧
    winner ∈ l ∧ get_fitness winner = Ok fw ∧
    Forall (λ s, ∃ f, get_fitness s = Ok f ∧ fle fw f = true) l.
Proof.
  intros Hne Hl. destruct l as [|x l]; [done|].
  apply Forall_cons in Hl as [(fx & Hfx & Hnx) Hl].
  unfold Selection.py_min_key. rewrite Hfx.
  unfold mbind, result_bind, rbind. cbn beta iota.
  destruct (min_loop_post l [x] (x, fx)) as (best & Hr & Hin & Hkey & Hall);
    try done.
  { set_solver. }
  { apply Forall_singleton. exists fx. split; [done|]. by apply fle_refl. }
  rewrite Hr. exists best.1, best.2. done.
Qed.

Lemma select_cases (population : list solution) g :
  population ≠ [] →
  Forall (λ s, ∃ f, get_fitness s = Ok f ∧ not_nan f) population →
  ∃ winner g' tournament rest fw,
    Selection.select get_fitness population g = Ok (winner, g') ∧
    population ≡ₚ tournament ++ rest ∧
    length tournament = Nat.min 3 (length population) ∧
    winner ∈ tournament ∧ get_fitness winner = Ok fw ∧
    Forall (λ s, ∃ f, get_fitness s = Ok f ∧ fle fw f = true) tournament.
Proof.
  intros Hne Hall. unfold Selection.select.
  destruct (sample_post population
              (Nat.min Selection.tournament_size (length population)) g)
    as (t & rest & g' & Hs & Hlen & Hperm); [lia|].
  rewrite (rand_bind_step _ _ _ _ _ Hs).
  assert (t ≠ []) as Ht.
  { intros ->. simpl in Hlen. unfold Selection.tournament_size in Hlen.
    destruct population; [done|]. simpl in Hlen. lia. }
  destruct (py_min_key_post t Ht) as (w & fw & Hw & Hin & Hfw & Hbest).
  { rewrite Hperm in Hall. by apply Forall_app in Hall as [? _]. }
  rewrite Hw. exists w, g', t, rest, fw. done.
Qed.

End SelectionFacts.

(** X5: on a non-empty population whose individuals all have a fitness
    that is not NaN, tournament selection returns an individual of a
    tournament of [min(3, n)] individuals taken at distinct positions of the
    population, and no individual of the tournament has a smaller fitness. *)
Theorem select_returns_tournament_best (get_fitness : solution → result pyfloat)
    (population : list solution) (g : rng) :
  population ≠ [] →
  Forall (λ s, ∃ f, get_fitness s = Ok f ∧ not_nan f) population →
  ∃ winner g' tournament rest fw,
    Selection.tournament_select get_fitness population g = Ok (winner, g') ∧
    population ≡ₚ tournament ++ rest ∧
    length tournament = Nat.min 3 (length population) ∧
    winner ∈ tournament ∧ get_fitness winner = Ok fw ∧
    Forall (λ s, ∃ f, get_fitness s = Ok f ∧ fle fw f = true) tournament.
Proof. apply select_cases. Qed.

Lemma select_returns_tournament_best_witness :
  ∃ winner g' tournament rest fw,
    Selection.tournament_select fitness_skill [sol_fit; sol_unfit]
      (rng_of [1]%nat) = Ok (winner, g') ∧
    [sol_fit; sol_unfit] ≡ₚ tournament ++ rest ∧
    length tournament = Nat.min 3 (length [sol_fit; sol_unfit]) ∧
    winner ∈ tournament ∧ fitness_skill winner = Ok fw ∧
    Forall (λ s, ∃ f, fitness_skill s = Ok f ∧ fle fw f = true) tournament.
Proof.
  apply select_returns_tournament_best; [done|exact fitness_skill_evaluated].
Defined.

(** X6: on a population of at most three individuals the tournament is
    the whole population: selection returns an individual of minimal
    fitness.  On the empty population it raises [ValueError]. *)
Theorem select_small_population_best (get_fitness : solution → result pyfloat)
    (population : list solution) (g : rng) :
  (length population ≤ 3)%nat →
  Forall (λ s, ∃ f, get_fitness s = Ok f ∧ not_nan f) population →
  match population with
  | [] => Selection.tournament_select get_fitness population g = Raise ValueError
  | _ =>
      ∃ winner g' fw,
        Selection.tournament_select get_fitness population g = Ok (winner, g') ∧
        winner ∈ population ∧ get_fitness winner = Ok fw ∧
        Forall (λ s, ∃ f, get_fitness s = Ok f ∧ fle fw f = true) population
  end.
Proof.
  intros Hlen Hall. destruct population as [|x population]; [done|].
  destruct (select_cases get_fitness (x :: population) g)
    as (w & g' & t & rest & fw & Hr & Hperm & Ht & Hin & Hfw & Hbest); try done.
  assert (rest = []) as ->.
  { apply nil_length_inv. apply Permutation_length in Hperm.
    rewrite length_app in Hperm. lia. }
  rewrite app_nil_r in Hperm.
  exists w, g', fw. split; [done|]. rewrite Hperm. done.
Qed.

Lemma select_small_population_best_witness :
  ∃ winner g' fw,
    Selection.tournament_select fitness_skill [sol_fit; sol_unfit]
      (rng_of [1]%nat) = Ok (winner, g') ∧
    winner ∈ [sol_fit; sol_unfit] ∧ fitness_skill winner = Ok fw ∧
    Forall (λ s, ∃ f, fitness_skill s = Ok f ∧ fle fw f = true)
      [sol_fit; sol_unfit].
Proof.
  apply (select_small_population_best fitness_skill [sol_fit; sol_unfit]
           (rng_of [1]%nat)); [simpl; lia|exact fitness_skill_evaluated].
Defined.

(** * [validate_schedule] *)

Lemma Qc_leb_true x y : Qc_leb x y = true ↔ x ≤ y.
Proof. unfold Qc_leb. apply bool_decide_eq_true. Qed.

Lemma Qc_leb_false x y : Qc_leb x y = false ↔ y < x.
Proof. unfold Qc_leb. rewrite bool_decide_eq_false. by rewrite Qclt_nge. Qed.

Global Instance interval_le_trans : Transitive interval_le.
Proof.
  intros [a1 a2] [b1 b2] [c1 c2]. unfold interval_le. simpl.
  intros [H1|[-> H1]] [H2|[-> H2]].
  - left. by etrans.
  - by left.
  - by left.
  - right. split; [done|]. by etrans.
Qed.

Global Instance interval_le_antisymm : AntiSymm (=) interval_le.
Proof.
  intros [a1 a2] [b1 b2]. unfold interval_le. simpl.
  intros [H1|[Heq H1]] [H2|[H2 H3]]; subst.
  - destruct (irreflexivity Qclt a1). by etrans.
  - by destruct (irreflexivity Qclt _ H1).
  - by destruct (irreflexivity Qclt _ H2).
  - f_equal. by apply Qcle_antisym.
Qed.

Global Instance interval_le_total : Total interval_le.
Proof.
  intros [a1 a2] [b1 b2]. unfold interval_le. simpl.
  destruct (Qc_dec a1 b1) as [[Hlt|Hgt]| ->]; [by left; left|by right; left|].
  destruct (Qclt_le_dec a2 b2) as [Hlt|Hle].
  - left. right. split; [done|]. by apply Qclt_le_weak.
  - right. right. done.
Qed.

Lemma chained_head_le (a : Qc * Qc) tl :
  chained (a :: tl) → Forall (λ b, a.2 ≤ b.1) tl.
Proof.
  revert a. induction tl as [|b tl IH]; intros a; [done|].
  intros (Ha & Hab & Hb). constructor; [done|].
  eapply Forall_impl; [by apply IH|]. intros c Hc. simpl in Hc.
  destruct Hb as (Hb & _). etrans; [exact Hab|]. by etrans.
Qed.

Lemma chained_interval_le (a b : Qc * Qc) :
  a.1 ≤ a.2 → a.2 ≤ b.1 → b.1 ≤ b.2 → interval_le a b.
Proof.
  intros Ha Hab Hb. unfold interval_le.
  destruct (Qc_dec a.1 b.1) as [[Hlt|Hgt]|Heq]; [by left| |].
  - exfalso. apply (irreflexivity Qclt a.1). eapply Qcle_lt_trans; [|exact Hgt].
    by etrans.
  - right. split; [done|]. etrans; [exact Hab|done].
Qed.

Lemma chained_sorted tl : chained tl → Sorted interval_le tl.
Proof.
  induction tl as [|a tl IH]; [constructor|].
  intros (Ha & Hab & Htl). constructor; [by apply IH|].
  destruct tl as [|b tl]; constructor.
  destruct Htl as (Hb & _). by apply chained_interval_le.
Qed.

Lemma chained_overlap_free tl : chained tl → ga_main.overlap_free tl = true.
Proof.
  induction tl as [|a tl IH]; [done|].
  intros (Ha & Hab & Htl). destruct tl as [|b tl]; [done|].
  cbn [ga_main.overlap_free].
  apply Qc_ltb_false in Hab. rewrite Hab. by apply IH.
Qed.

Lemma chained_app_inv l1 l2 : chained (l1 ++ l2) → chained l1 ∧ chained l2.
Proof.
  induction l1 as [|a l1 IH]; [done|].
  intros (Ha & Hab & Htl). destruct (IH Htl) as [H1 H2]. split; [|done].
  split; [done|]. split; [|done]. destruct l1; [done|]. done.
Qed.

(** A free interval goes between the intervals that end before it and
    those that start after it. *)
Lemma chained_insert l1 l2 (x : Qc * Qc) :
  chained (l1 ++ l2) → x.1 ≤ x.2 →
  Forall (λ y, y.2 ≤ x.1) l1 → Forall (λ y, x.2 ≤ y.1) l2 →
  chained (l1 ++ x :: l2).
Proof.
  induction l1 as [|a l1 IH]; intros Hch Hx H1 H2.
  - simpl in *. split; [done|]. split; [|done].
    destruct l2 as [|b l2]; [done|]. by apply Forall_cons in H2 as [? _].
  - destruct Hch as (Ha & Hab & Htl). apply Forall_cons in H1 as [Hax H1].
    split; [done|]. split; [|by apply IH].
    destruct l1 as [|b l1]; [done|]. done.
Qed.

Lemma first_free_slot_ge d tl s : s ≤ ga_main.first_free_slot d tl s.
Proof.
  revert s. induction tl as [|[a b] tl IH]; intros s; [apply Qcle_refl|].
  cbn [ga_main.first_free_slot].
  destruct (Qc_ltb s b) eqn:Hsb; [|apply IH].
  destruct (Qc_leb (s + d) a); [apply Qcle_refl|].
  apply Qc_ltb_true in Hsb. etrans; [|apply IH]. by apply Qclt_le_weak.
Qed.

Lemma first_free_slot_split d tl s :
  chained tl →
  ∃ l1 l2, tl = l1 ++ l2 ∧
    Forall (λ y, y.2 ≤ ga_main.first_free_slot d tl s) l1 ∧
    Forall (λ y, ga_main.first_free_slot d tl s + d ≤ y.1) l2.
Proof.
  revert s. induction tl as [|[a b] tl IH]; intros s Hch.
  { exists [], []. done. }
  pose proof (chained_head_le _ _ Hch) as Hafter.
  destruct Hch as (Ha & Hab & Htl). simpl in Ha.
  cbn [ga_main.first_free_slot].
  destruct (Qc_ltb s b) eqn:Hsb.
  - destruct (Qc_leb (s + d) a) eqn:Hfit.
    + apply Qc_leb_true in Hfit. exists [], ((a, b) :: tl).
      split; [done|]. split; [done|]. constructor; [done|].
      eapply Forall_impl; [exact Hafter|]. intros y Hy. simpl in Hy.
      etrans; [exact Hfit|]. by etrans.
    + destruct (IH b Htl) as (l1 & l2 & Heq & H1 & H2).
      exists ((a, b) :: l1), l2. split; [by rewrite Heq|]. split; [|done].
      constructor; [|done]. simpl. apply first_free_slot_ge.
  - apply Qc_ltb_false in Hsb.
    destruct (IH s Htl) as (l1 & l2 & Heq & H1 & H2).
    exists ((a, b) :: l1), l2. split; [by rewrite Heq|]. split; [|done].
    constructor; [|done]. simpl. etrans; [exact Hsb|]. apply first_free_slot_ge.
Qed.

(** Appending the new interval and sorting puts it in its free slot. *)
Lemma sort_timeline_insert l1 l2 (x : Qc * Qc) :
  chained (l1 ++ l2) → x.1 ≤ x.2 →
  Forall (λ y, y.2 ≤ x.1) l1 → Forall (λ y, x.2 ≤ y.1) l2 →
  sort_timeline ((l1 ++ l2) ++ [x]) = l1 ++ x :: l2.
Proof.
  intros Hch Hx H1 H2. unfold sort_timeline.
  apply (Sorted_unique interval_le).
  - apply Sorted_merge_sort. apply _.
  - apply chained_sorted. by apply chained_insert.
  - rewrite merge_sort_Permutation. solve_Permutation.
Qed.

Lemma place_slot_chained d tl s :
  0 ≤ d → chained tl →
  chained (sort_timeline
             (tl ++ [(ga_main.first_free_slot d tl s,
                      ga_main.first_free_slot d tl s + d)])).
Proof.
  intros Hd Hch.
  destruct (first_free_slot_split d tl s Hch) as (l1 & l2 & Heq & H1 & H2).
  set (s' := ga_main.first_free_slot d tl s) in *.
  assert (s' ≤ s' + d) as Hx.
  { rewrite <-(Qcplus_0_r s') at 1. by apply Qcplus_le_compat; [apply Qcle_refl|]. }
  rewrite Heq at 1. rewrite Heq in Hch.
  rewrite (sort_timeline_insert l1 l2 (s', s' + d)); try done.
  by apply chained_insert.
Qed.

Lemma dependencies_seen_spec tasks sol :
  ∀ seen,
    dependencies_seen tasks seen sol ↔
    ∀ i a tk dep,
      sol !! i = Some a → tasks !! task_of a = Some tk → dep ∈ dependencies tk →
      dep ∈ seen ∨ ∃ j b, (j < i)%nat ∧ sol !! j = Some b ∧ task_of b = dep.
Proof.
  induction sol as [|a0 sol IH]; intros seen.
  { split; [|done]. intros _ i a tk dep Hi. by rewrite lookup_nil in Hi. }
  cbn [dependencies_seen]. rewrite IH. split.
  - intros [Hhead Htail] i a tk dep Hi Htk Hdep. destruct i as [|i].
    + injection Hi as ->. left.
      by eapply (proj1 (Forall_forall _ _) (Hhead tk Htk)).
    + destruct (Htail i a tk dep Hi Htk Hdep) as [Hin|(j & b & Hj & Hb & Ht)].
      * apply elem_of_union in Hin as [Hin%elem_of_singleton|Hin]; [|by left].
        right. exists 0%nat, a0. split; [lia|]. by split.
      * right. exists (S j), b. split; [lia|]. by split.
  - intros Hall. split.
    + intros tk Htk. apply Forall_forall. intros dep Hdep.
      destruct (Hall 0%nat a0 tk dep eq_refl Htk Hdep) as [?|(j & b & Hj & _)];
        [done|lia].
    + intros i a tk dep Hi Htk Hdep.
      destruct (Hall (S i) a tk dep Hi Htk Hdep) as [Hin|(j & b & Hj & Hb & Ht)].
      * left. set_solver.
      * destruct j as [|j].
        -- injection Hb as ->. left. set_solver.
        -- right. exists j, b. split; [lia|]. by split.
Qed.

Lemma dependencies_first_seen tasks sol :
  dependencies_first tasks sol ↔ dependencies_seen tasks ∅ sol.
Proof.
  rewrite dependencies_seen_spec. unfold dependencies_first.
  split; intros Hall i a tk dep Hi Htk Hdep.
  - right. by eapply Hall.
  - destruct (Hall i a tk dep Hi Htk Hdep) as [Hin|?]; [set_solver|done].
Qed.

Section ValidateFacts.
Variable tasks : gmap string task.
Variable students : gmap string student.
Hypothesis durations : map_Forall (λ _ tk, 0 ≤ estimated_time tk) tasks.

Lemma check_dependencies_cases tst deps s :
  dom tst ⊆ dom tasks →
  (Forall (λ dep, dep ∈ dom tst) deps ∧
   ∃ s', ga_main.check_dependencies tasks tst deps s = Ok (Some s')) ∨
  (¬ Forall (λ dep, dep ∈ dom tst) deps ∧
   ga_main.check_dependencies tasks tst deps s = Ok None).
Proof.
  intros Hsub. revert s. induction deps as [|dep deps IH]; intros s.
  { left. split; [done|]. by exists s. }
  cbn [ga_main.check_dependencies].
  destruct (tst !! dep) as [ds|] eqn:Hdep; last first.
  { right. split; [|done]. intros [Hin _]%Forall_cons.
    apply elem_of_dom in Hin as [? ?]. congruence. }
  assert (dep ∈ dom tasks) as [tk Htk]%elem_of_dom.
  { apply Hsub. by apply elem_of_dom. }
  unfold dict_get. rewrite Htk. simpl.
  destruct (IH (Qc_max s (ds + estimated_time tk))) as [[Hall Hr]|[Hall Hr]].
  - left. split; [|done]. constructor; [|done]. by apply elem_of_dom.
  - right. split; [|done]. by intros [_ ?]%Forall_cons.
Qed.

Lemma place_cases seen st (a : assignment) tk :
  placed_inv tasks students seen st →
  tasks !! task_of a = Some tk → student_of a ∈ dom students →
  (Forall (λ dep, dep ∈ seen) (dependencies tk) ∧
   ∃ st', ga_main.place tasks st a = Ok (Some st') ∧
          placed_inv tasks students ({[task_of a]} ∪ seen) st') ∨
  (¬ Forall (λ dep, dep ∈ seen) (dependencies tk) ∧
   ga_main.place tasks st a = Ok None).
Proof.
  intros (Hdom & Hsub & Hstu & Hch) Htk Hs.
  destruct a as [[task_id student_id] start_time].
  unfold task_of, student_of in *. simpl in Htk, Hs.
  unfold ga_main.place, dict_get. rewrite Htk. simpl.
  destruct (check_dependencies_cases (ga_main.task_start_times st)
              (dependencies tk) (float start_time)) as [[Hall (s' & Hr)]|[Hall Hr]];
    [by rewrite Hdom| |]; rewrite Hr; simpl; rewrite Hdom in Hall.
  2: { by right. }
  left. split; [done|].
  assert (is_Some (ga_main.student_timelines st !! student_id)) as [tl Htl].
  { apply elem_of_dom. by rewrite Hstu. }
  rewrite Htl. simpl. eexists. split; [reflexivity|].
  split; [|split; [|split]]; simpl.
  - rewrite dom_insert_L. by rewrite Hdom.
  - apply union_least; [|done]. apply singleton_subseteq_l.
    by apply elem_of_dom.
  - rewrite dom_insert_L. rewrite Hstu. set_solver.
  - apply map_Forall_insert_2; [|done].
    apply place_slot_chained; [by apply (durations _ _ Htk)|by apply (Hch _ _ Htl)].
Qed.

Lemma place_all_cases sol :
  ∀ seen st,
    placed_inv tasks students seen st → known_ids tasks students sol →
    (dependencies_seen tasks seen sol ∧
     ∃ st' seen', ga_main.place_all tasks sol st = Ok (Some st') ∧
                  placed_inv tasks students seen' st') ∨
    (¬ dependencies_seen tasks seen sol ∧
     ga_main.place_all tasks sol st = Ok None).
Proof.
  induction sol as [|a sol IH]; intros seen st Hinv Hknown.
  { left. split; [done|]. by exists st, seen. }
  apply Forall_cons in Hknown as [[Ht Hs] Hknown].
  apply elem_of_dom in Ht as [tk Htk].
  cbn [ga_main.place_all dependencies_seen].
  destruct (place_cases seen st a tk Hinv Htk Hs)
    as [[Hall (st' & Hr & Hinv')]|[Hall Hr]]; rewrite Hr; simpl.
  - destruct (IH _ st' Hinv' Hknown) as [[Hrest Hres]|[Hrest Hres]].
    + left. split; [|done]. split; [|done]. intros tk' Htk'. congruence.
    + right. split; [|done]. by intros [_ ?].
  - right. split; [|done]. intros [Hhead _]. apply Hall. by apply Hhead.
Qed.

Lemma validate_schedule_cases sol :
  known_ids tasks students sol →
  (dependencies_first tasks sol ∧
   ga_main.validate_schedule tasks students sol = Ok true) ∨
  (¬ dependencies_first tasks sol ∧
   ga_main.validate_schedule tasks students sol = Ok false).
Proof.
  intros Hknown. unfold ga_main.validate_schedule. cbn zeta.
  rewrite dependencies_first_seen.
  destruct (place_all_cases sol ∅
              {| ga_main.student_timelines := (λ _, []) <$> students;
                 ga_main.task_start_times := ∅ |})
    as [[Hok (st' & seen' & Hr & Hinv')]|[Hbad Hr]]; try done.
  { split; [|split; [|split]]; simpl.
    - by rewrite dom_empty_L.
    - set_solver.
    - by rewrite dom_fmap_L.
    - intros s tl. rewrite lookup_fmap. by intros [? [_ ->]]%fmap_Some. }
  - left. split; [done|]. rewrite Hr. simpl. f_equal.
    apply forallb_forall. destruct Hinv' as (_ & _ & _ & Hch).
    intros tl Hin%list_elem_of_In.
    apply list_elem_of_fmap in Hin as ([s tl'] & -> & Hin).
    apply elem_of_map_to_list in Hin.
    apply chained_overlap_free. by apply (Hch _ _ Hin).
  - right. split; [done|]. by rewrite Hr.
Qed.

End ValidateFacts.

(** X7: on tasks with durations that are not negative and a solution
    over known tasks and students, [validate_schedule] returns without
    raising, and it returns [True] exactly when every task is listed after
    the tasks it depends on.  The start times of the solution play no part:
    the function moves every assignment to a free slot of its student, so
    its final overlap check never fails. *)
Theorem validate_schedule_checks_order_only (tasks : gmap string task)
    (students : gmap string student) (sol : solution) :
  map_Forall (λ _ tk, 0 ≤ estimated_time tk) tasks →
  known_ids tasks students sol →
  ∃ b, ga_main.validate_schedule tasks students sol = Ok b ∧
       (b = true ↔ dependencies_first tasks sol).
Proof.
  intros Hd Hknown.
  destruct (validate_schedule_cases tasks students Hd sol Hknown)
    as [[Hok ->]|[Hbad ->]].
  - exists true. done.
  - exists false. split; [done|]. split; [done|]. intros ?. by destruct Hbad.
Qed.

Lemma validate_schedule_checks_order_only_witness :
  ∃ b, ga_main.validate_schedule tasks_dep students_1 sol_dep = Ok b ∧
       (b = true ↔ dependencies_first tasks_dep sol_dep).
Proof.
  apply validate_schedule_checks_order_only;
    [exact tasks_dep_durations|known_ids_compute].
Defined.

(** * The population initializer *)

(** ** The order of the tasks *)

Section TaskOrder.
Variable tasks : gmap string task.

Lemma unvisited_less (visited : gset string) task_id :
  task_id ∈ dom tasks → task_id ∉ visited →
  (size (dom tasks ∖ ({[task_id]} ∪ visited)) < size (dom tasks ∖ visited))%nat.
Proof. intros Hin Hnot. apply subset_size. set_solver. Qed.

Lemma unvisited_mono (visited visited' : gset string) :
  visited ⊆ visited' →
  (size (dom tasks ∖ visited') ≤ size (dom tasks ∖ visited))%nat.
Proof. intros Hsub. apply subseteq_size. set_solver. Qed.

Lemma visit_post_mono (seen seen' : gset string) (new : list string) :
  seen ⊆ seen' →
  Forall (λ x, ∃ tk, tasks !! x = Some tk ∧
                     Forall (λ dep, dep ∈ seen) (dependencies tk)) new →
  Forall (λ x, ∃ tk, tasks !! x = Some tk ∧
                     Forall (λ dep, dep ∈ seen') (dependencies tk)) new.
Proof.
  intros Hsub Hall. eapply Forall_impl; [exact Hall|].
  intros x (tk & Htk & Hdeps).
  exists tk. split; [done|]. eapply Forall_impl; [exact Hdeps|]. set_solver.
Qed.

(** A loop of visits, given what one visit does. *)
Lemma visits_post depth :
  (∀ st task_id, (size (dom tasks ∖ st.1) < depth)%nat →
     visit_post tasks st [task_id]
       (PopulationInitializer.visit tasks depth st task_id)) →
  ∀ targets st, (size (dom tasks ∖ st.1) < depth)%nat →
    visit_post tasks st targets
      (PopulationInitializer.for_each_bounded
         (PopulationInitializer.visit tasks depth) targets st).
Proof.
  intros Hvisit. induction targets as [|t targets IH]; intros st Hsize.
  { simpl. split; [done|]. split; [done|]. exists []. rewrite app_nil_r.
    split; [done|]. split; [constructor|]. split; [set_solver|done]. }
  cbn [PopulationInitializer.for_each_bounded].
  specialize (Hvisit st t Hsize).
  destruct (PopulationInitializer.visit tasks depth st t) as [[st1|e]|].
  - destruct Hvisit as (Hsub1 & Ht & new1 & Ho1 & Hnd1 & Hnew1 & Hdeps1).
    rewrite Forall_singleton in Ht.
    assert (size (dom tasks ∖ st1.1) < depth)%nat as Hsize1.
    { eapply Nat.le_lt_trans; [by apply unvisited_mono|done]. }
    specialize (IH st1 Hsize1).
    destruct (PopulationInitializer.for_each_bounded _ targets st1)
      as [[st2|e]|]; [| |done].
    + destruct IH as (Hsub2 & Hts & new2 & Ho2 & Hnd2 & Hnew2 & Hdeps2).
      split; [by etrans|].
      split; [constructor; [set_solver|done]|].
      exists (new1 ++ new2). split; [by rewrite Ho2, Ho1, (assoc_L (++))|].
      split.
      { apply NoDup_app. split; [done|]. split; [|done].
        intros x Hx1 Hx2. apply Hnew1 in Hx1. apply Hnew2 in Hx2. set_solver. }
      split.
      { intros x. rewrite elem_of_app, Hnew1, Hnew2. split.
        - intros [[? ?]|[? ?]]; set_solver.
        - intros [? ?]. destruct (decide (x ∈ st1.1)); [left|right]; done. }
      apply Forall_app. split; [|done]. by eapply visit_post_mono.
    + destruct IH as [-> Hbad]. split; [done|].
      intros [Hc Hall]. apply Hbad. split; [done|].
      by apply Forall_cons in Hall as [_ ?].
  - destruct Hvisit as [-> Hbad]. split; [done|].
    intros [Hc Hall]. apply Hbad. split; [done|].
    apply Forall_cons in Hall as [? _]. by apply Forall_singleton.
  - done.
Qed.

Lemma visit_post_holds depth :
  ∀ st task_id, (size (dom tasks ∖ st.1) < depth)%nat →
    visit_post tasks st [task_id]
      (PopulationInitializer.visit tasks depth st task_id).
Proof.
  induction depth as [|depth IH]; intros [visited order] task_id Hsize; [lia|].
  simpl in Hsize. cbn [PopulationInitializer.visit].
  case_decide as Hseen.
  { simpl. split; [done|]. split; [by apply Forall_singleton|].
    exists []. rewrite app_nil_r. split; [done|]. split; [constructor|].
    split; [set_solver|done]. }
  destruct (tasks !! task_id) as [tk|] eqn:Htk; last first.
  { simpl. split; [done|]. intros [_ Hin]. rewrite Forall_singleton in Hin.
    apply elem_of_dom in Hin as [? ?]. congruence. }
  assert (task_id ∈ dom tasks) as Hdom by (by apply elem_of_dom).
  pose proof (visits_post depth IH (dependencies tk)
                ({[task_id]} ∪ visited, order)) as Hloop.
  simpl in Hloop. specialize (Hloop ltac:(pose proof (unvisited_less visited task_id Hdom Hseen); lia)).
  destruct (PopulationInitializer.for_each_bounded _ (dependencies tk) _)
    as [[[visited' order']|e]|]; [| |done].
  - destruct Hloop as (Hsub & Hdeps & news & Ho & Hnd & Hnew & Hall).
    simpl in *. split; [set_solver|]. split; [apply Forall_singleton; set_solver|].
    exists (news ++ [task_id]). split; [by rewrite Ho, (assoc_L (++))|].
    split.
    { apply NoDup_app. split; [done|]. split; [|apply NoDup_singleton].
      intros x Hx ->%list_elem_of_singleton. apply Hnew in Hx. set_solver. }
    split.
    { intros x. rewrite elem_of_app, Hnew, list_elem_of_singleton. split.
      - intros [[? ?]| ->]; set_solver.
      - intros [? ?]. destruct (decide (x = task_id)); [by right|left].
        set_solver. }
    apply Forall_app. split; [done|]. apply Forall_singleton. by exists tk.
  - destruct Hloop as [-> Hbad]. split; [done|].
    intros [Hc _]. apply Hbad. split; [done|]. by apply (Hc _ _ Htk).
Qed.

End TaskOrder.

Section Topological.
Variable tasks : gmap string task.
Variable rank : string → nat.
Hypothesis ranked :
  ∀ t tk dep, tasks !! t = Some tk → dep ∈ dependencies tk →
              (rank dep < rank t)%nat.

Lemma appended_after_app order new1 new2 :
  appended_after tasks order new1 →
  appended_after tasks (order ++ new1) new2 →
  appended_after tasks order (new1 ++ new2).
Proof.
  intros H1 H2 i t tk dep Hi Htk Hdep.
  destruct (decide (i < length new1)%nat) as [Hlt|Hge].
  - rewrite lookup_app_l in Hi by done.
    rewrite take_app_le by lia. by eapply H1.
  - rewrite lookup_app_r in Hi by lia.
    rewrite take_app_ge by lia. rewrite (assoc_L (++)). by eapply H2.
Qed.

(** A loop of visits of targets that all rank below the tasks whose
    visit is still running. *)
Lemma visits_topological depth :
  (∀ st task_id st',
     PopulationInitializer.visit tasks depth st task_id = Some (Ok st') →
     (∀ s, s ∈ st.1 → s ∉ st.2 → (rank task_id < rank s)%nat) →
     ∃ new, st'.2 = st.2 ++ new ∧ st'.1 = st.1 ∪ list_to_set new ∧
            task_id ∈ st'.2 ∧ appended_after tasks st.2 new) →
  ∀ targets st st',
    PopulationInitializer.for_each_bounded
      (PopulationInitializer.visit tasks depth) targets st = Some (Ok st') →
    (∀ t s, t ∈ targets → s ∈ st.1 → s ∉ st.2 → (rank t < rank s)%nat) →
    ∃ new, st'.2 = st.2 ++ new ∧ st'.1 = st.1 ∪ list_to_set new ∧
           Forall (λ t, t ∈ st'.2) targets ∧ appended_after tasks st.2 new.
Proof.
  intros Hvisit. induction targets as [|t targets IH]; intros st st' Hrun Hpre.
  { injection Hrun as <-. exists []. rewrite app_nil_r. split; [done|].
    split; [set_solver|]. split; [done|].
    intros i ? ? ? Hi. by rewrite lookup_nil in Hi. }
  cbn [PopulationInitializer.for_each_bounded] in Hrun.
  destruct (PopulationInitializer.visit tasks depth st t) as [[st1|e]|] eqn:Hv;
    [|done..].
  destruct (Hvisit st t st1 Hv) as (new1 & Ho1 & Hv1 & Hin1 & Hafter1).
  { intros s. apply Hpre. by left. }
  destruct (IH st1 st' Hrun) as (new2 & Ho2 & Hv2 & Hin2 & Hafter2).
  { intros t' s Ht' Hs Hns. apply Hpre; [by right| |].
    - rewrite Hv1 in Hs. apply elem_of_union in Hs as [?|Hs]; [done|].
      apply elem_of_list_to_set in Hs. destruct Hns. rewrite Ho1.
      apply elem_of_app. by right.
    - intros Hs'. apply Hns. rewrite Ho1. apply elem_of_app. by left. }
  exists (new1 ++ new2). split; [by rewrite Ho2, Ho1, (assoc_L (++))|].
  split; [rewrite Hv2, Hv1, list_to_set_app_L; set_solver|].
  split.
  { constructor; [|done]. rewrite Ho2. apply elem_of_app. by left. }
  apply appended_after_app; [done|]. by rewrite <-Ho1.
Qed.

Lemma visit_topological depth :
  ∀ st task_id st',
    PopulationInitializer.visit tasks depth st task_id = Some (Ok st') →
    (∀ s, s ∈ st.1 → s ∉ st.2 → (rank task_id < rank s)%nat) →
    ∃ new, st'.2 = st.2 ++ new ∧ st'.1 = st.1 ∪ list_to_set new ∧
           task_id ∈ st'.2 ∧ appended_after tasks st.2 new.
Proof.
  induction depth as [|depth IH]; intros [visited order] task_id st' Hrun Hpre;
    [done|].
  cbn [PopulationInitializer.visit] in Hrun. simpl in Hpre.
  case_decide as Hseen.
  { injection Hrun as <-. exists []. rewrite app_nil_r. simpl.
    split; [done|]. split; [set_solver|]. split.
    - destruct (decide (task_id ∈ order)) as [?|Hno]; [done|].
      pose proof (Hpre task_id Hseen Hno). lia.
    - intros i ? ? ? Hi. by rewrite lookup_nil in Hi. }
  destruct (tasks !! task_id) as [tk|] eqn:Htk; [|done].
  destruct (PopulationInitializer.for_each_bounded _ (dependencies tk) _)
    as [[[visited' order']|e]|] eqn:Hloop; [|done..].
  injection Hrun as <-.
  destruct (visits_topological depth IH _ _ _ Hloop)
    as (news & Ho & Hv & Hdeps & Hafter).
  { simpl. intros d s Hd Hs Hns.
    pose proof (ranked _ _ _ Htk Hd) as Hlt.
    apply elem_of_union in Hs as [->%elem_of_singleton|Hs]; [done|].
    pose proof (Hpre s Hs Hns). lia. }
  simpl in *. exists (news ++ [task_id]).
  split; [by rewrite Ho, (assoc_L (++))|].
  split; [rewrite Hv, list_to_set_app_L; set_solver|].
  split; [apply elem_of_app; right; by left|].
  apply appended_after_app; [done|].
  intros i t tk' dep Hi Htk' Hdep.
  destruct i as [|i]; [|done].
  injection Hi as <-. rewrite app_nil_r, <-Ho.
  assert (tk' = tk) as -> by congruence.
  by eapply (proj1 (Forall_forall _ _) Hdeps).
Qed.

End Topological.

Section TaskOrderFacts.
Variable tasks : gmap string task.

(** What the loop over the tasks leaves. *)
Lemma task_order_loop :
  visit_post tasks (∅, []) (map_to_list tasks).*1
    (PopulationInitializer.for_each_bounded
       (PopulationInitializer.visit tasks (S (size tasks)))
       (map_to_list tasks).*1 (∅, [])).
Proof.
  apply visits_post; [apply visit_post_holds|].
  simpl. rewrite difference_empty_L, size_dom. lia.
Qed.

Lemma keys_elem_of (m : gmap string task) k : k ∈ (map_to_list m).*1 ↔ k ∈ dom m.
Proof.
  rewrite list_elem_of_fmap, elem_of_dom. split.
  - intros ([k' v] & -> & Hin%elem_of_map_to_list). by exists v.
  - intros [v Hv]. exists (k, v). split; [done|]. by apply elem_of_map_to_list.
Qed.

Lemma task_order_cases :
  (closed_dependencies tasks ∧
   ∃ order, PopulationInitializer._get_task_order tasks = Some (Ok order) ∧
            order ≡ₚ (map_to_list tasks).*1) ∨
  (¬ closed_dependencies tasks ∧
   PopulationInitializer._get_task_order tasks = Some (Raise KeyError)).
Proof.
  unfold PopulationInitializer._get_task_order, PopulationInitializer.task_order.
  cbn zeta. pose proof task_order_loop as Hpost.
  destruct (PopulationInitializer.for_each_bounded _ _ _)
    as [[[visited order]|e]|]; [| |done].
  - destruct Hpost as (_ & Hall & new & Ho & Hnd & Hnew & Hdeps).
    simpl in *. subst order.
    assert (∀ x, x ∈ new ↔ x ∈ visited) as Hnew'.
    { intros x. rewrite Hnew. set_solver. }
    assert (visited = dom tasks) as ->.
    { apply set_eq. intros x. split.
      - intros Hx%Hnew'. rewrite Forall_forall in Hdeps.
        destruct (Hdeps x Hx) as (tk & Htk & _). by apply elem_of_dom.
      - intros Hx%keys_elem_of. rewrite Forall_forall in Hall. by apply Hall. }
    left. split.
    + intros t tk Htk. rewrite Forall_forall in Hdeps.
      destruct (Hdeps t) as (tk' & Htk' & Hd).
      { apply Hnew'. by apply elem_of_dom. }
      congruence.
    + exists new. split; [done|].
      apply NoDup_Permutation; [done|apply NoDup_fst_map_to_list|].
      intros x. by rewrite Hnew', keys_elem_of.
  - destruct Hpost as [-> Hbad]. right. split; [|done].
    intros Hc. apply Hbad. split; [done|].
    apply Forall_forall. intros x. by rewrite keys_elem_of.
Qed.

Lemma task_order_respects order :
  acyclic tasks →
  PopulationInitializer._get_task_order tasks = Some (Ok order) →
  respects_dependencies tasks order.
Proof.
  intros [rank Hrank].
  unfold PopulationInitializer._get_task_order, PopulationInitializer.task_order.
  cbn zeta.
  destruct (PopulationInitializer.for_each_bounded _ _ _)
    as [[[visited order']|e]|] eqn:Hloop; [|done..].
  intros [= ->].
  destruct (visits_topological tasks rank Hrank (S (size tasks))
              (visit_topological tasks rank Hrank (S (size tasks))) _ _ _ Hloop)
    as (new & Ho & _ & _ & Hafter).
  { simpl. set_solver. }
  simpl in Ho. subst order.
  intros i t tk dep Hi Htk Hdep.
  specialize (Hafter i t tk dep Hi Htk Hdep). simpl in Hafter.
  apply elem_of_take in Hafter as (j & Hj & Hlt). by exists j.
Qed.

End TaskOrderFacts.

(** X8: the visit of [_get_task_order] never nests deeper than the
    number of tasks plus one, so the order is always computed.  When every
    dependency is a task of the table the order lists every task exactly
    once; when some dependency is not, [_get_task_order] raises
    [KeyError]. *)
Theorem task_order_lists_every_task (tasks : gmap string task) :
  ∃ r, PopulationInitializer._get_task_order tasks = Some r ∧
    (closed_dependencies tasks →
     ∃ order, r = Ok order ∧ order ≡ₚ (map_to_list tasks).*1) ∧
    (¬ closed_dependencies tasks → r = Raise KeyError).
Proof.
  destruct (task_order_cases tasks) as [[Hc (order & -> & Hp)]|[Hc ->]];
    eexists; (split; [reflexivity|]); split; try done.
  - intros _. by exists order.
Qed.

(** X9: when the dependencies have no cycle, the order returned by
    [_get_task_order] lists every task after the tasks it depends on. *)
Theorem task_order_is_topological (tasks : gmap string task) (order : list string) :
  acyclic tasks →
  PopulationInitializer._get_task_order tasks = Some (Ok order) →
  respects_dependencies tasks order.
Proof. apply task_order_respects. Qed.

Lemma task_order_is_topological_witness :
  respects_dependencies tasks_dep ["T1"; "T2"].
Proof.
  apply task_order_is_topological; [exact tasks_dep_acyclic|by vm_compute].
Defined.

(** ** The skill match *)

Section SkillMatch.
Variable st : student.

Lemma skill_match_step_cases score (req : string * Qc) :
  (meets st req ∧ PopulationInitializer.skill_match_step st score req = score + 1) ∨
  (¬ meets st req ∧ PopulationInitializer.skill_match_step st score req < score).
Proof.
  destruct req as [skill level]. unfold meets, PopulationInitializer.skill_match_step.
  simpl. destruct (Qc_leb level _) eqn:Hle.
  - left. by apply Qc_leb_true in Hle.
  - right. apply Qc_leb_false in Hle. split; [by apply Qclt_not_le|]. qc_lra.
Qed.

Lemma skill_match_fold reqs :
  ∀ score,
    foldl (PopulationInitializer.skill_match_step st) score reqs
      ≤ score + Qc_of_nat (length reqs) ∧
    (foldl (PopulationInitializer.skill_match_step st) score reqs
      = score + Qc_of_nat (length reqs) ↔ Forall (meets st) reqs).
Proof.
  induction reqs as [|req reqs IH]; intros score.
  { cbn [foldl length]. unfold Qc_of_nat. change (Z.of_nat 0) with 0%Z.
    rewrite Z2Qc_inj_0, Qcplus_0_r. done. }
  cbn [foldl length]. rewrite Qc_of_nat_S.
  destruct (IH (PopulationInitializer.skill_match_step st score req)) as [Hle Heq].
  destruct (skill_match_step_cases score req) as [[Hm Hs]|[Hm Hs]].
  - rewrite Hs in *.
    replace (score + (Qc_of_nat (length reqs) + 1))
      with (score + 1 + Qc_of_nat (length reqs)) by ring.
    split; [done|]. rewrite Heq. split; [by constructor|].
    by intros [_ ?]%Forall_cons.
  - split.
    + clear Heq. qc_lra.
    + split; [|by intros [? _]%Forall_cons].
      intros Habs. exfalso. rewrite Habs in Hle. clear Heq Habs. qc_lra.
Qed.

End SkillMatch.

(** The skill match is the number of requirements exactly when the
    student meets them all, and less otherwise. *)
Lemma calculate_skill_match_cases tasks students task_id student_id tk st :
  tasks !! task_id = Some tk → students !! student_id = Some st →
  ∃ score,
    PopulationInitializer._calculate_skill_match tasks students task_id student_id
    = Ok score ∧
    score ≤ Qc_of_nat (size (skill_requirements tk)) ∧
    (score = Qc_of_nat (size (skill_requirements tk)) ↔
     map_Forall (λ skill level, meets st (skill, level)) (skill_requirements tk)).
Proof.
  intros Htk Hst. unfold PopulationInitializer._calculate_skill_match, dict_get.
  rewrite Htk, Hst. simpl. eexists. split; [reflexivity|].
  destruct (skill_match_fold st (map_to_list (skill_requirements tk)) 0)
    as [Hle Heq].
  rewrite length_map_to_list, Qcplus_0_l in Hle, Heq.
  split; [done|]. rewrite Heq, map_Forall_to_list.
  split; intros Hall; (eapply Forall_impl; [exact Hall|]); by intros [? ?].
Qed.

(** X13: for a known task and a known student the skill match is at
    most the number of skills the task requires, and it is that number
    exactly when the student has every required skill at the required
    level, a skill the student lacks counting as level 0. *)
Theorem skill_match_counts_met_requirements (tasks : gmap string task)
    (students : gmap string student) (task_id student_id : string)
    (tk : task) (st : student) :
  tasks !! task_id = Some tk → students !! student_id = Some st →
  ∃ score,
    PopulationInitializer._calculate_skill_match tasks students task_id student_id
    = Ok score ∧
    score ≤ Qc_of_nat (size (skill_requirements tk)) ∧
    (score = Qc_of_nat (size (skill_requirements tk)) ↔
     map_Forall (λ skill level, meets st (skill, level)) (skill_requirements tk)).
Proof. apply calculate_skill_match_cases. Qed.

Lemma skill_match_counts_met_requirements_witness :
  ∃ score,
    PopulationInitializer._calculate_skill_match tasks_dep students_2 "T2" "S1"
    = Ok score ∧
    score ≤ Qc_of_nat (size (skill_requirements task_T2)) ∧
    (score = Qc_of_nat (size (skill_requirements task_T2)) ↔
     map_Forall (λ skill level, meets student_S1 (skill, level))
       (skill_requirements task_T2)).
Proof.
  apply (skill_match_counts_met_requirements tasks_dep students_2 "T2" "S1"
           task_T2 student_S1); by vm_compute.
Defined.

(** ** Random chromosomes *)

Lemma swap_perm {A} (x : list A) i j : random.swap x i j ≡ₚ x.
Proof.
  unfold random.swap.
  destruct (x !! i) as [a|] eqn:Hi; [|done].
  destruct (x !! j) as [b|] eqn:Hj; [|done].
  assert (<[i := b]> x ≡ₚ b :: delete i x) as Hins.
  { apply (insert_perm x [] (delete i x) a b i); [|done].
    by apply delete_Permutation. }
  assert ((<[i := b]> x) !! j = Some b) as Hj'.
  { destruct (decide (i = j)) as [->|Hne].
    - apply list_lookup_insert_eq. by eapply lookup_lt_Some.
    - by rewrite list_lookup_insert_ne. }
  rewrite (insert_perm (<[i := b]> x) [] (delete i x) b a j Hins Hj').
  simpl. symmetry. by apply delete_Permutation.
Qed.

Lemma shuffle_loop_perm {A} idx :
  ∀ (x : list A) g, ∃ x' g', random.shuffle_loop idx x g = Ok (x', g') ∧ x' ≡ₚ x.
Proof.
  induction idx as [|i idx IH]; intros x g.
  { by exists x, g. }
  cbn [random.shuffle_loop]. rewrite (rand_bind_step _ _ _ _ _ (raw_ok g)).
  destruct (IH (random.swap x i (draws g (cursor g) mod (i + 1)))
              (Rng (draws g) (S (cursor g)))) as (x' & g' & Hr & Hp).
  exists x', g'. split; [done|]. by rewrite Hp, swap_perm.
Qed.

Lemma shuffle_perm {A} (x : list A) g :
  ∃ x' g', random.shuffle x g = Ok (x', g') ∧ x' ≡ₚ x.
Proof. apply shuffle_loop_perm. Qed.

Section RandomChromosome.
Variable tasks : gmap string task.
Variable students : gmap string student.

Lemma random_gene_ok (chromosome : solution) t0 t g tk s g1 :
  tasks !! t = Some tk →
  random.choice (map_to_list students).*1 g = Ok (s, g1) →
  PopulationInitializer.random_gene tasks students (chromosome, t0) t g
  = Ok ((chromosome ++ [(t, s, str t0)], float (str t0) + estimated_time tk), g1).
Proof.
  intros Htk Hs. unfold PopulationInitializer.random_gene.
  rewrite (rand_bind_step _ _ _ _ _ Hs). unfold dict_get. rewrite Htk. done.
Qed.

Lemma random_genes_post ts :
  students ≠ ∅ → Forall (λ t, t ∈ dom tasks) ts →
  ∀ (chromosome : solution) t0 g,
    ∃ new t1 g',
      for_each_rand (PopulationInitializer.random_gene tasks students) ts
        (chromosome, t0) g = Ok ((chromosome ++ new, t1), g') ∧
      task_of <$> new = ts ∧ known_ids tasks students new ∧
      back_to_back tasks t0 new.
Proof.
  intros Hne. induction ts as [|t ts IH]; intros Hts chromosome t0 g.
  { exists [], t0, g. rewrite app_nil_r. repeat split; try done. constructor. }
  apply Forall_cons in Hts as [Ht Hts].
  apply elem_of_dom in Ht as [tk Htk].
  cbn [for_each_rand].
  destruct (choice_ok (map_to_list students).*1 g) as (s & g1 & Hs & Hin).
  { by apply keys_nonempty. }
  apply keys_dom in Hin.
  rewrite (rand_bind_step _ _ _ _ _ (random_gene_ok chromosome t0 t g tk s g1 Htk Hs)).
  destruct (IH Hts (chromosome ++ [(t, s, str t0)]) (float (str t0) + estimated_time tk) g1)
    as (new & t1 & g' & Hr & Hcol & Hknown & Hb2b).
  exists ((t, s, str t0) :: new), t1, g'.
  rewrite <-(assoc_L (++)) in Hr. simpl in Hr. split; [exact Hr|].
  split; [by rewrite fmap_cons, Hcol|].
  split.
  { constructor; [|done]. split; [by apply elem_of_dom|done]. }
  split; [done|]. exists tk. split; [done|]. done.
Qed.

Lemma random_genes_no_student t ts (chromosome : solution) t0 g :
  students = ∅ →
  for_each_rand (PopulationInitializer.random_gene tasks students) (t :: ts)
    (chromosome, t0) g = Raise IndexError.
Proof.
  intros ->. cbn [for_each_rand]. apply rand_bind_raise.
  unfold PopulationInitializer.random_gene. apply rand_bind_raise.
  by rewrite map_to_list_empty.
Qed.

Lemma create_random_chromosome_cases g :
  (students ≠ ∅ ∧
   ∃ c g', PopulationInitializer._create_random_chromosome tasks students g
           = Ok (c, g') ∧
           task_of <$> c ≡ₚ (map_to_list tasks).*1 ∧
           known_ids tasks students c ∧ back_to_back tasks 0 c) ∨
  (students = ∅ ∧ tasks = ∅ ∧
   ∃ g', PopulationInitializer._create_random_chromosome tasks students g
         = Ok ([], g')) ∨
  (students = ∅ ∧ tasks ≠ ∅ ∧
   PopulationInitializer._create_random_chromosome tasks students g
   = Raise IndexError).
Proof.
  unfold PopulationInitializer._create_random_chromosome.
  destruct (shuffle_perm (map_to_list tasks).*1 g) as (ts & g1 & Hs & Hp).
  rewrite (rand_bind_step _ _ _ _ _ Hs).
  destruct (decide (students = ∅)) as [Hst|Hst].
  - right. destruct ts as [|t ts].
    + left. split; [done|]. split.
      * apply Permutation_nil_l in Hp. symmetry in Hp.
        apply fmap_nil_inv in Hp. by apply map_to_list_empty_iff.
      * by exists g1.
    + right. split; [done|]. split.
      * intros ->. rewrite map_to_list_empty in Hp.
        by apply Permutation_nil_r in Hp.
      * by rewrite (rand_bind_raise _ _ _ _ (random_genes_no_student t ts [] 0 g1 Hst)).
  - left. split; [done|].
    destruct (random_genes_post ts Hst) with (chromosome := @nil assignment)
      (t0 := 0) (g := g1) as (new & t1 & g' & Hr & Hcol & Hknown & Hb2b).
    { rewrite Hp. apply Forall_forall. intros t. by rewrite keys_elem_of. }
    rewrite (rand_bind_step _ _ _ _ _ Hr). simpl.
    exists new, g'. split; [done|]. rewrite Hcol. done.
Qed.

End RandomChromosome.

(** ** The population loop *)

Lemma fill_population_never {C} (create : Rand (list C)) population_size :
  (∀ g, ∃ g', create g = Ok ([], g')) →
  ∀ rounds population g,
    (Z.of_nat (length population) < population_size)%Z →
    ∃ g', PopulationInitializer.fill_population rounds create population_size
            population g = Ok (None, g').
Proof.
  intros Hempty. induction rounds as [|rounds IH]; intros population g Hlt;
    cbn [PopulationInitializer.fill_population]; case_decide; try lia.
  { by exists g. }
  destruct (Hempty g) as [g1 Hc]. rewrite (rand_bind_step _ _ _ _ _ Hc).
  by apply IH.
Qed.

Lemma fill_population_ends {C} (P : list C → Prop) (create : Rand (list C))
    population_size :
  (∀ g, ∃ c g', create g = Ok (c, g') ∧ c ≠ [] ∧ P c) →
  ∀ rounds population g,
    Forall P population →
    (Z.to_nat population_size - length population ≤ rounds)%nat →
    ∃ pop g',
      PopulationInitializer.fill_population rounds create population_size
        population g = Ok (Some pop, g') ∧
      Forall P pop ∧
      length pop = Nat.max (length population) (Z.to_nat population_size).
Proof.
  intros Hcreate. induction rounds as [|rounds IH]; intros population g HP Hr;
    cbn [PopulationInitializer.fill_population]; case_decide as Hlt;
    try (exists population, g; split; [done|]; split; [done|]; lia); [lia|].
  destruct (Hcreate g) as (c & g1 & Hc & Hne & HPc).
  rewrite (rand_bind_step _ _ _ _ _ Hc).
  destruct c as [|x c]; [done|].
  destruct (IH (population ++ [x :: c]) g1) as (pop & g' & Hres & HPpop & Hlen).
  { apply Forall_app. split; [done|]. by apply Forall_singleton. }
  { rewrite length_app. simpl. lia. }
  exists pop, g'. split; [done|]. split; [done|].
  rewrite Hlen, length_app. simpl. lia.
Qed.

(** X10: with at least one student, [_create_random_chromosome]
    returns a chromosome that has exactly one gene per task of the table,
    each for a student of the table, and in which every gene starts (as the
    string of a float) when the gene before it ends, the first one at 0. *)
Theorem random_chromosome_schedules_every_task (tasks : gmap string task)
    (students : gmap string student) (g : rng) :
  students ≠ ∅ →
  ∃ c g',
    PopulationInitializer._create_random_chromosome tasks students g = Ok (c, g') ∧
    task_of <$> c ≡ₚ (map_to_list tasks).*1 ∧
    known_ids tasks students c ∧
    back_to_back tasks 0 c.
Proof.
  intros Hne.
  destruct (create_random_chromosome_cases tasks students g)
    as [[_ Hok]|[[Habs _]|[Habs _]]]; done.
Qed.

Lemma random_chromosome_schedules_every_task_witness :
  ∃ c g',
    PopulationInitializer._create_random_chromosome tasks_dep students_1
      (rng_of [1; 0; 0]%nat) = Ok (c, g') ∧
    task_of <$> c ≡ₚ (map_to_list tasks_dep).*1 ∧
    known_ids tasks_dep students_1 c ∧
    back_to_back tasks_dep 0 c.
Proof.
  apply random_chromosome_schedules_every_task. exact students_1_nonempty.
Defined.

(** X11: degenerate problems in [_create_random_population], for a
    population size above 0.  With no task every chromosome is empty and
    none is ever added: after any number of rounds the loop is still
    running.  With tasks but no student the first round raises
    [IndexError]. *)
Theorem random_population_degenerate (students : gmap string student)
    (rounds : nat) (population_size : Z) (g : rng) :
  (0 < population_size)%Z →
  (∃ g', PopulationInitializer._create_random_population ∅ students rounds
           population_size g = Ok (None, g')) ∧
  (∀ tasks, tasks ≠ ∅ → (0 < rounds)%nat →
     PopulationInitializer._create_random_population tasks ∅ rounds
       population_size g = Raise IndexError).
Proof.
  intros Hsize. split.
  - apply fill_population_never; [|simpl; lia].
    intros g0.
    destruct (create_random_chromosome_cases ∅ students g0)
      as [[_ (c & g' & Hc & Hp & _)]|[(_ & _ & Hc)|(_ & Habs & _)]]; [|done..].
    rewrite map_to_list_empty in Hp. apply Permutation_nil_r in Hp.
    apply fmap_nil_inv in Hp. subst c. by exists g'.
  - intros tasks Hne Hrounds. destruct rounds as [|rounds]; [lia|].
    unfold PopulationInitializer._create_random_population.
    cbn [PopulationInitializer.fill_population]. case_decide; [|simpl in *; lia].
    apply rand_bind_raise.
    destruct (create_random_chromosome_cases tasks ∅ g)
      as [[Habs _]|[(_ & Habs & _)|(_ & _ & Hc)]]; done.
Qed.

Lemma random_population_degenerate_witness :
  (∃ g', PopulationInitializer._create_random_population ∅ students_1 5 2
           (rng_of []) = Ok (None, g')) ∧
  (∀ tasks, tasks ≠ ∅ → (0 < 5)%nat →
     PopulationInitializer._create_random_population tasks ∅ 5 2 (rng_of [])
     = Raise IndexError).
Proof. apply random_population_degenerate. lia. Defined.

(** X12: with at least one task and one student,
    [_create_random_population] returns after [population_size] rounds
    exactly [population_size] chromosomes, each with one gene per task of
    the table and for students of the table. *)
Theorem random_population_fills (tasks : gmap string task)
    (students : gmap string student) (rounds : nat) (population_size : Z)
    (g : rng) :
  tasks ≠ ∅ → students ≠ ∅ → (Z.to_nat population_size ≤ rounds)%nat →
  ∃ pop g',
    PopulationInitializer._create_random_population tasks students rounds
      population_size g = Ok (Some pop, g') ∧
    length pop = Z.to_nat population_size ∧
    Forall (λ c, task_of <$> c ≡ₚ (map_to_list tasks).*1 ∧
                 known_ids tasks students c) pop.
Proof.
  intros Htasks Hstudents Hrounds.
  destruct (fill_population_ends
              (λ c : solution, task_of <$> c ≡ₚ (map_to_list tasks).*1 ∧
                               known_ids tasks students c)
              (PopulationInitializer._create_random_chromosome tasks students)
              population_size) with (rounds := rounds) (population := @nil solution)
              (g := g) as (pop & g' & Hres & HP & Hlen).
  - intros g0.
    destruct (create_random_chromosome_cases tasks students g0)
      as [[_ (c & g' & Hc & Hp & Hk & _)]|[[Habs _]|[Habs _]]]; [|done..].
    exists c, g'. split; [done|]. split; [|done].
    intros ->. simpl in Hp. apply Permutation_nil_l in Hp. symmetry in Hp.
    apply fmap_nil_inv in Hp. by apply map_to_list_empty_iff in Hp.
  - done.
  - simpl. lia.
  - exists pop, g'. split; [done|]. split; [|done]. rewrite Hlen. simpl. lia.
Qed.

Lemma random_population_fills_witness :
  ∃ pop g',
    PopulationInitializer._create_random_population tasks_dep students_1 3 2
      (rng_of []) = Ok (Some pop, g') ∧
    length pop = Z.to_nat 2 ∧
    Forall (λ c, task_of <$> c ≡ₚ (map_to_list tasks_dep).*1 ∧
                 known_ids tasks_dep students_1 c) pop.
Proof.
  apply random_population_fills;
    [exact tasks_dep_nonempty|exact students_1_nonempty|simpl; lia].
Defined.

(** ** Intelligent chromosomes *)

Lemma fmax_fin a b : fmax (Fin a) (Fin b) = Fin (Qc_max a b).
Proof. unfold fmax, Qc_max. simpl. by destruct (Qc_ltb a b). Qed.

Lemma end_of_known tasks (a : assignment) tk :
  tasks !! task_of a = Some tk →
  end_of tasks a = float (start_of a) + estimated_time tk.
Proof. intros Htk. unfold end_of. by rewrite Htk. Qed.

Section IntelligentChromosome.
Variable tasks : gmap string task.
Variable students : gmap string student.

(** The inner loop over the chromosome for one dependency. *)
Lemma dep_end_inner dep (sol : solution) :
  Forall (λ a, task_of a ∈ dom tasks) sol →
  ∀ acc, ∃ acc',
    for_each (PopulationInitializer.dep_end_step tasks dep) (gene_of <$> sol)
      (Fin acc) = Ok (Fin acc') ∧
    acc ≤ acc' ∧
    Forall (λ b, task_of b = dep → end_of tasks b ≤ acc') sol.
Proof.
  induction sol as [|b sol IH]; intros Hsol acc.
  { exists acc. split; [done|]. split; [apply Qcle_refl|done]. }
  apply Forall_cons in Hsol as [Hb Hsol].
  apply elem_of_dom in Hb as [tk Htk].
  rewrite fmap_cons.
  assert (∃ acc1, PopulationInitializer.dep_end_step tasks dep (Fin acc) (gene_of b)
                  = Ok (Fin acc1) ∧ acc ≤ acc1 ∧
                  (task_of b = dep → end_of tasks b ≤ acc1))
    as (acc1 & Hstep & Hle & Hend).
  { unfold PopulationInitializer.dep_end_step, gene_of.
    case_decide as Heq.
    - subst dep. unfold dict_get. rewrite Htk. simpl. rewrite fmax_fin.
      eexists. split; [reflexivity|]. split; [apply Qc_max_ge_l|].
      intros _. rewrite (end_of_known _ _ _ Htk). apply Qc_max_ge_r.
    - exists acc. split; [done|]. split; [apply Qcle_refl|done]. }
  rewrite (for_each_cons_ok _ _ _ _ _ Hstep).
  destruct (IH Hsol acc1) as (acc' & Hr & Hle' & Hall).
  exists acc'. split; [done|]. split; [by etrans|].
  constructor; [|done]. intros Heq. etrans; [by apply Hend|done].
Qed.

Lemma dependency_end_loop (sol : solution) deps :
  Forall (λ a, task_of a ∈ dom tasks) sol →
  ∀ acc, ∃ acc',
    for_each (λ dep_end_time dep,
                for_each (PopulationInitializer.dep_end_step tasks dep)
                  (gene_of <$> sol) dep_end_time) deps (Fin acc)
    = Ok (Fin acc') ∧
    acc ≤ acc' ∧
    Forall (λ b, task_of b ∈ deps → end_of tasks b ≤ acc') sol.
Proof.
  intros Hsol. induction deps as [|dep deps IH]; intros acc.
  { exists acc. split; [done|]. split; [apply Qcle_refl|].
    apply Forall_forall. intros b _ Hin. by apply elem_of_nil in Hin. }
  destruct (dep_end_inner dep sol Hsol acc) as (acc1 & Hstep & Hle & Hall1).
  rewrite (for_each_cons_ok _ _ _ _ _ Hstep).
  destruct (IH acc1) as (acc' & Hr & Hle' & Hall).
  exists acc'. split; [done|]. split; [by etrans|].
  rewrite Forall_forall in Hall1, Hall. apply Forall_forall.
  intros b Hb [Heq|Hin]%elem_of_cons.
  - etrans; [by apply Hall1|done].
  - by apply Hall.
Qed.

Lemma dependency_end_finite (sol : solution) deps :
  Forall (λ a, task_of a ∈ dom tasks) sol →
  ∃ D, PopulationInitializer.dependency_end tasks (gene_of <$> sol) deps
       = Ok (Fin D) ∧
       0 ≤ D ∧
       Forall (λ b, task_of b ∈ deps → end_of tasks b ≤ D) sol.
Proof.
  intros Hsol. unfold PopulationInitializer.dependency_end.
  by apply dependency_end_loop.
Qed.

End IntelligentChromosome.

Section IntelligentStudent.
Variable tasks : gmap string task.
Variable students : gmap string student.

(** One student of the loop: the best so far stays or this student
    takes its place; the first student always does. *)
Lemma student_step_cases (E : gmap (option string) pyfloat) t tk D best s e :
  tasks !! t = Some tk → s ∈ dom students → E !! Some s = Some (Fin e) →
  (best.1.2 = NInf ∨ ∃ sc, best.1.2 = Fin sc) →
  ∃ sc,
    (PopulationInitializer.student_step tasks students E t (Fin D) best s
       = Ok (Some s, Fin sc, Fin (Qc_max D e)) ∨
     (PopulationInitializer.student_step tasks students E t (Fin D) best s
       = Ok best ∧ best.1.2 ≠ NInf)).
Proof.
  intros Htk [st Hst]%elem_of_dom He Hbest.
  destruct best as [[best_student best_score] earliest_start]. simpl in Hbest.
  destruct (calculate_skill_match_cases tasks students t s tk st Htk Hst)
    as (score & Hscore & _).
  unfold PopulationInitializer.student_step. rewrite Hscore.
  unfold dict_get. rewrite He. simpl. rewrite fmax_fin.
  exists (score + - e). unfold fgt.
  destruct Hbest as [->|[sc ->]]; simpl; [by left|].
  destruct (Qc_ltb sc (score + - e)); [by left|right]. done.
Qed.

Lemma pick_student (E : gmap (option string) pyfloat) t tk D keys :
  tasks !! t = Some tk →
  Forall (λ s, s ∈ dom students ∧ ∃ e, E !! Some s = Some (Fin e)) keys →
  ∀ best,
    (best = (None, NInf, PInf) ∨
     ∃ s sc e, best = (Some s, Fin sc, Fin (Qc_max D e)) ∧
               s ∈ dom students ∧ E !! Some s = Some (Fin e)) →
    ∃ best',
      for_each (PopulationInitializer.student_step tasks students E t (Fin D))
        keys best = Ok best' ∧
      ((keys = [] ∧ best' = best) ∨
       ∃ s sc e, best' = (Some s, Fin sc, Fin (Qc_max D e)) ∧
                 s ∈ dom students ∧ E !! Some s = Some (Fin e)).
Proof.
  intros Htk. induction keys as [|s keys IH]; intros Hkeys best Hbest.
  { exists best. split; [done|]. by left. }
  apply Forall_cons in Hkeys as [[Hs [e He]] Hkeys].
  destruct (student_step_cases E t tk D best s e Htk Hs He) as (sc & Hstep).
  { destruct Hbest as [->|(? & ? & ? & -> & _)]; simpl; eauto. }
  assert (∃ best1,
            PopulationInitializer.student_step tasks students E t (Fin D) best s
            = Ok best1 ∧
            ∃ s1 sc1 e1, best1 = (Some s1, Fin sc1, Fin (Qc_max D e1)) ∧
                         s1 ∈ dom students ∧ E !! Some s1 = Some (Fin e1))
    as (best1 & Hstep1 & Hbest1).
  { destruct Hstep as [Hstep|[Hstep Hne]].
    - eexists. split; [exact Hstep|]. by exists s, sc, e.
    - exists best. split; [done|].
      destruct Hbest as [->|?]; [done|done]. }
  rewrite (for_each_cons_ok _ _ _ _ _ Hstep1).
  destruct (IH Hkeys best1 (or_intror Hbest1)) as (best' & Hr & Hcases).
  exists best'. split; [done|]. right.
  destruct Hcases as [[_ ->]|?]; done.
Qed.

End IntelligentStudent.

Lemma as_solution_gene_of (sol : solution) :
  Forall (λ a, start_of a = str (float (start_of a)) ∧ 0 ≤ float (start_of a)) sol →
  as_solution (gene_of <$> sol) = Some sol.
Proof.
  induction sol as [|[[t s] x] sol IH]; [done|].
  intros [[Hx _] Hsol]%Forall_cons. rewrite fmap_cons.
  cbn [as_solution]. rewrite (IH Hsol). unfold gene_of. simpl in *.
  by rewrite <-Hx.
Qed.

Section IntelligentGene.
Variable tasks : gmap string task.
Variable students : gmap string student.
Hypothesis durations : map_Forall (λ _ tk, 0 ≤ estimated_time tk) tasks.
Hypothesis some_student : students ≠ ∅.

Lemma intelligent_gene_post (sol : solution) st t tk :
  intelligent_inv tasks students sol st → tasks !! t = Some tk →
  (∀ a tk', a ∈ sol → tasks !! task_of a = Some tk' → t ∉ dependencies tk') →
  t ∉ dependencies tk →
  ∃ a st',
    PopulationInitializer.intelligent_gene tasks students st t = Ok st' ∧
    task_of a = t ∧ intelligent_inv tasks students (sol ++ [a]) st'.
Proof.
  destruct st as [c E].
  intros (Hc & Hstarts & Hknown & Hends & Hover & Hdeps) Htk Hlater Hself.
  simpl in Hc, Hends. subst c.
  pose proof (durations _ _ Htk) as Hdur. simpl in Hdur.
  assert (Forall (λ a : assignment, task_of a ∈ dom tasks) sol) as Htasks.
  { eapply Forall_impl; [exact Hknown|]. by intros a [? _]. }
  destruct (dependency_end_finite tasks sol (dependencies tk) Htasks)
    as (D & HD & HD0 & HDdeps).
  destruct (pick_student tasks students E t tk D (map_to_list students).*1 Htk)
    with (best := (@None string, NInf, PInf))
    as (best & Hpick & [[Hkeys _]|(s & sc & e & -> & Hs & He)]).
  { apply Forall_forall. intros s Hs%keys_dom. split; [done|].
    destruct (Hends s Hs) as (e & He & _). by exists e. }
  { by left. }
  { by apply keys_nonempty in Hkeys. }
  unfold PopulationInitializer.intelligent_gene, dict_get. rewrite Htk.
  simpl. rewrite HD. simpl. rewrite Hpick. simpl.
  set (start := Qc_max D e).
  exists (t, s, str start). eexists. split; [reflexivity|]. split; [done|].
  assert (0 ≤ start) as Hstart0.
  { etrans; [exact HD0|apply Qc_max_ge_l]. }
  assert (end_of tasks (t, s, str start) = start + estimated_time tk) as Hend.
  { by rewrite (end_of_known _ _ tk). }
  destruct (Hends s Hs) as (e' & He' & Hbusy).
  assert (e' = e) as -> by congruence.
  split; [|split; [|split; [|split; [|split]]]]; simpl.
  - by rewrite fmap_app.
  - apply Forall_app. split; [done|]. apply Forall_singleton. done.
  - apply Forall_app. split; [done|]. apply Forall_singleton.
    split; [by apply elem_of_dom|done].
  - intros s' Hs'. destruct (decide (s' = s)) as [->|Hne].
    + exists (start + estimated_time tk). rewrite lookup_insert_eq.
      split; [done|]. apply Forall_app. split.
      * eapply Forall_impl; [exact Hbusy|]. intros a Ha Heq.
        etrans; [by apply Ha|]. etrans; [apply (Qc_max_ge_r D e)|].
        fold start. clear -Hdur. qc_lra.
      * apply Forall_singleton. intros _. rewrite Hend. apply Qcle_refl.
    + destruct (Hends s' Hs') as (e1 & He1 & Hbusy1).
      exists e1. rewrite lookup_insert_ne by congruence.
      split; [done|]. apply Forall_app. split; [done|].
      apply Forall_singleton. intros Heq. by destruct Hne.
  - intros i j a b Hij Hi Hj Hsame.
    destruct (decide (j < length sol)%nat) as [Hjl|Hjl].
    + rewrite lookup_app_l in Hi, Hj by lia.
      exact (Hover i j a b Hij Hi Hj Hsame).
    + rewrite lookup_app_l in Hi.
      2: { apply lookup_lt_Some in Hj. rewrite length_app in Hj. simpl in Hj. lia. }
      rewrite lookup_app_r in Hj by lia.
      apply list_lookup_singleton_Some in Hj as [_ <-]. simpl in *.
      rewrite Forall_forall in Hbusy.
      etrans; [apply (Hbusy a); [by eapply list_elem_of_lookup_2|done]|].
      apply Qc_max_ge_r.
  - intros a b tk' [Ha|Ha%list_elem_of_singleton]%elem_of_app
      [Hb|Hb%list_elem_of_singleton]%elem_of_app Htk' Hdep.
    + by eapply Hdeps.
    + subst b. by destruct (Hlater a tk' Ha Htk').
    + subst a. unfold task_of in Htk'. simpl in Htk'.
      assert (tk' = tk) as -> by congruence.
      rewrite Forall_forall in HDdeps.
      etrans; [by apply HDdeps|]. apply Qc_max_ge_l.
    + subst a b. unfold task_of in Htk', Hdep. simpl in Htk', Hdep.
      assert (tk' = tk) as -> by congruence. done.
Qed.

Lemma intelligent_genes_post order :
  NoDup order → respects_dependencies tasks order →
  Forall (λ t, t ∈ dom tasks) order →
  ∀ suf pre (sol : solution) st,
    order = pre ++ suf → task_of <$> sol = pre →
    intelligent_inv tasks students sol st →
    ∃ sol' st',
      for_each (PopulationInitializer.intelligent_gene tasks students) suf st
      = Ok st' ∧
      task_of <$> sol' = order ∧ intelligent_inv tasks students sol' st'.
Proof.
  intros Hnd Hresp Hdom. induction suf as [|t suf IH]; intros pre sol st Ho Hpre Hinv.
  { exists sol, st. rewrite app_nil_r in Ho. by subst. }
  assert (order !! length pre = Some t) as Ht.
  { subst order. by rewrite list_lookup_middle. }
  assert (t ∈ dom tasks) as [tk Htk]%elem_of_dom.
  { rewrite Forall_forall in Hdom. apply Hdom. by eapply list_elem_of_lookup_2. }
  destruct (intelligent_gene_post sol st t tk Hinv Htk) as (a & st1 & Hstep & Hta & Hinv1).
  { intros a tk' Ha Htk' Hdep.
    assert (task_of a ∈ pre) as [i Hi]%list_elem_of_lookup_1.
    { rewrite <-Hpre. by apply list_elem_of_fmap_2. }
    pose proof (lookup_lt_Some _ _ _ Hi) as Hilt.
    assert (order !! i = Some (task_of a)) as Hoi.
    { subst order. by rewrite lookup_app_l. }
    destruct (Hresp i _ tk' t Hoi Htk' Hdep) as (j & Hj & Hoj).
    pose proof (NoDup_lookup _ _ _ _ Hnd Hoj Ht). lia. }
  { intros Hdep.
    destruct (Hresp _ _ tk t Ht Htk Hdep) as (j & Hj & Hoj).
    pose proof (NoDup_lookup _ _ _ _ Hnd Hoj Ht). lia. }
  rewrite (for_each_cons_ok _ _ _ _ _ Hstep).
  apply (IH (pre ++ [t]) (sol ++ [a]) st1); [|by rewrite fmap_app, Hpre, <-Hta|done].
  by rewrite <-(assoc_L (++)).
Qed.

End IntelligentGene.

Section IntelligentDegenerate.
Variable tasks : gmap string task.

(** The scan for the end of the dependencies raises on no chromosome
    over known tasks, whatever its start times. *)
Lemma dep_end_scan_ok dep (c : chromosome) :
  Forall (λ g : gene, g.1.1 ∈ dom tasks) c →
  ∀ acc, ∃ acc',
    for_each (PopulationInitializer.dep_end_step tasks dep) c acc = Ok acc'.
Proof.
  induction c as [|[[t s] x] c IH]; intros Hc acc; [by exists acc|].
  apply Forall_cons in Hc as [[tk Htk]%elem_of_dom Hc]. simpl in Htk.
  assert (∃ acc1, PopulationInitializer.dep_end_step tasks dep acc (t, s, x)
                  = Ok acc1) as [acc1 Hstep].
  { unfold PopulationInitializer.dep_end_step. case_decide as Heq; [|by eexists].
    subst dep. unfold dict_get. rewrite Htk. simpl. by eexists. }
  rewrite (for_each_cons_ok _ _ _ _ _ Hstep). by apply IH.
Qed.

Lemma dependency_end_ok (c : chromosome) deps :
  Forall (λ g : gene, g.1.1 ∈ dom tasks) c →
  ∃ D, PopulationInitializer.dependency_end tasks c deps = Ok D.
Proof.
  intros Hc. unfold PopulationInitializer.dependency_end.
  generalize (Fin 0). induction deps as [|dep deps IH]; intros acc; [by exists acc|].
  destruct (dep_end_scan_ok dep c Hc acc) as [acc1 Hstep].
  rewrite (for_each_cons_ok _ _ _ _ _ Hstep). apply IH.
Qed.

Lemma intelligent_genes_no_student ts :
  Forall (λ t, t ∈ dom tasks) ts →
  ∀ (c : chromosome) E,
    Forall (λ g : gene, g.1.1 ∈ dom tasks) c →
    ∃ E',
      for_each (PopulationInitializer.intelligent_gene tasks ∅) ts (c, E)
      = Ok (c ++ ((λ t, (t, None, PInf)) <$> ts), E').
Proof.
  induction ts as [|t ts IH]; intros Hts c E Hc.
  { exists E. by rewrite app_nil_r. }
  apply Forall_cons in Hts as [Ht Hts].
  pose proof Ht as [tk Htk]%elem_of_dom.
  destruct (dependency_end_ok c (dependencies tk) Hc) as [D HD].
  assert (PopulationInitializer.intelligent_gene tasks ∅ (c, E) t
          = Ok (c ++ [(t, None, PInf)], <[None := PInf]> E)) as Hstep.
  { unfold PopulationInitializer.intelligent_gene, dict_get. rewrite Htk.
    simpl. rewrite HD. simpl. by rewrite map_to_list_empty. }
  rewrite (for_each_cons_ok _ _ _ _ _ Hstep).
  destruct (IH Hts (c ++ [(t, None, PInf)]) (<[None := PInf]> E)) as [E' Hr].
  { apply Forall_app. split; [done|]. by apply Forall_singleton. }
  exists E'. rewrite Hr. by rewrite <-(assoc_L (++)).
Qed.

End IntelligentDegenerate.

(** X14: with no student (and dependencies that are tasks of the
    table) [_create_intelligent_chromosome] raises nothing: it returns one
    gene per task, in the order of [_get_task_order], whose student is
    [None] and whose start time is [+inf]. *)
Theorem intelligent_chromosome_without_students (tasks : gmap string task) :
  closed_dependencies tasks →
  ∃ order,
    PopulationInitializer._get_task_order tasks = Some (Ok order) ∧
    PopulationInitializer._create_intelligent_chromosome tasks ∅
    = Some (Ok ((λ t, (t, None, PInf)) <$> order)).
Proof.
  intros Hclosed.
  destruct (task_order_cases tasks) as [[_ (order & Ho & Hp)]|[Habs _]]; [|done].
  exists order. split; [done|].
  unfold PopulationInitializer._create_intelligent_chromosome. rewrite Ho.
  destruct (intelligent_genes_no_student tasks order) with
    (c := @nil gene)
    (E := kmap (M2 := gmap (option string)) Some ((λ _ : student, Fin 0) <$> (∅ : gmap string student)))
    as [E' Hr]; [|done|].
  { rewrite Hp. apply Forall_forall. intros t. by rewrite keys_elem_of. }
  by rewrite Hr.
Qed.

Lemma intelligent_chromosome_without_students_witness :
  ∃ order,
    PopulationInitializer._get_task_order tasks_dep = Some (Ok order) ∧
    PopulationInitializer._create_intelligent_chromosome tasks_dep ∅
    = Some (Ok ((λ t, (t, None, PInf)) <$> order)).
Proof.
  apply intelligent_chromosome_without_students. exact tasks_dep_closed.
Defined.



(** * When the evaluator raises *)

Lemma first_pass_loop_known tasks sol :
  ∀ t0 t,
    for_each (first_pass_step tasks) sol t0 = Ok t →
    Forall (λ a, task_of a ∈ dom tasks ∧
                 student_of a ∈ dom (student_workloads t0)) sol.
Proof.
  induction sol as [|a sol IH]; intros t0 t Hrun; [constructor|].
  cbn [for_each] in Hrun.
  destruct (first_pass_step tasks t0 a) as [t1|e] eqn:Hstep; [|done].
  pose proof (first_pass_step_inv _ _ _ _ Hstep) as (Ht & _ & _ & Hw & _).
  constructor.
  - split; [done|]. destruct a as [[task_id student_id] start].
    unfold first_pass_step in Hstep. unfold student_of. simpl.
    destruct (tasks !! task_id); [|done].
    destruct (student_workloads t0 !! student_id) eqn:Hs; [|done].
    by apply elem_of_dom.
  - specialize (IH t1 t Hrun). rewrite Hw in IH. exact IH.
Qed.

Lemma first_pass_known tasks students sol t :
  first_pass tasks students sol = Ok t → known_ids tasks students sol.
Proof.
  intros Hfp%first_pass_loop_known.
  destruct (init_tables_dom students) as [Hw _]. by rewrite Hw in Hfp.
Qed.

Lemma loop_no_throw {A S} (body : S → A → outcome S) l :
  (∀ s x e, x ∈ l → body s x ≠ Throw e) →
  ∀ s e, loop body l s ≠ Throw e.
Proof.
  induction l as [|x l IH]; intros Hbody s e; [done|].
  cbn [loop]. destruct (body s x) as [s'|v|e'] eqn:Hb; simpl; [|done|].
  - apply IH. intros s0 x0 e0 Hin. apply Hbody. by right.
  - destruct (Hbody s x e'); [by left|done].
Qed.

Lemma dependency_penalty_no_throw tasks t D e :
  D ≠ 0 → dom (start_times t) = dom tasks →
  dependency_penalty tasks t D ≠ Throw e.
Proof.
  intros HD Hdom. unfold dependency_penalty. apply loop_no_throw.
  intros p [task_id tk] e1 Hin%elem_of_map_to_list. apply loop_no_throw.
  intros p' dep_id e2 _. unfold dep_step.
  destruct (completion_times t !! dep_id); [|done].
  assert (is_Some (start_times t !! task_id)) as [s ->].
  { apply elem_of_dom. rewrite Hdom. by apply elem_of_dom_2 in Hin. }
  destruct (Qc_ltb s q); [|done]. by rewrite qdiv_ok.
Qed.

Lemma overlap_timeline_ok D tl p :
  D ≠ 0 → ∃ p', overlap_timeline D tl p = Ok p'.
Proof.
  intros HD. revert p. induction tl as [|a tl IH]; intros p; [by exists p|].
  destruct tl as [|b tl]; [by exists p|].
  cbn [overlap_timeline]. destruct (Qc_ltb b.1 a.2); [|by apply IH].
  rewrite qdiv_ok by done. cbn. apply IH.
Qed.

Lemma for_each_ok {A S} (body : S → A → result S) l :
  (∀ s x, x ∈ l → ∃ s', body s x = Ok s') →
  ∀ s, ∃ s', for_each body l s = Ok s'.
Proof.
  induction l as [|x l IH]; intros Hbody s; [by exists s|].
  destruct (Hbody s x) as [s1 Hs1]; [by left|].
  rewrite (for_each_cons_ok _ _ _ _ _ Hs1). apply IH.
  intros s0 x0 Hin. apply Hbody. by right.
Qed.

Lemma overlap_penalty_ok t D : D ≠ 0 → ∃ p, overlap_penalty t D = Ok p.
Proof.
  intros HD. unfold overlap_penalty. apply for_each_ok.
  intros p [sid timeline] _. by apply overlap_timeline_ok.
Qed.

Lemma Qcdiv_ne_0 a b : a ≠ 0 → b ≠ 0 → a / b ≠ 0.
Proof.
  intros Ha Hb Heq. apply Ha.
  rewrite <-(Qcmult_div_r a b Hb), Heq. ring.
Qed.

Lemma workload_penalty_ok students t D :
  D ≠ 0 → students ≠ ∅ → dom (student_workloads t) = dom students →
  ∃ p, workload_penalty students t D = Ok p.
Proof.
  intros HD Hne Hdom. unfold workload_penalty.
  destruct (values_nonempty (student_workloads t)) as (w & ws & Hws).
  { rewrite Hdom. intros H. by apply Hne, dom_empty_iff_L. }
  rewrite Hws.
  destruct (py_max_ok (w :: ws)) as [mx Hmx]; [done|].
  destruct (py_min_ok (w :: ws)) as [mn Hmn]; [done|].
  rewrite Hmx, Hmn. cbn.
  assert (Qc_of_nat (size students) ≠ 0) as Hn.
  { apply Qc_pos_ne_0. unfold Qc_of_nat. apply Qc_of_Z_pos.
    assert (size students ≠ 0%nat) by by intros ?%map_size_empty_iff. lia. }
  rewrite qdiv_ok by done. cbn.
  rewrite (proj2 (Qc_eqb_false _ 0)) by by apply Qcdiv_ne_0.
  rewrite qdiv_ok by by apply Qcdiv_ne_0. cbn. by eexists.
Qed.

(** With every task covered and a total duration that is not zero, the
    evaluator raises on no solution over known tasks and students. *)
Lemma calculate_fitness_covered tasks students sol :
  sol ≠ [] → known_ids tasks students sol → tasks_in sol = dom tasks →
  total_task_duration tasks ≠ 0 →
  ∃ v, calculate_fitness tasks students sol = Ok v.
Proof.
  intros Hne Hk Hcover HD. unfold calculate_fitness, calculate_fitness_body.
  destruct sol as [|a sol]; [done|]. set (s := a :: sol) in *.
  pose proof (first_pass_ok _ _ _ Hk) as Hok.
  destruct (first_pass tasks students s) as [t|e] eqn:Hfp; [|done].
  cbn [obind lift finish].
  case_bool_decide as Hsize; [by exists PInf|].
  apply first_pass_inv in Hfp as (Hsub & Hc & Hs & Hw & _).
  assert (students ≠ ∅) as Hstud.
  { intros ->. apply Forall_cons in Hk as [[_ Hin] _]. set_solver. }
  destruct (values_nonempty (completion_times t)) as (c0 & cs & Hcs).
  { rewrite Hc. by apply tasks_in_nonempty. }
  destruct (values_nonempty (start_times t)) as (s0 & ss & Hss).
  { rewrite Hs. by apply tasks_in_nonempty. }
  destruct (py_max_ok (c0 :: cs)) as [max_c Hmax]; [done|].
  destruct (py_min_ok (s0 :: ss)) as [min_s Hmin]; [done|].
  rewrite Hcs, Hss, Hmax, Hmin. cbn [obind lift finish].
  rewrite qdiv_ok by done. cbn [obind lift finish].
  destruct (dependency_penalty tasks t (total_task_duration tasks))
    as [p_dep|v|e] eqn:Hdep; cbn [obind lift finish]; [|by exists v|].
  2: { by destruct (dependency_penalty_no_throw tasks t _ e HD
                      ltac:(by rewrite Hs, Hcover)). }
  destruct (skill_penalty_nonneg tasks students s Hk) as (p_skill & -> & _).
  cbn [obind lift finish].
  destruct (workload_penalty_ok students t _ HD Hstud Hw) as (p_load & ->).
  cbn [obind lift finish].
  destruct (overlap_penalty_ok t _ HD) as (p_overlap & ->).
  cbn [obind lift finish]. by eexists.
Qed.





(** * Mutation: the student of a reassignment, and the identifiers *)

Lemma get_suitable_student_prefers tasks students task_id tk g :
  tasks !! task_id = Some tk → students ≠ ∅ →
  ∃ s st g',
    Mutation.get_suitable_student tasks students task_id g = Ok (s, g') ∧
    students !! s = Some st ∧
    ((∃ s' st', students !! s' = Some st' ∧
                dom (skill_requirements tk) ⊆ dom (skills st')) →
     dom (skill_requirements tk) ⊆ dom (skills st)).
Proof.
  intros Htk Hne. unfold Mutation.get_suitable_student, dict_get.
  rewrite Htk. unfold mbind at 1, rand_bind, det. cbn beta iota.
  set (suitable := (filter _ _).*1).
  assert (∀ s, s ∈ suitable ↔
               ∃ st, students !! s = Some st ∧
                     dom (skill_requirements tk) ⊆ dom (skills st)) as Hsuit.
  { intros s. unfold suitable. rewrite list_elem_of_fmap. split.
    - intros ([k v] & -> & [Hp Hin%elem_of_map_to_list]%list_elem_of_filter).
      by exists v.
    - intros (st & Hst & Hsub). exists (s, st). split; [done|].
      apply list_elem_of_filter. split; [done|]. by apply elem_of_map_to_list. }
  destruct suitable as [|s0 rest] eqn:Heq.
  - destruct (choice_ok _ g (keys_nonempty students Hne)) as (x & g' & Hx & Hin).
    apply keys_dom, elem_of_dom in Hin as [st Hst].
    exists x, st, g'. split; [done|]. split; [done|].
    intros (s' & st' & Hs' & Hsub).
    assert (s' ∈ @nil string) as Hbad by (apply Hsuit; by exists st').
    by apply elem_of_nil in Hbad.
  - destruct (choice_ok (s0 :: rest) g) as (x & g' & Hx & Hin); [done|].
    apply Hsuit in Hin as (st & Hst & Hsub).
    by exists x, st, g'.
Qed.

(** X18: for a task of the table and at least one student,
    [get_suitable_student] returns a student of the table; when some
    student lists every skill the task requires, so does the one returned
    (the levels are not compared). *)
Theorem suitable_student_has_required_skills (tasks : gmap string task)
    (students : gmap string student) (task_id : string) (tk : task) (g : rng) :
  tasks !! task_id = Some tk → students ≠ ∅ →
  ∃ s st g',
    Mutation.get_suitable_student tasks students task_id g = Ok (s, g') ∧
    students !! s = Some st ∧
    ((∃ s' st', students !! s' = Some st' ∧
                dom (skill_requirements tk) ⊆ dom (skills st')) →
     dom (skill_requirements tk) ⊆ dom (skills st)).
Proof. apply get_suitable_student_prefers. Qed.

Lemma suitable_student_has_required_skills_witness :
  ∃ s st g',
    Mutation.get_suitable_student tasks_dep students_mixed "T2" (rng_of [1%nat])
    = Ok (s, g') ∧
    students_mixed !! s = Some st ∧
    ((∃ s' st', students_mixed !! s' = Some st' ∧
                dom (skill_requirements task_T2) ⊆ dom (skills st')) →
     dom (skill_requirements task_T2) ⊆ dom (skills st)).
Proof.
  apply (suitable_student_has_required_skills tasks_dep students_mixed "T2"
           task_T2 (rng_of [1%nat])).
  - done.
  - apply insert_non_empty.
Defined.

Lemma mutate_same_tasks (tasks : gmap string task)
    (students : gmap string student) (sol : solution)
    (generation max_generations : Z) (temperature_ratio : Qc) (g : rng)
    (l : solution) (g' : rng) :
  Mutation.mutate tasks students sol generation max_generations
    temperature_ratio g = Ok (Some l, g') →
  same_tasks tasks students sol l.
Proof.
  unfold Mutation.mutate, Mutation.mutate_logged.
  destruct sol as [|a sol]; [done|]. set (s := a :: sol) in *.
  pose proof (mutate_loop_cases tasks students generation max_generations
    temperature_ratio
    (Z.to_nat (Mutation.num_mutations (length s) temperature_ratio)) s [] g
    ltac:(done)) as Hloop.
  unfold mbind, rand_bind.
  destruct (repeat_loop _ _ (s, []) g) as [[[l1 log] g1]|e]; simpl in *; [|done].
  intros [= <- <-]. destruct Hloop as (Hcol & Hkeep & _). by split.
Qed.

(** X19: a call of [mutate] that returns a solution for a solution
    over known tasks and students, returns one over known tasks and
    students. *)
Theorem mutate_keeps_known_ids (tasks : gmap string task)
    (students : gmap string student) (sol : solution)
    (generation max_generations : Z) (temperature_ratio : Qc) (g : rng)
    (l : solution) (g' : rng) :
  known_ids tasks students sol →
  Mutation.mutate tasks students sol generation max_generations
    temperature_ratio g = Ok (Some l, g') →
  known_ids tasks students l.
Proof.
  intros Hk Hrun. apply mutate_same_tasks in Hrun as [_ Hkeep]. by apply Hkeep.
Qed.

Lemma mutate_keeps_known_ids_witness :
  ∃ l g', Mutation.mutate tasks_one students_1 sol_one 0 100 1 (rng_of [])
          = Ok (Some l, g') ∧ known_ids tasks_one students_1 l.
Proof.
  eexists _, _. split; [vm_compute; reflexivity|].
  eapply (mutate_keeps_known_ids tasks_one students_1 sol_one 0 100 1 (rng_of []));
    [known_ids_compute|vm_compute; reflexivity].
Defined.

(** * Local search and simulated annealing stay on the tasks of their input *)

Lemma same_tasks_refl tasks students sol : same_tasks tasks students sol sol.
Proof. by split. Qed.

Lemma same_tasks_trans tasks students a b c :
  same_tasks tasks students a b → same_tasks tasks students b c →
  same_tasks tasks students a c.
Proof. intros [H1 K1] [H2 K2]. split; [congruence|tauto]. Qed.

Lemma step_post_same_tasks tasks students sol l g' :
  step_post tasks students sol (Ok (l, g')) → same_tasks tasks students sol l.
Proof. done. Qed.

Lemma repeat_loop_inv {S} (P : S → Prop) (body : S → Rand S) n :
  (∀ s g s' g', body s g = Ok (s', g') → P s → P s') →
  ∀ s g s' g', repeat_loop n body s g = Ok (s', g') → P s → P s'.
Proof.
  intros Hbody. induction n as [|n IH]; intros s g s' g'.
  { by intros [= <- <-]. }
  rewrite repeat_loop_S. intros H Hs.
  destruct (body s g) as [[s1 g1]|e] eqn:Hb; [|done].
  eapply IH; [exact H|]. by eapply Hbody.
Qed.

Section LocalSearchTasks.
Variable tasks : gmap string task.
Variable students : gmap string student.
Variable calc : solution → result pyfloat.
Variable sol : solution.

Lemma consider_from new_solution si si' :
  LocalSearch.consider calc new_solution si = Ok si' →
  same_tasks tasks students sol new_solution →
  ls_from tasks students sol si.1 → ls_from tasks students sol si'.1.
Proof.
  destruct si as [st imp], si' as [st' imp']. simpl.
  intros [[-> ->]|(_ & _ & Hb & Hcur & _)]%consider_cases Hnew Hinv; [done|].
  split; [by rewrite Hb|by rewrite Hcur].
Qed.

Lemma ls_iteration_from st g st' g' :
  LocalSearch.iteration tasks students calc st g = Ok (st', g') →
  ls_from tasks students sol st → ls_from tasks students sol st'.
Proof.
  unfold LocalSearch.iteration. intros H Hinv.
  apply rand_bind_ok in H as (n1 & g1 & Hn1 & H).
  apply det_bind_ok in H as (si1 & Hc1 & H).
  apply rand_bind_ok in H as (n2 & g2 & Hn2 & H).
  apply det_bind_ok in H as (si2 & Hc2 & H).
  apply rand_bind_ok in H as (n3 & g3 & Hn3 & H).
  apply det_bind_ok in H as (si3 & Hc3 & H).
  injection H as <- <-.
  pose proof (ls_try_reassignment_cases tasks students
                (LocalSearch.current_solution st) g) as Hp1.
  simpl in Hn1. rewrite Hn1 in Hp1.
  apply consider_from in Hc1;
    [|by eapply same_tasks_trans; [apply Hinv|]|done].
  pose proof (ls_try_time_adjustment_cases tasks students
                (LocalSearch.current_solution si1.1) g1) as Hp2.
  rewrite Hn2 in Hp2.
  apply consider_from in Hc2;
    [|by eapply same_tasks_trans; [apply Hc1|]|done].
  pose proof (ls_try_task_swap_cases tasks students
                (LocalSearch.current_solution si2.1) g2) as Hp3.
  rewrite Hn3 in Hp3.
  apply consider_from in Hc3;
    [|by eapply same_tasks_trans; [apply Hc2|]|done].
  by destruct si3 as [st3 imp3].
Qed.

Lemma ls_search_from n max_no_improve st history g st' history' g' :
  LocalSearch.search tasks students calc n max_no_improve st history g
  = Ok ((st', history'), g') →
  ls_from tasks students sol st → ls_from tasks students sol st'.
Proof.
  revert st history g. induction n as [|n IH]; intros st history g; simpl.
  { by intros [= <- <- <-]. }
  intros H Hinv.
  apply rand_bind_ok in H as (st1 & g1 & Hit & H).
  apply ls_iteration_from in Hit; [|done].
  case_decide; [by injection H as <- <- <-|]. by eapply IH.
Qed.

End LocalSearchTasks.

Lemma ls_improve_solution_same_tasks (tasks : gmap string task)
    (students : gmap string student) (calc : solution → result pyfloat)
    (sol : solution) (max_iterations max_no_improve : Z) (g : rng)
    (best : solution) (bf : pyfloat) (g' : rng) :
  LocalSearch.improve_solution tasks students calc sol max_iterations
    max_no_improve g = Ok ((best, bf), g') →
  same_tasks tasks students sol best.
Proof.
  unfold LocalSearch.improve_solution, LocalSearch.improve_solution_logged.
  intros H.
  apply rand_bind_ok in H as ([[best' bf'] history] & g1 & H & Hret).
  injection Hret as <- <- <-.
  apply det_bind_ok in H as (f0 & Hf0 & H).
  apply rand_bind_ok in H as ([st' hist] & g2 & Hs & H).
  injection H as <- <- <- <-.
  apply (ls_search_from tasks students calc sol) in Hs as [Hbest _]; [done|].
  split; apply same_tasks_refl.
Qed.

(** X20: the solution that local search returns has the task column
    of the input, assignment by assignment, whatever the fitness function;
    and it names known tasks and students when the input does. *)
Theorem local_search_keeps_tasks (tasks : gmap string task)
    (students : gmap string student) (calc : solution → result pyfloat)
    (sol : solution) (max_iterations max_no_improve : Z) (g : rng)
    (best : solution) (bf : pyfloat) (g' : rng) :
  LocalSearch.improve_solution tasks students calc sol max_iterations
    max_no_improve g = Ok ((best, bf), g') →
  task_of <$> best = task_of <$> sol ∧
  (known_ids tasks students sol → known_ids tasks students best).
Proof. apply ls_improve_solution_same_tasks. Qed.

Lemma local_search_keeps_tasks_witness :
  ∃ best bf g',
    LocalSearch.improve_solution tasks_one students_1
      (calculate_fitness tasks_one students_1) sol_one 3 2 (rng_of [])
    = Ok ((best, bf), g') ∧
    task_of <$> best = task_of <$> sol_one ∧
    (known_ids tasks_one students_1 sol_one → known_ids tasks_one students_1 best).
Proof.
  destruct (ls_improve_solution_total tasks_one students_1 wf_problem_one
              sol_one 3 2 (rng_of [])) as (best & bf & g' & Hrun);
    [known_ids_compute|].
  exists best, bf, g'. split; [done|].
  exact (local_search_keeps_tasks _ _ _ _ _ _ _ _ _ _ Hrun).
Defined.

Section AnnealingTasks.
Variable tasks : gmap string task.
Variable students : gmap string student.
Variable calc : solution → result pyfloat.
Variable math_exp : Qc → Qc.
Variable initial_temp : Qc.
Variable sol : solution.

(** A neighbour is a move away from a current solution that exists. *)
Lemma get_neighbor_from cur temperature g n g' :
  SimulatedAnnealing._get_neighbor tasks students initial_temp cur temperature g
  = Ok (n, g') →
  ∃ s, cur = Some s ∧ same_tasks tasks students s n.
Proof.
  intros H. destruct cur as [s|].
  - exists s. split; [done|].
    assert (initial_temp ≠ 0) as Hne.
    { intros ->. unfold SimulatedAnnealing._get_neighbor, qdiv, Qc_eqb in H.
      by rewrite bool_decide_eq_true_2 in H. }
    pose proof (get_neighbor_cases tasks students initial_temp Hne s
                  temperature g) as Hp.
    by rewrite H in Hp.
  - unfold SimulatedAnnealing._get_neighbor in H.
    apply det_bind_ok in H as (t & _ & H).
    apply rand_bind_ok in H as (op & g1 & _ & H).
    destruct op; by apply det_bind_ok in H as (? & ? & _).
Qed.

Lemma neighbor_round_from cur temperature bn g bn' g' :
  SimulatedAnnealing.neighbor_round tasks students calc initial_temp cur
    temperature bn g = Ok (bn', g') →
  (∀ s, cur = Some s → same_tasks tasks students sol s) →
  neighbor_from tasks students calc sol bn →
  neighbor_from tasks students calc sol bn'.
Proof.
  destruct bn as [b bf]. unfold SimulatedAnnealing.neighbor_round.
  intros H Hcur Hbn.
  apply rand_bind_ok in H as (n & g1 & Hn & H).
  apply det_bind_ok in H as (nf & Hnf & H).
  apply get_neighbor_from in Hn as (s & -> & Hs).
  destruct (flt nf bf); injection H as <- <-; [|done].
  intros n' [= <-]. split; [|done].
  eapply same_tasks_trans; [by apply Hcur|done].
Qed.

Lemma sa_iteration_from cooling_rate st g st' g' :
  SimulatedAnnealing.iteration tasks students calc math_exp initial_temp
    cooling_rate st g = Ok (st', g') →
  sa_from tasks students calc sol st → sa_from tasks students calc sol st'.
Proof.
  unfold SimulatedAnnealing.iteration. intros H (Hcur & Hbest & Hbf).
  apply rand_bind_ok in H as ([bn bnf] & g1 & Hloop & H).
  apply (repeat_loop_inv (neighbor_from tasks students calc sol)) in Hloop;
    [| |by intros n [=]].
  2: { intros bn0 g0 bn1 g01 Hr. eapply neighbor_round_from; [exact Hr|].
       intros s Hs. by apply Hcur. }
  apply det_bind_ok in H as (p & _ & H).
  apply rand_bind_ok in H as (r & g2 & _ & H).
  apply rand_bind_ok in H as (st1 & g3 & Hst1 & H).
  injection H as <- <-. unfold sa_from. simpl.
  destruct (fgt p (Fin r)); [|by injection Hst1 as <- _].
  destruct (flt bnf (SimulatedAnnealing.best_fitness st)) eqn:Hlt.
  - apply det_bind_ok in Hst1 as (best & Hcopy & Hst1).
    injection Hst1 as <- _. simpl.
    destruct bn as [n|]; [|done]. injection Hcopy as <-.
    destruct (Hloop n eq_refl) as [Hn Hcalc].
    split; [by intros s [= <-]|done].
  - injection Hst1 as <- _. simpl. split; [|done].
    intros s Hs. by apply Hloop.
Qed.

Lemma anneal_from n cooling_rate min_temp st g st' g' :
  SimulatedAnnealing.anneal tasks students calc math_exp initial_temp n
    cooling_rate min_temp st g = Ok (st', g') →
  sa_from tasks students calc sol st → sa_from tasks students calc sol st'.
Proof.
  revert st g. induction n as [|n IH]; intros st g; simpl.
  { by intros [= <- <-]. }
  destruct (Qc_ltb _ _); [by intros [= <- <-]|].
  intros H Hinv. apply rand_bind_ok in H as (st1 & g1 & Hit & H).
  apply sa_iteration_from in Hit; [|done].
  case_decide; [by injection H as <- <-|]. by eapply IH.
Qed.

End AnnealingTasks.

Lemma sa_improve_solution_from (tasks : gmap string task)
    (students : gmap string student) (calc : solution → result pyfloat)
    (math_exp : Qc → Qc) (initial_solution : solution) (max_iterations : Z)
    (initial_temp cooling_rate min_temp : Qc) (g : rng)
    (best : solution) (bf : pyfloat) (g' : rng) :
  SimulatedAnnealing.improve_solution tasks students calc math_exp
    initial_solution max_iterations initial_temp cooling_rate min_temp g
  = Ok ((best, bf), g') →
  calc best = Ok bf ∧ same_tasks tasks students initial_solution best.
Proof.
  unfold SimulatedAnnealing.improve_solution. intros H.
  apply det_bind_ok in H as (f0 & Hf0 & H).
  apply rand_bind_ok in H as (st' & g1 & Han & H).
  injection H as <- <- <-.
  apply (anneal_from tasks students calc math_exp initial_temp initial_solution)
    in Han as (_ & Hbest & Hbf); [done|].
  split; [|by split; [apply same_tasks_refl|]].
  intros s [= <-]. by split; [apply same_tasks_refl|].
Qed.

(** X21: when simulated annealing returns [(best, cost)], [cost] is
    the fitness of [best], [best] has the task column of the initial
    solution, and it names known tasks and students when the initial
    solution does. *)
Theorem annealing_returns_evaluated_solution (tasks : gmap string task)
    (students : gmap string student) (calc : solution → result pyfloat)
    (math_exp : Qc → Qc) (initial_solution : solution) (max_iterations : Z)
    (initial_temp cooling_rate min_temp : Qc) (g : rng)
    (best : solution) (bf : pyfloat) (g' : rng) :
  SimulatedAnnealing.improve_solution tasks students calc math_exp
    initial_solution max_iterations initial_temp cooling_rate min_temp g
  = Ok ((best, bf), g') →
  calc best = Ok bf ∧
  task_of <$> best = task_of <$> initial_solution ∧
  (known_ids tasks students initial_solution → known_ids tasks students best).
Proof.
  intros Hrun. apply sa_improve_solution_from in Hrun as [Hbf [Hcol Hk]].
  done.
Qed.

Lemma annealing_returns_evaluated_solution_witness :
  ∃ best bf g',
    SimulatedAnnealing.improve_solution tasks_one students_1
      (calculate_fitness tasks_one students_1) exp_model sol_one 5
      (Qc_of_Z 100) (qc 9 10) (qc 1 10) (rng_of [])
    = Ok ((best, bf), g') ∧
    calculate_fitness tasks_one students_1 best = Ok bf ∧
    task_of <$> best = task_of <$> sol_one ∧
    (known_ids tasks_one students_1 sol_one → known_ids tasks_one students_1 best).
Proof.
  destruct (sa_improve_solution_total tasks_one students_1 exp_model sol_one 5
              (Qc_of_Z 100) (qc 9 10) (qc 1 10) (rng_of []))
    as (best & bf & g' & Hrun);
    [apply wf_problem_one | known_ids_compute | done | done |].
  exists best, bf, g'. split; [done|].
  exact (annealing_returns_evaluated_solution _ _ _ _ _ _ _ _ _ _ _ _ _ Hrun).
Defined.

(** * Migration keeps the best individual of the destination *)

Section SortedFacts.
Context {A : Type}.
Implicit Types (l : list (A * pyfloat)).

Lemma insert_keyed_desc (x : A * pyfloat) l :
  not_nan x.2 → Forall (λ y, not_nan y.2) l →
  StronglySorted desc l →
  StronglySorted desc (IslandModel.insert_keyed fgt x l).
Proof.
  intros Hx Hnan Hs. induction Hs as [|y l Hs IH Hall]; simpl.
  { repeat constructor. }
  apply Forall_cons in Hnan as [Hy Hnan]. unfold fgt at 1.
  destruct (flt x.2 y.2) eqn:Hlt.
  - constructor; [by apply IH|].
    rewrite insert_keyed_perm. constructor; [|done].
    by apply flt_fle.
  - pose proof (flt_false_fle _ _ Hx Hy Hlt) as Hle.
    constructor; [by constructor|]. constructor; [done|].
    eapply Forall_impl; [exact Hall|]. intros z Hz. unfold desc in *.
    by eapply fle_trans.
Qed.

Lemma sort_keyed_desc l :
  Forall (λ y, not_nan y.2) l →
  StronglySorted desc (IslandModel.sort_keyed fgt l).
Proof.
  unfold IslandModel.sort_keyed. induction l as [|x l IH]; simpl.
  { constructor. }
  intros [Hx Hl]%Forall_cons. apply insert_keyed_desc; [done| |by apply IH].
  fold (IslandModel.sort_keyed fgt l). by rewrite sort_keyed_perm.
Qed.

(** The last element of a list sorted that way has the least key. *)
Lemma desc_last l b :
  Forall (λ y, not_nan y.2) l → StronglySorted desc l →
  last l = Some b → Forall (λ y, fle b.2 y.2 = true) l.
Proof.
  intros Hnan Hs. revert b. induction Hs as [|y l Hs IH Hall]; intros b; [done|].
  apply Forall_cons in Hnan as [Hy Hnan].
  destruct l as [|z l].
  - intros [= <-]. constructor; [by apply fle_refl|done].
  - intros Hlast. change (last (z :: l) = Some b) in Hlast.
    constructor; [|by apply IH].
    rewrite Forall_forall in Hall. apply Hall.
    rewrite last_lookup in Hlast. by eapply list_elem_of_lookup_2.
Qed.

Lemma mapM_zip {B} (f : A → result B) (l : list A) ys :
  mapM f l = Ok ys → Forall (λ p, f p.1 = Ok p.2) (zip l ys).
Proof.
  revert ys. induction l as [|x l IH]; intros ys; simpl.
  { intros [= <-]. constructor. }
  destruct (f x) as [y|e] eqn:Hfx; [|done]. simpl.
  destruct (mapM f l) as [ys'|e]; [|done]. simpl.
  intros [= <-]. constructor; [done|]. by apply IH.
Qed.

End SortedFacts.

(** The worst-first order of a population ends in an individual whose
    fitness is the least. *)
Lemma sorted_reverse_last (get_fitness : solution → result pyfloat)
    (pop sorted_pop : list solution) :
  (∀ x f, get_fitness x = Ok f → not_nan f) →
  pop ≠ [] →
  IslandModel.sorted get_fitness true pop = Ok sorted_pop →
  ∃ b fb, last sorted_pop = Some b ∧ get_fitness b = Ok fb ∧
          ∀ x fx, x ∈ pop → get_fitness x = Ok fx → fle fb fx = true.
Proof.
  intros Hnan Hne. unfold IslandModel.sorted.
  destruct (mapM get_fitness pop) as [keys|e] eqn:Hk; [|done]. simpl.
  intros [= <-].
  pose proof (mapM_zip _ _ _ Hk) as Hkeys.
  pose proof (mapM_length _ _ _ Hk) as Hlen.
  set (keyed := IslandModel.sort_keyed fgt (zip pop keys)).
  assert (keyed ≡ₚ zip pop keys) as Hperm by apply sort_keyed_perm.
  assert (Forall (λ p, get_fitness p.1 = Ok p.2) keyed) as Hfit
    by by rewrite Hperm.
  assert (Forall (λ p : solution * pyfloat, not_nan p.2) keyed) as Hnn.
  { eapply Forall_impl; [exact Hfit|]. intros p Hp. exact (Hnan _ _ Hp). }
  assert (StronglySorted desc keyed) as Hsorted.
  { apply sort_keyed_desc. by rewrite <-Hperm. }
  destruct (last keyed) as [[b fb]|] eqn:Hlast; last first.
  { apply last_None in Hlast. rewrite Hlast in Hperm.
    symmetry in Hperm. apply Permutation_nil_r in Hperm.
    destruct pop, keys; simpl in *; done || lia. }
  exists b, fb. split; [by rewrite fmap_last, Hlast|].
  pose proof (desc_last _ _ Hnn Hsorted Hlast) as Hleast.
  split.
  { rewrite Forall_forall in Hfit. apply (Hfit (b, fb)).
    rewrite last_lookup in Hlast. by eapply list_elem_of_lookup_2. }
  intros x fx Hx Hfx.
  assert (x ∈ keyed.*1) as Hin.
  { rewrite Hperm, fst_zip by lia. done. }
  apply list_elem_of_fmap in Hin as ([x' k] & -> & Hin).
  rewrite Forall_forall in Hfit, Hleast.
  pose proof (Hfit _ Hin) as Hk'. simpl in Hk', Hfx.
  rewrite Hfx in Hk'. injection Hk' as ->. by apply (Hleast _ Hin).
Qed.

(** X22: when a non-empty island hands over to a destination that
    holds more individuals than [migration_size] (with a fitness that is
    never NaN), an individual of the destination whose fitness is the
    least of the destination is still in it afterwards. *)
Theorem migration_keeps_destination_best
    (get_fitness : solution → result pyfloat) (migration_size : nat)
    (islands islands' : list (list solution)) (num_islands i : nat)
    (src dst : list solution) :
  (∀ x f, get_fitness x = Ok f → not_nan f) →
  IslandModel.migrate_from get_fitness migration_size num_islands islands i
  = Ok islands' →
  islands !! i = Some src → src ≠ [] →
  islands !! ((i + 1) mod num_islands)%nat = Some dst →
  (migration_size < length dst)%nat →
  ∃ b fb dst',
    b ∈ dst ∧ get_fitness b = Ok fb ∧
    (∀ x fx, x ∈ dst → get_fitness x = Ok fx → fle fb fx = true) ∧
    islands' !! ((i + 1) mod num_islands)%nat = Some dst' ∧
    b ∈ dst'.
Proof.
  intros Hnan Hstep Hsrc Hne Hdst Hsize.
  assert (dst ≠ []) as Hne' by (intros ->; simpl in Hsize; lia).
  destruct (migrate_from_handed_over _ _ _ _ _ _ _ _ Hstep Hsrc Hne Hdst Hne')
    as (migrants & sorted_dest & dst' & Hms & Hsd & -> & Hlen & Hperm).
  destruct (sorted_reverse_last _ _ _ Hnan Hne' Hsd) as (b & fb & Hlast & Hfb & Hleast).
  pose proof (sorted_perm _ _ _ _ Hsd) as Hsdperm.
  assert (length migrants ≤ migration_size)%nat as Hmig.
  { unfold IslandModel.migrants_of in Hms.
    apply result_bind_ok in Hms as (ss & _ & [= <-]).
    rewrite length_take. lia. }
  assert (length sorted_dest = length dst) as Hsdlen by by rewrite Hsdperm.
  exists b, fb, dst'.
  rewrite last_lookup in Hlast.
  split; [rewrite <-Hsdperm; by eapply list_elem_of_lookup_2|].
  split; [done|]. split; [done|].
  split; [apply list_lookup_insert_eq; by eapply lookup_lt_Some|].
  rewrite Hperm. unfold handed_over. apply elem_of_app. right.
  apply list_elem_of_lookup.
  exists (pred (length sorted_dest) - length migrants)%nat.
  rewrite lookup_drop, <-Hlast. f_equal. lia.
Qed.

Lemma migration_keeps_destination_best_witness :
  ∃ b fb dst',
    b ∈ [sol_unfit; sol_fit] ∧ fitness_skill b = Ok fb ∧
    (∀ x fx, x ∈ [sol_unfit; sol_fit] → fitness_skill x = Ok fx →
             fle fb fx = true) ∧
    [[sol_fit]; [sol_fit; sol_fit]] !! ((0 + 1) mod 2)%nat = Some dst' ∧
    b ∈ dst'.
Proof.
  apply (migration_keeps_destination_best fitness_skill 1
           [[sol_fit]; [sol_unfit; sol_fit]] _ 2 0 [sol_fit]
           [sol_unfit; sol_fit]).
  - intros x f. apply calculate_fitness_not_nan.
  - by vm_compute.
  - done.
  - done.
  - done.
  - simpl. lia.
Defined.

(** * When the fitness is finite *)

Lemma calculate_fitness_uncovered tasks students sol :
  known_ids tasks students sol → tasks_in sol ≠ dom tasks →
  calculate_fitness tasks students sol = Ok PInf.
Proof.
  intros Hk Hcover. unfold calculate_fitness, calculate_fitness_body.
  destruct sol as [|a sol]; [done|]. set (s := a :: sol) in *.
  pose proof (first_pass_ok _ _ _ Hk) as Hok.
  destruct (first_pass tasks students s) as [t|e] eqn:Hfp; [|done].
  cbn [obind lift finish].
  apply first_pass_inv in Hfp as (Hsub & Hc & _).
  rewrite bool_decide_eq_true_2; [done|].
  intros Hsize. apply Hcover. apply set_subseteq_size_eq; [done|].
  rewrite <-Hc, !size_dom. lia.
Qed.

Lemma loop_no_return {A S} (body : S → A → outcome S) l :
  (∀ s x w, x ∈ l → body s x ≠ Return w) →
  ∀ s w, loop body l s ≠ Return w.
Proof.
  induction l as [|x l IH]; intros Hbody s w; [done|].
  cbn [loop]. destruct (body s x) as [s'|v|e] eqn:Hb; simpl; [| |done].
  - apply IH. intros s0 x0 w0 Hin. apply Hbody. by right.
  - destruct (Hbody s x v); [by left|done].
Qed.

Lemma loop_next {A S} (body : S → A → outcome S) l s s' x :
  loop body l s = Next s' → x ∈ l → ∃ s1 s2, body s1 x = Next s2.
Proof.
  revert s. induction l as [|y l IH]; intros s Hloop Hin.
  { by apply elem_of_nil in Hin. }
  cbn [loop] in Hloop.
  destruct (body s y) as [s1|v|e] eqn:Hb; simpl in Hloop; [|done..].
  apply elem_of_cons in Hin as [->|Hin]; [by eauto|by eapply IH].
Qed.

(** With every dependency a task on record, no dependency ends the
    evaluation. *)
Lemma dependency_penalty_closed tasks t D w :
  closed_dependencies tasks → dom (completion_times t) = dom tasks →
  dependency_penalty tasks t D ≠ Return w.
Proof.
  intros Hclosed Hdom. unfold dependency_penalty. apply loop_no_return.
  intros p [task_id tk] w1 Hin%elem_of_map_to_list. apply loop_no_return.
  intros p' dep_id w2 Hdep. unfold dep_step.
  assert (is_Some (completion_times t !! dep_id)) as [c ->].
  { apply elem_of_dom. rewrite Hdom.
    pose proof (Hclosed _ _ Hin) as Hall. simpl in Hall.
    rewrite Forall_forall in Hall. by apply Hall. }
  destruct (start_times t !! task_id); [|done].
  destruct (Qc_ltb _ _); [|done]. by destruct (qdiv _ _).
Qed.

(** A dependency that is no task on record does. *)
Lemma dependency_penalty_open tasks t D task_id tk dep p :
  tasks !! task_id = Some tk → dep ∈ dependencies tk →
  completion_times t !! dep = None →
  dependency_penalty tasks t D ≠ Next p.
Proof.
  intros Htk Hdep Hnone Hnext. unfold dependency_penalty in Hnext.
  apply (loop_next _ _ _ _ (task_id, tk)) in Hnext as (p1 & p2 & Hinner);
    [|by apply elem_of_map_to_list].
  apply (loop_next _ _ _ _ dep) in Hinner as (p3 & p4 & Hstep); [|done].
  unfold dep_step in Hstep. by rewrite Hnone in Hstep.
Qed.

Lemma not_closed_dependencies tasks :
  ¬ closed_dependencies tasks →
  ∃ task_id tk dep, tasks !! task_id = Some tk ∧ dep ∈ dependencies tk ∧
                    dep ∉ dom tasks.
Proof.
  unfold closed_dependencies. intros (task_id & tk & Htk & Hnot)%map_not_Forall;
    [|apply _].
  apply not_Forall_Exists in Hnot; [|apply _].
  apply Exists_exists in Hnot as (dep & Hdep & Hout).
  by exists task_id, tk, dep.
Qed.

Lemma calculate_fitness_covering tasks students sol :
  wf_problem tasks students → known_ids tasks students sol → sol ≠ [] →
  tasks_in sol = dom tasks →
  (closed_dependencies tasks →
   ∃ q, calculate_fitness tasks students sol = Ok (Fin q)) ∧
  (¬ closed_dependencies tasks →
   calculate_fitness tasks students sol = Ok PInf).
Proof.
  intros [Hdur Hstud] Hk Hne Hcover.
  unfold calculate_fitness, calculate_fitness_body.
  destruct sol as [|a sol]; [done|]. set (s := a :: sol) in *.
  pose proof (first_pass_ok _ _ _ Hk) as Hok.
  destruct (first_pass tasks students s) as [t|e] eqn:Hfp; [|done].
  cbn [obind lift finish].
  apply first_pass_inv in Hfp as (Hsub & Hc & Hs & Hw & _).
  rewrite bool_decide_eq_false_2; last first.
  { intros Hsize. apply Hsize.
    transitivity (size (dom tasks)); [|apply size_dom].
    rewrite <-Hcover, <-Hc. symmetry. apply size_dom. }
  assert (0 < total_task_duration tasks) as HD.
  { apply total_task_duration_pos; [|done]. intros ->.
    apply Forall_cons in Hk as [[Hin _] _]. set_solver. }
  destruct (values_nonempty (completion_times t)) as (c0 & cs & Hcs).
  { rewrite Hc. by apply tasks_in_nonempty. }
  destruct (values_nonempty (start_times t)) as (s0 & ss & Hss).
  { rewrite Hs. by apply tasks_in_nonempty. }
  destruct (py_max_ok (c0 :: cs)) as [max_c Hmax]; [done|].
  destruct (py_min_ok (s0 :: ss)) as [min_s Hmin]; [done|].
  rewrite Hcs, Hss, Hmax, Hmin. cbn [obind lift finish].
  rewrite qdiv_ok by by apply Qc_pos_ne_0. cbn [obind lift finish].
  assert (dom (completion_times t) = dom tasks) as Hcdom by by rewrite Hc.
  destruct (dependency_penalty_nonneg tasks t (total_task_duration tasks) HD)
    as [(p_dep & Hdep & _)|Hdep]; [by rewrite Hs| |].
  - split; last first.
    { intros (task_id & tk & dep & Htk & Hin & Hout)%not_closed_dependencies.
      destruct (dependency_penalty_open tasks t (total_task_duration tasks)
                  task_id tk dep p_dep Htk Hin); [|done].
      apply not_elem_of_dom. by rewrite Hcdom. }
    intros _. rewrite Hdep. cbn [obind lift finish].
    destruct (skill_penalty_nonneg tasks students s Hk) as (p_skill & -> & _).
    cbn [obind lift finish].
    destruct (workload_penalty_nonneg students t (total_task_duration tasks)
                HD Hstud Hw) as (r & -> & _).
    cbn [obind lift finish].
    destruct (overlap_penalty_nonneg t (total_task_duration tasks) HD)
      as (p_overlap & -> & _).
    cbn [obind lift finish fadd fmul]. by eexists.
  - split.
    { intros Hclosed.
      by destruct (dependency_penalty_closed tasks t (total_task_duration tasks)
                     PInf Hclosed Hcdom). }
    intros _. by rewrite Hdep.
Qed.



(** * The dependency-based and the skill-based chromosome *)

Lemma Qc_max_le a b c : a ≤ c → b ≤ c → Qc_max a b ≤ c.
Proof. intros Ha Hb. unfold Qc_max. by destruct (Qc_ltb a b). Qed.

Lemma Qc_max_absorb a b : b ≤ a → Qc_max a b = a.
Proof.
  intros Hle. unfold Qc_max. by rewrite (proj2 (Qc_ltb_false a b)).
Qed.

Section BackToBack.
Variable tasks : gmap string task.
Hypothesis durations : map_Forall (λ _ tk, 0 ≤ estimated_time tk) tasks.

(** In a back-to-back schedule every assignment ends before the later
    ones start. *)
Lemma back_to_back_sequential sol :
  ∀ t0, back_to_back tasks t0 sol →
    Forall (λ a, t0 ≤ float (start_of a)) sol ∧
    ∀ i j a b, (i < j)%nat → sol !! i = Some a → sol !! j = Some b →
               end_of tasks a ≤ float (start_of b).
Proof.
  induction sol as [|[[t s] start] sol IH]; intros t0 Hb.
  { split; [constructor|]. intros i j a b _ Hi. by rewrite lookup_nil in Hi. }
  destruct Hb as (Hstart & tk & Htk & Hrest). unfold task_of in Htk.
  simpl in Hstart, Htk. subst start.
  pose proof (durations _ _ Htk) as Hdur. simpl in Hdur.
  destruct (IH _ Hrest) as [Hfrom Hseq].
  assert (t0 ≤ t0 + estimated_time tk) as Hstep by qc_lra.
  split.
  { constructor; [apply Qcle_refl|].
    eapply Forall_impl; [exact Hfrom|]. intros a Ha. simpl in Ha.
    by eapply Qcle_trans. }
  intros i j a b Hij Hi Hj. destruct j as [|j]; [lia|]. simpl in Hj.
  destruct i as [|i].
  - injection Hi as <-. rewrite (end_of_known tasks (t, s, PyStr t0) tk Htk). simpl.
    rewrite Forall_forall in Hfrom. apply Hfrom. by eapply list_elem_of_lookup_2.
  - simpl in Hi. eapply (Hseq i j); [lia|done..].
Qed.

(** When the tasks are moreover listed once each and after their
    dependencies, no task starts before its dependencies have ended. *)
Lemma back_to_back_after_dependencies sol t0 :
  back_to_back tasks t0 sol → NoDup (task_of <$> sol) →
  respects_dependencies tasks (task_of <$> sol) →
  starts_after_dependencies tasks sol.
Proof.
  intros Hb Hnd Hresp a b tk Ha Hb' Htk Hdep.
  apply list_elem_of_lookup in Ha as [i Hi].
  apply list_elem_of_lookup in Hb' as [k Hk].
  destruct (Hresp i (task_of a) tk (task_of b)) as (j & Hj & Hjb); [|done..|].
  { by rewrite list_lookup_fmap, Hi. }
  assert (j = k) as ->.
  { eapply NoDup_lookup; [exact Hnd|exact Hjb|].
    by rewrite list_lookup_fmap, Hk. }
  destruct (back_to_back_sequential sol t0 Hb) as [_ Hseq].
  by eapply (Hseq k i).
Qed.

End BackToBack.

Section DependencyChromosome.
Variable tasks : gmap string task.
Variable students : gmap string student.
Hypothesis durations : map_Forall (λ _ tk, 0 ≤ estimated_time tk) tasks.
Hypothesis some_student : students ≠ ∅.

(** The wait for the dependencies never goes past the current time. *)
Lemma dep_scan_bound dep ct (chromosome : solution) :
  Forall (λ a, task_of a ∈ dom tasks ∧ end_of tasks a ≤ ct) chromosome →
  ∀ m, m ≤ ct →
    ∃ m', for_each (PopulationInitializer.dep_scan_step tasks dep) chromosome m
          = Ok m' ∧ m' ≤ ct.
Proof.
  induction 1 as [|[[t s] start] c [Ht Hend] Hc IH]; intros m Hm.
  { by exists m. }
  unfold task_of in Ht. simpl in Ht. apply elem_of_dom in Ht as [tk Htk].
  rewrite (end_of_known tasks (t, s, start) tk Htk) in Hend. simpl in Hend.
  assert (∃ m1, PopulationInitializer.dep_scan_step tasks dep m (t, s, start)
                = Ok m1 ∧ m1 ≤ ct) as (m1 & Hstep & Hm1).
  { unfold PopulationInitializer.dep_scan_step. case_decide as Heq; [|by eauto].
    subst dep. unfold dict_get. rewrite Htk. simpl.
    eexists. split; [done|]. by apply Qc_max_le. }
  rewrite (for_each_cons_ok _ _ _ _ _ Hstep). by apply IH.
Qed.

Lemma max_dep_time_bound ct (chromosome : solution) completed deps :
  Forall (λ a, task_of a ∈ dom tasks ∧ end_of tasks a ≤ ct) chromosome →
  0 ≤ ct →
  ∃ m, PopulationInitializer.max_dep_time_of tasks chromosome completed deps
       = Ok m ∧ m ≤ ct.
Proof.
  intros Hc Hct. unfold PopulationInitializer.max_dep_time_of.
  assert (∀ m0, m0 ≤ ct →
    ∃ m, for_each (λ max_dep_time dep,
                     if decide (dep ∈ completed)
                     then for_each (PopulationInitializer.dep_scan_step tasks dep)
                            chromosome max_dep_time
                     else Ok max_dep_time) deps m0 = Ok m ∧ m ≤ ct) as Hloop;
    [|by apply Hloop].
  induction deps as [|dep deps IH]; intros m0 Hm0; [by exists m0|].
  cbn [for_each]. case_decide.
  - destruct (dep_scan_bound dep ct chromosome Hc m0 Hm0) as (m1 & -> & Hm1).
    simpl. by apply IH.
  - simpl. by apply IH.
Qed.

Lemma dependency_gene_ok (chromosome : solution) ct completed t tk g :
  tasks !! t = Some tk →
  Forall (λ a, task_of a ∈ dom tasks ∧ end_of tasks a ≤ ct) chromosome →
  0 ≤ ct →
  ∃ s g',
    PopulationInitializer.dependency_gene tasks students
      (chromosome, ct, completed) t g
    = Ok ((chromosome ++ [(t, s, str ct)], ct + estimated_time tk,
           {[t]} ∪ completed), g') ∧
    s ∈ dom students.
Proof.
  intros Htk Hc Hct. unfold PopulationInitializer.dependency_gene, dict_get.
  rewrite Htk. unfold mbind at 1, rand_bind, det. cbn beta iota.
  destruct (max_dep_time_bound ct chromosome completed (dependencies tk) Hc Hct)
    as (m & Hm & Hle).
  rewrite Hm. unfold mbind at 1, rand_bind. cbn beta iota.
  rewrite (Qc_max_absorb _ _ Hle).
  destruct (choice_ok (map_to_list students).*1 g) as (s & g1 & Hs & Hin).
  { by apply keys_nonempty. }
  rewrite (rand_bind_step _ _ _ _ _ Hs).
  exists s, g1. split; [done|]. by apply keys_dom.
Qed.

Lemma dependency_genes_post ts :
  Forall (λ t, t ∈ dom tasks) ts →
  ∀ (chromosome : solution) ct completed g,
    Forall (λ a, task_of a ∈ dom tasks ∧ end_of tasks a ≤ ct) chromosome →
    0 ≤ ct →
    ∃ new ct' completed' g',
      for_each_rand (PopulationInitializer.dependency_gene tasks students) ts
        (chromosome, ct, completed) g
      = Ok ((chromosome ++ new, ct', completed'), g') ∧
      task_of <$> new = ts ∧ known_ids tasks students new ∧
      back_to_back tasks ct new.
Proof.
  induction ts as [|t ts IH]; intros Hts chromosome ct completed g Hc Hct.
  { exists [], ct, completed, g. rewrite app_nil_r.
    repeat split; try done. constructor. }
  apply Forall_cons in Hts as [Ht Hts].
  pose proof Ht as [tk Htk]%elem_of_dom.
  pose proof (durations _ _ Htk) as Hdur. simpl in Hdur.
  cbn [for_each_rand].
  destruct (dependency_gene_ok chromosome ct completed t tk g Htk Hc Hct)
    as (s & g1 & Hstep & Hs).
  rewrite (rand_bind_step _ _ _ _ _ Hstep).
  assert (ct ≤ ct + estimated_time tk) as Hgrow by qc_lra.
  destruct (IH Hts (chromosome ++ [(t, s, str ct)]) (ct + estimated_time tk)
              ({[t]} ∪ completed) g1)
    as (new & ct' & completed' & g' & Hr & Hcol & Hknown & Hb2b).
  { apply Forall_app. split.
    - eapply Forall_impl; [exact Hc|]. intros a [? Ha]. split; [done|].
      exact (Qcle_trans _ _ _ Ha Hgrow).
    - apply Forall_singleton. split; [done|].
      rewrite (end_of_known tasks (t, s, str ct) tk Htk). apply Qcle_refl. }
  { exact (Qcle_trans _ _ _ Hct Hgrow). }
  exists ((t, s, str ct) :: new), ct', completed', g'.
  rewrite <-(assoc_L (++)) in Hr. simpl in Hr. split; [exact Hr|].
  split; [by rewrite fmap_cons, Hcol|].
  split; [constructor; [by split|done]|].
  split; [done|]. by exists tk.
Qed.

End DependencyChromosome.

(** X24: with at least one student, dependencies that are tasks of
    the table and durations that are not negative,
    [_create_dependency_based_chromosome] returns one assignment per task
    in the order of [_get_task_order], each for a student of the table,
    and the assignments follow one another back to back from time 0: the
    wait for the dependencies never delays a task.  When the dependencies
    have no cycle, no task starts before the tasks it depends on have
    ended. *)
Theorem dependency_chromosome_is_back_to_back (tasks : gmap string task)
    (students : gmap string student) (g : rng) :
  students ≠ ∅ → closed_dependencies tasks →
  map_Forall (λ _ tk, 0 ≤ estimated_time tk) tasks →
  ∃ order create sol g',
    PopulationInitializer._get_task_order tasks = Some (Ok order) ∧
    PopulationInitializer._create_dependency_based_chromosome tasks students
    = Some create ∧
    create g = Ok (sol, g') ∧
    task_of <$> sol = order ∧
    known_ids tasks students sol ∧
    back_to_back tasks 0 sol ∧
    (acyclic tasks → starts_after_dependencies tasks sol).
Proof.
  intros Hst Hclosed Hdur.
  destruct (task_order_cases tasks) as [[_ (order & Ho & Hp)]|[Habs _]]; [|done].
  destruct (dependency_genes_post tasks students Hdur Hst order) with
    (chromosome := @nil assignment) (ct := 0 : Qc) (completed := ∅ : gset string)
    (g := g) as (sol & ct' & completed' & g' & Hr & Hcol & Hknown & Hb2b);
    [|constructor|done|].
  { rewrite Hp. apply Forall_forall. intros t. by rewrite keys_elem_of. }
  unfold PopulationInitializer._create_dependency_based_chromosome. rewrite Ho.
  eexists order, _, sol, g'. split; [done|]. split; [done|].
  split.
  { unfold mbind at 1, rand_bind, det. cbn beta iota.
    by rewrite (rand_bind_step _ _ _ _ _ Hr). }
  split; [done|]. split; [done|]. split; [done|].
  intros Hacyclic.
  eapply back_to_back_after_dependencies; [done..| |].
  - rewrite Hcol, Hp. apply NoDup_fst_map_to_list.
  - rewrite Hcol. by apply task_order_respects.
Qed.

Lemma dependency_chromosome_is_back_to_back_witness :
  ∃ order create sol g',
    PopulationInitializer._get_task_order tasks_dep = Some (Ok order) ∧
    PopulationInitializer._create_dependency_based_chromosome tasks_dep students_2
    = Some create ∧
    create (rng_of []) = Ok (sol, g') ∧
    task_of <$> sol = order ∧
    known_ids tasks_dep students_2 sol ∧
    back_to_back tasks_dep 0 sol ∧
    (acyclic tasks_dep → starts_after_dependencies tasks_dep sol).
Proof.
  apply dependency_chromosome_is_back_to_back.
  - apply students_2_nonempty.
  - apply tasks_dep_closed.
  - apply tasks_dep_durations.
Defined.

(** ** The skill-based chromosome *)

Lemma max_step_post {A} (key : A → result Qc) (l seen : list A) (best : A * Qc) :
  Forall (λ x, is_ok (key x) = true) l →
  key best.1 = Ok best.2 → best.1 ∈ seen →
  Forall (λ x, ∃ k, key x = Ok k ∧ k ≤ best.2) seen →
  ∃ best', for_each (PopulationInitializer.max_step key) l best = Ok best' ∧
           key best'.1 = Ok best'.2 ∧ best'.1 ∈ seen ++ l ∧
           Forall (λ x, ∃ k, key x = Ok k ∧ k ≤ best'.2) (seen ++ l).
Proof.
  intros Hl. revert seen best.
  induction Hl as [|x l Hx Hl IH]; intros seen best Hbest Hin Hseen.
  { exists best. by rewrite app_nil_r. }
  destruct (key x) as [k|e] eqn:Hk; [|done].
  assert (∃ best1, PopulationInitializer.max_step key best x = Ok best1 ∧
                   key best1.1 = Ok best1.2 ∧ best1.1 ∈ seen ++ [x] ∧
                   Forall (λ y, ∃ k, key y = Ok k ∧ k ≤ best1.2) (seen ++ [x]))
    as (best1 & Hstep & Hb1 & Hin1 & Hseen1).
  { unfold PopulationInitializer.max_step. rewrite Hk. simpl.
    destruct (Qc_ltb best.2 k) eqn:Hlt.
    - apply Qc_ltb_true in Hlt. exists (x, k). split; [done|]. split; [done|].
      split; [apply elem_of_app; right; by left|].
      apply Forall_app. split.
      + eapply Forall_impl; [exact Hseen|]. intros y (ky & Hky & Hle).
        exists ky. split; [done|]. simpl.
        eapply Qcle_trans; [exact Hle|]. by apply Qclt_le_weak.
      + apply Forall_singleton. exists k. split; [done|]. apply Qcle_refl.
    - apply Qc_ltb_false in Hlt. exists best. split; [done|]. split; [done|].
      split; [apply elem_of_app; by left|].
      apply Forall_app. split; [done|].
      apply Forall_singleton. by exists k. }
  rewrite (for_each_cons_ok _ _ _ _ _ Hstep).
  destruct (IH (seen ++ [x]) best1 Hb1 Hin1 Hseen1) as (best' & Hr & ? & ? & ?).
  exists best'. by rewrite <-(assoc_L (++)) in *.
Qed.

(** [max(l, key=key)] returns an entry of [l] whose key is the
    greatest. *)
Lemma py_max_key_post {A} (key : A → result Qc) (l : list A) :
  l ≠ [] → Forall (λ x, is_ok (key x) = true) l →
  ∃ b kb, PopulationInitializer.py_max_key key l = Ok b ∧ b ∈ l ∧
          key b = Ok kb ∧
          Forall (λ x, ∃ k, key x = Ok k ∧ k ≤ kb) l.
Proof.
  intros Hne Hl. destruct l as [|x l]; [done|].
  apply Forall_cons in Hl as [Hx Hl].
  unfold PopulationInitializer.py_max_key.
  destruct (key x) as [k|e] eqn:Hk; [|done]. simpl.
  destruct (max_step_post key l [x] (x, k) Hl Hk) as (best & -> & Hb & Hin & Hall).
  { by left. }
  { apply Forall_singleton. exists k. split; [done|]. apply Qcle_refl. }
  simpl. by exists best.1, best.2.
Qed.

Section SkillChromosome.
Variable tasks : gmap string task.
Variable students : gmap string student.

Lemma skill_gene_ok (chromosome : solution) ct t tk :
  students ≠ ∅ → tasks !! t = Some tk →
  ∃ s,
    PopulationInitializer.skill_gene tasks students (chromosome, ct) t
    = Ok (chromosome ++ [(t, s, str ct)], ct + estimated_time tk) ∧
    s ∈ dom students ∧ best_matched tasks students (t, s, str ct).
Proof.
  intros Hne Htk. unfold PopulationInitializer.skill_gene.
  destruct (py_max_key_post
              (PopulationInitializer._calculate_skill_match tasks students t)
              (map_to_list students).*1) as (b & kb & Hmax & Hin & Hkb & Hall).
  { by apply keys_nonempty. }
  { apply Forall_forall. intros s Hs%keys_dom. apply elem_of_dom in Hs as [st Hst].
    destruct (calculate_skill_match_cases tasks students t s tk st Htk Hst)
      as (score & -> & _). done. }
  rewrite Hmax. simpl. unfold dict_get. rewrite Htk. simpl.
  exists b. split; [done|]. split; [by apply keys_dom|].
  exists kb. split; [done|]. intros s Hs. rewrite Forall_forall in Hall.
  apply Hall. apply list_elem_of_fmap.
  apply elem_of_dom in Hs as [st Hst]. exists (s, st).
  split; [done|]. by apply elem_of_map_to_list.
Qed.

Lemma skill_genes_post ts :
  students ≠ ∅ → Forall (λ t, t ∈ dom tasks) ts →
  ∀ (chromosome : solution) ct,
    ∃ new ct',
      for_each (PopulationInitializer.skill_gene tasks students) ts
        (chromosome, ct) = Ok (chromosome ++ new, ct') ∧
      task_of <$> new = ts ∧ known_ids tasks students new ∧
      back_to_back tasks ct new ∧ Forall (best_matched tasks students) new.
Proof.
  intros Hne. induction ts as [|t ts IH]; intros Hts chromosome ct.
  { exists [], ct. rewrite app_nil_r. repeat split; try done; constructor. }
  apply Forall_cons in Hts as [Ht Hts].
  pose proof Ht as [tk Htk]%elem_of_dom.
  destruct (skill_gene_ok chromosome ct t tk Hne Htk) as (s & Hstep & Hs & Hbest).
  rewrite (for_each_cons_ok _ _ _ _ _ Hstep).
  destruct (IH Hts (chromosome ++ [(t, s, str ct)]) (ct + estimated_time tk))
    as (new & ct' & Hr & Hcol & Hknown & Hb2b & Hall).
  exists ((t, s, str ct) :: new), ct'.
  rewrite <-(assoc_L (++)) in Hr. simpl in Hr. split; [exact Hr|].
  split; [by rewrite fmap_cons, Hcol|].
  split; [constructor; [by split|done]|].
  split; [|by constructor].
  split; [done|]. by exists tk.
Qed.

Lemma skill_genes_no_student t ts (chromosome : solution) ct :
  students = ∅ →
  for_each (PopulationInitializer.skill_gene tasks students) (t :: ts)
    (chromosome, ct) = Raise ValueError.
Proof.
  intros ->. cbn [for_each]. unfold PopulationInitializer.skill_gene.
  by rewrite map_to_list_empty.
Qed.

End SkillChromosome.

Lemma skill_chromosome_cases (tasks : gmap string task)
    (students : gmap string student) (g : rng) :
  (students ≠ ∅ →
   ∃ sol g',
     PopulationInitializer._create_skill_based_chromosome tasks students g
     = Ok (sol, g') ∧
     task_of <$> sol ≡ₚ (map_to_list tasks).*1 ∧
     known_ids tasks students sol ∧
     back_to_back tasks 0 sol ∧
     Forall (best_matched tasks students) sol) ∧
  (students = ∅ → tasks ≠ ∅ →
   PopulationInitializer._create_skill_based_chromosome tasks students g
   = Raise ValueError).
Proof.
  unfold PopulationInitializer._create_skill_based_chromosome.
  destruct (shuffle_perm (map_to_list tasks).*1 g) as (ts & g1 & Hsh & Hp).
  rewrite (rand_bind_step _ _ _ _ _ Hsh). split.
  - intros Hne.
    destruct (skill_genes_post tasks students ts Hne) with
      (chromosome := @nil assignment) (ct := 0 : Qc)
      as (sol & ct' & Hr & Hcol & Hknown & Hb2b & Hbest).
    { rewrite Hp. apply Forall_forall. intros t. by rewrite keys_elem_of. }
    unfold mbind, rand_bind, det. rewrite Hr. simpl.
    exists sol, g1. split; [done|]. by rewrite Hcol.
  - intros Hst Hne. destruct ts as [|t ts].
    { apply Permutation_nil_l in Hp. symmetry in Hp.
      apply fmap_nil_inv in Hp. by apply map_to_list_empty_iff in Hp. }
    unfold mbind, rand_bind, det.
    by rewrite (skill_genes_no_student tasks students t ts [] 0 Hst).
Qed.

(** X25: with at least one student, [_create_skill_based_chromosome]
    returns one assignment per task, in some order, back to back from time
    0, and the student of every assignment is one whose skill match with
    the task is the greatest among all students; with no student and at
    least one task it raises [ValueError]. *)
Theorem skill_chromosome_picks_best_students (tasks : gmap string task)
    (students : gmap string student) (g : rng) :
  (students ≠ ∅ →
   ∃ sol g',
     PopulationInitializer._create_skill_based_chromosome tasks students g
     = Ok (sol, g') ∧
     task_of <$> sol ≡ₚ (map_to_list tasks).*1 ∧
     known_ids tasks students sol ∧
     back_to_back tasks 0 sol ∧
     Forall (best_matched tasks students) sol) ∧
  (students = ∅ → tasks ≠ ∅ →
   PopulationInitializer._create_skill_based_chromosome tasks students g
   = Raise ValueError).
Proof. apply skill_chromosome_cases. Qed.

Lemma skill_chromosome_picks_best_students_witness :
  ∃ sol g',
    PopulationInitializer._create_skill_based_chromosome tasks_dep students_2
      (rng_of []) = Ok (sol, g') ∧
    task_of <$> sol ≡ₚ (map_to_list tasks_dep).*1 ∧
    known_ids tasks_dep students_2 sol ∧
    back_to_back tasks_dep 0 sol ∧
    Forall (best_matched tasks_dep students_2) sol.
Proof.
  apply (proj1 (skill_chromosome_picks_best_students tasks_dep students_2
                  (rng_of []))).
  apply students_2_nonempty.
Defined.

(** ** The populations of the other strategies *)

Lemma fill_population_copies {C} (c : list C) population_size :
  c ≠ [] →
  ∀ rounds population g,
    (Z.to_nat population_size - length population ≤ rounds)%nat →
    PopulationInitializer.fill_population rounds (det (Ok c)) population_size
      population g
    = Ok (Some (population ++
                replicate (Z.to_nat population_size - length population) c), g).
Proof.
  intros Hne. induction rounds as [|rounds IH]; intros population g Hr;
    cbn [PopulationInitializer.fill_population]; case_decide as Hlt.
  - lia.
  - replace (Z.to_nat population_size - length population)%nat with 0%nat by lia.
    by rewrite app_nil_r.
  - unfold mbind, rand_bind, det. destruct c as [|x c]; [done|].
    rewrite IH by (rewrite length_app; simpl; lia).
    rewrite length_app. simpl.
    replace (Z.to_nat population_size - length population)%nat
      with (S (Z.to_nat population_size - (length population + 1))) by lia.
    simpl. by rewrite <-(assoc_L (++)).
  - replace (Z.to_nat population_size - length population)%nat with 0%nat by lia.
    by rewrite app_nil_r.
Qed.

Lemma fill_population_stuck {C} population_size :
  ∀ rounds (population : list (list C)) g,
    (Z.of_nat (length population) < population_size)%Z →
    PopulationInitializer.fill_population rounds (det (Ok [])) population_size
      population g = Ok (None, g).
Proof.
  induction rounds as [|rounds IH]; intros population g Hlt;
    cbn [PopulationInitializer.fill_population]; case_decide; try lia; [done|].
  unfold mbind, rand_bind, det. by apply IH.
Qed.

Lemma fill_population_raise {C} (create : Rand (list C)) population_size e :
  (∀ g, create g = Raise e) →
  ∀ rounds population g,
    (Z.of_nat (length population) < population_size)%Z →
    PopulationInitializer.fill_population (S rounds) create population_size
      population g = Raise e.
Proof.
  intros Hraise rounds population g Hlt.
  cbn [PopulationInitializer.fill_population]. case_decide; [|lia].
  by apply rand_bind_raise.
Qed.

(** X26: [_create_intelligent_chromosome] draws no random number, so
    [_create_intelligent_population] fills the population with
    [population_size] copies of one chromosome; when the chromosome is
    empty (no task) the loop never ends, and when its creation raises, so
    does the first round. *)
Theorem intelligent_population_has_no_diversity (tasks : gmap string task)
    (students : gmap string student) (rounds : nat) (population_size : Z)
    (g : rng) (chromosome : result chromosome) :
  PopulationInitializer._create_intelligent_chromosome tasks students
  = Some chromosome →
  ∃ create,
    PopulationInitializer._create_intelligent_population tasks students rounds
      population_size = Some create ∧
    match chromosome with
    | Ok [] =>
        (0 < population_size)%Z → create g = Ok (None, g)
    | Ok c =>
        (Z.to_nat population_size ≤ rounds)%nat →
        create g = Ok (Some (replicate (Z.to_nat population_size) c), g)
    | Raise e =>
        (0 < population_size)%Z → (0 < rounds)%nat → create g = Raise e
    end.
Proof.
  intros Hc. unfold PopulationInitializer._create_intelligent_population.
  rewrite Hc. eexists. split; [done|].
  destruct chromosome as [[|x c]|e].
  - intros Hsize. apply fill_population_stuck. simpl. lia.
  - intros Hr. rewrite fill_population_copies by (done || simpl; lia).
    simpl. by rewrite Nat.sub_0_r.
  - intros Hsize Hrounds. destruct rounds as [|rounds]; [lia|].
    apply fill_population_raise; [done|simpl; lia].
Qed.

Lemma intelligent_population_has_no_diversity_witness :
  ∃ c create,
    PopulationInitializer._create_intelligent_chromosome tasks_dep students_2
    = Some (Ok c) ∧ length c = 2%nat ∧
    PopulationInitializer._create_intelligent_population tasks_dep students_2 3 2
    = Some create ∧
    create (rng_of []) = Ok (Some [c; c], rng_of []).
Proof.
  assert (∃ x y, PopulationInitializer._create_intelligent_chromosome tasks_dep
                   students_2 = Some (Ok [x; y])) as (x & y & Hc).
  { eexists _, _. vm_compute. reflexivity. }
  destruct (intelligent_population_has_no_diversity tasks_dep students_2 3 2
              (rng_of []) (Ok [x; y]) Hc) as (create & Hpop & Hrun).
  exists [x; y], create. split; [done|]. split; [done|]. split; [done|].
  apply Hrun. simpl. lia.
Defined.

(** X27: on a problem with a task, a student, dependencies that are
    tasks of the table and durations that are not negative,
    [_create_dependency_based_population] and
    [_create_skill_based_population] return exactly [population_size]
    chromosomes within [population_size] rounds; each covers every task
    once, names known students and runs back to back from time 0, and in
    the skill-based ones every student is a best match. *)
Theorem dependency_and_skill_populations_fill (tasks : gmap string task)
    (students : gmap string student) (rounds : nat) (population_size : Z)
    (g : rng) :
  tasks ≠ ∅ → students ≠ ∅ → closed_dependencies tasks →
  map_Forall (λ _ tk, 0 ≤ estimated_time tk) tasks →
  (Z.to_nat population_size ≤ rounds)%nat →
  (∃ create pop g',
     PopulationInitializer._create_dependency_based_population tasks students
       rounds population_size = Some create ∧
     create g = Ok (Some pop, g') ∧
     length pop = Z.to_nat population_size ∧
     Forall (λ c, task_of <$> c ≡ₚ (map_to_list tasks).*1 ∧
                  known_ids tasks students c ∧ back_to_back tasks 0 c) pop) ∧
  (∃ pop g',
     PopulationInitializer._create_skill_based_population tasks students
       rounds population_size g = Ok (Some pop, g') ∧
     length pop = Z.to_nat population_size ∧
     Forall (λ c, task_of <$> c ≡ₚ (map_to_list tasks).*1 ∧
                  known_ids tasks students c ∧ back_to_back tasks 0 c ∧
                  Forall (best_matched tasks students) c) pop).
Proof.
  intros Htasks Hstudents Hclosed Hdur Hrounds.
  assert (∀ c : solution, task_of <$> c ≡ₚ (map_to_list tasks).*1 → c ≠ [])
    as Hnonempty.
  { intros c Hp ->. simpl in Hp. apply Permutation_nil_l in Hp. symmetry in Hp.
    apply fmap_nil_inv in Hp. by apply map_to_list_empty_iff in Hp. }
  split.
  - destruct (task_order_cases tasks) as [[_ (order & Ho & Hp)]|[Habs _]]; [|done].
    unfold PopulationInitializer._create_dependency_based_population,
      PopulationInitializer._create_dependency_based_chromosome.
    rewrite Ho. eexists. 
    match goal with |- ∃ pop g', Some (PopulationInitializer.fill_population _ ?cr _ _) = _ ∧ _ =>
      destruct (fill_population_ends
                  (λ c : solution, task_of <$> c ≡ₚ (map_to_list tasks).*1 ∧
                                   known_ids tasks students c ∧
                                   back_to_back tasks 0 c)
                  cr population_size) with (rounds := rounds)
                  (population := @nil solution) (g := g)
        as (pop & g' & Hres & HP & Hlen) end.
    + intros g0.
      destruct (dependency_genes_post tasks students Hdur Hstudents order) with
        (chromosome := @nil assignment) (ct := 0 : Qc)
        (completed := ∅ : gset string) (g := g0)
        as (sol & ct' & completed' & g' & Hr & Hcol & Hknown & Hb2b);
        [|constructor|done|].
      { rewrite Hp. apply Forall_forall. intros t. by rewrite keys_elem_of. }
      exists sol, g'. split.
      { unfold mbind at 1, rand_bind, det. cbn beta iota.
        by rewrite (rand_bind_step _ _ _ _ _ Hr). }
      assert (task_of <$> sol ≡ₚ (map_to_list tasks).*1) by by rewrite Hcol.
      split; [by apply Hnonempty|done].
    + done.
    + simpl. lia.
    + exists pop, g'. split; [done|]. split; [done|]. split; [|done].
      rewrite Hlen. simpl. lia.
  - destruct (fill_population_ends
                (λ c : solution, task_of <$> c ≡ₚ (map_to_list tasks).*1 ∧
                                 known_ids tasks students c ∧
                                 back_to_back tasks 0 c ∧
                                 Forall (best_matched tasks students) c)
                (PopulationInitializer._create_skill_based_chromosome tasks students)
                population_size) with (rounds := rounds)
                (population := @nil solution) (g := g)
      as (pop & g' & Hres & HP & Hlen).
    + intros g0.
      destruct (skill_chromosome_cases tasks students g0) as [Hok _].
      destruct (Hok Hstudents) as (sol & g' & Hc & Hp & Hrest).
      exists sol, g'. split; [done|]. split; [by apply Hnonempty|done].
    + done.
    + simpl. lia.
    + exists pop, g'. split; [done|]. split; [|done]. rewrite Hlen. simpl. lia.
Qed.

Lemma dependency_and_skill_populations_fill_witness :
  (∃ create pop g',
     PopulationInitializer._create_dependency_based_population tasks_dep
       students_2 3 2 = Some create ∧
     create (rng_of []) = Ok (Some pop, g') ∧
     length pop = Z.to_nat 2 ∧
     Forall (λ c, task_of <$> c ≡ₚ (map_to_list tasks_dep).*1 ∧
                  known_ids tasks_dep students_2 c ∧
                  back_to_back tasks_dep 0 c) pop) ∧
  (∃ pop g',
     PopulationInitializer._create_skill_based_population tasks_dep students_2
       3 2 (rng_of []) = Ok (Some pop, g') ∧
     length pop = Z.to_nat 2 ∧
     Forall (λ c, task_of <$> c ≡ₚ (map_to_list tasks_dep).*1 ∧
                  known_ids tasks_dep students_2 c ∧
                  back_to_back tasks_dep 0 c ∧
                  Forall (best_matched tasks_dep students_2) c) pop).
Proof.
  apply dependency_and_skill_populations_fill.
  - exact tasks_dep_nonempty.
  - exact students_2_nonempty.
  - exact tasks_dep_closed.
  - exact tasks_dep_durations.
  - simpl. lia.
Defined.

(** * One generation: [evolve_population] *)

Lemma run_bind_done {A B} (m : Evolution.Run A) (k : A → Evolution.Run B)
    g a g1 :
  m g = Evolution.Done a g1 → (m ≫= k) g = k a g1.
Proof. intros H. unfold mbind, Evolution.run_bind. by rewrite H. Qed.

Lemma rand_done {A} (m : Rand A) g a g1 :
  m g = Ok (a, g1) → Evolution.rand m g = Evolution.Done a g1.
Proof. intros H. unfold Evolution.rand. by rewrite H. Qed.

Lemma max_loop_done {A} (key : A → Evolution.Run pyfloat) (l seen : list A) :
  (∀ x g, x ∈ l → ∃ k, key x g = Evolution.Done k g) →
  ∀ best g, best.1 ∈ seen →
    ∃ best', Evolution.max_loop key l best g = Evolution.Done best' g ∧
             best'.1 ∈ seen ++ l.
Proof.
  revert seen. induction l as [|x l IH]; intros seen Hkey best g Hin.
  { exists best. by rewrite app_nil_r. }
  cbn [Evolution.max_loop].
  destruct (Hkey x g) as [k Hk]; [by left|].
  rewrite (run_bind_done _ _ _ _ _ Hk).
  destruct (IH (seen ++ [x])) with
    (best := if fgt k best.2 then (x, k) else best) (g := g) as (best' & Hr & Hin').
  { intros y g0 Hy. apply Hkey. by right. }
  { destruct (fgt k best.2); simpl; apply elem_of_app; [right; by left|by left]. }
  exists best'. split; [done|]. by rewrite <-(assoc_L (++)) in Hin'.
Qed.

Lemma py_max_key_done {A} (key : A → Evolution.Run pyfloat) (l : list A) g :
  l ≠ [] → (∀ x g, x ∈ l → ∃ k, key x g = Evolution.Done k g) →
  ∃ b, Evolution.py_max_key key l g = Evolution.Done b g ∧ b ∈ l.
Proof.
  intros Hne Hkey. destruct l as [|x l]; [done|].
  unfold Evolution.py_max_key.
  destruct (Hkey x g) as [k Hk]; [by left|].
  rewrite (run_bind_done _ _ _ _ _ Hk).
  destruct (max_loop_done key l [x]) with (best := (x, k)) (g := g)
    as (best & Hr & Hin); [|by left|].
  { intros y g0 Hy. apply Hkey. by right. }
  rewrite (run_bind_done _ _ _ _ _ Hr). by exists best.1.
Qed.

Lemma same_tasks_individual tasks students (s l : solution) :
  same_tasks tasks students s l → individual tasks students s →
  individual tasks students l.
Proof.
  intros [Hcol Hk] [Hne Hknown]. split; [|by apply Hk].
  intros ->. destruct s; [done|discriminate].
Qed.

Section EvolutionFacts.
Variable tasks : gmap string task.
Variable students : gmap string student.
Variable math_exp : Qc → Qc.
Variable population_size : Z.
Variable crossover_rate : Qc.
Variable mutation_rate : Qc.
Variable use_simulated_annealing : bool.
Hypothesis well_formed : wf_problem tasks students.

Lemma individual_evaluated s :
  individual tasks students s → ∃ f, calculate_fitness tasks students s = Ok f ∧ not_nan f.
Proof.
  intros [_ Hk].
  destruct (calculate_fitness_wf tasks students s well_formed Hk) as (f & Hf & _).
  exists f. split; [done|]. by eapply calculate_fitness_not_nan.
Qed.

Lemma get_fitness_done s g :
  individual tasks students s → ∃ f, Evolution.get_fitness tasks students (Some s) g = Evolution.Done f g.
Proof.
  intros (f & Hf & _)%individual_evaluated. exists f.
  unfold Evolution.get_fitness, Evolution.calculate_fitness.
  apply rand_done. unfold det. by rewrite Hf.
Qed.

Lemma tournament_select_done (population : list solution) g :
  population ≠ [] → Forall (individual tasks students) population →
  ∃ w g',
    Evolution.rand (Selection.tournament_select
                      (Evolution.calculate_fitness tasks students) population) g
    = Evolution.Done w g' ∧ individual tasks students w.
Proof.
  intros Hne Hall.
  destruct (select_cases (calculate_fitness tasks students) population g Hne)
    as (w & g' & t & rest & fw & Hsel & Hperm & _ & Hin & _).
  { eapply Forall_impl; [exact Hall|]. apply individual_evaluated. }
  exists w, g'. split; [by apply rand_done|].
  rewrite Forall_forall in Hall. apply Hall. rewrite Hperm.
  apply elem_of_app. by left.
Qed.

Lemma crossover_done (parent1 parent2 : solution) g :
  individual tasks students parent1 → individual tasks students parent2 →
  ∃ c1 c2 g',
    Evolution.rand (Crossover.crossover parent1 parent2) g
    = Evolution.Done (c1, c2) g' ∧ individual tasks students c1 ∧ individual tasks students c2.
Proof.
  intros [Hne1 Hk1] [Hne2 Hk2].
  destruct (crossover_cases parent1 parent2 g)
    as [[_ Hc]|(point & g' & Hpoint & Hc)].
  { exists parent1, parent2, g. split; [by apply rand_done|]. by split. }
  eexists _, _, g'. split; [by apply rand_done|].
  split; split.
  - intros Hnil%(f_equal length). rewrite length_app, length_take in Hnil.
    simpl in Hnil. lia.
  - apply Forall_app. split; [by apply Forall_take|by apply Forall_drop].
  - intros Hnil%(f_equal length).
    rewrite length_app, length_drop in Hnil. simpl in Hnil. lia.
  - apply Forall_app. split; [by apply Forall_take|by apply Forall_drop].
Qed.

Lemma local_search_done s g :
  individual tasks students s →
  ∃ best bf g',
    Evolution.rand (LocalSearch.improve_solution tasks students
                      (Evolution.calculate_fitness tasks students) s 20 5) g
    = Evolution.Done (best, bf) g' ∧ individual tasks students best.
Proof.
  intros Hs.
  destruct (ls_improve_solution_total tasks students well_formed s 20 5 g)
    as (best & bf & g' & Hrun); [by destruct Hs|].
  exists best, bf, g'. split; [by apply rand_done|].
  apply ls_improve_solution_same_tasks in Hrun.
  by eapply same_tasks_individual.
Qed.

Lemma mutate_done s g :
  individual tasks students s →
  ∃ l g',
    Mutation.mutate tasks students s 0 100 1 g = Ok (Some l, g') ∧ individual tasks students l.
Proof.
  intros Hs. pose proof Hs as [Hne Hk].
  pose proof (mutate_logged_cases tasks students s 0 100 1 g Hne) as Hcases.
  destruct (Mutation.mutate tasks students s 0 100 1 g) as [[[l|] g']|e] eqn:Hrun.
  - exists l, g'. split; [done|].
    apply mutate_same_tasks in Hrun. by eapply same_tasks_individual.
  - unfold Mutation.mutate, mbind, rand_bind in Hrun.
    destruct (Mutation.mutate_logged _ _ _ _ _ _ g) as [[[[? ?]|] ?]|?];
      [done|done|done].
  - unfold Mutation.mutate, mbind, rand_bind in Hrun.
    destruct (Mutation.mutate_logged _ _ _ _ _ _ g) as [[[[? ?]|] ?]|?];
      [done|done|].
    destruct well_formed as [_ Hst]. by destruct Hcases as [?|[?|?]].
Qed.

Lemma maybe_mutate_done s g :
  individual tasks students s →
  ∃ l g',
    Evolution.maybe_mutate tasks students mutation_rate s g
    = Evolution.Done (Some l) g' ∧ individual tasks students l.
Proof.
  intros Hs. unfold Evolution.maybe_mutate.
  destruct (random_ok g) as (r & g1 & Hr & _).
  rewrite (run_bind_done _ _ _ _ _ (rand_done _ _ _ _ Hr)).
  destruct (Qc_ltb r mutation_rate).
  - destruct (mutate_done s g1 Hs) as (l & g' & Hm & Hl).
    exists l, g'. split; [by apply rand_done|done].
  - by exists s, g1.
Qed.

Lemma update_best_done best s g :
  individual tasks students s → best_inv tasks students best →
  ∃ best',
    Evolution.update_best tasks students best (Some s) g
    = Evolution.Done best' g ∧ best_inv tasks students best'.
Proof.
  intros Hs Hbest. unfold Evolution.update_best.
  destruct (get_fitness_done s g Hs) as [f Hf].
  rewrite (run_bind_done _ _ _ _ _ Hf).
  destruct (flt f best.2).
  - exists (Some s, f). split; [done|]. by intros s' [= <-].
  - by exists best.
Qed.

Lemma offspring_done (parent1 parent2 : solution) r g :
  individual tasks students parent1 → individual tasks students parent2 →
  ∃ o1 o2 g',
    (if Qc_ltb r crossover_rate then
       '(offspring1, offspring2) ←
         Evolution.rand (Crossover.crossover parent1 parent2);
       r ← Evolution.rand random.random;
       if Qc_ltb r (qc 4 10) then
         '(offspring1, _) ←
           Evolution.rand (LocalSearch.improve_solution tasks students
                             (Evolution.calculate_fitness tasks students)
                             offspring1 20 5);
         '(offspring2, _) ←
           Evolution.rand (LocalSearch.improve_solution tasks students
                             (Evolution.calculate_fitness tasks students)
                             offspring2 20 5);
         mret (offspring1, offspring2)
       else mret (offspring1, offspring2)
     else mret (parent1, parent2)) g
    = Evolution.Done (o1, o2) g' ∧ individual tasks students o1 ∧ individual tasks students o2.
Proof.
  intros H1 H2. destruct (Qc_ltb r crossover_rate); [|by exists parent1, parent2, g].
  destruct (crossover_done parent1 parent2 g H1 H2) as (c1 & c2 & g1 & Hc & Hc1 & Hc2).
  rewrite (run_bind_done _ _ _ _ _ Hc). cbn beta iota.
  destruct (random_ok g1) as (r' & g2 & Hr & _).
  rewrite (run_bind_done _ _ _ _ _ (rand_done _ _ _ _ Hr)).
  destruct (Qc_ltb r' (qc 4 10)); [|by exists c1, c2, g2].
  destruct (local_search_done c1 g2 Hc1) as (b1 & f1 & g3 & Hl1 & Hb1).
  rewrite (run_bind_done _ _ _ _ _ Hl1). cbn beta iota.
  destruct (local_search_done c2 g3 Hc2) as (b2 & f2 & g4 & Hl2 & Hb2).
  rewrite (run_bind_done _ _ _ _ _ Hl2). cbn beta iota.
  by exists b1, b2, g4.
Qed.

Lemma evolve_round_done (population : list solution) new_population best g :
  population ≠ [] → Forall (individual tasks students) population →
  Forall (offspring_ok tasks students) new_population → best_inv tasks students best →
  (Z.of_nat (length new_population) < population_size)%Z →
  ∃ new_population' best' g',
    Evolution.evolve_round tasks students population_size crossover_rate
      mutation_rate population (new_population, best) g
    = Evolution.Done (new_population', best') g' ∧
    Forall (offspring_ok tasks students) new_population' ∧ best_inv tasks students best' ∧
    (length new_population < length new_population')%nat ∧
    (Z.of_nat (length new_population') ≤ population_size)%Z.
Proof.
  intros Hne Hpop Hnew Hbest Hlt. unfold Evolution.evolve_round.
  destruct (tournament_select_done population g Hne Hpop) as (p1 & g1 & Hs1 & Hp1).
  rewrite (run_bind_done _ _ _ _ _ Hs1).
  destruct (tournament_select_done population g1 Hne Hpop) as (p2 & g2 & Hs2 & Hp2).
  rewrite (run_bind_done _ _ _ _ _ Hs2).
  destruct (random_ok g2) as (r & g3 & Hr & _).
  rewrite (run_bind_done _ _ _ _ _ (rand_done _ _ _ _ Hr)).
  destruct (offspring_done p1 p2 r g3 Hp1 Hp2) as (o1 & o2 & g4 & Ho & Ho1 & Ho2).
  rewrite (run_bind_done _ _ _ _ _ Ho). cbn beta iota.
  destruct (maybe_mutate_done o1 g4 Ho1) as (m1 & g5 & Hm1 & Hok1).
  rewrite (run_bind_done _ _ _ _ _ Hm1).
  destruct (maybe_mutate_done o2 g5 Ho2) as (m2 & g6 & Hm2 & Hok2).
  rewrite (run_bind_done _ _ _ _ _ Hm2). cbn zeta.
  destruct (update_best_done best m1 g6 Hok1 Hbest) as (best1 & Hu1 & Hb1).
  rewrite (run_bind_done _ _ _ _ _ Hu1).
  destruct (update_best_done best1 m2 g6 Hok2 Hb1) as (best2 & Hu2 & Hb2).
  rewrite (run_bind_done _ _ _ _ _ Hu2).
  eexists _, best2, g6. split; [done|].
  assert (Forall (offspring_ok tasks students) (new_population ++ [Some m1])) as Hnew1.
  { apply Forall_app. split; [done|]. apply Forall_singleton. by exists m1. }
  case_decide as Hsecond; rewrite ?length_app in *; simpl in *.
  - split; [|split; [done|lia]].
    apply Forall_app. split; [done|]. apply Forall_singleton. by exists m2.
  - split; [done|]. split; [done|]. lia.
Qed.

Lemma evolve_loop_done rounds (population : list solution) :
  population ≠ [] → Forall (individual tasks students) population →
  ∀ new_population best g,
    Forall (offspring_ok tasks students) new_population → best_inv tasks students best →
    (length new_population ≤ Z.to_nat population_size)%nat →
    (Z.to_nat population_size - length new_population ≤ rounds)%nat →
    ∃ new_population' best' g',
      Evolution.evolve_loop tasks students population_size crossover_rate
        mutation_rate rounds population (new_population, best) g
      = Evolution.Done (Some (new_population', best')) g' ∧
      Forall (offspring_ok tasks students) new_population' ∧ best_inv tasks students best' ∧
      length new_population' = Z.to_nat population_size.
Proof.
  intros Hne Hpop.
  induction rounds as [|rounds IH]; intros new_population best g Hnew Hbest Hle Hr;
    cbn [Evolution.evolve_loop]; simpl; case_decide as Hlt;
    try (exists new_population, best, g; split; [done|]; split; [done|];
         split; [done|]; lia); [lia|].
  destruct (evolve_round_done population new_population best g Hne Hpop Hnew
              Hbest Hlt) as (new1 & best1 & g1 & Hround & Hnew1 & Hbest1 & Hgrow & Hmax).
  rewrite (run_bind_done _ _ _ _ _ Hround).
  apply IH; [done|done|lia|lia].
Qed.

Lemma fitness_at_done (new_population : list (option solution)) i g :
  Forall (offspring_ok tasks students) new_population → (i < length new_population)%nat →
  ∃ f, Evolution.fitness_at tasks students new_population i g
       = Evolution.Done f g.
Proof.
  intros Hall Hi. unfold Evolution.fitness_at.
  destruct (lookup_lt_is_Some_2 _ _ Hi) as [o Ho].
  assert (Evolution.rand (det (getitem new_population i)) g = Evolution.Done o g)
    as Hget.
  { apply rand_done. unfold det, getitem. by rewrite Ho. }
  rewrite (run_bind_done _ _ _ _ _ Hget).
  rewrite Forall_forall in Hall.
  destruct (Hall o) as (s & -> & Hs); [by eapply list_elem_of_lookup_2|].
  by apply get_fitness_done.
Qed.

Lemma annealing_done s g :
  individual tasks students s →
  ∃ best bf g',
    Evolution.rand (SimulatedAnnealing.improve_solution tasks students
                      (Evolution.calculate_fitness tasks students) math_exp s 50
                      (Qc_of_Z 100) (qc 9 10) (qc 1 10)) g
    = Evolution.Done (best, bf) g' ∧ individual tasks students best.
Proof.
  intros Hs.
  destruct (sa_improve_solution_total tasks students math_exp s 50 (Qc_of_Z 100)
              (qc 9 10) (qc 1 10) g well_formed) as (best & bf & g' & Hrun);
    [by destruct Hs|done|done|].
  exists best, bf, g'. split; [by apply rand_done|].
  apply sa_improve_solution_from in Hrun as [_ Hsame].
  by eapply same_tasks_individual.
Qed.

Lemma offspring_ok_solutions (l : list (option solution)) :
  Forall (offspring_ok tasks students) l → ∃ pop, l = Some <$> pop ∧ Forall (individual tasks students) pop.
Proof.
  induction 1 as [|o l (s & -> & Hs) Hl (pop & -> & Hpop)].
  - by exists [].
  - exists (s :: pop). split; [done|by constructor].
Qed.

Lemma evolve_population_done rounds (population : list solution) generation g :
  population ≠ [] → Forall (individual tasks students) population →
  (Z.to_nat population_size ≤ rounds)%nat →
  ∃ new_population g',
    Evolution.evolve_population tasks students math_exp population_size
      crossover_rate mutation_rate use_simulated_annealing rounds population
      generation g
    = Evolution.Done (Some (Some <$> new_population)) g' ∧
    length new_population = Z.to_nat population_size ∧
    Forall (individual tasks students) new_population.
Proof.
  intros Hne Hpop Hrounds. unfold Evolution.evolve_population.
  destruct (evolve_loop_done rounds population Hne Hpop [] (None, PInf) g)
    as (new & [gb gbf] & g1 & Hloop & Hnew & Hbest & Hlen);
    [constructor|by intros s [=]|simpl; lia|simpl; lia|].
  rewrite (run_bind_done _ _ _ _ _ Hloop). cbn beta iota.
  assert (∃ pop, new = Some <$> pop ∧ length pop = Z.to_nat population_size ∧
                 Forall (individual tasks students) pop) as Hplain.
  { destruct (offspring_ok_solutions new Hnew) as (pop & -> & Hok).
    exists pop. rewrite length_fmap in Hlen. done. }
  destruct use_simulated_annealing; last first.
  { destruct Hplain as (pop & -> & ? & ?). by exists pop, g1. }
  destruct gb as [gb|]; last first.
  { destruct Hplain as (pop & -> & ? & ?). by exists pop, g1. }
  destruct (annealing_done gb g1) as (sa & saf & g2 & Hsa & Hsaok).
  { by apply Hbest. }
  rewrite (run_bind_done _ _ _ _ _ Hsa). cbn beta iota.
  destruct (flt saf gbf); last first.
  { destruct Hplain as (pop & -> & ? & ?). by exists pop, g2. }
  assert (new ≠ []) as Hnonempty.
  { intros ->. simpl in Hlen.
    destruct rounds; cbn [Evolution.evolve_loop] in Hloop; simpl in Hloop;
      (case_decide; [lia|]); done. }
  destruct (py_max_key_done (Evolution.fitness_at tasks students new)
              (seq 0 (length new)) g2) as (idx & Hidx & Hin).
  { destruct new; [done|]. simpl. done. }
  { intros i g0 Hi%elem_of_seq. apply fitness_at_done; [done|lia]. }
  rewrite (run_bind_done _ _ _ _ _ Hidx).
  apply elem_of_seq in Hin.
  assert (Evolution.rand (det (setitem new idx (Some sa))) g2
          = Evolution.Done (<[idx := Some sa]> new) g2) as Hset.
  { apply rand_done. unfold det, setitem. by rewrite decide_True by lia. }
  rewrite (run_bind_done _ _ _ _ _ Hset).
  destruct Hplain as (pop & -> & Hpoplen & Hpopok).
  exists (<[idx := sa]> pop), g2.
  split; [by rewrite list_fmap_insert|].
  split; [by rewrite length_insert|].
  by apply Forall_insert.
Qed.

End EvolutionFacts.



(** * A dependency-based chromosome is a valid schedule *)

Lemma respects_dependencies_first (tasks : gmap string task) (sol : solution) :
  respects_dependencies tasks (task_of <$> sol) → dependencies_first tasks sol.
Proof.
  intros Hresp i a tk dep Hi Htk Hdep.
  destruct (Hresp i (task_of a) tk dep) as (j & Hj & Hlook); [|done..|].
  { by rewrite list_lookup_fmap, Hi. }
  rewrite list_lookup_fmap in Hlook.
  destruct (sol !! j) as [b|] eqn:Hb; [|done].
  injection Hlook as Hlook. by exists j, b.
Qed.

Lemma tasks_in_keys (tasks : gmap string task) (sol : solution) :
  task_of <$> sol ≡ₚ (map_to_list tasks).*1 → tasks_in sol = dom tasks.
Proof.
  intros Hp. unfold tasks_in. apply set_eq. intros t.
  by rewrite elem_of_list_to_set, Hp, keys_elem_of.
Qed.

Lemma positive_durations (tasks : gmap string task) :
  map_Forall (λ _ tk, 0 < estimated_time tk) tasks →
  map_Forall (λ _ tk, 0 ≤ estimated_time tk) tasks.
Proof. intros H t tk Htk. by apply Qclt_le_weak, (H t tk). Qed.



(** * The hybrid population *)

Lemma intelligent_genes_length (tasks : gmap string task)
    (students : gmap string student) ts :
  ∀ st st',
    for_each (PopulationInitializer.intelligent_gene tasks students) ts st = Ok st' →
    length st'.1 = (length st.1 + length ts)%nat.
Proof.
  induction ts as [|t ts IH]; intros st st'.
  { intros [= <-]. simpl. lia. }
  cbn [for_each]. intros H.
  apply result_bind_ok in H as (st1 & Hstep & H).
  apply IH in H. rewrite H. simpl.
  destruct st as [c E]. unfold PopulationInitializer.intelligent_gene in Hstep.
  apply result_bind_ok in Hstep as (tk & _ & Hstep).
  apply result_bind_ok in Hstep as (d & _ & Hstep).
  apply result_bind_ok in Hstep as ([[b sc] e] & _ & Hstep).
  injection Hstep as <-. simpl. rewrite length_app. simpl. lia.
Qed.

Lemma intelligent_chromosome_length (tasks : gmap string task)
    (students : gmap string student) c :
  PopulationInitializer._create_intelligent_chromosome tasks students
  = Some (Ok c) →
  length c = size tasks.
Proof.
  unfold PopulationInitializer._create_intelligent_chromosome.
  destruct (task_order_cases tasks) as [[_ (order & Ho & Hp)]|[_ Ho]];
    rewrite Ho; [|done].
  intros [= H]. apply result_bind_ok in H as (st & Hloop & [= <-]).
  apply intelligent_genes_length in Hloop. rewrite Hloop. simpl.
  by rewrite Hp, length_fmap, length_map_to_list.
Qed.

(** X30: on a problem with a task and a student whose intelligent
    chromosome exists, [_create_hybrid_population] returns exactly
    [population_size] chromosomes within [population_size] rounds; each is
    either the intelligent chromosome or a random chromosome, which
    covers every task once, names known students and runs back to back
    from time 0. *)
Theorem hybrid_population_mixes_two_kinds (tasks : gmap string task)
    (students : gmap string student) (rounds : nat) (population_size : Z)
    (g : rng) (intelligent : chromosome) :
  tasks ≠ ∅ → students ≠ ∅ →
  PopulationInitializer._create_intelligent_chromosome tasks students
  = Some (Ok intelligent) →
  (Z.to_nat population_size ≤ rounds)%nat →
  ∃ create pop g',
    PopulationInitializer._create_hybrid_population tasks students rounds
      population_size = Some create ∧
    create g = Ok (Some pop, g') ∧
    length pop = Z.to_nat population_size ∧
    Forall (λ c, c = intelligent ∨
                 ∃ sol, c = PopulationInitializer.raw_genes sol ∧
                        task_of <$> sol ≡ₚ (map_to_list tasks).*1 ∧
                        known_ids tasks students sol ∧
                        back_to_back tasks 0 sol) pop.
Proof.
  intros Htasks Hstudents Hint Hrounds.
  assert (size tasks ≠ 0%nat) as Hsize by by intros ?%map_size_empty_iff.
  unfold PopulationInitializer._create_hybrid_population. rewrite Hint.
  eexists.
  match goal with
  | |- ∃ pop g', Some (PopulationInitializer.fill_population _ ?cr _ _) = _ ∧ _ =>
    destruct (fill_population_ends
                (λ c : chromosome, c = intelligent ∨
                   ∃ sol, c = PopulationInitializer.raw_genes sol ∧
                          task_of <$> sol ≡ₚ (map_to_list tasks).*1 ∧
                          known_ids tasks students sol ∧
                          back_to_back tasks 0 sol)
                cr population_size) with (rounds := rounds)
                (population := @nil chromosome) (g := g)
      as (pop & g' & Hres & HP & Hlen)
  end.
  - intros g0. destruct (random_ok g0) as (r & g1 & Hr & _).
    rewrite (rand_bind_step _ _ _ _ _ Hr).
    destruct (Qc_ltb r (qc 3 10)).
    + destruct (create_random_chromosome_cases tasks students g1)
        as [[_ (c & g2 & Hc & Hp & Hk & Hb)]|[[Habs _]|[Habs _]]]; [|done..].
      rewrite (rand_bind_step _ _ _ _ _ Hc).
      exists (PopulationInitializer.raw_genes c), g2. split; [done|]. split.
      * intros Hnil%(f_equal length).
        unfold PopulationInitializer.raw_genes in Hnil.
        rewrite length_fmap in Hnil. simpl in Hnil.
        apply Permutation_length in Hp.
        rewrite !length_fmap, length_map_to_list in Hp. lia.
      * right. by exists c.
    + exists intelligent, g1. split; [done|]. split; [|by left].
      intros ->. apply intelligent_chromosome_length in Hint. simpl in Hint. lia.
  - done.
  - simpl. lia.
  - exists pop, g'. split; [done|]. split; [done|]. split; [|done].
    rewrite Hlen. simpl. lia.
Qed.

Lemma hybrid_population_mixes_two_kinds_witness :
  ∃ intelligent create pop g',
    PopulationInitializer._create_intelligent_chromosome tasks_dep students_2
    = Some (Ok intelligent) ∧
    PopulationInitializer._create_hybrid_population tasks_dep students_2 3 2
    = Some create ∧
    create (rng_of []) = Ok (Some pop, g') ∧
    length pop = Z.to_nat 2 ∧
    Forall (λ c, c = intelligent ∨
                 ∃ sol, c = PopulationInitializer.raw_genes sol ∧
                        task_of <$> sol ≡ₚ (map_to_list tasks_dep).*1 ∧
                        known_ids tasks_dep students_2 sol ∧
                        back_to_back tasks_dep 0 sol) pop.
Proof.
  assert (∃ c, PopulationInitializer._create_intelligent_chromosome tasks_dep
                 students_2 = Some (Ok c)) as [c Hc].
  { eexists. vm_compute. reflexivity. }
  destruct (hybrid_population_mixes_two_kinds tasks_dep students_2 3 2
              (rng_of []) c) as (create & pop & g' & Hrun).
  - exact tasks_dep_nonempty.
  - exact students_2_nonempty.
  - exact Hc.
  - simpl. lia.
  - by exists c, create, pop, g'.
Defined.
